(** * Durable sorted sets over a simulated persistent arena

    A shallow embedding of the durable-set family (Sequential, Lock, MRLock,
    SOFT) and of the two memory managers they flush to, followed by the
    properties established about them.

    Conventions of the embedding.
    - C++ [int] and [long] values are integers of [Z]; signed overflow is
      undefined behaviour in C++ and the counters modelled here stay far
      from the limits, so no wrap-around is written for them.  The unsigned
      32-bit resource identifiers of the MRLock set wrap modulo [2^32].
    - Pointers are addresses in [Z]; [0] is [nullptr].  The low bit of a
      [next] field is the tombstone mark, as in the source.
    - [std::vector::at] throws [std::out_of_range]; dereferencing an
      address that holds no node is undefined behaviour.  Both are outcomes
      of the monad below, next to normal return.
    - Loops whose termination depends on the data take a fuel argument.
    - The item type [T] is instantiated at [int], as in the test driver. *)

From Stdlib Require Import ZArith Lia Bool.
From stdpp Require Import base option list sorting gmap.

Local Open Scope Z_scope.

(** ** Outcomes of C++ code: return, exception, undefined behaviour *)

Inductive exception : Type :=
| out_of_range
| length_error.

Inductive outcome (St A : Type) : Type :=
| Ok (a : A) (s : St)
| Throw (e : exception) (s : St)
| Fault
| Timeout.

Arguments Ok {St A} a s.
Arguments Throw {St A} e s.
Arguments Fault {St A}.
Arguments Timeout {St A}.

(** A computation over the mutable state [St]; an exception keeps the
    mutations made before it was thrown. *)
Definition M (St A : Type) : Type := St → outcome St A.

Definition ret {St A} (a : A) : M St A := λ s, Ok a s.

Definition bind {St A B} (m : M St A) (k : A → M St B) : M St B :=
  λ s, match m s with
       | Ok a s' => k a s'
       | Throw e s' => Throw e s'
       | Fault => Fault
       | Timeout => Timeout
       end.

Definition throw {St A} (e : exception) : M St A := λ s, Throw e s.
Definition fault {St A} : M St A := λ _, Fault.
Definition timeout {St A} : M St A := λ _, Timeout.
Definition get {St} : M St St := λ s, Ok s s.
Definition put {St} (s : St) : M St unit := λ _, Ok tt s.

Notation "'do' x <- m ; k" := (bind m (λ x, k))
  (at level 10, x pattern, m at level 100, k at level 200,
   format "'[v' 'do'  x  <-  m ; '/' k ']'").
Notation "m ;;; k" := (bind m (λ _, k))
  (at level 100, k at level 200, right associativity).

(** Run a computation on a component of the state. *)
Definition zoom {St S' A} (proj : St → S') (inj : S' → St → St)
    (m : M S' A) : M St A :=
  λ s, match m (proj s) with
       | Ok a t => Ok a (inj t s)
       | Throw e t => Throw e (inj t s)
       | Fault => Fault
       | Timeout => Timeout
       end.

(** [v.at(i)]: the index is converted to [size_t], so a negative [int]
    is out of range like any index past the end. *)
Definition vec_at {St A} (v : list A) (i : Z) : M St A :=
  if bool_decide (0 ≤ i) then
    match v !! Z.to_nat i with
    | Some x => ret x
    | None => throw out_of_range
    end
  else throw out_of_range.

(** [std::vector<A>(n)]: a negative [int] converts to a size beyond
    [max_size()]. *)
Definition vec_new {St A} (n : Z) (x : A) : M St (list A) :=
  if bool_decide (0 ≤ n) then ret (replicate (Z.to_nat n) x)
  else throw length_error.

(** ** The memory managers *)

(** What the two cell flavours share: [MemoryManager::MemCell] and
    [SOFTMemoryManager::MemCell] both offer [isValid], a blank value (the
    one [MemCell()] builds and the one [readResetMemory] copies over a
    scanned cell) and the payload. *)
Class CellFlavor (Cell : Type) : Type := {
  cell_isValid : Cell → bool;
  cell_blank : Cell;
  cell_key : Cell → Z;
  cell_item : Cell → Z
}.

(** The four vectors [readResetMemory] appends to; they belong to the
    caller. *)
Record Recovered : Type := {
  keys : list Z;
  items : list Z;
  durableAddressPrefixes : list Z;
  activeNodes : list Z
}.

Module Store.
Section Store.
Context {Cell : Type} `{CellFlavor Cell}.

Record MemoryManager : Type := {
  numMemPoolSections : Z;
  memPoolSectionSize : Z;
  memPool : list (list Cell);
  freeListIndex : list Z
}.

Definition set_memPool (p : list (list Cell)) (m : MemoryManager) :=
  {| numMemPoolSections := numMemPoolSections m;
     memPoolSectionSize := memPoolSectionSize m;
     memPool := p;
     freeListIndex := freeListIndex m |}.

Definition set_freeListIndex (f : list Z) (m : MemoryManager) :=
  {| numMemPoolSections := numMemPoolSections m;
     memPoolSectionSize := memPoolSectionSize m;
     memPool := memPool m;
     freeListIndex := f |}.

(** [MemoryManager(int numIDs, int numOps)] *)
Definition create (numIDs numOps : Z) : M unit MemoryManager :=
  do pool0 <- vec_new numIDs ([] : list Cell);
  do fli0 <- vec_new numIDs 0;
  do row <- (if bool_decide (0 < numIDs) then vec_new numOps cell_blank
             else ret []);
  ret {| numMemPoolSections := numIDs;
         memPoolSectionSize := numOps;
         memPool := (λ _, row) <$> pool0;
         freeListIndex := (λ _, numOps - 1) <$> fli0 |}.

(** [retrieveAddress] *)
Definition retrieveAddress (sectionID : Z) : M MemoryManager Z :=
  do m <- get;
  vec_at (freeListIndex m) sectionID.

(** [updateAddress]: [freeListIndex.at(sectionID) -= 1] *)
Definition updateAddress (sectionID : Z) : M MemoryManager unit :=
  do m <- get;
  do c <- vec_at (freeListIndex m) sectionID;
  put (set_freeListIndex (<[Z.to_nat sectionID := c - 1]> (freeListIndex m)) m).

(** [memPool.at(i).at(j).COPY(...)] *)
Definition write_cell (i j : Z) (c : Cell) : M MemoryManager unit :=
  do m <- get;
  do row <- vec_at (memPool m) i;
  do _ <- vec_at row j;
  put (set_memPool (<[Z.to_nat i := <[Z.to_nat j := c]> row]> (memPool m)) m).

(** [memPool.at(i).at(j)] *)
Definition read_cell (i j : Z) : M MemoryManager Cell :=
  do m <- get;
  do row <- vec_at (memPool m) i;
  vec_at row j.

(** [FLUSH]; the flavour supplies the cell built from the arguments. *)
Definition FLUSH (c : Cell) (durableAddressPrefix durableAddressPostfix : Z)
    : M MemoryManager unit :=
  write_cell durableAddressPrefix durableAddressPostfix c.

(** State of a scan: the manager and the caller's output vectors. *)
Definition on_mem {A} (m : M MemoryManager A)
    : M (MemoryManager * Recovered) A :=
  zoom fst (λ t s, (t, s.2)) m.

Definition on_out {A} (m : M Recovered A) : M (MemoryManager * Recovered) A :=
  zoom snd (λ t s, (s.1, t)) m.

Definition push_back_key (k : Z) : M Recovered unit :=
  λ r, Ok tt {| keys := keys r ++ [k]; items := items r;
                durableAddressPrefixes := durableAddressPrefixes r;
                activeNodes := activeNodes r |}.

Definition push_back_item (x : Z) : M Recovered unit :=
  λ r, Ok tt {| keys := keys r; items := items r ++ [x];
                durableAddressPrefixes := durableAddressPrefixes r;
                activeNodes := activeNodes r |}.

Definition push_back_prefix (i : Z) : M Recovered unit :=
  λ r, Ok tt {| keys := keys r; items := items r;
                durableAddressPrefixes := durableAddressPrefixes r ++ [i];
                activeNodes := activeNodes r |}.

(** [activeNodes->at(i) += 1] *)
Definition bump_activeNodes (i : Z) : M Recovered unit :=
  do r <- get;
  do a <- vec_at (activeNodes r) i;
  put {| keys := keys r; items := items r;
         durableAddressPrefixes := durableAddressPrefixes r;
         activeNodes := <[Z.to_nat i := a + 1]> (activeNodes r) |}.

(** [freeListIndex.at(i) = 0] *)
Definition reset_cursor (i : Z) : M MemoryManager unit :=
  do m <- get;
  do _ <- vec_at (freeListIndex m) i;
  put (set_freeListIndex (<[Z.to_nat i := 0]> (freeListIndex m)) m).

(** [freeListIndex.at(i) += 1] *)
Definition bump_cursor (i : Z) : M MemoryManager unit :=
  do m <- get;
  do c <- vec_at (freeListIndex m) i;
  put (set_freeListIndex (<[Z.to_nat i := c + 1]> (freeListIndex m)) m).

(** The body of the inner loop of [readResetMemory] at cell [(i, j)]:
    collect the cell if it is valid, blank it, advance the cursor.
    Returns the updated [count].  (For the item the source has
    [this>memPool.at(i).at(j).item], a misprint of [this->memPool...]:
    as printed it compares the manager's address with the item, which
    the language does not allow for an integer item.  The embedding
    pushes the item that [this->memPool...] reads; nothing proved below
    depends on the contents of [items].) *)
Definition scan_cell (i j count : Z) : M (MemoryManager * Recovered) Z :=
  do c <- on_mem (read_cell i j);
  do count' <-
    (if cell_isValid c then
       do c1 <- on_mem (read_cell i j);
       on_out (push_back_key (cell_key c1));;;
       do c2 <- on_mem (read_cell i j);
       on_out (push_back_item (cell_item c2));;;
       on_out (push_back_prefix i);;;
       on_out (bump_activeNodes i);;;
       ret (count + 1)
     else ret count);
  on_mem (write_cell i j cell_blank);;;
  on_mem (bump_cursor i);;;
  ret count'.

(** [for (int j = 0; j < memPoolSectionSize; i++) { ... }]: the loop
    tests [j] and, as written in both managers, increments [i].
    Returns the values of [i] and [count] on exit. *)
Fixpoint scan_section (fuel : nat) (i j count : Z)
    : M (MemoryManager * Recovered) (Z * Z) :=
  match fuel with
  | O => timeout
  | S fuel' =>
      do s <- get;
      if bool_decide (j < memPoolSectionSize s.1) then
        do count' <- scan_cell i j count;
        scan_section fuel' (i + 1) j count'
      else ret (i, count)
  end.

(** [for (int i = 0; i < numMemPoolSections; i++) { ... }] *)
Fixpoint scan_sections (fuel : nat) (i count : Z)
    : M (MemoryManager * Recovered) Z :=
  match fuel with
  | O => timeout
  | S fuel' =>
      do s <- get;
      if bool_decide (i < numMemPoolSections s.1) then
        on_mem (reset_cursor i);;;
        do ic <- scan_section fuel' i 0 count;
        scan_sections fuel' (ic.1 + 1) ic.2
      else ret count
  end.

(** [readResetMemory] *)
Definition readResetMemory (fuel : nat) : M (MemoryManager * Recovered) Z :=
  scan_sections fuel 0 0.

End Store.
End Store.

Arguments Store.MemoryManager Cell : clear implicits.

(** *** Bit-mask flavour: [MemoryManager<T>] of MemoryManager.h *)

Module MemoryManager.

Record MemCell : Type := {
  key : Z;
  item : Z;
  validBits : Z;
  insertValidFlag : bool;
  deleteValidFlag : bool;
  next : Z
}.

(** [MemCell(void)] *)
Definition MemCell_new : MemCell :=
  {| key := 0; item := 0; validBits := 0;
     insertValidFlag := false; deleteValidFlag := false; next := 0 |}.

(** [COPY]: every field is overwritten. *)
Definition COPY (key' item' validBits' : Z)
    (insertValidFlag' deleteValidFlag' : bool) (next' : Z)
    (_ : MemCell) : MemCell :=
  {| key := key'; item := item'; validBits := validBits';
     insertValidFlag := insertValidFlag';
     deleteValidFlag := deleteValidFlag'; next := next' |}.

(** [isValid]: the second test converts [next | 0] to [bool]. *)
Definition isValid (c : MemCell) : bool :=
  if negb (Z.land (validBits c) 3 =? 3) then false
  else if negb (Z.lor (next c) 0 =? 0) then false
  else true.

#[global] Instance flavor : CellFlavor MemCell := {|
  cell_isValid := isValid;
  cell_blank := COPY 0 0 0 false false 0 MemCell_new;
  cell_key := key;
  cell_item := item
|}.

Abbreviation t := (Store.MemoryManager MemCell).

(** [FLUSH] *)
Definition FLUSH (key' item' validBits' : Z)
    (insertValidFlag' deleteValidFlag' : bool) (next' : Z)
    (durableAddressPrefix durableAddressPostfix : Z) : M t unit :=
  do c <- Store.read_cell durableAddressPrefix durableAddressPostfix;
  Store.FLUSH
    (COPY key' item' validBits' insertValidFlag' deleteValidFlag' next' c)
    durableAddressPrefix durableAddressPostfix.

End MemoryManager.

(** *** SOFT flavour: [SOFTMemoryManager<T>] of SOFTMemoryManager.h *)

Module SOFTMemoryManager.

Record MemCell : Type := {
  key : Z;
  item : Z;
  validStart : bool;
  validEnd : bool;
  deleted : bool
}.

Definition MemCell_new : MemCell :=
  {| key := 0; item := 0; validStart := false; validEnd := false;
     deleted := false |}.

Definition COPY (key' item' : Z) (validStart' validEnd' deleted' : bool)
    (_ : MemCell) : MemCell :=
  {| key := key'; item := item'; validStart := validStart';
     validEnd := validEnd'; deleted := deleted' |}.

Definition isValid (c : MemCell) : bool :=
  if bool_decide (deleted c = true) then false
  else if bool_decide (validStart c = false) || bool_decide (validEnd c = false)
  then false
  else true.

#[global] Instance flavor : CellFlavor MemCell := {|
  cell_isValid := isValid;
  cell_blank := COPY 0 0 false false false MemCell_new;
  cell_key := key;
  cell_item := item
|}.

Abbreviation t := (Store.MemoryManager MemCell).

End SOFTMemoryManager.

(** ** The list sets: Sequential, Lock and MRLock

    The three classes share their node layout, their durable reflection
    and the text of most methods; where they differ the definitions below
    branch on the variant.  What is left out: the [std::mutex] of a Lock
    node and the [MRLock] object, whose acquire and release never block
    in a single-threaded run and touch neither the list nor the durable
    store; and the commented-out abort flag.

    [SequentialDurableSet] keeps one pool vector, one [allocIndices]
    counter and the constant section number [sequential = 0]; it is
    embedded as the one-section instance of the per-writer vectors of the
    other two classes. *)

Definition MIN_KEY : Z := -100000.
Definition MAX_KEY : Z := 100000.

Inductive variant : Type := Sequential | Lock | MRLock.

Module Node.

Record t : Type := {
  key : Z;
  item : Z;
  validBits : Z;
  next : Z;
  resourceID : Z;               (* MRLock only *)
  durableAddressPrefix : Z;
  durableAddressPostfix : Z
}.

(** [Node(void)], [Node(resourceID)] *)
Definition new (resourceID' : Z) : t :=
  {| key := 0; item := 0; validBits := 0; next := 0;
     resourceID := resourceID';
     durableAddressPrefix := -1; durableAddressPostfix := -1 |}.

Definition set_key (k : Z) (n : t) : t :=
  {| key := k; item := item n; validBits := validBits n; next := next n;
     resourceID := resourceID n;
     durableAddressPrefix := durableAddressPrefix n;
     durableAddressPostfix := durableAddressPostfix n |}.

Definition set_item (x : Z) (n : t) : t :=
  {| key := key n; item := x; validBits := validBits n; next := next n;
     resourceID := resourceID n;
     durableAddressPrefix := durableAddressPrefix n;
     durableAddressPostfix := durableAddressPostfix n |}.

Definition set_validBits (b : Z) (n : t) : t :=
  {| key := key n; item := item n; validBits := b; next := next n;
     resourceID := resourceID n;
     durableAddressPrefix := durableAddressPrefix n;
     durableAddressPostfix := durableAddressPostfix n |}.

Definition set_next (p : Z) (n : t) : t :=
  {| key := key n; item := item n; validBits := validBits n; next := p;
     resourceID := resourceID n;
     durableAddressPrefix := durableAddressPrefix n;
     durableAddressPostfix := durableAddressPostfix n |}.

Definition set_durableAddress (pre post : Z) (n : t) : t :=
  {| key := key n; item := item n; validBits := validBits n; next := next n;
     resourceID := resourceID n;
     durableAddressPrefix := pre; durableAddressPostfix := post |}.

(** [isNextMarked]: [((uintptr_t) next) & 1] *)
Definition isNextMarked (n : t) : bool := negb (Z.land (next n) 1 =? 0).

(** [getNextRef]: [((uintptr_t) next) & ~1] *)
Definition getNextRef (n : t) : Z := Z.land (next n) (Z.lnot 1).

(** [mark], called on the address of a node: [((uintptr_t) this) | 1] *)
Definition mark (this : Z) : Z := Z.lor this 1.

(** [flipV1], [makeValid] *)
Definition flipV1 (n : t) : t := set_validBits (Z.lor (validBits n) 1) n.
Definition makeValid (n : t) : t := set_validBits (Z.lor (validBits n) 2) n.

End Node.

Module DurableSet.

Record t : Type := {
  heap : gmap Z Node.t;       (* the nodes obtained from [new] *)
  brk : Z;                    (* the address the next [new] returns *)
  mem : MemoryManager.t;      (* the object behind [MemoryManager<T>* mem] *)
  head : Z;
  tail : Z;
  preAllocatedNodes : list (list Z);
  allocIndices : list Z;
  maxIndices : list Z;
  keysVolatileRecovered : list Z;
  keysDurableRecovered : list Z;
  numIDs : Z
}.

Definition set_heap (h : gmap Z Node.t) (b : Z) (s : t) : t :=
  {| heap := h; brk := b; mem := mem s; head := head s; tail := tail s;
     preAllocatedNodes := preAllocatedNodes s;
     allocIndices := allocIndices s; maxIndices := maxIndices s;
     keysVolatileRecovered := keysVolatileRecovered s;
     keysDurableRecovered := keysDurableRecovered s; numIDs := numIDs s |}.

Definition set_mem (m : MemoryManager.t) (s : t) : t :=
  {| heap := heap s; brk := brk s; mem := m; head := head s; tail := tail s;
     preAllocatedNodes := preAllocatedNodes s;
     allocIndices := allocIndices s; maxIndices := maxIndices s;
     keysVolatileRecovered := keysVolatileRecovered s;
     keysDurableRecovered := keysDurableRecovered s; numIDs := numIDs s |}.

Definition set_sentinels (h tl : Z) (s : t) : t :=
  {| heap := heap s; brk := brk s; mem := mem s; head := h; tail := tl;
     preAllocatedNodes := preAllocatedNodes s;
     allocIndices := allocIndices s; maxIndices := maxIndices s;
     keysVolatileRecovered := keysVolatileRecovered s;
     keysDurableRecovered := keysDurableRecovered s; numIDs := numIDs s |}.

Definition set_pools (p : list (list Z)) (a mx : list Z) (n : Z) (s : t) : t :=
  {| heap := heap s; brk := brk s; mem := mem s; head := head s;
     tail := tail s;
     preAllocatedNodes := p; allocIndices := a; maxIndices := mx;
     keysVolatileRecovered := keysVolatileRecovered s;
     keysDurableRecovered := keysDurableRecovered s; numIDs := n |}.

Definition set_allocIndices (a : list Z) (s : t) : t :=
  set_pools (preAllocatedNodes s) a (maxIndices s) (numIDs s) s.

(** *** The free store *)

(** Nodes are aligned, so the low bit of an address is free for the
    tombstone mark. *)
Definition node_align : Z := 64.

(** [new Node(...)]: a fresh aligned address. *)
Definition new_Node (n : Node.t) : M t Z :=
  λ s, Ok (brk s) (set_heap (<[brk s := n]> (heap s)) (brk s + node_align) s).

(** [delete p] *)
Definition delete_Node (a : Z) : M t unit :=
  λ s, match heap s !! a with
       | Some _ => Ok tt (set_heap (delete a (heap s)) (brk s) s)
       | None => Fault
       end.

(** Reading and writing through a pointer. *)
Definition load (a : Z) : M t Node.t :=
  λ s, match heap s !! a with
       | Some n => Ok n s
       | None => Fault
       end.

Definition store (a : Z) (n : Node.t) : M t unit :=
  λ s, match heap s !! a with
       | Some _ => Ok tt (set_heap (<[a := n]> (heap s)) (brk s) s)
       | None => Fault
       end.

Definition modify (a : Z) (f : Node.t → Node.t) : M t unit :=
  do n <- load a;
  store a (f n).

Definition on_mem {A} (m : M MemoryManager.t A) : M t A :=
  zoom mem set_mem m.

(** *** Private helpers of the three classes *)

(** The link a traversal follows: [find] and [contains] of the Lock set
    go through [getNextRef]; those of the Sequential and MRLock sets
    read [next] as it is. *)
Definition follow (v : variant) (n : Node.t) : Z :=
  match v with
  | Lock => Node.getNextRef n
  | Sequential | MRLock => Node.next n
  end.

(** [allocFromArea]: the pool node is fetched before the durable
    address is examined. *)
Definition allocFromArea (id : Z) : M t Z :=
  do s <- get;
  do pool <- vec_at (preAllocatedNodes s) id;
  do idx <- vec_at (allocIndices s) id;
  do newNode <- vec_at pool idx;
  do durAddr <- on_mem (Store.retrieveAddress id);
  if bool_decide (durAddr = -1) then ret 0
  else
    modify newNode (Node.set_durableAddress id durAddr);;;
    ret newNode.

(** [updateAlloc] *)
Definition updateAlloc (id : Z) : M t unit :=
  do s <- get;
  do idx <- vec_at (allocIndices s) id;
  put (set_allocIndices (<[Z.to_nat id := idx - 1]> (allocIndices s)) s);;;
  on_mem (Store.updateAddress id).

(** [Node::FLUSH_INSERT], [Node::FLUSH_DELETE] *)
Definition FLUSH_INSERT (this : Z) : M t unit :=
  do n <- load this;
  on_mem (MemoryManager.FLUSH (Node.key n) (Node.item n) (Node.validBits n)
            true false (Node.next n)
            (Node.durableAddressPrefix n) (Node.durableAddressPostfix n)).

Definition FLUSH_DELETE (this : Z) : M t unit :=
  do n <- load this;
  on_mem (MemoryManager.FLUSH (Node.key n) (Node.item n) (Node.validBits n)
            true true (Node.next n)
            (Node.durableAddressPrefix n) (Node.durableAddressPostfix n)).

(** The loop of [find]: stop at the first node whose key is not below
    [key]. *)
Fixpoint find_loop (v : variant) (fuel : nat) (key previous current : Z)
    : M t (Z * Z) :=
  match fuel with
  | O => timeout
  | S fuel' =>
      do c <- load current;
      if bool_decide (Node.key c >= key) then ret (previous, current)
      else find_loop v fuel' key current (follow v c)
  end.

(** [find]: returns [(previous, current)]. *)
Definition find (v : variant) (fuel : nat) (key : Z) : M t (Z * Z) :=
  do s <- get;
  do h <- load (head s);
  find_loop v fuel key (head s) (follow v h).

(** The statements of [insert] from [flipV1] to [FLUSH_INSERT], the
    same in the three classes. *)
Definition link (key item id previous current newNode : Z) : M t unit :=
  modify newNode Node.flipV1;;;
  modify newNode (Node.set_key key);;;
  modify newNode (Node.set_item item);;;
  modify newNode (Node.set_next current);;;
  modify previous (Node.set_next newNode);;;
  updateAlloc id;;;
  modify newNode Node.makeValid;;;
  FLUSH_INSERT newNode.

(** The statements of [remove] from reading the successor to
    [FLUSH_DELETE]. *)
Definition unlink (previous current : Z) : M t unit :=
  do c <- load current;
  modify current (Node.set_next (Node.mark (Node.next c)));;;
  modify previous (Node.set_next (Node.next c));;;
  FLUSH_DELETE current.

(** The validation of the Lock and MRLock sets:
    [previous->next != current || current->isNextMarked()] *)
Definition invalidated (previous current : Z) : M t bool :=
  do p <- load previous;
  do c <- load current;
  ret (negb (bool_decide (Node.next p = current)) || Node.isNextMarked c).

(** *** Public operations *)

(** [SequentialDurableSet::insert(key, item)] *)
Definition Sequential_insert (fuel : nat) (key item : Z) : M t bool :=
  do pc <- find Sequential fuel key;
  do c <- load pc.2;
  if bool_decide (Node.key c = key) then ret false
  else
    do newNode <- allocFromArea 0;
    if bool_decide (newNode = 0) then ret false
    else
      link key item 0 pc.1 pc.2 newNode;;;
      ret true.

(** [LockDurableSet::insert], [MRLockDurableSet::insert]: the
    [while (true)] loop retries after a failed validation. *)
Fixpoint locked_insert (v : variant) (tries fuel : nat) (key item id : Z)
    : M t bool :=
  match tries with
  | O => timeout
  | S tries' =>
      do pc <- find v fuel key;
      do bad <- invalidated pc.1 pc.2;
      if bad then locked_insert v tries' fuel key item id
      else
        do c <- load pc.2;
        if bool_decide (Node.key c = key) then ret false
        else
          do newNode <- allocFromArea id;
          if bool_decide (newNode = 0) then ret false
          else
            link key item id pc.1 pc.2 newNode;;;
            ret true
  end.

Definition insert (v : variant) (fuel : nat) (key item id : Z) : M t bool :=
  match v with
  | Sequential => Sequential_insert fuel key item
  | Lock | MRLock => locked_insert v fuel fuel key item id
  end.

(** [SequentialDurableSet::remove(key)] *)
Definition Sequential_remove (fuel : nat) (key : Z) : M t bool :=
  do pc <- find Sequential fuel key;
  do c <- load pc.2;
  if negb (bool_decide (Node.key c = key)) then ret false
  else
    unlink pc.1 pc.2;;;
    ret true.

(** [LockDurableSet::remove], [MRLockDurableSet::remove] *)
Fixpoint locked_remove (v : variant) (tries fuel : nat) (key : Z)
    : M t bool :=
  match tries with
  | O => timeout
  | S tries' =>
      do pc <- find v fuel key;
      do bad <- invalidated pc.1 pc.2;
      if bad then locked_remove v tries' fuel key
      else
        do c <- load pc.2;
        if negb (bool_decide (Node.key c = key)) then ret false
        else
          unlink pc.1 pc.2;;;
          ret true
  end.

Definition remove (v : variant) (fuel : nat) (key : Z) : M t bool :=
  match v with
  | Sequential => Sequential_remove fuel key
  | Lock | MRLock => locked_remove v fuel fuel key
  end.

(** [contains]: the walk, then the test.  The Sequential set tests the
    key only; the other two also test the mark. *)
Fixpoint contains_loop (v : variant) (fuel : nat) (key current : Z)
    : M t Z :=
  match fuel with
  | O => timeout
  | S fuel' =>
      do c <- load current;
      if bool_decide (Node.key c < key)
      then contains_loop v fuel' key (follow v c)
      else ret current
  end.

Definition contains (v : variant) (fuel : nat) (key : Z) : M t bool :=
  do s <- get;
  do h <- load (head s);
  do current <- contains_loop v fuel key (follow v h);
  do c <- load current;
  match v with
  | Sequential =>
      if negb (bool_decide (Node.key c = key)) then ret false else ret true
  | Lock | MRLock =>
      if negb (bool_decide (Node.key c = key)) || Node.isNextMarked c
      then ret false else ret true
  end.

(** [printSet], returning the keys it prints. *)
Fixpoint printSet_loop (fuel : nat) (current : Z) (out : list Z)
    : M t (list Z) :=
  match fuel with
  | O => timeout
  | S fuel' =>
      if bool_decide (current = 0) then ret out
      else
        do c <- load current;
        printSet_loop fuel' (Node.next c) (out ++ [Node.key c])
  end.

Definition printSet (fuel : nat) : M t (list Z) :=
  do s <- get;
  do h <- load (head s);
  printSet_loop fuel (Node.next h) [Node.key h].

(** *** Construction *)

(** The three locals of the MRLock constructor that hand out resource
    identifiers: [resourceNum], [pointBit] (both [unsigned int]) and
    [resourceID] ([std::uint32_t]). *)
Record ResourceCursor : Type := {
  resourceNum : Z;
  pointBit : Z;
  resourceID : Z
}.

(** [resourceNum = 3; pointBit = 3; resourceID = 4] *)
Definition first_resource : ResourceCursor :=
  {| resourceNum := 3; pointBit := 3; resourceID := 4 |}.

(** The statements after [new Node(resourceID)] in the inner loop. *)
Definition next_resource (r : ResourceCursor) : ResourceCursor :=
  let shifted := Z.shiftl (resourceID r) 1 mod 2 ^ 32 in
  let bit := (pointBit r + 1) mod 2 ^ 32 in
  {| resourceNum := (resourceNum r + 1) mod 2 ^ 32;
     pointBit := if bool_decide (bit > 31) then 1 else bit;
     resourceID := if bool_decide (bit > 31) then 1 else shifted |}.

(** The node built at one pass of the inner loop, and the cursor after
    it; only the MRLock set has resource identifiers. *)
Definition pool_node (v : variant) (r : ResourceCursor) : Node.t :=
  match v with
  | MRLock => Node.new (resourceID r)
  | Sequential | Lock => Node.new 0
  end.

Definition advance (v : variant) (r : ResourceCursor) : ResourceCursor :=
  match v with
  | MRLock => next_resource r
  | Sequential | Lock => r
  end.

(** [for (int j = 0; j < n; j++) preAllocatedNodes.at(i).at(j) = new Node(...)] *)
Fixpoint new_row (v : variant) (n : nat) (r : ResourceCursor)
    : M t (list Z * ResourceCursor) :=
  match n with
  | O => ret ([], r)
  | S n' =>
      do a <- new_Node (pool_node v r);
      do rest <- new_row v n' (advance v r);
      ret (a :: rest.1, rest.2)
  end.

(** The loop over the sections that allocates the pools; [budget i] is
    the number of nodes of section [i]. *)
Fixpoint new_pools (v : variant) (n : nat) (i : Z) (budget : Z → M t Z)
    (r : ResourceCursor) : M t (list (list Z) * ResourceCursor) :=
  match n with
  | O => ret ([], r)
  | S n' =>
      do w <- budget i;
      do _ <- vec_new w 0;
      do row <- new_row v (Z.to_nat w) r;
      do rest <- new_pools v n' (i + 1) budget row.2;
      ret (row.1 :: rest.1, rest.2)
  end.

(** The loop that sets [allocIndices.at(i)] and [maxIndices.at(i)]. *)
Fixpoint size_pools (n : nat) (i : Z) (budget : Z → M t Z)
    : M t (list Z * list Z) :=
  match n with
  | O => ret ([], [])
  | S n' =>
      do w <- budget i;
      do rest <- size_pools n' (i + 1) budget;
      ret ((w - 1) :: rest.1, w :: rest.2)
  end.

(** [head = new Node(..); tail = new Node(..); head->next = tail;
    head->key = MIN_KEY; tail->key = MAX_KEY] *)
Definition new_sentinels (v : variant) : M t unit :=
  do h <- new_Node (match v with MRLock => Node.new 1 | _ => Node.new 0 end);
  do tl <- new_Node (match v with MRLock => Node.new 2 | _ => Node.new 0 end);
  modify h (Node.set_next tl);;;
  modify h (Node.set_key MIN_KEY);;;
  modify tl (Node.set_key MAX_KEY);;;
  do s <- get;
  put (set_sentinels h tl s).

(** The state a constructor starts from: nothing allocated yet. *)
Definition nothing (m : MemoryManager.t) : t :=
  {| heap := ∅; brk := node_align; mem := m; head := 0; tail := 0;
     preAllocatedNodes := []; allocIndices := []; maxIndices := [];
     keysVolatileRecovered := []; keysDurableRecovered := []; numIDs := 0 |}.

(** [LockDurableSet(mem, abortFlag, numIDs, writeOpsVector)] and
    [MRLockDurableSet(...)]: sizes, pools, then the sentinels. *)
Definition construct (v : variant) (numIDs' : Z) (writeOpsVector : list Z)
    : M t unit :=
  do _ <- vec_new numIDs' 0;
  do sizes <- size_pools (Z.to_nat numIDs') 0 (vec_at writeOpsVector);
  do pools <- new_pools v (Z.to_nat numIDs') 0 (vec_at writeOpsVector)
                first_resource;
  do s <- get;
  put (set_pools pools.1 sizes.1 sizes.2 numIDs' s);;;
  new_sentinels v.

Definition create (v : variant) (m : MemoryManager.t) (numIDs' : Z)
    (writeOpsVector : list Z) : outcome t unit :=
  construct v numIDs' writeOpsVector (nothing m).

(** [SequentialDurableSet(mem, abortFlag, maxWriteOps)] *)
Definition Sequential_create (m : MemoryManager.t) (maxWriteOps : Z)
    : outcome t unit :=
  create Sequential m 1 [maxWriteOps].

(** *** Recovery of the Lock set *)

(** [FREE] *)
Fixpoint FREE_row (n : nat) (i j : Z) : M t unit :=
  match n with
  | O => ret tt
  | S n' =>
      do s <- get;
      do row <- vec_at (preAllocatedNodes s) i;
      do a <- vec_at row j;
      delete_Node a;;;
      FREE_row n' i (j + 1)
  end.

Fixpoint FREE_rows (n : nat) (i : Z) : M t unit :=
  match n with
  | O => ret tt
  | S n' =>
      do s <- get;
      do mx <- vec_at (maxIndices s) i;
      FREE_row (Z.to_nat mx) i 0;;;
      FREE_rows n' (i + 1)
  end.

Definition FREE : M t unit :=
  do s <- get;
  delete_Node (head s);;;
  delete_Node (tail s);;;
  FREE_rows (Z.to_nat (numIDs s)) 0.

End DurableSet.

(** ** The SOFT set: nodes, sentinels and their re-creation

    Of [SOFTDurableSet] the embedding covers what builds and walks the
    chain of sentinels: the node layout with its state bits, the
    constructor, [FREE], [printSet], and the part of [recover] that
    discards the volatile nodes and creates the new sentinels and pools
    (from [this->FREE()] up to the loop that re-inserts the live cells). *)

Module SOFT.

Module PNode.
Record t : Type := {
  key : Z;
  item : Z;
  validStart : bool;
  validEnd : bool;
  deleted : bool;
  durableAddressPrefix : Z;
  durableAddressPostfix : Z
}.

(** [PNode(void)] *)
Definition new : t :=
  {| key := 0; item := 0; validStart := false; validEnd := false;
     deleted := false;
     durableAddressPrefix := -1; durableAddressPostfix := -1 |}.
End PNode.

Module Node.
Record t : Type := {
  key : Z;
  item : Z;
  PNodePointer : Z;
  next : Z
}.

Definition set_key (k : Z) (n : t) : t :=
  {| key := k; item := item n; PNodePointer := PNodePointer n;
     next := next n |}.

Definition set_next (p : Z) (n : t) : t :=
  {| key := key n; item := item n; PNodePointer := PNodePointer n;
     next := p |}.
End Node.

Definition INTEND_TO_INSERT : Z := 0.
Definition INSERTED : Z := 1.
Definition INTEND_TO_DELETE : Z := 2.
Definition DELETED : Z := 3.

(** [createRef], [getRef], [getState] *)
Definition createRef (node state : Z) : Z := Z.lor node state.
Definition getRef (node : Z) : Z := Z.land node (Z.lnot 3).
Definition getState (node : Z) : Z := Z.land node 3.

Record t : Type := {
  heap : gmap Z Node.t;
  pheap : gmap Z PNode.t;
  brk : Z;
  mem : SOFTMemoryManager.t;
  head : Z;
  tailOne : Z;
  tailTwo : Z;
  preAllocatedNodes : list (list Z);
  allocIndices : list Z;
  maxIndices : list Z;
  numIDs : Z
}.

Definition set_heap (h : gmap Z Node.t) (ph : gmap Z PNode.t) (b : Z)
    (s : t) : t :=
  {| heap := h; pheap := ph; brk := b; mem := mem s; head := head s;
     tailOne := tailOne s; tailTwo := tailTwo s;
     preAllocatedNodes := preAllocatedNodes s;
     allocIndices := allocIndices s; maxIndices := maxIndices s;
     numIDs := numIDs s |}.

Definition set_sentinels (h t1 t2 : Z) (s : t) : t :=
  {| heap := heap s; pheap := pheap s; brk := brk s; mem := mem s;
     head := h; tailOne := t1; tailTwo := t2;
     preAllocatedNodes := preAllocatedNodes s;
     allocIndices := allocIndices s; maxIndices := maxIndices s;
     numIDs := numIDs s |}.

Definition set_pools (p : list (list Z)) (a mx : list Z) (n : Z) (s : t) : t :=
  {| heap := heap s; pheap := pheap s; brk := brk s; mem := mem s;
     head := head s; tailOne := tailOne s; tailTwo := tailTwo s;
     preAllocatedNodes := p; allocIndices := a; maxIndices := mx;
     numIDs := n |}.

Definition node_align : Z := 64.

(** [new Node()]: the node, and the [PNode] its constructor allocates. *)
Definition new_Node : M t Z :=
  λ s, let a := brk s in
       let pa := brk s + node_align in
       Ok a (set_heap
               (<[a := {| Node.key := 0; Node.item := 0;
                          Node.PNodePointer := pa; Node.next := 0 |}]> (heap s))
               (<[pa := PNode.new]> (pheap s))
               (brk s + 2 * node_align) s).

Definition delete_Node (a : Z) : M t unit :=
  λ s, match heap s !! a with
       | Some _ => Ok tt (set_heap (delete a (heap s)) (pheap s) (brk s) s)
       | None => Fault
       end.

Definition load (a : Z) : M t Node.t :=
  λ s, match heap s !! a with
       | Some n => Ok n s
       | None => Fault
       end.

Definition modify (a : Z) (f : Node.t → Node.t) : M t unit :=
  λ s, match heap s !! a with
       | Some n => Ok tt (set_heap (<[a := f n]> (heap s)) (pheap s) (brk s) s)
       | None => Fault
       end.

Fixpoint new_row (n : nat) : M t (list Z) :=
  match n with
  | O => ret []
  | S n' =>
      do a <- new_Node;
      do rest <- new_row n';
      ret (a :: rest)
  end.

Fixpoint new_pools (n : nat) (i : Z) (budget : Z → M t Z)
    : M t (list (list Z)) :=
  match n with
  | O => ret []
  | S n' =>
      do w <- budget i;
      do _ <- vec_new w 0;
      do row <- new_row (Z.to_nat w);
      do rest <- new_pools n' (i + 1) budget;
      ret (row :: rest)
  end.

Fixpoint size_pools (n : nat) (i : Z) (budget : Z → M t Z)
    : M t (list Z * list Z) :=
  match n with
  | O => ret ([], [])
  | S n' =>
      do w <- budget i;
      do rest <- size_pools n' (i + 1) budget;
      ret ((w - 1) :: rest.1, w :: rest.2)
  end.

(** The sentinel block; [lastKey] is the key given to [tailTwo]. *)
Definition new_sentinels (lastKey : Z) : M t unit :=
  do h <- new_Node;
  do t1 <- new_Node;
  do t2 <- new_Node;
  modify h (Node.set_key MIN_KEY);;;
  modify t1 (Node.set_key MAX_KEY);;;
  modify t2 (Node.set_key lastKey);;;
  modify t1 (Node.set_next (createRef t2 INSERTED));;;
  modify h (Node.set_next (createRef t1 INSERTED));;;
  do s <- get;
  put (set_sentinels h t1 t2 s).

Definition nothing (m : SOFTMemoryManager.t) : t :=
  {| heap := ∅; pheap := ∅; brk := node_align; mem := m;
     head := 0; tailOne := 0; tailTwo := 0;
     preAllocatedNodes := []; allocIndices := []; maxIndices := [];
     numIDs := 0 |}.

(** [SOFTDurableSet(mem, abortFlag, numIDs, writeOpsVector)]:
    [tailTwo->key = MAX_KEY+1]. *)
Definition construct (numIDs' : Z) (writeOpsVector : list Z) : M t unit :=
  do _ <- vec_new numIDs' 0;
  do sizes <- size_pools (Z.to_nat numIDs') 0 (vec_at writeOpsVector);
  do pools <- new_pools (Z.to_nat numIDs') 0 (vec_at writeOpsVector);
  do s <- get;
  put (set_pools pools sizes.1 sizes.2 numIDs' s);;;
  new_sentinels (MAX_KEY + 1).

Definition create (m : SOFTMemoryManager.t) (numIDs' : Z)
    (writeOpsVector : list Z) : outcome t unit :=
  construct numIDs' writeOpsVector (nothing m).

(** [FREE] *)
Fixpoint FREE_row (n : nat) (i j : Z) : M t unit :=
  match n with
  | O => ret tt
  | S n' =>
      do s <- get;
      do row <- vec_at (preAllocatedNodes s) i;
      do a <- vec_at row j;
      delete_Node a;;;
      FREE_row n' i (j + 1)
  end.

Fixpoint FREE_rows (n : nat) (i : Z) : M t unit :=
  match n with
  | O => ret tt
  | S n' =>
      do s <- get;
      do mx <- vec_at (maxIndices s) i;
      FREE_row (Z.to_nat mx) i 0;;;
      FREE_rows n' (i + 1)
  end.

Definition FREE : M t unit :=
  do s <- get;
  delete_Node (head s);;;
  delete_Node (tailOne s);;;
  delete_Node (tailTwo s);;;
  FREE_rows (Z.to_nat (numIDs s)) 0.

(** [recover], from [this->FREE()] to the end of the pool loop; the
    live-cell counts [activeNodes] come from the scan before it.
    [tailTwo->key = MAX_KEY].  The statements of [recover] before this
    block (the scan and the diagnostic snapshot of the volatile keys,
    which goes through [isNextMarked] and [getNextRef], members that the
    node of this class does not have) assign no key. *)
Definition rejuvenate (writeOpsVector activeNodes' : list Z) : M t unit :=
  do s <- get;
  FREE;;;
  new_sentinels MAX_KEY;;;
  let budget i :=
    do w <- vec_at writeOpsVector i;
    do a <- vec_at activeNodes' i;
    ret (w + a) in
  do sizes <- size_pools (Z.to_nat (numIDs s)) 0 budget;
  do pools <- new_pools (Z.to_nat (numIDs s)) 0 budget;
  do s2 <- get;
  put (set_pools pools sizes.1 sizes.2 (numIDs s) s2).

(** [printSet], returning the keys it prints. *)
Fixpoint printSet_loop (fuel : nat) (currentReference : Z) (out : list Z)
    : M t (list Z) :=
  match fuel with
  | O => timeout
  | S fuel' =>
      if bool_decide (currentReference = 0) then ret out
      else
        do c <- load currentReference;
        printSet_loop fuel' (getRef (Node.next c)) (out ++ [Node.key c])
  end.

Definition printSet (fuel : nat) : M t (list Z) :=
  do s <- get;
  do h <- load (head s);
  printSet_loop fuel (getRef (Node.next h)) [Node.key h].

End SOFT.

(** ** Vocabulary of the statements *)

(** [post o Q R]: the outcome [o] is a normal return satisfying [Q] or an
    exception satisfying [R]; undefined behaviour and exhausted fuel are
    excluded. *)
Definition post {St A} (o : outcome St A) (Q : A → St → Prop)
    (R : exception → St → Prop) : Prop :=
  match o with
  | Ok a s => Q a s
  | Throw e s => R e s
  | Fault | Timeout => False
  end.

(** The state an outcome leaves behind, if there is one. *)
Definition final {St A} (o : outcome St A) : option St :=
  match o with
  | Ok _ s | Throw _ s => Some s
  | Fault | Timeout => None
  end.

(** A memory manager as its constructor leaves it. *)
Definition fresh_store {Cell} `{CellFlavor Cell} (numIDs numOps : Z)
    : option (Store.MemoryManager Cell) :=
  match Store.create numIDs numOps tt with
  | Ok m _ => Some m
  | _ => None
  end.

(** The caller's empty output vectors, [activeNodes] zeroed. *)
Definition no_output (numIDs : Z) : Recovered :=
  {| keys := []; items := []; durableAddressPrefixes := [];
     activeNodes := replicate (Z.to_nat numIDs) 0 |}.



(** A two-by-two arena filled through [FLUSH]: a complete, unmarked
    record at [(0, 1)] and another at [(1, 0)]. *)
Definition example_arena : MemoryManager.t :=
  Eval vm_compute in
    match fresh_store 2 2 with
    | Some m =>
        match (MemoryManager.FLUSH 7 7 3 true false 0 0 1;;;
               MemoryManager.FLUSH 8 8 3 true false 0 1 0) m with
        | Ok _ m' => m'
        | _ => m
        end
    | None => {| Store.numMemPoolSections := 0; Store.memPoolSectionSize := 0;
                 Store.memPool := []; Store.freeListIndex := [] |}
    end.



(** The resource identifiers of the pre-allocated nodes, in allocation
    order. *)
Definition pool_resource_ids (s : DurableSet.t) : list (option Z) :=
  (λ a, Node.resourceID <$> DurableSet.heap s !! a)
    <$> concat (DurableSet.preAllocatedNodes s).

(** The reading of the note on resource identifiers: a pool node has one
    of the thirty bits left over by the identifiers [1] and [2] of the
    sentinels. *)
Definition avoids_sentinel_ids (s : DurableSet.t) : Prop :=
  Forall (λ o, ∃ b, 2 ≤ b ≤ 31 ∧ o = Some (2 ^ b)) (pool_resource_ids s).

(** The operations of a history. *)
Inductive op : Type :=
| DoInsert (key item id : Z)
| DoRemove (key : Z)
| DoContains (key : Z).

Definition exec (v : variant) (fuel : nat) (o : op) : M DurableSet.t bool :=
  match o with
  | DoInsert key item id => DurableSet.insert v fuel key item id
  | DoRemove key => DurableSet.remove v fuel key
  | DoContains key => DurableSet.contains v fuel key
  end.

(** A history runs its operations in order; an exception ends it. *)
Fixpoint run (v : variant) (fuel : nat) (ops : list op) : M DurableSet.t unit :=
  match ops with
  | [] => ret tt
  | o :: rest => exec v fuel o;;; run v fuel rest
  end.

(** The operations the list supports: a key above [MAX_KEY] would send
    the traversal past the tail, and removing [MAX_KEY] would remove the
    tail itself. *)
Definition admissible (o : op) : Prop :=
  match o with
  | DoInsert key _ _ | DoRemove key => key < MAX_KEY
  | DoContains key => key ≤ MAX_KEY
  end.

(** The operations that leave the tail in place: all but a removal of
    [MAX_KEY], with keys up to [MAX_KEY] (a larger key would send the
    traversal past the tail). *)
Definition keeps_tail (o : op) : Prop :=
  match o with
  | DoRemove key => key < MAX_KEY
  | DoInsert key _ _ | DoContains key => key ≤ MAX_KEY
  end.

(** Operations of the data model: the keys inserted and removed lie
    strictly between the sentinels. *)
Definition in_domain (o : op) : Prop :=
  match o with
  | DoInsert key _ _ | DoRemove key => MIN_KEY < key < MAX_KEY
  | DoContains key => key ≤ MAX_KEY
  end.

(** The resource cursor after [k] nodes have been handed an identifier. *)
Definition resource_after (k : Z) : DurableSet.ResourceCursor :=
  {| DurableSet.resourceNum := (3 + k) mod 2 ^ 32;
     DurableSet.pointBit := (k + 2) mod 31 + 1;
     DurableSet.resourceID := 2 ^ ((k + 2) mod 31) |}.

(** Every allocated address lies below the allocation pointer, which is
    positive and aligned. *)
Definition below_brk (s : DurableSet.t) : Prop :=
  (∀ a, is_Some (DurableSet.heap s !! a) → a < DurableSet.brk s)
  ∧ 0 < DurableSet.brk s
  ∧ DurableSet.brk s mod 64 = 0.

(** The addresses of [n] nodes allocated in a row from [base]. *)
Definition row_from (base : Z) (n : nat) : list Z :=
  (λ j : nat, base + 64 * Z.of_nat j) <$> seq 0 n.

(** A budget function that only reads. *)
Definition reads_only (budget : Z → M DurableSet.t Z) : Prop :=
  ∀ i s, post (budget i s) (λ _ s', s' = s) (λ _ s', s' = s).

(** The identifier given to a sentinel: [which] in the MRLock set, none
    in the other two. *)
Definition sentinel_id (v : variant) (which : Z) : Z :=
  match v with MRLock => which | Sequential | Lock => 0 end.

(** *** The shape of a well-formed list set *)

(** [lseg h p l q]: in the heap [h] the [next] links lead from [p] to [q]
    through the nodes with the addresses and keys listed in [l]. *)
Fixpoint lseg (h : gmap Z Node.t) (p : Z) (l : list (Z * Z)) (q : Z) : Prop :=
  match l with
  | [] => p = q
  | ak :: l' =>
      p = ak.1
      ∧ ∃ n, h !! ak.1 = Some n ∧ Node.key n = ak.2
             ∧ lseg h (Node.next n) l' q
  end.

(** The nodes a traversal for [k] passes, and the rest. *)
Fixpoint before (k : Z) (l : list (Z * Z)) : list (Z * Z) :=
  match l with
  | [] => []
  | ak :: l' => if bool_decide (ak.2 < k) then ak :: before k l' else []
  end.

Fixpoint from (k : Z) (l : list (Z * Z)) : list (Z * Z) :=
  match l with
  | [] => []
  | ak :: l' => if bool_decide (ak.2 < k) then from k l' else ak :: l'
  end.

(** The whole list: head, the nodes in between, tail. *)
Definition chain (s : DurableSet.t) (mid : list (Z * Z)) : list (Z * Z) :=
  (DurableSet.head s, MIN_KEY) :: mid ++ [(DurableSet.tail s, MAX_KEY)].

(** A pool node that no insert has taken yet. *)
Definition free_slot (s : DurableSet.t) (a : Z) : Prop :=
  ∃ (id j : nat) (pool : list Z) (idx : Z),
    DurableSet.preAllocatedNodes s !! id = Some pool
    ∧ DurableSet.allocIndices s !! id = Some idx
    ∧ Z.of_nat j ≤ idx
    ∧ pool !! j = Some a.

Definition aligned (a : Z) : Prop := a ≠ 0 ∧ Z.even a = true.

(** The invariant of the Sequential, Lock and MRLock sets between
    operations; [mid] lists the elements, [N] bounds the number of nodes. *)
Record Inv (N : nat) (s : DurableSet.t) (mid : list (Z * Z)) : Prop := {
  inv_chain : lseg (DurableSet.heap s) (DurableSet.head s) (chain s mid) 0;
  inv_sorted :
    StronglySorted Z.lt (snd <$> (mid ++ [(DurableSet.tail s, MAX_KEY)]));
  inv_nodup : NoDup (fst <$> chain s mid);
  inv_aligned : Forall aligned (fst <$> chain s mid);
  inv_pools : NoDup (concat (DurableSet.preAllocatedNodes s));
  inv_free : ∀ a, free_slot s a →
               is_Some (DurableSet.heap s !! a) ∧ aligned a
               ∧ a ∉ fst <$> chain s mid;
  inv_size : (size (DurableSet.heap s) ≤ N)%nat
}.

(** What [printSet] shows of a sorted set. *)
Definition prints_ascending (fuel : nat) (s : DurableSet.t) : Prop :=
  ∃ ks, DurableSet.printSet fuel s = Ok ks s
        ∧ StronglySorted Z.lt ks
        ∧ head ks = Some MIN_KEY
        ∧ last ks = Some MAX_KEY.

(** The pool node [a] that the next insert of writer [id] takes: the one
    at index [idx = allocIndices.at(id)]. *)
Definition top_slot (s : DurableSet.t) (id idx a : Z) : Prop :=
  0 ≤ id ∧ 0 ≤ idx
  ∧ DurableSet.allocIndices s !! Z.to_nat id = Some idx
  ∧ ∃ pool, DurableSet.preAllocatedNodes s !! Z.to_nat id = Some pool
            ∧ pool !! Z.to_nat idx = Some a.

(** The list-side fields that only construction and recovery assign. *)
Definition same_frame (s s' : DurableSet.t) : Prop :=
  DurableSet.head s' = DurableSet.head s
  ∧ DurableSet.tail s' = DurableSet.tail s
  ∧ DurableSet.preAllocatedNodes s' = DurableSet.preAllocatedNodes s
  ∧ size (DurableSet.heap s') = size (DurableSet.heap s).

(** [s'] is [s] with node [a], holding [k], linked in after [prev] and
    before [cur], and the pool index of writer [id] lowered. *)
Definition linked (s s' : DurableSet.t) (k cur prev a id idx : Z)
    (pn : Node.t) : Prop :=
  same_frame s s'
  ∧ DurableSet.allocIndices s'
    = <[Z.to_nat id := idx - 1]> (DurableSet.allocIndices s)
  ∧ DurableSet.heap s' !! prev = Some (Node.set_next a pn)
  ∧ (∃ an, DurableSet.heap s' !! a = Some an
           ∧ Node.key an = k ∧ Node.next an = cur)
  ∧ ∀ y, y ≠ a → y ≠ prev →
      DurableSet.heap s' !! y = DurableSet.heap s !! y.

(** [s'] is [s] with node [cur] unlinked from behind [prev]. *)
Definition unlinked (s s' : DurableSet.t) (prev cur : Z) (pn cn : Node.t)
    : Prop :=
  same_frame s s'
  ∧ DurableSet.allocIndices s' = DurableSet.allocIndices s
  ∧ DurableSet.heap s' !! prev = Some (Node.set_next (Node.next cn) pn)
  ∧ ∀ y, y ≠ cur → y ≠ prev →
      DurableSet.heap s' !! y = DurableSet.heap s !! y.

(** Two stores have the same shape when they agree on the number of
    sections, on the section size and on the length of the arena. *)
Definition same_shape {Cell : Type} (m m' : Store.MemoryManager Cell) : Prop :=
  Store.numMemPoolSections m' = Store.numMemPoolSections m
  ∧ Store.memPoolSectionSize m' = Store.memPoolSectionSize m
  ∧ length (Store.memPool m') = length (Store.memPool m).

(** ** Further operations and vocabulary *)

(** The states a set can be in between operations: those that a history
    of supported operations leaves a freshly constructed set in. *)
Definition reachable (v : variant) (s : DurableSet.t) : Prop :=
  ∃ (m : MemoryManager.t) (numIDs : Z) (writeOpsVector : list Z)
    (s0 : DurableSet.t) (ops : list op) (fuel : nat),
    DurableSet.create v m numIDs writeOpsVector = Ok tt s0
    ∧ Forall admissible ops
    ∧ (size (DurableSet.heap s0) ≤ fuel)%nat
    ∧ final (run v fuel ops s0) = Some s.

(** The states a set is in between operations when no operation so far
    has thrown: those that a history of supported operations, each of
    which has returned, leaves a freshly constructed set in.  In the Lock
    and MRLock sets every lock taken by such a history has been released
    again. *)
Definition settled (v : variant) (s : DurableSet.t) : Prop :=
  ∃ (m : MemoryManager.t) (numIDs : Z) (writeOpsVector : list Z)
    (s0 : DurableSet.t) (ops : list op) (fuel : nat),
    DurableSet.create v m numIDs writeOpsVector = Ok tt s0
    ∧ Forall admissible ops
    ∧ (size (DurableSet.heap s0) ≤ fuel)%nat
    ∧ run v fuel ops s0 = Ok tt s.

(** [printSetSize], returning the number it prints: the nodes after the
    head are counted, and one is subtracted for the tail. *)
Fixpoint printSetSize_loop (fuel : nat) (current : Z) (count : Z)
    : M DurableSet.t Z :=
  match fuel with
  | O => timeout
  | S fuel' =>
      if bool_decide (current = 0) then ret count
      else
        do c <- DurableSet.load current;
        printSetSize_loop fuel' (Node.next c) (count + 1)
  end.

Definition printSetSize (fuel : nat) : M DurableSet.t Z :=
  do s <- get;
  do h <- DurableSet.load (DurableSet.head s);
  do count <- printSetSize_loop fuel (Node.next h) 0;
  ret (count - 1).

(** A running example: a Lock set of two writers with budgets [2] and
    [1] over a store of one cell per writer, fresh and after writer [0]
    has inserted key [3] and writer [1] key [1]. *)
Definition example_store : MemoryManager.t :=
  Eval vm_compute in
    match fresh_store 2 1 with
    | Some m => m
    | None => {| Store.numMemPoolSections := 0; Store.memPoolSectionSize := 0;
                 Store.memPool := []; Store.freeListIndex := [] |}
    end.

Definition example_fresh : DurableSet.t :=
  Eval vm_compute in
    match DurableSet.create Lock example_store 2 [2; 1] with
    | Ok _ s => s
    | _ => DurableSet.nothing example_store
    end.

Definition example_history : list op := [DoInsert 3 30 0; DoInsert 1 10 1].

Definition example_set : DurableSet.t :=
  Eval vm_compute in
    match final (run Lock 5 example_history example_fresh) with
    | Some s => s
    | None => example_fresh
    end.

(** The section of the pools and of the store that an insert draws
    from: the writer's own in the Lock and MRLock sets, the constant
    [sequential = 0] in the Sequential set, whose [insert] takes no
    writer. *)
Definition section_of (v : variant) (id : Z) : Z :=
  match v with
  | Sequential => 0
  | Lock | MRLock => id
  end.

(** What [insert], [remove] and [contains] leave alone: the sentinels,
    the pools and their sizes, the set of allocated nodes, the recorded
    recovery keys and the shape of the store. *)
Definition keeps_nodes (s s' : DurableSet.t) : Prop :=
  DurableSet.head s' = DurableSet.head s
  ∧ DurableSet.tail s' = DurableSet.tail s
  ∧ DurableSet.preAllocatedNodes s' = DurableSet.preAllocatedNodes s
  ∧ DurableSet.maxIndices s' = DurableSet.maxIndices s
  ∧ DurableSet.numIDs s' = DurableSet.numIDs s
  ∧ DurableSet.keysVolatileRecovered s' = DurableSet.keysVolatileRecovered s
  ∧ DurableSet.keysDurableRecovered s' = DurableSet.keysDurableRecovered s
  ∧ DurableSet.brk s' = DurableSet.brk s
  ∧ dom (DurableSet.heap s') = dom (DurableSet.heap s)
  ∧ same_shape (DurableSet.mem s) (DurableSet.mem s').

(** A computation all of whose final states, after a return or an
    exception, are related to the initial one by [P]. *)
Definition always {St A} (P : St → St → Prop) (m : M St A) : Prop :=
  ∀ s s', final (m s) = Some s' → P s s'.

(** Budgets are only ever used up: position by position, the pool
    indices and the store cursors of [s'] are at most those of [s]. *)
Definition not_raised (l l' : list Z) : Prop := Forall2 Z.le l' l.

Definition budget_not_raised (s s' : DurableSet.t) : Prop :=
  not_raised (DurableSet.allocIndices s) (DurableSet.allocIndices s')
  ∧ not_raised (Store.freeListIndex (DurableSet.mem s))
               (Store.freeListIndex (DurableSet.mem s')).

(** The two together, for the store and for the set. *)
Definition store_stable (m m' : MemoryManager.t) : Prop :=
  same_shape m m'
  ∧ not_raised (Store.freeListIndex m) (Store.freeListIndex m').

Definition stable (s s' : DurableSet.t) : Prop :=
  keeps_nodes s s' ∧ budget_not_raised s s'.

(** ** The link-free set

    [LinkFreeDurableSet] in a single-threaded run: a [std::atomic] field
    is a field, [load] and [store] read and write it, and
    [compare_exchange_strong] writes the new value exactly when the
    field holds the expected one.  The fences have no effect on one
    thread.  The store is the bit-mask [MemoryManager] of the locked
    sets. *)

Module LinkFree.

Module Node.
Record t : Type := {
  key : Z;
  item : Z;
  validBits : Z;
  insertValidFlag : bool;
  deleteValidFlag : bool;
  next : Z;
  durableAddressPrefix : Z;
  durableAddressPostfix : Z
}.

(** [Node(void)] *)
Definition new : t :=
  {| key := 0; item := 0; validBits := 0;
     insertValidFlag := false; deleteValidFlag := false; next := 0;
     durableAddressPrefix := -1; durableAddressPostfix := -1 |}.

Definition set_key (k : Z) (n : t) : t :=
  {| key := k; item := item n; validBits := validBits n;
     insertValidFlag := insertValidFlag n;
     deleteValidFlag := deleteValidFlag n; next := next n;
     durableAddressPrefix := durableAddressPrefix n;
     durableAddressPostfix := durableAddressPostfix n |}.

Definition set_item (x : Z) (n : t) : t :=
  {| key := key n; item := x; validBits := validBits n;
     insertValidFlag := insertValidFlag n;
     deleteValidFlag := deleteValidFlag n; next := next n;
     durableAddressPrefix := durableAddressPrefix n;
     durableAddressPostfix := durableAddressPostfix n |}.

Definition set_validBits (b : Z) (n : t) : t :=
  {| key := key n; item := item n; validBits := b;
     insertValidFlag := insertValidFlag n;
     deleteValidFlag := deleteValidFlag n; next := next n;
     durableAddressPrefix := durableAddressPrefix n;
     durableAddressPostfix := durableAddressPostfix n |}.

Definition set_insertValidFlag (b : bool) (n : t) : t :=
  {| key := key n; item := item n; validBits := validBits n;
     insertValidFlag := b;
     deleteValidFlag := deleteValidFlag n; next := next n;
     durableAddressPrefix := durableAddressPrefix n;
     durableAddressPostfix := durableAddressPostfix n |}.

Definition set_deleteValidFlag (b : bool) (n : t) : t :=
  {| key := key n; item := item n; validBits := validBits n;
     insertValidFlag := insertValidFlag n;
     deleteValidFlag := b; next := next n;
     durableAddressPrefix := durableAddressPrefix n;
     durableAddressPostfix := durableAddressPostfix n |}.

Definition set_next (p : Z) (n : t) : t :=
  {| key := key n; item := item n; validBits := validBits n;
     insertValidFlag := insertValidFlag n;
     deleteValidFlag := deleteValidFlag n; next := p;
     durableAddressPrefix := durableAddressPrefix n;
     durableAddressPostfix := durableAddressPostfix n |}.

Definition set_durableAddress (pre post : Z) (n : t) : t :=
  {| key := key n; item := item n; validBits := validBits n;
     insertValidFlag := insertValidFlag n;
     deleteValidFlag := deleteValidFlag n; next := next n;
     durableAddressPrefix := pre; durableAddressPostfix := post |}.

(** [isNextMarked], [getNextRef], [mark], [flipV1], [makeValid] *)
Definition isNextMarked (n : t) : bool := negb (Z.land (next n) 1 =? 0).
Definition getNextRef (n : t) : Z := Z.land (next n) (Z.lnot 1).
Definition mark (this : Z) : Z := Z.lor this 1.
Definition flipV1 (n : t) : t := set_validBits (Z.lor (validBits n) 1) n.
Definition makeValid (n : t) : t := set_validBits (Z.lor (validBits n) 2) n.
End Node.

Record t : Type := {
  heap : gmap Z Node.t;
  brk : Z;
  mem : MemoryManager.t;
  head : Z;
  tail : Z;
  preAllocatedNodes : list (list Z);
  allocIndices : list Z;
  maxIndices : list Z;
  keysVolatileRecovered : list Z;
  keysDurableRecovered : list Z;
  numIDs : Z
}.

Definition set_heap (h : gmap Z Node.t) (b : Z) (s : t) : t :=
  {| heap := h; brk := b; mem := mem s; head := head s; tail := tail s;
     preAllocatedNodes := preAllocatedNodes s;
     allocIndices := allocIndices s; maxIndices := maxIndices s;
     keysVolatileRecovered := keysVolatileRecovered s;
     keysDurableRecovered := keysDurableRecovered s; numIDs := numIDs s |}.

Definition set_mem (m : MemoryManager.t) (s : t) : t :=
  {| heap := heap s; brk := brk s; mem := m; head := head s; tail := tail s;
     preAllocatedNodes := preAllocatedNodes s;
     allocIndices := allocIndices s; maxIndices := maxIndices s;
     keysVolatileRecovered := keysVolatileRecovered s;
     keysDurableRecovered := keysDurableRecovered s; numIDs := numIDs s |}.

Definition set_sentinels (h tl : Z) (s : t) : t :=
  {| heap := heap s; brk := brk s; mem := mem s; head := h; tail := tl;
     preAllocatedNodes := preAllocatedNodes s;
     allocIndices := allocIndices s; maxIndices := maxIndices s;
     keysVolatileRecovered := keysVolatileRecovered s;
     keysDurableRecovered := keysDurableRecovered s; numIDs := numIDs s |}.

Definition set_pools (p : list (list Z)) (a mx : list Z) (n : Z) (s : t) : t :=
  {| heap := heap s; brk := brk s; mem := mem s; head := head s;
     tail := tail s;
     preAllocatedNodes := p; allocIndices := a; maxIndices := mx;
     keysVolatileRecovered := keysVolatileRecovered s;
     keysDurableRecovered := keysDurableRecovered s; numIDs := n |}.

Definition set_allocIndices (a : list Z) (s : t) : t :=
  set_pools (preAllocatedNodes s) a (maxIndices s) (numIDs s) s.

(** The free store, as for the locked sets. *)
Definition new_Node (n : Node.t) : M t Z :=
  λ s, Ok (brk s)
          (set_heap (<[brk s := n]> (heap s)) (brk s + DurableSet.node_align) s).

Definition load (a : Z) : M t Node.t :=
  λ s, match heap s !! a with
       | Some n => Ok n s
       | None => Fault
       end.

Definition modify (a : Z) (f : Node.t → Node.t) : M t unit :=
  λ s, match heap s !! a with
       | Some n => Ok tt (set_heap (<[a := f n]> (heap s)) (brk s) s)
       | None => Fault
       end.

Definition on_mem {A} (m : M MemoryManager.t A) : M t A :=
  zoom mem set_mem m.

(** [p->next.compare_exchange_strong(expected, desired)] *)
Definition CAS_next (p expected desired : Z) : M t bool :=
  do n <- load p;
  if bool_decide (Node.next n = expected)
  then modify p (Node.set_next desired);;; ret true
  else ret false.

(** [Node::FLUSH_INSERT]: the record is written once; the flag that
    says so is set after the write, so the record carries it unset. *)
Definition FLUSH_INSERT (this : Z) : M t unit :=
  do n <- load this;
  if bool_decide (Node.insertValidFlag n = false) then
    on_mem (MemoryManager.FLUSH (Node.key n) (Node.item n) (Node.validBits n)
              (Node.insertValidFlag n) (Node.deleteValidFlag n) (Node.next n)
              (Node.durableAddressPrefix n) (Node.durableAddressPostfix n));;;
    modify this (Node.set_insertValidFlag true)
  else ret tt.

(** [Node::FLUSH_DELETE] *)
Definition FLUSH_DELETE (this : Z) : M t unit :=
  do n <- load this;
  if bool_decide (Node.deleteValidFlag n = false) then
    on_mem (MemoryManager.FLUSH (Node.key n) (Node.item n) (Node.validBits n)
              (Node.insertValidFlag n) (Node.deleteValidFlag n) (Node.next n)
              (Node.durableAddressPrefix n) (Node.durableAddressPostfix n));;;
    modify this (Node.set_deleteValidFlag true)
  else ret tt.

(** [allocFromArea], [updateAlloc]: as in the locked sets. *)
Definition allocFromArea (id : Z) : M t Z :=
  do s <- get;
  do pool <- vec_at (preAllocatedNodes s) id;
  do idx <- vec_at (allocIndices s) id;
  do newNode <- vec_at pool idx;
  do durAddr <- on_mem (Store.retrieveAddress id);
  if bool_decide (durAddr = -1) then ret 0
  else
    modify newNode (Node.set_durableAddress id durAddr);;;
    ret newNode.

Definition updateAlloc (id : Z) : M t unit :=
  do s <- get;
  do idx <- vec_at (allocIndices s) id;
  put (set_allocIndices (<[Z.to_nat id := idx - 1]> (allocIndices s)) s);;;
  on_mem (Store.updateAddress id).

(** [trim(previous, current)] *)
Definition trim (previous current : Z) : M t bool :=
  FLUSH_DELETE current;;;
  do c <- load current;
  CAS_next previous current (Node.getNextRef c).

(** The loop of [find]: a node whose link is marked is trimmed and
    passed; the walk stops at the first unmarked node whose key is not
    below [key]. *)
Fixpoint find_loop (fuel : nat) (key previous current : Z) : M t (Z * Z) :=
  match fuel with
  | O => timeout
  | S fuel' =>
      do c <- load current;
      if negb (Node.isNextMarked c) then
        if bool_decide (Node.key c >= key) then ret (previous, current)
        else
          do c' <- load current;
          find_loop fuel' key current (Node.getNextRef c')
      else
        trim previous current;;;
        do c' <- load current;
        find_loop fuel' key previous (Node.getNextRef c')
  end.

(** [find]: returns [(previous, current)]. *)
Definition find (fuel : nat) (key : Z) : M t (Z * Z) :=
  do s <- get;
  do h <- load (head s);
  find_loop fuel key (head s) (Node.next h).

(** [insert]: the [while (true)] loop runs again when the
    compare-and-swap on [previous->next] fails. *)
Fixpoint insert_loop (tries fuel : nat) (key item id : Z) : M t bool :=
  match tries with
  | O => timeout
  | S tries' =>
      do pc <- find fuel key;
      do c <- load pc.2;
      if bool_decide (Node.key c = key) then
        modify pc.2 Node.makeValid;;;
        FLUSH_INSERT pc.2;;;
        ret false
      else
        do newNode <- allocFromArea id;
        if bool_decide (newNode = 0) then ret false
        else
          modify newNode Node.flipV1;;;
          modify newNode (Node.set_key key);;;
          modify newNode (Node.set_item item);;;
          modify newNode (Node.set_next pc.2);;;
          do swapped <- CAS_next pc.1 pc.2 newNode;
          if swapped then
            updateAlloc id;;;
            modify newNode Node.makeValid;;;
            FLUSH_INSERT newNode;;;
            ret true
          else insert_loop tries' fuel key item id
  end.

Definition insert (fuel : nat) (key item id : Z) : M t bool :=
  insert_loop fuel fuel key item id.

(** [contains]: a present key is validated and flushed on the way. *)
Fixpoint contains_loop (fuel : nat) (key current : Z) : M t Z :=
  match fuel with
  | O => timeout
  | S fuel' =>
      do c <- load current;
      if bool_decide (Node.key c < key)
      then contains_loop fuel' key (Node.getNextRef c)
      else ret current
  end.

Definition contains (fuel : nat) (key : Z) : M t bool :=
  do s <- get;
  do h <- load (head s);
  do current <- contains_loop fuel key (Node.next h);
  do c <- load current;
  if negb (bool_decide (Node.key c = key)) then ret false
  else if Node.isNextMarked c then
    FLUSH_DELETE current;;;
    ret false
  else
    modify current Node.makeValid;;;
    FLUSH_INSERT current;;;
    ret true.

(** [remove]: the loop runs until the compare-and-swap that marks
    [current->next] succeeds; then the node is trimmed. *)
Fixpoint remove_loop (tries fuel : nat) (key : Z) : M t bool :=
  match tries with
  | O => timeout
  | S tries' =>
      do pc <- find fuel key;
      do c <- load pc.2;
      if negb (bool_decide (Node.key c = key)) then ret false
      else
        do c1 <- load pc.2;
        let successor := Node.getNextRef c1 in
        let markedSuccessor := Node.mark successor in
        modify pc.2 Node.makeValid;;;
        do result <- CAS_next pc.2 successor markedSuccessor;
        if result then
          trim pc.1 pc.2;;;
          ret true
        else remove_loop tries' fuel key
  end.

Definition remove (fuel : nat) (key : Z) : M t bool :=
  remove_loop fuel fuel key.

(** [printSet], returning the keys it prints; a marked node met on the
    way is trimmed instead of printed. *)
Fixpoint printSet_loop (fuel : nat) (previous current : Z) (out : list Z)
    : M t (list Z) :=
  match fuel with
  | O => timeout
  | S fuel' =>
      if bool_decide (current = 0) then ret out
      else
        do c <- load current;
        if negb (Node.isNextMarked c) then
          do c' <- load current;
          printSet_loop fuel' current (Node.getNextRef c') (out ++ [Node.key c])
        else
          trim previous current;;;
          do c' <- load current;
          printSet_loop fuel' previous (Node.getNextRef c') out
  end.

Definition printSet (fuel : nat) : M t (list Z) :=
  do s <- get;
  do h <- load (head s);
  printSet_loop fuel (head s) (Node.next h) [Node.key h].

(** The constructor: pools, then the sentinels. *)
Fixpoint new_row (n : nat) : M t (list Z) :=
  match n with
  | O => ret []
  | S n' =>
      do a <- new_Node Node.new;
      do rest <- new_row n';
      ret (a :: rest)
  end.

Fixpoint new_pools (n : nat) (i : Z) (budget : Z → M t Z)
    : M t (list (list Z)) :=
  match n with
  | O => ret []
  | S n' =>
      do w <- budget i;
      do _ <- vec_new w 0;
      do row <- new_row (Z.to_nat w);
      do rest <- new_pools n' (i + 1) budget;
      ret (row :: rest)
  end.

Fixpoint size_pools (n : nat) (i : Z) (budget : Z → M t Z)
    : M t (list Z * list Z) :=
  match n with
  | O => ret ([], [])
  | S n' =>
      do w <- budget i;
      do rest <- size_pools n' (i + 1) budget;
      ret ((w - 1) :: rest.1, w :: rest.2)
  end.

(** [head = new Node(); tail = new Node(); head->next.store(tail);
    head->key = MIN_KEY; tail->key = MAX_KEY] *)
Definition new_sentinels : M t unit :=
  do h <- new_Node Node.new;
  do tl <- new_Node Node.new;
  modify h (Node.set_next tl);;;
  modify h (Node.set_key MIN_KEY);;;
  modify tl (Node.set_key MAX_KEY);;;
  do s <- get;
  put (set_sentinels h tl s).

Definition nothing (m : MemoryManager.t) : t :=
  {| heap := ∅; brk := DurableSet.node_align; mem := m; head := 0; tail := 0;
     preAllocatedNodes := []; allocIndices := []; maxIndices := [];
     keysVolatileRecovered := []; keysDurableRecovered := []; numIDs := 0 |}.

(** [LinkFreeDurableSet(mem, abortFlag, numIDs, writeOpsVector)] *)
Definition construct (numIDs' : Z) (writeOpsVector : list Z) : M t unit :=
  do _ <- vec_new numIDs' 0;
  do sizes <- size_pools (Z.to_nat numIDs') 0 (vec_at writeOpsVector);
  do pools <- new_pools (Z.to_nat numIDs') 0 (vec_at writeOpsVector);
  do s <- get;
  put (set_pools pools sizes.1 sizes.2 numIDs' s);;;
  new_sentinels.

Definition create (m : MemoryManager.t) (numIDs' : Z)
    (writeOpsVector : list Z) : outcome t unit :=
  construct numIDs' writeOpsVector (nothing m).

End LinkFree.

(** *** Vocabulary for the link-free set *)

(** A link-free node seen as a node of the locked sets: the fields the
    list structure is made of, and the durable address. *)
Definition LinkFree_view (n : LinkFree.Node.t) : Node.t :=
  {| Node.key := LinkFree.Node.key n;
     Node.item := LinkFree.Node.item n;
     Node.validBits := LinkFree.Node.validBits n;
     Node.next := LinkFree.Node.next n;
     Node.resourceID := 0;
     Node.durableAddressPrefix := LinkFree.Node.durableAddressPrefix n;
     Node.durableAddressPostfix := LinkFree.Node.durableAddressPostfix n |}.

Definition LinkFree_abs (s : LinkFree.t) : DurableSet.t :=
  {| DurableSet.heap := LinkFree_view <$> LinkFree.heap s;
     DurableSet.brk := LinkFree.brk s;
     DurableSet.mem := LinkFree.mem s;
     DurableSet.head := LinkFree.head s;
     DurableSet.tail := LinkFree.tail s;
     DurableSet.preAllocatedNodes := LinkFree.preAllocatedNodes s;
     DurableSet.allocIndices := LinkFree.allocIndices s;
     DurableSet.maxIndices := LinkFree.maxIndices s;
     DurableSet.keysVolatileRecovered := LinkFree.keysVolatileRecovered s;
     DurableSet.keysDurableRecovered := LinkFree.keysDurableRecovered s;
     DurableSet.numIDs := LinkFree.numIDs s |}.

(** The invariant of the link-free set between operations of one
    thread that have all returned: the list is well formed as for the
    locked sets; every element has been validated and flushed; the tail
    has never been tied to a durable cell nor flushed; a pool node that
    no insert has taken is as its constructor left it; no element has
    been flushed as deleted. *)
Record LinkFree_Inv (N : nat) (s : LinkFree.t) (mid : list (Z * Z)) : Prop := {
  linv_list : Inv N (LinkFree_abs s) mid;
  linv_flushed :
    ∀ ak, ak ∈ mid →
      ∃ n, LinkFree.heap s !! ak.1 = Some n
           ∧ LinkFree.Node.insertValidFlag n = true
           ∧ Z.lor (LinkFree.Node.validBits n) 2 = LinkFree.Node.validBits n;
  linv_tail : ∃ tn, LinkFree.heap s !! LinkFree.tail s = Some tn
                    ∧ LinkFree.Node.insertValidFlag tn = false
                    ∧ LinkFree.Node.durableAddressPrefix tn = -1;
  linv_pool : ∀ a, free_slot (LinkFree_abs s) a →
                LinkFree.heap s !! a = Some LinkFree.Node.new;
  linv_live : ∀ ak, ak ∈ mid →
                ∃ n, LinkFree.heap s !! ak.1 = Some n
                     ∧ LinkFree.Node.deleteValidFlag n = false
}.

Definition LinkFree_exec (fuel : nat) (o : op) : M LinkFree.t bool :=
  match o with
  | DoInsert key item id => LinkFree.insert fuel key item id
  | DoRemove key => LinkFree.remove fuel key
  | DoContains key => LinkFree.contains fuel key
  end.

Fixpoint LinkFree_run (fuel : nat) (ops : list op) : M LinkFree.t unit :=
  match ops with
  | [] => ret tt
  | o :: rest => LinkFree_exec fuel o;;; LinkFree_run fuel rest
  end.

(** The operations of a history of the link-free set: keys below
    [MAX_KEY]; a lookup or an insert of [MAX_KEY] itself would flush
    the tail. *)
Definition LinkFree_admissible (o : op) : Prop :=
  match o with
  | DoInsert key _ _ | DoRemove key | DoContains key => key < MAX_KEY
  end.

Definition LinkFree_reachable (s : LinkFree.t) : Prop :=
  ∃ (m : MemoryManager.t) (numIDs : Z) (writeOpsVector : list Z)
    (s0 : LinkFree.t) (ops : list op) (fuel : nat),
    LinkFree.create m numIDs writeOpsVector = Ok tt s0
    ∧ Forall LinkFree_admissible ops
    ∧ (size (LinkFree.heap s0) ≤ fuel)%nat
    ∧ LinkFree_run fuel ops s0 = Ok tt s.

(** [s'] is [s] with node [a], holding [k], validated, flushed and
    linked in after [prev] and before [cur], and the pool index of
    writer [id] lowered. *)
Definition LinkFree_linked (s s' : LinkFree.t) (k cur prev a id idx : Z)
    (pn : LinkFree.Node.t) : Prop :=
  LinkFree.head s' = LinkFree.head s
  ∧ LinkFree.tail s' = LinkFree.tail s
  ∧ LinkFree.preAllocatedNodes s' = LinkFree.preAllocatedNodes s
  ∧ size (LinkFree.heap s') = size (LinkFree.heap s)
  ∧ LinkFree.allocIndices s'
    = <[Z.to_nat id := idx - 1]> (LinkFree.allocIndices s)
  ∧ LinkFree.heap s' !! prev = Some (LinkFree.Node.set_next a pn)
  ∧ (∃ an, LinkFree.heap s' !! a = Some an
           ∧ LinkFree.Node.key an = k ∧ LinkFree.Node.next an = cur
           ∧ LinkFree.Node.insertValidFlag an = true
           ∧ Z.lor (LinkFree.Node.validBits an) 2 = LinkFree.Node.validBits an)
  ∧ ∀ y, y ≠ a → y ≠ prev →
      LinkFree.heap s' !! y = LinkFree.heap s !! y.

(** The store of [s'] is that of [s] after the cursor of section [id]
    was moved and the record of a fresh node holding [k] and [x], linked
    before [cur], was flushed to the cell [(id, d)]. *)
Definition LinkFree_recorded (s s' : LinkFree.t) (k x cur id d : Z) : Prop :=
  ∃ t, Store.updateAddress id (LinkFree.mem s) = Ok tt t
       ∧ MemoryManager.FLUSH k x 3 false false cur id d t
         = Ok tt (LinkFree.mem s').

(** [s'] is [s] with node [cur] marked and unlinked from behind
    [prev]. *)
Definition LinkFree_unlinked (s s' : LinkFree.t) (prev cur : Z)
    (pn cn : LinkFree.Node.t) : Prop :=
  LinkFree.head s' = LinkFree.head s
  ∧ LinkFree.tail s' = LinkFree.tail s
  ∧ LinkFree.preAllocatedNodes s' = LinkFree.preAllocatedNodes s
  ∧ size (LinkFree.heap s') = size (LinkFree.heap s)
  ∧ LinkFree.allocIndices s' = LinkFree.allocIndices s
  ∧ LinkFree.heap s' !! prev
    = Some (LinkFree.Node.set_next (LinkFree.Node.next cn) pn)
  ∧ (∃ cn', LinkFree.heap s' !! cur = Some cn'
            ∧ LinkFree.Node.isNextMarked cn' = true)
  ∧ ∀ y, y ≠ cur → y ≠ prev →
      LinkFree.heap s' !! y = LinkFree.heap s !! y.

(** A fresh link-free set over the example store, and the state the
    example history leaves it in. *)
Definition LinkFree_example_fresh : LinkFree.t :=
  Eval vm_compute in
    match LinkFree.create example_store 2 [2; 1] with
    | Ok _ s => s
    | _ => LinkFree.nothing example_store
    end.

Definition LinkFree_example_set : LinkFree.t :=
  Eval vm_compute in
    match LinkFree_run 5 example_history LinkFree_example_fresh with
    | Ok _ s => s
    | _ => LinkFree_example_fresh
    end.
(** *** Ownership of the nodes *)




(** ** The Lock set with its mutexes

    [LockDurableSet::insert] and [LockDurableSet::remove] with the
    [std::mutex] of every node, on one thread ([contains] takes no
    mutex).  The state pairs the set
    with the nodes whose mutex is held.  On one thread a held mutex is
    held by the caller, and [std::mutex::lock] on a mutex the caller owns
    is undefined behaviour (where it is implemented as a wait, the thread
    waits for itself for ever): the call has no outcome.  An exception
    leaves the function without running the [unlock] calls behind it:
    the source has no handler and no lock guard. *)
Module LockDurableSet.

Record t : Type := {
  set : DurableSet.t;
  held : list Z
}.

(** A statement of the set that touches no mutex. *)
Definition lift {A} (m : M DurableSet.t A) : M t A :=
  zoom set (λ s' st, {| set := s'; held := held st |}) m.

(** [n->mtx.lock()] *)
Definition mtx_lock (n : Z) : M t unit :=
  do st <- get;
  match DurableSet.heap (set st) !! n with
  | None => fault
  | Some _ =>
      if bool_decide (n ∈ held st) then fault
      else put {| set := set st; held := n :: held st |}
  end.

(** [n->mtx.unlock()] *)
Definition mtx_unlock (n : Z) : M t unit :=
  do st <- get;
  if bool_decide (n ∈ held st) then
    put {| set := set st; held := filter (λ a, a ≠ n) (held st) |}
  else fault.

(** [LockDurableSet::insert] *)
Fixpoint insert_loop (tries fuel : nat) (key item id : Z) : M t bool :=
  match tries with
  | O => timeout
  | S tries' =>
      do pc <- lift (DurableSet.find Lock fuel key);
      mtx_lock pc.1;;;
      mtx_lock pc.2;;;
      do bad <- lift (DurableSet.invalidated pc.1 pc.2);
      if bad then
        mtx_unlock pc.1;;;
        mtx_unlock pc.2;;;
        insert_loop tries' fuel key item id
      else
        do c <- lift (DurableSet.load pc.2);
        if bool_decide (Node.key c = key) then
          mtx_unlock pc.1;;;
          mtx_unlock pc.2;;;
          ret false
        else
          do newNode <- lift (DurableSet.allocFromArea id);
          if bool_decide (newNode = 0) then
            mtx_unlock pc.1;;;
            mtx_unlock pc.2;;;
            ret false
          else
            lift (DurableSet.link key item id pc.1 pc.2 newNode);;;
            mtx_unlock pc.1;;;
            mtx_unlock pc.2;;;
            ret true
  end.

Definition insert (fuel : nat) (key item id : Z) : M t bool :=
  insert_loop fuel fuel key item id.

(** [LockDurableSet::remove] *)
Fixpoint remove_loop (tries fuel : nat) (key : Z) : M t bool :=
  match tries with
  | O => timeout
  | S tries' =>
      do pc <- lift (DurableSet.find Lock fuel key);
      mtx_lock pc.1;;;
      mtx_lock pc.2;;;
      do bad <- lift (DurableSet.invalidated pc.1 pc.2);
      if bad then
        mtx_unlock pc.1;;;
        mtx_unlock pc.2;;;
        remove_loop tries' fuel key
      else
        do c <- lift (DurableSet.load pc.2);
        if negb (bool_decide (Node.key c = key)) then
          mtx_unlock pc.1;;;
          mtx_unlock pc.2;;;
          ret false
        else
          lift (DurableSet.unlink pc.1 pc.2);;;
          mtx_unlock pc.1;;;
          mtx_unlock pc.2;;;
          ret true
  end.

Definition remove (fuel : nat) (key : Z) : M t bool :=
  remove_loop fuel fuel key.

End LockDurableSet.

(** The outcome of a statement of the set, seen in the Lock set with
    its mutexes: a return has released the two mutexes it took, an
    exception has left them locked. *)
Definition with_mutexes {A} (o : outcome DurableSet.t A) (previous current : Z)
    (held : list Z) : outcome LockDurableSet.t A :=
  match o with
  | Ok a s => Ok a {| LockDurableSet.set := s; LockDurableSet.held := held |}
  | Throw e s =>
      Throw e {| LockDurableSet.set := s;
                 LockDurableSet.held := current :: previous :: held |}
  | Fault => Fault
  | Timeout => Timeout
  end.


(** * Properties *)

(** ** Reasoning about outcomes *)

Section Outcomes.
Context {St : Type}.

Lemma post_mono {A} (o : outcome St A) (Q Q' : A → St → Prop)
    (R R' : exception → St → Prop) :
  post o Q R →
  (∀ a s, Q a s → Q' a s) →
  (∀ e s, R e s → R' e s) →
  post o Q' R'.
Proof. destruct o; simpl; auto. Qed.

Lemma post_bind {A B} (m : M St A) (k : A → M St B) s Q R :
  post (m s) (λ a s', post (k a s') Q R) R →
  post (bind m k s) Q R.
Proof. unfold bind. destruct (m s); simpl; auto. Qed.

Lemma post_vec_at {A} (v : list A) (i : Z) (s : St) (Q : A → St → Prop) R :
  (∀ x, 0 ≤ i → v !! Z.to_nat i = Some x → Q x s) →
  R out_of_range s →
  post (vec_at v i s) Q R.
Proof.
  intros HQ HR. unfold vec_at. case_bool_decide; [|exact HR].
  destruct (v !! Z.to_nat i) eqn:E; simpl; auto.
Qed.

Lemma post_vec_new {A} (n : Z) (x : A) (s : St) (Q : list A → St → Prop) R :
  (0 ≤ n → Q (replicate (Z.to_nat n) x) s) →
  R length_error s →
  post (vec_new n x s) Q R.
Proof. intros HQ HR. unfold vec_new. case_bool_decide; simpl; auto. Qed.

Lemma post_zoom {S' A} (proj : St → S') inj (m : M S' A) s Q R :
  post (m (proj s)) (λ a t, Q a (inj t s)) (λ e t, R e (inj t s)) →
  post (zoom proj inj m s) Q R.
Proof. unfold zoom. destruct (m (proj s)); simpl; auto. Qed.

Lemma post_final {A} (o : outcome St A) Q R :
  post o Q R → ∃ s, final o = Some s.
Proof. destruct o; simpl; eauto; contradiction. Qed.
End Outcomes.

(** Symbolic execution of the state primitives. *)
Ltac exec_step :=
  lazymatch goal with
  | |- post (bind get _ _) _ _ => unfold bind at 1, get at 1
  | |- post (bind (ret _) _ _) _ _ => unfold bind at 1, ret at 1
  | |- post (bind (put _) _ _) _ _ => unfold bind at 1, put at 1
  | |- post (bind (throw _) _ _) _ _ => unfold bind at 1, throw at 1
  | |- post (bind (vec_at _ _) _ _) _ _ =>
      apply post_bind, post_vec_at; [intros ? ? ?|]
  | |- post (bind (vec_new _ _) _ _) _ _ =>
      apply post_bind, post_vec_new; [intros ?|]
  | |- post (ret _ _) _ _ => unfold ret at 1
  | |- post (put _ _) _ _ => unfold put at 1
  | |- post (throw _ _) _ _ => unfold throw at 1
  | |- post (vec_at _ _ _) _ _ => apply post_vec_at; [intros ? ? ?|]
  end; cbn beta iota.

(** ** The memory managers *)

Section StoreFacts.
Context {Cell : Type} `{CellFlavor Cell}.
Implicit Types (m : Store.MemoryManager Cell) (r : Recovered).

(** A cell access returns or throws [out_of_range]; it leaves the
    shape of the arena alone. *)
Lemma read_cell_post i j m :
  post (Store.read_cell i j m)
    (λ _ m', m' = m ∧ 0 ≤ i ∧ (Z.to_nat i < length (Store.memPool m))%nat)
    (λ e m', e = out_of_range ∧ m' = m).
Proof.
  unfold Store.read_cell. repeat exec_step; simpl; auto.
  split; [done|]. split; [done|]. by eapply lookup_lt_Some.
Qed.

Lemma write_cell_post i j c m :
  post (Store.write_cell i j c m)
    (λ _ m', same_shape m m' ∧ Store.freeListIndex m' = Store.freeListIndex m)
    (λ e m', e = out_of_range ∧ m' = m).
Proof.
  unfold Store.write_cell. repeat exec_step; simpl; auto.
  unfold same_shape; simpl. by rewrite length_insert.
Qed.

Lemma bump_cursor_post i m :
  post (Store.bump_cursor i m)
    (λ _ m', same_shape m m'
             ∧ ∃ c, Store.freeListIndex m !! Z.to_nat i = Some c
                    ∧ Store.freeListIndex m'
                      = <[Z.to_nat i := c + 1]> (Store.freeListIndex m))
    (λ e m', e = out_of_range ∧ m' = m).
Proof.
  unfold Store.bump_cursor. repeat exec_step; simpl; auto.
  split; [done|]. eauto.
Qed.

Lemma reset_cursor_post i m :
  post (Store.reset_cursor i m)
    (λ _ m', same_shape m m')
    (λ e m', e = out_of_range ∧ m' = m).
Proof.
  unfold Store.reset_cursor. repeat exec_step; simpl; auto. done.
Qed.

Lemma on_mem_post {A} (c : M (Store.MemoryManager Cell) A) m r Q R :
  post (c m) (λ a m', Q a (m', r)) (λ e m', R e (m', r)) →
  post (Store.on_mem c (m, r)) Q R.
Proof. intros Hc. unfold Store.on_mem. by apply post_zoom. Qed.

Lemma on_out_post {A} (c : M Recovered A) m r Q R :
  post (c r) (λ a r', Q a (m, r')) (λ e r', R e (m, r')) →
  post (Store.on_out c (m, r)) Q R.
Proof. intros Hc. unfold Store.on_out. by apply post_zoom. Qed.

Lemma same_shape_refl m : same_shape m m.
Proof. done. Qed.

Lemma same_shape_trans m1 m2 m3 :
  same_shape m1 m2 → same_shape m2 m3 → same_shape m1 m3.
Proof. unfold same_shape. intros (-> & -> & ->) (-> & -> & ->). done. Qed.

(** One pass of the inner loop of [readResetMemory] returns only for a
    section index inside the arena, and keeps the arena's shape. *)
Lemma scan_cell_post i j count m r :
  post (Store.scan_cell i j count (m, r))
    (λ _ st, same_shape m st.1 ∧ 0 ≤ i
             ∧ (Z.to_nat i < length (Store.memPool m))%nat
             ∧ ∃ c, Store.freeListIndex m !! Z.to_nat i = Some c
                    ∧ Store.freeListIndex st.1
                      = <[Z.to_nat i := c + 1]> (Store.freeListIndex m))
    (λ e _, e = out_of_range).
Proof.
  unfold Store.scan_cell.
  apply post_bind, on_mem_post.
  eapply post_mono; [apply read_cell_post| |by intros ? ? [-> _]].
  intros c ? (-> & Hi & Hlen); simpl.
  apply post_bind.
  assert (post
    ((if cell_isValid c
      then do c1 <- Store.on_mem (Store.read_cell i j);
           Store.on_out (Store.push_back_key (cell_key c1));;;
           do c2 <- Store.on_mem (Store.read_cell i j);
           Store.on_out (Store.push_back_item (cell_item c2));;;
           Store.on_out (Store.push_back_prefix i);;;
           Store.on_out (Store.bump_activeNodes i);;; ret (count + 1)
      else ret count) (m, r))
    (λ _ st, st.1 = m) (λ e _, e = out_of_range)) as Hcollect.
  { destruct (cell_isValid c); [|done].
    apply post_bind, on_mem_post.
    eapply post_mono; [apply read_cell_post| |by intros ? ? [-> _]].
    intros c1 ? (-> & _); simpl.
    apply post_bind, on_out_post; simpl.
    apply post_bind, on_mem_post.
    eapply post_mono; [apply read_cell_post| |by intros ? ? [-> _]].
    intros c2 ? (-> & _); simpl.
    apply post_bind, on_out_post; simpl.
    apply post_bind, on_out_post; simpl.
    apply post_bind, on_out_post.
    unfold Store.bump_activeNodes. repeat exec_step; simpl; auto. }
  eapply post_mono; [exact Hcollect| |done].
  intros count' [m1 r1] Hm; simpl in Hm; subst m1.
  apply post_bind, on_mem_post.
  eapply post_mono; [apply write_cell_post| |by intros ? ? [-> _]].
  intros ? m2 [Hs2 Hf2]; simpl.
  apply post_bind, on_mem_post.
  eapply post_mono; [apply bump_cursor_post| |by intros ? ? [-> _]].
  intros ? m3 (Hs3 & c3 & Hc3 & Hf3); simpl.
  split; [by eapply same_shape_trans|].
  split; [done|]. split; [done|].
  exists c3. by rewrite <- Hf2.
Qed.

(** Once entered with [j] below the section size, the inner loop never
    leaves normally: [j] stays put while [i] runs off the arena. *)
Lemma scan_section_throws fuel i j count m r :
  j < Store.memPoolSectionSize m →
  0 ≤ i →
  (length (Store.memPool m) - Z.to_nat i < fuel)%nat →
  post (Store.scan_section fuel i j count (m, r))
    (λ _ _, False) (λ e _, e = out_of_range).
Proof.
  revert i count m r. induction fuel as [|fuel IH]; intros i count m r Hj Hi Hfuel.
  { lia. }
  simpl. exec_step. simpl. rewrite bool_decide_eq_true_2 by done.
  apply post_bind.
  eapply post_mono; [apply scan_cell_post| |done].
  intros count' [m' r'] ((_ & Hsize & Hlen) & _ & Hin & _); simpl in *.
  apply IH; [lia|lia|]. rewrite Hlen. lia.
Qed.

Lemma readResetMemory_post fuel m r :
  1 ≤ Store.numMemPoolSections m →
  1 ≤ Store.memPoolSectionSize m →
  (length (Store.memPool m) + 2 ≤ fuel)%nat →
  post (Store.readResetMemory fuel (m, r))
    (λ _ _, False) (λ e _, e = out_of_range).
Proof.
  intros Hsec Hsize Hfuel. unfold Store.readResetMemory.
  destruct fuel as [|fuel]; [lia|]. simpl.
  exec_step. simpl. rewrite bool_decide_eq_true_2 by lia.
  apply post_bind, on_mem_post.
  eapply post_mono; [apply reset_cursor_post| |by intros ? ? [-> _]].
  intros ? m' (_ & Hsize' & Hlen); simpl.
  apply post_bind.
  eapply post_mono; [apply scan_section_throws| |done].
  - lia.
  - done.
  - rewrite Hlen. lia.
  - intros ? ? [].
Qed.
End StoreFacts.

(** What [isValid] of the bit-mask flavour computes: the second test lets
    only a null [next] through. *)
Lemma isValid_true_iff (c : MemoryManager.MemCell) :
  MemoryManager.isValid c = true ↔
  Z.land (MemoryManager.validBits c) 3 = 3 ∧ MemoryManager.next c = 0.
Proof.
  unfold MemoryManager.isValid. rewrite Z.lor_0_r.
  destruct (Z.eqb_spec (Z.land (MemoryManager.validBits c) 3) 3);
    destruct (Z.eqb_spec (MemoryManager.next c) 0); simpl; intuition congruence.
Qed.

(** C1 fails on the code (evaluation at the failing input): a cell with
    [(validBits & 3) == 3] whose [next] is the unmarked address [4096] has
    its tombstone bit clear, and [isValid] returns [false] for it. *)
Theorem isValid_rejects_unmarked_link :
  let c := MemoryManager.COPY 5 5 3 true false 4096 MemoryManager.MemCell_new in
  Z.land (MemoryManager.validBits c) 3 = 3
  ∧ Z.land (MemoryManager.next c) 1 = 0
  ∧ MemoryManager.isValid c = false.
Proof. vm_compute. done. Qed.

(** C3 fails on the code: on every arena with at least one section and at
    least one cell per section, in either flavour, [readResetMemory] does
    not return a count; its inner loop advances the section index instead
    of the cell index and the scan ends in [std::out_of_range]. *)
Theorem readResetMemory_throws {Cell} `{CellFlavor Cell} (fuel : nat)
    (m : Store.MemoryManager Cell) (r : Recovered) :
  1 ≤ Store.numMemPoolSections m →
  1 ≤ Store.memPoolSectionSize m →
  (length (Store.memPool m) + 2 ≤ fuel)%nat →
  ∃ st, Store.readResetMemory fuel (m, r) = Throw out_of_range st.
Proof.
  intros Hsec Hsize Hfuel.
  pose proof (readResetMemory_post fuel m r Hsec Hsize Hfuel) as Hpost.
  destruct (Store.readResetMemory fuel (m, r)) as [? ?|e st| |]; simpl in Hpost;
    try contradiction.
  subst e. by exists st.
Qed.

Lemma readResetMemory_throws_witness :
  ∃ st, Store.readResetMemory 4 (example_arena, no_output 2)
        = Throw out_of_range st.
Proof.
  apply (readResetMemory_throws 4 example_arena (no_output 2));
    vm_compute; [discriminate | discriminate | lia].
Defined.

(** On the two-by-two example the scan visits [(0, 0)] and [(1, 0)] only:
    the live record at [(0, 1)] is neither collected nor cleared. *)
Lemma readResetMemory_example :
  ∃ st, Store.readResetMemory 4 (example_arena, no_output 2)
        = Throw out_of_range st
        ∧ keys st.2 = [8]
        ∧ (MemoryManager.key <$> (Store.memPool st.1 !! 0%nat ≫= (.!! 1%nat)))
          = Some 7
        ∧ Store.freeListIndex st.1 = [1; 2].
Proof.
  eexists.
  repeat (split; [vm_compute; reflexivity|]); vm_compute; reflexivity.
Qed.

Lemma vec_at_Ok {St A} (v : list A) (i : Z) (s s' : St) (x : A) :
  vec_at v i s = Ok x s' ↔ 0 ≤ i ∧ v !! Z.to_nat i = Some x ∧ s' = s.
Proof.
  unfold vec_at. case_bool_decide.
  - destruct (v !! Z.to_nat i); unfold ret, throw; split.
    + intros [= -> ->]. done.
    + intros (_ & [= ->] & ->). done.
    + done.
    + intros (_ & [=] & _).
    - unfold throw. split; [done|]. intros [? _]. lia.
Qed.

(** ** Exhausted budget *)

(** With the pool index of a writer at [-1], [allocFromArea] throws
    before it looks at the durable address. *)
Lemma allocFromArea_exhausted (s : DurableSet.t) (id : Z) (pool : list Z) :
  0 ≤ id →
  DurableSet.preAllocatedNodes s !! Z.to_nat id = Some pool →
  DurableSet.allocIndices s !! Z.to_nat id = Some (-1) →
  DurableSet.allocFromArea id s = Throw out_of_range s.
Proof.
  intros Hid Hpool Hidx. unfold DurableSet.allocFromArea, bind, get.
  rewrite (proj2 (vec_at_Ok _ _ s s pool)) by done.
  rewrite (proj2 (vec_at_Ok _ _ s s (-1))) by done.
  done.
Qed.

(** C5 fails on the code (evaluation at the failing input): a Sequential
    set and a Lock set, each with a budget of one node over a store of one
    cell, accept a first insert; the next insert of a new key ends in
    [std::out_of_range] instead of returning [false]. *)
Theorem insert_beyond_budget_throws :
  ∀ v, v = Sequential ∨ v = Lock →
  ∃ m s0 s1,
    fresh_store 1 1 = Some m
    ∧ DurableSet.create v m 1 [1] = Ok tt s0
    ∧ DurableSet.insert v 3 1 10 0 s0 = Ok true s1
    ∧ DurableSet.allocIndices s1 = [-1]
    ∧ Store.freeListIndex (DurableSet.mem s1) = [-1]
    ∧ DurableSet.insert v 3 2 20 0 s1 = Throw out_of_range s1.
Proof.
  intros v [-> | ->]; do 3 eexists;
    repeat (split; [vm_compute; reflexivity|]); vm_compute; reflexivity.
Qed.

Lemma insert_beyond_budget_throws_witness :
  ∃ m s0 s1,
    fresh_store 1 1 = Some m
    ∧ DurableSet.create Sequential m 1 [1] = Ok tt s0
    ∧ DurableSet.insert Sequential 3 1 10 0 s0 = Ok true s1
    ∧ DurableSet.allocIndices s1 = [-1]
    ∧ Store.freeListIndex (DurableSet.mem s1) = [-1]
    ∧ DurableSet.insert Sequential 3 2 20 0 s1 = Throw out_of_range s1.
Proof. apply (insert_beyond_budget_throws Sequential). left. reflexivity. Defined.

(** ** Sentinels of the SOFT set *)

(** C8 fails on the code (evaluation at the failing input): the
    constructor ends the list with the keys [MAX_KEY] and [MAX_KEY + 1];
    the sentinels that [recover] creates both carry [MAX_KEY]. *)
Theorem SOFT_recover_tail_keys :
  ∃ m s0 s1,
    fresh_store 1 1 = Some m
    ∧ SOFT.create m 1 [1] = Ok tt s0
    ∧ SOFT.printSet 4 s0 = Ok [MIN_KEY; MAX_KEY; MAX_KEY + 1] s0
    ∧ SOFT.rejuvenate [1] [0] s0 = Ok tt s1
    ∧ SOFT.printSet 4 s1 = Ok [MIN_KEY; MAX_KEY; MAX_KEY] s1.
Proof.
  do 3 eexists.
  repeat (split; [vm_compute; reflexivity|]); vm_compute; reflexivity.
Qed.

(** ** Resource identifiers of the MRLock set *)

(** C9, counterexample: with thirty pre-allocated nodes the last one
    receives the identifier [1] of the head. *)
Lemma MRLock_pool_reuses_head_id :
  ∃ m s,
    fresh_store 1 30 = Some m
    ∧ DurableSet.create MRLock m 1 [30] = Ok tt s
    ∧ pool_resource_ids s !! 29%nat = Some (Some 1)
    ∧ ¬ avoids_sentinel_ids s.
Proof.
  assert (∃ m s, fresh_store 1 30 = Some m
                 ∧ DurableSet.create MRLock m 1 [30] = Ok tt s
                 ∧ pool_resource_ids s !! 29%nat = Some (Some 1))
    as (m & s & Hm & Hs & Hid)
    by (do 2 eexists;
        repeat (split; [vm_compute; reflexivity|]); vm_compute; reflexivity).
  exists m, s. split; [exact Hm|]. split; [exact Hs|]. split; [exact Hid|].
  clear Hm Hs. intros Hall. eapply Forall_lookup_1 in Hall as (b & Hb & Heq); [|exact Hid].
  injection Heq as Heq.
  assert (2 ^ 2 ≤ 2 ^ b) by (apply Z.pow_le_mono_r; lia). lia.
Qed.

Lemma next_resource_after (k : Z) :
  0 ≤ k →
  DurableSet.next_resource (resource_after k) = resource_after (k + 1).
Proof.
  intros Hk. unfold DurableSet.next_resource, resource_after; simpl.
  assert (0 ≤ (k + 2) mod 31 < 31) as Hm by (apply Z.mod_pos_bound; lia).
  rewrite (Z.mod_small ((k + 2) mod 31 + 1 + 1)) by lia.
  assert ((k + 1 + 2) mod 31 = if bool_decide ((k + 2) mod 31 + 1 + 1 > 31) then 0 else (k + 2) mod 31 + 1) as Hnext.
  { replace (k + 1 + 2) with ((k + 2) + 1) by lia.
    rewrite Z.add_mod by lia. case_bool_decide.
    - assert ((k + 2) mod 31 = 30) as -> by lia. reflexivity.
    - apply Z.mod_small. change (1 mod 31) with 1. lia. }
  rewrite Hnext.
  f_equal.
  - rewrite Zplus_mod_idemp_l. f_equal. lia.
  - case_bool_decide; lia.
  - case_bool_decide; [reflexivity|].
    rewrite Z.shiftl_mul_pow2 by lia.
    rewrite <- Z.pow_add_r by lia.
    apply Z.mod_small. split; [apply Z.pow_nonneg; lia|].
    apply Z.pow_lt_mono_r; lia.
Qed.
Lemma row_from_S base n : row_from base (S n) = base :: row_from (base + 64) n.
Proof.
  unfold row_from. cbn [seq]. rewrite fmap_cons. f_equal; [simpl; lia|].
  rewrite <- fmap_S_seq, <- list_fmap_compose.
  apply list_fmap_ext. intros ? j _. simpl. lia.
Qed.

Lemma row_from_app base n1 n2 :
  row_from base (n1 + n2) = row_from base n1 ++ row_from (base + 64 * Z.of_nat n1) n2.
Proof.
  revert base. induction n1 as [|n1 IH]; intros base.
  { cbn [Nat.add]. change (Z.of_nat 0) with 0.
    rewrite Z.mul_0_r, Z.add_0_r. done. }
  cbn [Nat.add]. rewrite !row_from_S, IH. simpl. do 3 f_equal. lia.
Qed.

Lemma length_row_from base n : length (row_from base n) = n.
Proof. unfold row_from. by rewrite length_fmap, length_seq. Qed.

Lemma lookup_row_from base n (j : nat) :
  (j < n)%nat → row_from base n !! j = Some (base + 64 * Z.of_nat j).
Proof.
  intros Hj. unfold row_from. rewrite list_lookup_fmap, lookup_seq_lt by done.
  reflexivity.
Qed.

Lemma elem_of_row_from base n a :
  a ∈ row_from base n ↔ ∃ j : nat, (j < n)%nat ∧ a = base + 64 * Z.of_nat j.
Proof.
  unfold row_from. rewrite list_elem_of_fmap. split.
  - intros (j & -> & Hj%elem_of_seq). exists j. split; [lia|done].
  - intros (j & Hj & ->). exists j. split; [done|]. apply elem_of_seq. lia.
Qed.

Lemma NoDup_row_from base n : NoDup (row_from base n).
Proof.
  unfold row_from. apply NoDup_fmap_2; [|apply NoDup_seq].
  intros j1 j2 Heq. lia.
Qed.

(** Allocating a row of pool nodes. *)
Lemma new_row_spec (v : variant) (n : nat) (r : DurableSet.ResourceCursor)
    (s : DurableSet.t) :
  below_brk s →
  ∃ s',
    DurableSet.new_row v n r s
      = Ok (row_from (DurableSet.brk s) n, Nat.iter n (DurableSet.advance v) r) s'
    ∧ below_brk s'
    ∧ DurableSet.brk s' = DurableSet.brk s + 64 * Z.of_nat n
    ∧ (∀ a, a < DurableSet.brk s →
         DurableSet.heap s' !! a = DurableSet.heap s !! a)
    ∧ (∀ j : nat, (j < n)%nat →
         DurableSet.heap s' !! (DurableSet.brk s + 64 * Z.of_nat j)
         = Some (DurableSet.pool_node v (Nat.iter j (DurableSet.advance v) r))).
Proof.
  revert r s. induction n as [|n IH]; intros r s Hbelow.
  { exists s. simpl. rewrite Z.add_0_r. repeat split; auto; try apply Hbelow. lia. }
  cbn [DurableSet.new_row]. unfold bind at 1. unfold DurableSet.new_Node at 1.
  set (s1 := DurableSet.set_heap _ _ s).
  assert (DurableSet.brk s1 = DurableSet.brk s + 64) as Hbrk1 by done.
  destruct Hbelow as (Hdom & Hpos & Hal).
  assert (below_brk s1) as Hbelow1.
  { split; [|split].
    - intros a [x Hx]. rewrite Hbrk1. unfold s1 in Hx; simpl in Hx.
      destruct (decide (a = DurableSet.brk s)) as [->|Hne]; [lia|].
      rewrite lookup_insert_ne in Hx by done.
      specialize (Hdom a (ex_intro _ x Hx)). lia.
    - lia.
    - rewrite Hbrk1, <- Zplus_mod_idemp_l, Hal. reflexivity. }
  destruct (IH (DurableSet.advance v r) s1 Hbelow1)
    as (s' & Hrun & Hbelow' & Hbrk & Hframe & Hnodes).
  exists s'. unfold bind. rewrite Hrun. cbn [fst snd ret].
  split. { rewrite row_from_S, Hbrk1. by rewrite Nat.iter_succ_r. }
  split; [done|]. split; [lia|].
  split. { intros a Ha. rewrite Hframe by lia. unfold s1; simpl.
           apply lookup_insert_ne. lia. }
  intros [|j] Hj.
  - rewrite Z.mul_0_r, Z.add_0_r, Hframe by lia. unfold s1; simpl.
    by rewrite lookup_insert_eq.
  - rewrite Nat.iter_succ_r, <- Hnodes by lia. f_equal. lia.
Qed.

Lemma post_reads_only budget i s (Q : Z → DurableSet.t → Prop) R :
  reads_only budget →
  (∀ w, Q w s) → (∀ e, R e s) →
  post (budget i s) Q R.
Proof.
  intros Hb HQ HR. specialize (Hb i s).
  destruct (budget i s); simpl in *; subst; auto.
Qed.

Lemma reads_only_vec_at (l : list Z) : reads_only (vec_at l).
Proof. intros i s. by apply post_vec_at. Qed.

(** Allocating the pools of all sections: the nodes lie in a row. *)
Lemma new_pools_spec (v : variant) (n : nat) (i : Z) budget
    (r : DurableSet.ResourceCursor) (s : DurableSet.t) :
  reads_only budget → below_brk s →
  post (DurableSet.new_pools v n i budget r s)
    (λ res s',
       let total := length (concat res.1) in
       concat res.1 = row_from (DurableSet.brk s) total
       ∧ below_brk s'
       ∧ DurableSet.brk s' = DurableSet.brk s + 64 * Z.of_nat total
       ∧ (∀ a, a < DurableSet.brk s →
            DurableSet.heap s' !! a = DurableSet.heap s !! a)
       ∧ (∀ j : nat, (j < total)%nat →
            DurableSet.heap s' !! (DurableSet.brk s + 64 * Z.of_nat j)
            = Some (DurableSet.pool_node v (Nat.iter j (DurableSet.advance v) r))))
    (λ _ _, True).
Proof.
  intros Hb. revert i r s.
  induction n as [|n IH]; intros i r s Hbelow.
  { simpl. repeat split; auto; try apply Hbelow; [lia|intros; lia]. }
  cbn [DurableSet.new_pools].
  apply post_bind, post_reads_only; [done| |done]. intros w.
  apply post_bind, post_vec_new; [|done]. intros Hw.
  destruct (new_row_spec v (Z.to_nat w) r s Hbelow)
    as (s1 & Hrun & Hbelow1 & Hbrk1 & Hframe1 & Hnodes1).
  unfold bind at 1. rewrite Hrun. cbn [fst snd].
  apply post_bind.
  eapply post_mono; [apply (IH (i + 1) _ s1 Hbelow1)| |done].
  intros [rest r'] s' (Hcat & Hbelow' & Hbrk' & Hframe' & Hnodes'). cbn [fst snd] in *.
  unfold ret; simpl.
  rewrite length_app, length_row_from.
  set (n1 := Z.to_nat w) in *. set (n2 := length (concat rest)) in *.
  split. { rewrite row_from_app. f_equal. by rewrite Hcat, Hbrk1. }
  split; [done|]. split; [lia|].
  split. { intros a Ha. rewrite Hframe' by lia. by apply Hframe1. }
  intros j Hj. destruct (decide (j < n1)%nat) as [Hlt|Hge].
  - rewrite Hframe' by lia. by apply Hnodes1.
  - assert (∃ j', j = (j' + n1)%nat ∧ (j' < n2)%nat) as (j' & -> & Hj')
      by (exists (j - n1)%nat; lia).
    rewrite Nat.iter_add. rewrite <- Hnodes' by lia. f_equal. lia.
Qed.

Lemma size_pools_spec (n : nat) (i : Z) budget (s : DurableSet.t) :
  reads_only budget →
  post (DurableSet.size_pools n i budget s) (λ _ s', s' = s) (λ _ _, True).
Proof.
  intros Hb. revert i. induction n as [|n IH]; intros i; [done|].
  cbn [DurableSet.size_pools].
  apply post_bind, post_reads_only; [done| |done]. intros w.
  apply post_bind. eapply post_mono; [apply IH| |done].
  intros ? ? ->. done.
Qed.
Lemma load_Some (s : DurableSet.t) a n :
  DurableSet.heap s !! a = Some n → DurableSet.load a s = Ok n s.
Proof. intros Hn. unfold DurableSet.load. by rewrite Hn. Qed.

Lemma modify_Some (s : DurableSet.t) a n f :
  DurableSet.heap s !! a = Some n →
  DurableSet.modify a f s
  = Ok tt (DurableSet.set_heap (<[a := f n]> (DurableSet.heap s)) (DurableSet.brk s) s).
Proof.
  intros Hn. unfold DurableSet.modify, bind, DurableSet.load, DurableSet.store.
  by rewrite Hn, Hn.
Qed.

Ltac heap_lookup :=
  simpl;
  repeat (rewrite lookup_insert_ne
            by (unfold DurableSet.node_align in *; (congruence || lia)));
  first [ apply lookup_insert_eq | eassumption ].

Lemma new_sentinels_spec (v : variant) (s : DurableSet.t) :
  ∃ s',
    DurableSet.new_sentinels v s = Ok tt s'
    ∧ DurableSet.head s' = DurableSet.brk s
    ∧ DurableSet.tail s' = DurableSet.brk s + 64
    ∧ DurableSet.brk s' = DurableSet.brk s + 128
    ∧ DurableSet.heap s' !! DurableSet.brk s
      = Some (Node.set_key MIN_KEY (Node.set_next (DurableSet.brk s + 64) (Node.new (sentinel_id v 1))))
    ∧ DurableSet.heap s' !! (DurableSet.brk s + 64)
      = Some (Node.set_key MAX_KEY (Node.new (sentinel_id v 2)))
    ∧ (∀ a, a ≠ DurableSet.brk s → a ≠ DurableSet.brk s + 64 →
         DurableSet.heap s' !! a = DurableSet.heap s !! a)
    ∧ DurableSet.preAllocatedNodes s' = DurableSet.preAllocatedNodes s
    ∧ DurableSet.allocIndices s' = DurableSet.allocIndices s
    ∧ DurableSet.mem s' = DurableSet.mem s.
Proof.
  eexists. split.
  - unfold DurableSet.new_sentinels.
    unfold bind at 1. unfold DurableSet.new_Node at 1.
    unfold bind at 1. unfold DurableSet.new_Node at 1.
    unfold bind at 1. erewrite modify_Some by heap_lookup.
    unfold bind at 1. erewrite modify_Some by heap_lookup.
    unfold bind at 1. erewrite modify_Some by heap_lookup.
    unfold bind, get, put. reflexivity.
  - simpl. unfold DurableSet.node_align.
    split; [done|]. split; [done|]. split; [lia|].
    split. { rewrite lookup_insert_ne by lia. rewrite lookup_insert_eq.
             destruct v; reflexivity. }
    split. { rewrite lookup_insert_eq. destruct v; reflexivity. }
    split. { intros a H1 H2. by rewrite !lookup_insert_ne by done. }
    done.
Qed.
(** The state a constructor builds: the pool nodes in a row from the
    first address, then the head and the tail. *)
Lemma construct_spec (v : variant) (numIDs : Z) (wov : list Z)
    (s0 : DurableSet.t) :
  below_brk s0 →
  post (DurableSet.construct v numIDs wov s0)
    (λ _ s,
       let total := length (concat (DurableSet.preAllocatedNodes s)) in
       concat (DurableSet.preAllocatedNodes s) = row_from (DurableSet.brk s0) total
       ∧ DurableSet.head s = DurableSet.brk s0 + 64 * Z.of_nat total
       ∧ DurableSet.tail s = DurableSet.head s + 64
       ∧ DurableSet.heap s !! DurableSet.head s
         = Some (Node.set_key MIN_KEY
                   (Node.set_next (DurableSet.tail s) (Node.new (sentinel_id v 1))))
       ∧ DurableSet.heap s !! DurableSet.tail s
         = Some (Node.set_key MAX_KEY (Node.new (sentinel_id v 2)))
       ∧ (∀ j : nat, (j < total)%nat →
            DurableSet.heap s !! (DurableSet.brk s0 + 64 * Z.of_nat j)
            = Some (DurableSet.pool_node v
                      (Nat.iter j (DurableSet.advance v) DurableSet.first_resource))))
    (λ _ _, True).
Proof.
  intros Hbelow. unfold DurableSet.construct.
  apply post_bind, post_vec_new; [|done]. intros Hn.
  apply post_bind.
  eapply post_mono;
    [apply size_pools_spec, reads_only_vec_at| |done].
  intros sizes ? ->.
  apply post_bind.
  eapply post_mono;
    [apply new_pools_spec; [apply reads_only_vec_at|exact Hbelow]| |done].
  intros [pools r'] s1 (Hcat & Hbelow1 & Hbrk1 & Hframe1 & Hnodes1).
  cbn [fst snd] in *.
  exec_step. exec_step.
  set (s2 := DurableSet.set_pools _ _ _ _ s1).
  destruct (new_sentinels_spec v s2)
    as (s3 & Hrun & Hhead & Htail & Hbrk3 & Hh & Ht & Hframe3 & Hpools & _).
  rewrite Hrun. simpl.
  assert (DurableSet.brk s2 = DurableSet.brk s1) as Hbrk2 by done.
  assert (DurableSet.heap s2 = DurableSet.heap s1) as Hheap2 by done.
  rewrite Hpools. change (DurableSet.preAllocatedNodes s2) with pools.
  rewrite Hhead, Htail, Hbrk2, Hbrk1 in *.
  split; [done|]. split; [done|]. split; [done|].
  split; [exact Hh|]. split; [exact Ht|].
  intros j Hj. rewrite Hframe3 by lia. rewrite Hheap2. by apply Hnodes1.
Qed.

Lemma below_brk_nothing m : below_brk (DurableSet.nothing m).
Proof.
  split; [|done]. intros a [x Hx]. simpl in Hx. by rewrite lookup_empty in Hx.
Qed.

Lemma iter_next_resource (k : nat) :
  Nat.iter k DurableSet.next_resource DurableSet.first_resource
  = resource_after (Z.of_nat k).
Proof.
  induction k as [|k IH]; [reflexivity|].
  rewrite Nat.iter_succ, IH, next_resource_after by lia. f_equal. lia.
Qed.

(** C9, as amended: the head has identifier [1] and the tail [2]; the
    node allocated [k]-th (counting from [0] through the sections)
    receives the one-hot identifier [2 ^ ((k + 2) mod 31)]: bits [2] to
    [30] first, then round after round of the bits [0] to [30], which
    include the two bits of the sentinels; bit [31] is never used. *)
Theorem MRLock_resource_ids (m : MemoryManager.t) (numIDs : Z)
    (writeOpsVector : list Z) (s : DurableSet.t) :
  DurableSet.create MRLock m numIDs writeOpsVector = Ok tt s →
  (Node.resourceID <$> DurableSet.heap s !! DurableSet.head s) = Some 1
  ∧ (Node.resourceID <$> DurableSet.heap s !! DurableSet.tail s) = Some 2
  ∧ pool_resource_ids s
    = (λ k : nat, Some (2 ^ ((Z.of_nat k + 2) mod 31)))
        <$> seq 0 (length (concat (DurableSet.preAllocatedNodes s))).
Proof.
  intros Hcreate. unfold DurableSet.create in Hcreate.
  pose proof (construct_spec MRLock numIDs writeOpsVector _ (below_brk_nothing m))
    as Hpost.
  rewrite Hcreate in Hpost. simpl in Hpost.
  destruct Hpost as (Hcat & Hhead & Htail & Hh & Ht & Hnodes).
  split; [by rewrite Hh|]. split; [by rewrite Ht|].
  unfold pool_resource_ids. rewrite Hcat at 1. unfold row_from.
  rewrite <- list_fmap_compose. apply list_fmap_ext.
  intros i k Hk. apply lookup_seq in Hk as [-> Hk]. simpl.
  rewrite Hnodes by done. simpl. by rewrite iter_next_resource.
Qed.

Lemma MRLock_resource_ids_witness :
  ∃ m s,
    fresh_store 1 2 = Some m
    ∧ DurableSet.create MRLock m 1 [2] = Ok tt s
    ∧ pool_resource_ids s = [Some 4; Some 8].
Proof.
  assert (∃ m s, fresh_store 1 2 = Some m
                 ∧ DurableSet.create MRLock m 1 [2] = Ok tt s)
    as (m & s & Hm & Hs)
    by (do 2 eexists; split; vm_compute; reflexivity).
  exists m, s. split; [exact Hm|]. split; [exact Hs|].
  destruct (MRLock_resource_ids m 1 [2] s Hs) as (_ & _ & ->).
  assert (length (concat (DurableSet.preAllocatedNodes s)) = 2%nat) as ->.
  { clear Hm. vm_compute in Hs. injection Hs as <-. reflexivity. }
  reflexivity.
Defined.

(** ** Lists of the set: splitting at a key *)

Lemma before_from (k : Z) (l : list (Z * Z)) : before k l ++ from k l = l.
Proof.
  induction l as [|ak l IH]; [done|]. simpl.
  case_bool_decide; simpl; by rewrite ?IH.
Qed.

Lemma Forall_before (k : Z) (l : list (Z * Z)) :
  Forall (λ ak, ak.2 < k) (before k l).
Proof.
  induction l as [|ak l IH]; simpl; [done|].
  case_bool_decide; by constructor.
Qed.

Lemma from_head (k : Z) (l : list (Z * Z)) ak l' :
  from k l = ak :: l' → k ≤ ak.2.
Proof.
  induction l as [|x l IH]; simpl; [done|].
  case_bool_decide; [done|]. intros [= -> ->]. lia.
Qed.

Lemma before_app_stop (k : Z) (l1 l2 : list (Z * Z)) ak :
  Forall (λ x, x.2 < k) l1 → k ≤ ak.2 →
  before k (l1 ++ ak :: l2) = l1 ∧ from k (l1 ++ ak :: l2) = ak :: l2.
Proof.
  intros Hl1 Hak. induction Hl1 as [|x l1 Hx _ IH]; simpl.
  - rewrite bool_decide_eq_false_2 by lia. done.
  - rewrite bool_decide_eq_true_2 by done. destruct IH as [-> ->]. done.
Qed.

Lemma before_snoc (k : Z) (l : list (Z * Z)) ak :
  k ≤ ak.2 →
  before k (l ++ [ak]) = before k l ∧ from k (l ++ [ak]) = from k l ++ [ak].
Proof.
  intros Hak. induction l as [|x l IH]; simpl.
  - rewrite bool_decide_eq_false_2 by lia. done.
  - case_bool_decide; [|done]. destruct IH as [-> ->]. done.
Qed.

(** In an ascending list everything from the split point on is at least
    [k], and above [k] once the first key is. *)
Lemma from_sorted_above (k : Z) (l : list (Z * Z)) ak l' :
  StronglySorted Z.lt (snd <$> l) →
  from k l = ak :: l' → k < ak.2 →
  Forall (λ x, k < x.2) (from k l).
Proof.
  intros Hs Hfrom Hlt.
  rewrite <- (before_from k l), fmap_app, StronglySorted_app in Hs.
  destruct Hs as (_ & _ & Hs). rewrite Hfrom in *.
  rewrite fmap_cons in Hs. apply StronglySorted_cons in Hs as [Hall _].
  constructor; [done|].
  rewrite Forall_fmap in Hall. eapply Forall_impl; [exact Hall|].
  simpl. intros x Hx. lia.
Qed.

(** ** List segments in the heap *)

Lemma lseg_app h p l1 l2 q :
  lseg h p (l1 ++ l2) q ↔ ∃ m, lseg h p l1 m ∧ lseg h m l2 q.
Proof.
  revert p. induction l1 as [|ak l1 IH]; intros p; simpl.
  - split; [intros Hl; by exists p|intros (m & -> & Hl); done].
  - split.
    + intros (-> & n & Hn & Hk & Hl). apply IH in Hl as (m & H1 & H2).
      exists m. split; [|done]. split; [done|]. exists n. done.
    + intros (m & (-> & n & Hn & Hk & H1) & H2).
      split; [done|]. exists n. split; [done|]. split; [done|].
      apply IH. by exists m.
Qed.

Lemma lseg_frame h h' p l q :
  (∀ a, a ∈ fst <$> l → h' !! a = h !! a) →
  lseg h p l q → lseg h' p l q.
Proof.
  revert p. induction l as [|ak l IH]; intros p Hsame; simpl; [done|].
  intros (-> & n & Hn & Hk & Hl). split; [done|]. exists n.
  split. { rewrite Hsame; [done|]. rewrite fmap_cons. apply list_elem_of_here. }
  split; [done|]. apply IH; [|done].
  intros a Ha. apply Hsame. rewrite fmap_cons. by apply list_elem_of_further.
Qed.

Lemma lseg_first h p l q :
  lseg h p l q → p = default q (fst <$> head l).
Proof. destruct l as [|ak l]; simpl; [done|]. by intros [-> _]. Qed.

(** Linking a new node after [prev]. *)
Lemma lseg_insert h h' p P prev kp S a k pn an q :
  lseg h p (P ++ (prev, kp) :: S) q →
  NoDup (fst <$> (P ++ (prev, kp) :: S)) →
  a ∉ fst <$> (P ++ (prev, kp) :: S) →
  h !! prev = Some pn →
  h' !! prev = Some (Node.set_next a pn) →
  h' !! a = Some an → Node.key an = k → Node.next an = Node.next pn →
  (∀ x, x ≠ a → x ≠ prev → h' !! x = h !! x) →
  lseg h' p (P ++ (prev, kp) :: (a, k) :: S) q.
Proof.
  intros Hl Hnd Ha Hpn Hpn' Han Hk Hnext Hsame.
  rewrite fmap_app, fmap_cons in Hnd, Ha. simpl in Hnd, Ha.
  apply NoDup_app in Hnd as (_ & Hdisj & Hnd).
  apply NoDup_cons in Hnd as [HprevS _].
  apply lseg_app in Hl as (m & HP & HS).
  simpl in HS. destruct HS as (-> & n & Hn & Hkp & HS).
  assert (n = pn) as -> by congruence.
  apply lseg_app. exists prev. split.
  - eapply lseg_frame; [|exact HP]. intros x Hx. apply Hsame.
    + intros ->. apply Ha, elem_of_app. by left.
    + intros ->. apply (Hdisj prev Hx), list_elem_of_here.
  - simpl. split; [done|]. exists (Node.set_next a pn).
    split; [done|]. split; [done|]. split; [done|].
    exists an. split; [done|]. split; [done|]. rewrite Hnext.
    eapply lseg_frame; [|exact HS]. intros x Hx. apply Hsame.
    + intros ->. apply Ha, elem_of_app. right. by apply list_elem_of_further.
    + intros ->. by apply HprevS.
Qed.

(** Unlinking the node after [prev]. *)
Lemma lseg_remove h h' p P prev kp cur kc S pn cn q :
  lseg h p (P ++ (prev, kp) :: (cur, kc) :: S) q →
  NoDup (fst <$> (P ++ (prev, kp) :: (cur, kc) :: S)) →
  h !! prev = Some pn → h !! cur = Some cn →
  h' !! prev = Some (Node.set_next (Node.next cn) pn) →
  (∀ x, x ≠ cur → x ≠ prev → h' !! x = h !! x) →
  lseg h' p (P ++ (prev, kp) :: S) q.
Proof.
  intros Hl Hnd Hpn Hcn Hpn' Hsame.
  rewrite fmap_app, !fmap_cons in Hnd. simpl in Hnd.
  apply NoDup_app in Hnd as (_ & Hdisj & Hnd).
  apply NoDup_cons in Hnd as [HprevS Hnd].
  apply NoDup_cons in Hnd as [HcurS _].
  apply lseg_app in Hl as (m & HP & HS).
  simpl in HS. destruct HS as (-> & n & Hn & Hkp & _ & n' & Hn' & Hkc & HS).
  assert (n = pn) as -> by congruence.
  assert (n' = cn) as -> by (simpl in *; congruence).
  apply lseg_app. exists prev. split.
  - eapply lseg_frame; [|exact HP]. intros x Hx. apply Hsame.
    + intros ->. apply (Hdisj cur Hx), list_elem_of_further, list_elem_of_here.
    + intros ->. apply (Hdisj prev Hx), list_elem_of_here.
  - simpl. split; [done|]. exists (Node.set_next (Node.next cn) pn).
    split; [done|]. split; [done|]. simpl.
    eapply lseg_frame; [|exact HS]. intros x Hx. apply Hsame.
    + intros ->. by apply HcurS.
    + intros ->. by apply HprevS, list_elem_of_further.
Qed.

(** ** Pointers with a mark bit *)

Lemma land_lnot_1_even (p : Z) : Z.even p = true → Z.land p (Z.lnot 1) = p.
Proof.
  intros Hp. apply Z.bits_inj'. intros i Hi.
  rewrite Z.land_spec, Z.lnot_spec by done.
  destruct (decide (i = 0)) as [->|Hne].
  - rewrite Z.bit0_odd, <- Z.negb_even, Hp. reflexivity.
  - change 1 with (2 ^ 0). rewrite Z.pow2_bits_false by lia.
    apply andb_true_r.
Qed.

Lemma land_1_even (p : Z) : Z.even p = true → Z.land p 1 = 0.
Proof.
  intros Hp. change 1 with (Z.ones 1). rewrite Z.land_ones by lia.
  change (2 ^ 1) with 2. by rewrite Zmod_even, Hp.
Qed.

Lemma follow_even (v : variant) (n : Node.t) :
  Z.even (Node.next n) = true → DurableSet.follow v n = Node.next n.
Proof.
  intros Hn. destruct v; simpl; try done.
  unfold Node.getNextRef. by apply land_lnot_1_even.
Qed.

Lemma isNextMarked_even (n : Node.t) :
  Z.even (Node.next n) = true → Node.isNextMarked n = false.
Proof. intros Hn. unfold Node.isNextMarked. by rewrite land_1_even. Qed.

(** The link out of a node of an aligned segment that ends in null is
    unmarked. *)
Lemma lseg_next_even h p ak l n :
  lseg h p (ak :: l) 0 → Forall aligned (fst <$> (ak :: l)) →
  h !! ak.1 = Some n → Z.even (Node.next n) = true.
Proof.
  simpl. intros (_ & n' & Hn' & _ & Hl) Hal Hn.
  assert (n' = n) as -> by congruence.
  apply lseg_first in Hl. rewrite Hl.
  apply Forall_cons in Hal as [_ Hal].
  destruct l as [|ak' l']; simpl; [done|].
  apply Forall_cons in Hal as [[_ He] _]. done.
Qed.

(** ** Execution of the primitives *)

Lemma set_mem_id (s : DurableSet.t) : DurableSet.set_mem (DurableSet.mem s) s = s.
Proof. by destruct s. Qed.

Lemma post_on_mem {A} (c : M MemoryManager.t A) (s : DurableSet.t) Q R :
  post (c (DurableSet.mem s))
    (λ a t, Q a (DurableSet.set_mem t s)) (λ e t, R e (DurableSet.set_mem t s)) →
  post (DurableSet.on_mem c s) Q R.
Proof. intros Hc. unfold DurableSet.on_mem. by apply post_zoom. Qed.

Lemma retrieveAddress_post (id : Z) (m : MemoryManager.t) :
  post (Store.retrieveAddress id m) (λ _ m', m' = m) (λ _ m', m' = m).
Proof. unfold Store.retrieveAddress. repeat exec_step; done. Qed.

Lemma updateAddress_post (id : Z) (m : MemoryManager.t) :
  post (Store.updateAddress id m) (λ _ _, True) (λ _ _, True).
Proof. unfold Store.updateAddress. repeat exec_step; done. Qed.

Lemma FLUSH_post k x b i d n pre post' (m : MemoryManager.t) :
  post (MemoryManager.FLUSH k x b i d n pre post' m) (λ _ _, True) (λ _ _, True).
Proof.
  unfold MemoryManager.FLUSH, Store.FLUSH, Store.read_cell, Store.write_cell.
  repeat exec_step; try done.
  apply post_bind. repeat exec_step; try done.
Qed.

(** ** Traversals *)

Lemma default_last_cons (l : list (Z * Z)) (x : Z * Z) (d d' : Z) :
  default d (fst <$> last (x :: l)) = default d' (fst <$> last (x :: l)).
Proof.
  revert x. induction l as [|y l IH]; intros x; [done|].
  rewrite last_cons_cons. apply IH.
Qed.

Lemma default_last_step (l : list (Z * Z)) (x : Z * Z) (d : Z) :
  default d (fst <$> last (x :: l)) = default x.1 (fst <$> last l).
Proof.
  destruct l as [|y l]; [done|].
  rewrite last_cons_cons. apply default_last_cons.
Qed.

Lemma find_loop_spec (v : variant) (s : DurableSet.t) (k : Z)
    (l : list (Z * Z)) (fuel : nat) (prev cur : Z) :
  lseg (DurableSet.heap s) cur l 0 →
  Forall aligned (fst <$> l) →
  from k l ≠ [] →
  (length (before k l) < fuel)%nat →
  DurableSet.find_loop v fuel k prev cur s
  = Ok (default prev (fst <$> last (before k l)),
        default 0 (fst <$> head (from k l))) s.
Proof.
  revert fuel prev cur. induction l as [|ak l IH]; intros fuel prev cur Hl Hal Hfrom Hfuel.
  { by destruct Hfrom. }
  destruct fuel as [|fuel]; [lia|].
  pose proof Hl as (-> & n & Hn & Hk & Hl').
  pose proof (lseg_next_even _ _ _ _ _ Hl Hal Hn) as Heven.
  cbn [DurableSet.find_loop]. unfold bind. rewrite (load_Some _ _ _ Hn).
  simpl in Hfrom, Hfuel |- *. rewrite Hk.
  destruct (decide (ak.2 < k)) as [Hlt|Hge].
  - rewrite (bool_decide_eq_true_2 _ Hlt) in Hfrom, Hfuel |- *.
    rewrite (bool_decide_eq_false_2 (ak.2 >= k)) by lia.
    rewrite follow_even by done.
    apply Forall_cons in Hal as [_ Hal].
    simpl in Hfuel.
    rewrite (IH fuel ak.1 (Node.next n) Hl' Hal Hfrom) by lia.
    by rewrite default_last_step.
  - rewrite (bool_decide_eq_false_2 _ Hge).
    rewrite (bool_decide_eq_true_2 (ak.2 >= k)) by lia. done.
Qed.

Lemma contains_loop_spec (v : variant) (s : DurableSet.t) (k : Z)
    (l : list (Z * Z)) (fuel : nat) (cur : Z) :
  lseg (DurableSet.heap s) cur l 0 →
  Forall aligned (fst <$> l) →
  from k l ≠ [] →
  (length (before k l) < fuel)%nat →
  DurableSet.contains_loop v fuel k cur s
  = Ok (default 0 (fst <$> head (from k l))) s.
Proof.
  revert fuel cur. induction l as [|ak l IH]; intros fuel cur Hl Hal Hfrom Hfuel.
  { by destruct Hfrom. }
  destruct fuel as [|fuel]; [lia|].
  pose proof Hl as (-> & n & Hn & Hk & Hl').
  pose proof (lseg_next_even _ _ _ _ _ Hl Hal Hn) as Heven.
  cbn [DurableSet.contains_loop]. unfold bind. rewrite (load_Some _ _ _ Hn).
  simpl in Hfrom, Hfuel |- *. rewrite Hk.
  destruct (decide (ak.2 < k)) as [Hlt|Hge].
  - rewrite (bool_decide_eq_true_2 _ Hlt) in Hfrom, Hfuel |- *.
    rewrite follow_even by done.
    apply Forall_cons in Hal as [_ Hal].
    simpl in Hfuel.
    by rewrite (IH fuel (Node.next n) Hl' Hal Hfrom) by lia.
  - by rewrite (bool_decide_eq_false_2 _ Hge).
Qed.

Lemma printSet_loop_spec (s : DurableSet.t) (l : list (Z * Z)) (fuel : nat)
    (cur : Z) (out : list Z) :
  lseg (DurableSet.heap s) cur l 0 →
  Forall aligned (fst <$> l) →
  (length l < fuel)%nat →
  DurableSet.printSet_loop fuel cur out s = Ok (out ++ (snd <$> l)) s.
Proof.
  revert fuel cur out. induction l as [|ak l IH]; intros fuel cur out Hl Hal Hfuel.
  { destruct fuel; [simpl in Hfuel; lia|]. simpl in Hl. subst cur. simpl.
    by rewrite app_nil_r. }
  destruct fuel as [|fuel]; [simpl in Hfuel; lia|].
  pose proof Hl as (-> & n & Hn & Hk & Hl').
  apply Forall_cons in Hal as [[Hnz _] Hal].
  cbn [DurableSet.printSet_loop].
  rewrite bool_decide_eq_false_2 by done.
  unfold bind. rewrite (load_Some _ _ _ Hn).
  simpl in Hfuel. rewrite (IH fuel _ _ Hl' Hal) by lia.
  rewrite Hk, fmap_cons, <- app_assoc. done.
Qed.

Lemma bind_modify {B} (s : DurableSet.t) a n f (k : unit → M DurableSet.t B) :
  DurableSet.heap s !! a = Some n →
  bind (DurableSet.modify a f) k s
  = k tt (DurableSet.set_heap (<[a := f n]> (DurableSet.heap s))
            (DurableSet.brk s) s).
Proof. intros Hn. unfold bind. by rewrite (modify_Some _ _ _ _ Hn). Qed.

Lemma bind_load {B} (s : DurableSet.t) a n (k : Node.t → M DurableSet.t B) :
  DurableSet.heap s !! a = Some n →
  bind (DurableSet.load a) k s = k n s.
Proof. intros Hn. unfold bind. by rewrite (load_Some _ _ _ Hn). Qed.

Lemma bind_vec_at {St A B} (v : list A) (i : Z) (x : A) (k : A → M St B) s :
  0 ≤ i → v !! Z.to_nat i = Some x →
  bind (vec_at v i) k s = k x s.
Proof.
  intros Hi Hx. unfold bind.
  by rewrite (proj2 (vec_at_Ok v i s s x)).
Qed.

(** [updateAlloc] lowers the pool index and then touches only the
    store. *)
Lemma updateAlloc_post (s : DurableSet.t) (id idx : Z) :
  0 ≤ id → DurableSet.allocIndices s !! Z.to_nat id = Some idx →
  let done_ := λ s', ∃ t, s' = DurableSet.set_mem t
    (DurableSet.set_allocIndices
       (<[Z.to_nat id := idx - 1]> (DurableSet.allocIndices s)) s) in
  post (DurableSet.updateAlloc id s) (λ _, done_) (λ _, done_).
Proof.
  intros Hid Hidx done_. unfold DurableSet.updateAlloc.
  exec_step. rewrite (bind_vec_at _ _ idx) by done.
  exec_step. apply post_on_mem.
  eapply post_mono; [apply updateAddress_post|..]; intros ? t _; by exists t.
Qed.

(** The statements of [insert] that link the new node: whether they
    return or the store throws, the node is linked. *)
Lemma link_post (s : DurableSet.t) (k x id prev cur a idx : Z) (pn an : Node.t) :
  DurableSet.heap s !! a = Some an →
  DurableSet.heap s !! prev = Some pn →
  a ≠ prev →
  0 ≤ id → DurableSet.allocIndices s !! Z.to_nat id = Some idx →
  post (DurableSet.link k x id prev cur a s)
    (λ _ s', linked s s' k cur prev a id idx pn)
    (λ _ s', linked s s' k cur prev a id idx pn).
Proof.
  intros Han Hpn Hne Hid Hidx. unfold DurableSet.link.
  do 4 (erewrite bind_modify by heap_lookup).
  erewrite bind_modify by heap_lookup.
  set (h5 := <[prev := _]> _).
  set (s5 := DurableSet.set_heap h5 _ _).
  assert (same_frame s s5
          ∧ (∃ an', h5 !! a = Some an' ∧ Node.key an' = k ∧ Node.next an' = cur)
          ∧ h5 !! prev = Some (Node.set_next a pn)
          ∧ ∀ y, y ≠ a → y ≠ prev → h5 !! y = DurableSet.heap s !! y)
    as (Hframe & (an5 & Han5 & Hk5 & Hn5) & Hprev5 & Hsame5).
  { unfold s5, h5, same_frame; simpl.
    split; [|split; [|split]].
    - repeat split.
      repeat (rewrite map_size_insert_Some by (eexists; heap_lookup)). done.
    - eexists. split; [heap_lookup|]. done.
    - by rewrite lookup_insert_eq.
    - intros y Hya Hyp. by rewrite !lookup_insert_ne by done. }
  clearbody h5.
  apply post_bind.
  eapply post_mono; [apply (updateAlloc_post s5 id idx Hid Hidx)|..].
  - intros _ s6 [t ->].
    erewrite bind_modify by (simpl; exact Han5).
    unfold DurableSet.FLUSH_INSERT.
    erewrite bind_load by (simpl; apply lookup_insert_eq).
    apply post_on_mem.
    eapply post_mono; [apply FLUSH_post|..]; intros ? t' _; simpl.
    all: unfold linked, same_frame in *; simpl in *.
    all: rewrite map_size_insert_Some by eauto.
    all: split; [tauto|]; split; [done|].
    all: split; [by rewrite lookup_insert_ne|].
    all: split; [eexists; split; [apply lookup_insert_eq|done]|].
    all: intros y Hya Hyp; rewrite lookup_insert_ne by done; by apply Hsame5.
  - intros _ s6 [t ->].
    unfold linked, same_frame in *; simpl in *.
    split; [tauto|]. split; [done|]. split; [done|].
    split; [by exists an5|done].
Qed.

Lemma unlink_post (s : DurableSet.t) (prev cur : Z) (pn cn : Node.t) :
  DurableSet.heap s !! cur = Some cn →
  DurableSet.heap s !! prev = Some pn →
  cur ≠ prev →
  post (DurableSet.unlink prev cur s)
    (λ _ s', unlinked s s' prev cur pn cn)
    (λ _ s', unlinked s s' prev cur pn cn).
Proof.
  intros Hcn Hpn Hne. unfold DurableSet.unlink.
  erewrite bind_load by exact Hcn.
  erewrite bind_modify by exact Hcn.
  erewrite bind_modify by heap_lookup.
  unfold DurableSet.FLUSH_DELETE.
  erewrite bind_load by heap_lookup.
  apply post_on_mem.
  eapply post_mono; [apply FLUSH_post|..]; intros ? t' _; simpl.
  all: unfold unlinked, same_frame; simpl.
  all: repeat (rewrite map_size_insert_Some by (eexists; heap_lookup)).
  all: split; [done|]; split; [done|].
  all: split; [by rewrite lookup_insert_eq|].
  all: intros y Hyc Hyp; by rewrite !lookup_insert_ne by done.
Qed.

Lemma top_slot_free (s : DurableSet.t) (id idx a : Z) :
  top_slot s id idx a → free_slot s a.
Proof.
  intros (Hid & Hidx & Hai & pool & Hpool & Ha).
  exists (Z.to_nat id), (Z.to_nat idx), pool, idx.
  repeat split; try done. lia.
Qed.

(** [allocFromArea] returns null and changes nothing, or returns the
    top pool node of the writer with its durable address set. *)
Lemma allocFromArea_post (s : DurableSet.t) (id : Z) :
  (∀ a, free_slot s a → is_Some (DurableSet.heap s !! a)) →
  post (DurableSet.allocFromArea id s)
    (λ a s',
       (a = 0 ∧ s' = s)
       ∨ ∃ idx an d,
           top_slot s id idx a
           ∧ DurableSet.heap s !! a = Some an
           ∧ s' = DurableSet.set_heap
                    (<[a := Node.set_durableAddress id d an]> (DurableSet.heap s))
                    (DurableSet.brk s) s)
    (λ _ s', s' = s).
Proof.
  intros Hfree. unfold DurableSet.allocFromArea.
  exec_step. exec_step; [|done]. rename x into pool.
  exec_step; [|done]. rename x into idx.
  exec_step; [|done]. rename x into a.
  assert (top_slot s id idx a) as Htop.
  { repeat split; try done. by exists pool. }
  destruct (Hfree a (top_slot_free _ _ _ _ Htop)) as [an Han].
  apply post_bind, post_on_mem.
  eapply post_mono; [apply retrieveAddress_post|..]; simpl.
  - intros d ? ->. rewrite set_mem_id.
    case_bool_decide.
    + left. done.
    + erewrite bind_modify by exact Han. simpl. right.
      exists idx, an, d. done.
  - intros ? ? ->. by rewrite set_mem_id.
Qed.

(** ** Preservation of the invariant *)

Lemma elem_of_concat_lookup {A} (ls : list (list A)) (n m : nat)
    (r : list A) (a : A) :
  ls !! n = Some r → r !! m = Some a → a ∈ concat ls.
Proof.
  revert n. induction ls as [|q ls IH]; intros n Hn Hm; [done|].
  simpl. apply elem_of_app. destruct n as [|n]; simpl in Hn.
  - injection Hn as ->. left. by eapply list_elem_of_lookup_2.
  - right. by eapply IH.
Qed.

Lemma concat_lookup_inj {A} (ls : list (list A)) (i i' j j' : nat)
    (p p' : list A) (a : A) :
  NoDup (concat ls) →
  ls !! i = Some p → p !! j = Some a →
  ls !! i' = Some p' → p' !! j' = Some a →
  i = i' ∧ j = j'.
Proof.
  revert i i'. induction ls as [|q ls IH]; intros i i' Hnd Hi Hj Hi' Hj'; [done|].
  simpl in Hnd. apply NoDup_app in Hnd as (Hq & Hdisj & Hrest).
  pose proof (elem_of_concat_lookup ls) as Hin.
  destruct i as [|i], i' as [|i']; simpl in *.
  - simplify_eq. split; [done|]. exact (NoDup_lookup _ _ _ _ Hq Hj Hj').
  - simplify_eq. exfalso.
    apply (Hdisj a); [by eapply list_elem_of_lookup_2|by eapply Hin].
  - simplify_eq. exfalso.
    apply (Hdisj a); [by eapply list_elem_of_lookup_2|by eapply Hin].
  - destruct (IH i i' Hrest Hi Hj Hi' Hj') as [-> ->]. done.
Qed.

Lemma snoc_split (x : Z * Z) (B : list (Z * Z)) :
  ∃ P kp, x :: B = P ++ [(default x.1 (fst <$> last B), kp)].
Proof.
  destruct B as [|y B _] using rev_ind.
  - exists [], x.2. by destruct x.
  - exists (x :: B), y.2. rewrite last_snoc. by destruct y.
Qed.

Lemma lseg_at h p P prev kp S q :
  lseg h p (P ++ (prev, kp) :: S) q →
  ∃ pn, h !! prev = Some pn ∧ Node.key pn = kp
        ∧ Node.next pn = default q (fst <$> head S).
Proof.
  intros (m & _ & HS)%lseg_app. simpl in HS.
  destruct HS as (_ & pn & Hpn & Hk & HS). exists pn.
  split; [done|]. split; [done|]. by apply lseg_first in HS.
Qed.

Lemma StronglySorted_insert (l1 l2 : list Z) (k : Z) :
  StronglySorted Z.lt (l1 ++ l2) →
  Forall (λ x, x < k) l1 → Forall (λ x, k < x) l2 →
  StronglySorted Z.lt (l1 ++ k :: l2).
Proof.
  rewrite !StronglySorted_app. intros (Hcross & H1 & H2) Hlt Hgt.
  split; [|split; [done|]].
  - intros x1 x2 Hx1 [->|Hx2]%elem_of_cons.
    + by eapply Forall_forall in Hlt.
    + by apply Hcross.
  - apply StronglySorted_cons. done.
Qed.

Lemma StronglySorted_delete (l1 l2 : list Z) (k : Z) :
  StronglySorted Z.lt (l1 ++ k :: l2) → StronglySorted Z.lt (l1 ++ l2).
Proof.
  rewrite !StronglySorted_app. intros (Hcross & H1 & H2).
  apply StronglySorted_cons in H2 as [_ H2].
  split; [|done]. intros x1 x2 Hx1 Hx2. apply Hcross; [done|].
  by apply list_elem_of_further.
Qed.

Lemma NoDup_insert {A} (l1 l2 : list A) (a : A) :
  NoDup (l1 ++ l2) → a ∉ l1 ++ l2 → NoDup (l1 ++ a :: l2).
Proof.
  rewrite !NoDup_app, not_elem_of_app. intros (H1 & Hd & H2) [Ha1 Ha2].
  split; [done|]. split.
  - intros x Hx [->|Hx2]%elem_of_cons; [done|]. by eapply Hd.
  - by apply NoDup_cons.
Qed.

Lemma NoDup_delete {A} (l1 l2 : list A) (a : A) :
  NoDup (l1 ++ a :: l2) → NoDup (l1 ++ l2) ∧ a ∉ l1 ++ l2.
Proof.
  rewrite !NoDup_app, not_elem_of_app. intros (H1 & Hd & H2).
  apply NoDup_cons in H2 as [Ha2 H2]. split.
  - split; [done|]. split; [|done]. intros x Hx Hx2.
    by eapply Hd, list_elem_of_further.
  - split; [|done]. intros Ha1. by eapply Hd, list_elem_of_here.
Qed.

(** The two ways to read the chain around the point where a traversal
    for [k] stops. *)
Lemma chain_split (s : DurableSet.t) (mid : list (Z * Z)) (k : Z) :
  k ≤ MAX_KEY →
  chain s mid
  = ((DurableSet.head s, MIN_KEY) :: before k mid)
      ++ from k (mid ++ [(DurableSet.tail s, MAX_KEY)])
  ∧ from k (mid ++ [(DurableSet.tail s, MAX_KEY)])
    = from k mid ++ [(DurableSet.tail s, MAX_KEY)]
  ∧ before k (mid ++ [(DurableSet.tail s, MAX_KEY)]) = before k mid.
Proof.
  intros Hk.
  destruct (before_snoc k mid (DurableSet.tail s, MAX_KEY) Hk) as [Hb Hf].
  split; [|done]. unfold chain. rewrite Hf. simpl. f_equal.
  by rewrite app_assoc, before_from.
Qed.

(** Where the traversal for [k] divides the elements and the tail. *)
Lemma mid_split (s : DurableSet.t) (mid : list (Z * Z)) (k : Z) :
  k ≤ MAX_KEY →
  mid ++ [(DurableSet.tail s, MAX_KEY)]
  = before k mid ++ from k (mid ++ [(DurableSet.tail s, MAX_KEY)]).
Proof.
  intros Hk.
  destruct (before_snoc k mid (DurableSet.tail s, MAX_KEY) Hk) as [_ ->].
  by rewrite app_assoc, before_from.
Qed.

(** Linking a pool node at the point where the traversal for [k]
    stopped keeps the invariant. *)
Lemma Inv_linked N s s' mid k cur prev a id idx pn c rest :
  Inv N s mid →
  k < MAX_KEY →
  top_slot s id idx a →
  from k (mid ++ [(DurableSet.tail s, MAX_KEY)]) = c :: rest →
  k < c.2 → cur = c.1 →
  prev = default (DurableSet.head s) (fst <$> last (before k mid)) →
  DurableSet.heap s !! prev = Some pn →
  linked s s' k cur prev a id idx pn →
  Inv N s' (before k mid ++ (a, k) :: from k mid).
Proof.
  intros HI Hk Htop Hfrom Hc -> -> Hpn
    ((Hhead & Htail & Hpools & Hsize) & Hidx' & Hprev' & (an & Han & Hank & Hann) & Hsame).
  pose proof (mid_split s mid k ltac:(lia)) as Emid.
  destruct HI as [Hchain Hsorted Hnodup Haligned Hpnd Hfree Hsz].
  pose proof Hsorted as Hsorted_mid. rewrite Emid in Hsorted.
  destruct (chain_split s mid k ltac:(lia)) as (E1 & Hfrom' & _).
  set (Sfx := from k (mid ++ [(DurableSet.tail s, MAX_KEY)])) in *.
  set (L1 := (DurableSet.head s, MIN_KEY) :: before k mid) in *.
  assert (chain s' (before k mid ++ (a, k) :: from k mid) = L1 ++ (a, k) :: Sfx) as E2.
  { unfold chain, L1. rewrite Hhead, Htail, Hfrom'. simpl. f_equal.
    by rewrite <- app_assoc. }
  rewrite E1 in Hchain, Hnodup, Haligned, Hfree.
  destruct (Hfree a (top_slot_free _ _ _ _ Htop)) as (_ & Ha_al & Ha_notin).
  destruct (snoc_split (DurableSet.head s, MIN_KEY) (before k mid)) as (P & kp & HL1).
  fold L1 in HL1. simpl in HL1.
  set (prev := default (DurableSet.head s) (fst <$> last (before k mid))) in *.
  split.
  - rewrite E2, Hhead. rewrite HL1, <- app_assoc in Hchain, Hnodup, Ha_notin |- *.
    simpl in Hchain, Hnodup, Ha_notin |- *.
    destruct (lseg_at _ _ _ _ _ _ _ Hchain) as (pn' & Hpn' & _ & Hnext).
    assert (pn' = pn) as -> by congruence.
    eapply lseg_insert; try done.
    by rewrite Hann, Hnext, Hfrom.
  - rewrite Htail, <- app_assoc, <- app_comm_cons, <- Hfrom'.
    rewrite fmap_app, fmap_cons. rewrite fmap_app in Hsorted.
    apply StronglySorted_insert; [done| |].
    + rewrite Forall_fmap. apply Forall_before.
    + rewrite Forall_fmap.
      eapply from_sorted_above; [exact Hsorted_mid|exact Hfrom|done].
  - rewrite E2, fmap_app, fmap_cons. rewrite fmap_app in Hnodup, Ha_notin.
    by apply NoDup_insert.
  - rewrite E2, fmap_app, fmap_cons. rewrite fmap_app in Haligned.
    apply Forall_app in Haligned as [H1 H2].
    apply Forall_app. split; [done|]. by constructor.
  - by rewrite Hpools.
  - intros y (id' & j & pool & idx' & Hpool & Hidx & Hj & Hy).
    rewrite Hpools in Hpool. rewrite Hidx' in Hidx.
    destruct Htop as (Hid & Hidx0 & Hai & pool0 & Hpool0 & Ha).
    assert (free_slot s y ∧ y ≠ a) as [Hyfree Hya].
    { destruct (decide (id' = Z.to_nat id)) as [->|Hne].
      - rewrite list_lookup_insert_eq in Hidx by by eapply lookup_lt_Some.
        injection Hidx as <-. assert (pool = pool0) as -> by congruence.
        split.
        + exists (Z.to_nat id), j, pool0, idx. repeat split; try done. lia.
        + intros ->.
          pose proof (concat_lookup_inj _ _ _ _ _ _ _ _ Hpnd Hpool Hy Hpool0 Ha)
            as [_ ->]. lia.
      - rewrite list_lookup_insert_ne in Hidx by done.
        split.
        + by exists id', j, pool, idx'.
        + intros ->.
          pose proof (concat_lookup_inj _ _ _ _ _ _ _ _ Hpnd Hpool Hy Hpool0 Ha)
            as [-> _]. done. }
    destruct (Hfree y Hyfree) as (Hy_in & Hy_al & Hy_notin).
    split; [|split; [done|]].
    + rewrite Hsame; [done|done|]. intros ->. apply Hy_notin.
      rewrite HL1, <- app_assoc, fmap_app. apply elem_of_app. right.
      simpl. apply list_elem_of_here.
    + rewrite E2, fmap_app, fmap_cons. rewrite fmap_app in Hy_notin.
      rewrite not_elem_of_app in Hy_notin |- *. destruct Hy_notin as [? ?].
      split; [done|]. by apply not_elem_of_cons.
  - by rewrite Hsize.
Qed.

(** Unlinking the node at which the traversal for [k] stopped keeps the
    invariant. *)
Lemma Inv_unlinked N s s' mid k prev cur pn cn rest :
  Inv N s mid →
  k ≤ MAX_KEY →
  from k mid = (cur, k) :: rest →
  prev = default (DurableSet.head s) (fst <$> last (before k mid)) →
  DurableSet.heap s !! prev = Some pn →
  DurableSet.heap s !! cur = Some cn →
  unlinked s s' prev cur pn cn →
  Inv N s' (before k mid ++ rest).
Proof.
  intros HI Hk Hfrom -> Hpn Hcn
    ((Hhead & Htail & Hpools & Hsize) & Hidx' & Hprev' & Hsame).
  pose proof (mid_split s mid k Hk) as Emid.
  destruct HI as [Hchain Hsorted Hnodup Haligned Hpnd Hfree Hsz].
  rewrite Emid in Hsorted.
  destruct (chain_split s mid k Hk) as (E1 & Hfrom' & _).
  rewrite Hfrom', Hfrom in E1, Hsorted.
  change (((cur, k) :: rest) ++ [(DurableSet.tail s, MAX_KEY)])
    with ((cur, k) :: (rest ++ [(DurableSet.tail s, MAX_KEY)])) in E1, Hsorted.
  set (Sfx := rest ++ [(DurableSet.tail s, MAX_KEY)]) in *.
  set (L1 := (DurableSet.head s, MIN_KEY) :: before k mid) in *.
  assert (chain s' (before k mid ++ rest) = L1 ++ Sfx) as E2.
  { unfold chain, L1, Sfx. rewrite Hhead, Htail. simpl. f_equal.
    by rewrite <- app_assoc. }
  rewrite E1 in Hchain, Hnodup, Haligned, Hfree.
  destruct (snoc_split (DurableSet.head s, MIN_KEY) (before k mid)) as (P & kp & HL1).
  fold L1 in HL1. simpl in HL1.
  set (prev := default (DurableSet.head s) (fst <$> last (before k mid))) in *.
  assert (cur ≠ prev) as Hne.
  { intros ->. rewrite HL1, <- app_assoc, fmap_app in Hnodup. simpl in Hnodup.
    apply NoDup_app in Hnodup as (_ & _ & Hnd).
    apply NoDup_cons in Hnd as [Hnd _]. apply Hnd, list_elem_of_here. }
  split.
  - rewrite E2, Hhead. rewrite HL1, <- app_assoc in Hchain, Hnodup |- *.
    simpl in Hchain, Hnodup |- *.
    eapply lseg_remove; done.
  - rewrite Htail, <- app_assoc. fold Sfx.
    rewrite fmap_app. rewrite fmap_app, fmap_cons in Hsorted.
    by eapply StronglySorted_delete.
  - rewrite E2, fmap_app. rewrite fmap_app, fmap_cons in Hnodup.
    by apply NoDup_delete in Hnodup as [? _].
  - rewrite E2, fmap_app. rewrite fmap_app, fmap_cons in Haligned.
    apply Forall_app in Haligned as [H1 H2].
    apply Forall_cons in H2 as [_ H2]. by apply Forall_app.
  - by rewrite Hpools.
  - intros y (id' & j & pool & idx' & Hpool & Hidx & Hj & Hy).
    rewrite Hpools in Hpool. rewrite Hidx' in Hidx.
    assert (free_slot s y) as Hyfree by by exists id', j, pool, idx'.
    destruct (Hfree y Hyfree) as (Hy_in & Hy_al & Hy_notin).
    rewrite fmap_app, fmap_cons, not_elem_of_app, not_elem_of_cons in Hy_notin.
    destruct Hy_notin as (Hy1 & Hy2 & Hy3).
    split; [|split; [done|]].
    + rewrite Hsame; [done|done|]. intros ->. apply Hy1.
      rewrite HL1, fmap_app. apply elem_of_app. right. apply list_elem_of_here.
    + rewrite E2, fmap_app, not_elem_of_app. done.
  - by rewrite Hsize.
Qed.

Lemma lseg_dom h p l q a :
  lseg h p l q → a ∈ fst <$> l → is_Some (h !! a).
Proof.
  revert p. induction l as [|ak l IH]; intros p Hl Ha.
  { by apply elem_of_nil in Ha. }
  destruct Hl as (-> & n & Hn & _ & Hl).
  rewrite fmap_cons in Ha. apply elem_of_cons in Ha as [->|Ha]; [by exists n|].
  by eapply IH.
Qed.

Lemma Inv_length N s mid : Inv N s mid → (length mid + 2 ≤ N)%nat.
Proof.
  intros [Hchain _ Hnodup _ _ _ Hsz].
  assert (length (fst <$> chain s mid) ≤ size (DurableSet.heap s))%nat as Hle.
  { rewrite <- (size_list_to_set (C:=gset Z)) by done.
    rewrite <- size_dom. apply subseteq_size.
    intros a Ha%elem_of_list_to_set. apply elem_of_dom. by eapply lseg_dom. }
  rewrite length_fmap in Hle. unfold chain in Hle.
  rewrite length_cons, length_app in Hle. simpl in Hle. lia.
Qed.

(** The node a traversal for [k ≤ MAX_KEY] stops at. *)
Lemma Inv_stop N s mid k :
  Inv N s mid → k ≤ MAX_KEY →
  ∃ c rest cn,
    from k (mid ++ [(DurableSet.tail s, MAX_KEY)]) = c :: rest
    ∧ k ≤ c.2
    ∧ DurableSet.heap s !! c.1 = Some cn
    ∧ Node.key cn = c.2
    ∧ Z.even (Node.next cn) = true.
Proof.
  intros HI Hk. destruct (chain_split s mid k Hk) as (E1 & Hfrom' & _).
  destruct HI as [Hchain _ _ Haligned _ _ _].
  destruct (from k (mid ++ [(DurableSet.tail s, MAX_KEY)])) as [|c rest] eqn:Hfrom.
  { by destruct (from k mid). }
  exists c, rest.
  rewrite E1 in Hchain, Haligned.
  apply lseg_app in Hchain as (m & _ & Hc).
  rewrite fmap_app in Haligned. apply Forall_app in Haligned as [_ Hal].
  pose proof Hc as (_ & cn & Hcn & Hkey & _).
  exists cn. split; [done|]. split; [by eapply from_head|].
  split; [done|]. split; [done|]. by eapply lseg_next_even.
Qed.

(** The node before it. *)
Lemma Inv_prev N s mid k :
  Inv N s mid → k ≤ MAX_KEY →
  ∃ pn,
    DurableSet.heap s
      !! default (DurableSet.head s) (fst <$> last (before k mid)) = Some pn
    ∧ Node.next pn
      = default 0 (fst <$> head (from k (mid ++ [(DurableSet.tail s, MAX_KEY)]))).
Proof.
  intros HI Hk. destruct (chain_split s mid k Hk) as (E1 & _ & _).
  destruct HI as [Hchain _ _ _ _ _ _]. rewrite E1 in Hchain.
  destruct (snoc_split (DurableSet.head s, MIN_KEY) (before k mid)) as (P & kp & HL1).
  simpl in HL1. rewrite HL1, <- app_assoc in Hchain. simpl in Hchain.
  destruct (lseg_at _ _ _ _ _ _ _ Hchain) as (pn & Hpn & _ & Hnext).
  by exists pn.
Qed.

Lemma find_spec v N s mid k fuel :
  Inv N s mid → k ≤ MAX_KEY → (N ≤ fuel)%nat →
  DurableSet.find v fuel k s
  = Ok (default (DurableSet.head s) (fst <$> last (before k mid)),
        default 0 (fst <$> head (from k (mid ++ [(DurableSet.tail s, MAX_KEY)])))) s.
Proof.
  intros HI Hk Hfuel. pose proof (Inv_length _ _ _ HI) as Hlen.
  destruct (chain_split s mid k Hk) as (_ & Hfrom' & Hbefore').
  pose proof HI as [Hchain _ _ Haligned _ _ _].
  pose proof Hchain as (_ & hn & Hhn & _ & Hrest).
  pose proof (lseg_next_even _ _ _ _ _ Hchain Haligned Hhn) as Heven.
  apply Forall_cons in Haligned as [_ Hal].
  unfold DurableSet.find. unfold bind at 1, get at 1.
  erewrite bind_load by exact Hhn. rewrite follow_even by done.
  rewrite (find_loop_spec v s k (mid ++ [(DurableSet.tail s, MAX_KEY)])).
  - by rewrite Hbefore'.
  - done.
  - done.
  - rewrite Hfrom'. by destruct (from k mid).
  - rewrite Hbefore'.
    assert (length (before k mid) ≤ length mid)%nat.
    { rewrite <- (before_from k mid) at 2. rewrite length_app. lia. }
    lia.
Qed.

Lemma contains_spec v N s mid k fuel :
  Inv N s mid → k ≤ MAX_KEY → (N ≤ fuel)%nat →
  DurableSet.contains v fuel k s
  = Ok (bool_decide
          (snd <$> head (from k (mid ++ [(DurableSet.tail s, MAX_KEY)])) = Some k))
       s.
Proof.
  intros HI Hk Hfuel. pose proof (Inv_length _ _ _ HI) as Hlen.
  destruct (chain_split s mid k Hk) as (_ & Hfrom' & Hbefore').
  destruct (Inv_stop _ _ _ _ HI Hk) as (c & rest & cn & Hfrom & Hc & Hcn & Hkey & Hceven).
  pose proof HI as [Hchain _ _ Haligned _ _ _].
  pose proof Hchain as (_ & hn & Hhn & _ & Hrest).
  pose proof (lseg_next_even _ _ _ _ _ Hchain Haligned Hhn) as Heven.
  apply Forall_cons in Haligned as [_ Hal].
  unfold DurableSet.contains. unfold bind at 1, get at 1.
  erewrite bind_load by exact Hhn. rewrite follow_even by done.
  unfold bind at 1.
  rewrite (contains_loop_spec v s k (mid ++ [(DurableSet.tail s, MAX_KEY)])).
  - rewrite Hfrom. simpl. erewrite bind_load by exact Hcn.
    rewrite Hkey, (isNextMarked_even _ Hceven).
    destruct v; simpl; repeat case_bool_decide; simplify_eq; done.
  - done.
  - done.
  - by rewrite Hfrom.
  - rewrite Hbefore'.
    assert (length (before k mid) ≤ length mid)%nat.
    { rewrite <- (before_from k mid) at 2. rewrite length_app. lia. }
    lia.
Qed.

(** ** The operations on a well-formed set *)

Lemma invalidated_spec N s mid k :
  Inv N s mid → k ≤ MAX_KEY →
  DurableSet.invalidated
    (default (DurableSet.head s) (fst <$> last (before k mid)))
    (default 0 (fst <$> head (from k (mid ++ [(DurableSet.tail s, MAX_KEY)])))) s
  = Ok false s.
Proof.
  intros HI Hk.
  destruct (Inv_stop _ _ _ _ HI Hk) as (c & rest & cn & Hfrom & Hc & Hcn & Hkey & Hceven).
  destruct (Inv_prev _ _ _ _ HI Hk) as (pn & Hpn & Hnext).
  unfold DurableSet.invalidated.
  erewrite bind_load by exact Hpn. rewrite Hfrom in Hnext |- *. simpl in Hnext |- *.
  erewrite bind_load by exact Hcn. unfold ret.
  rewrite (isNextMarked_even _ Hceven), bool_decide_eq_true_2 by done. done.
Qed.

(** The part of [insert] after the traversal (and the validation). *)
Lemma insert_body_post N s mid k x id :
  Inv N s mid → k < MAX_KEY →
  let prev := default (DurableSet.head s) (fst <$> last (before k mid)) in
  let cur :=
    default 0 (fst <$> head (from k (mid ++ [(DurableSet.tail s, MAX_KEY)]))) in
  post
    ((do c <- DurableSet.load cur;
      if bool_decide (Node.key c = k) then ret false
      else
        do newNode <- DurableSet.allocFromArea id;
        if bool_decide (newNode = 0) then ret false
        else DurableSet.link k x id prev cur newNode;;; ret true) s)
    (λ b s', (b = false ∧ s' = s)
             ∨ (b = true ∧ ∃ a, Inv N s' (before k mid ++ (a, k) :: from k mid)))
    (λ _ s', s' = s ∨ ∃ a, Inv N s' (before k mid ++ (a, k) :: from k mid)).
Proof.
  intros HI Hk prev cur.
  destruct (Inv_stop N s mid k HI ltac:(lia)) as (c & rest & cn & Hfrom & Hc & Hcn & Hkey & _).
  destruct (Inv_prev N s mid k HI ltac:(lia)) as (pn & Hpn & _). fold prev in Hpn.
  assert (cur = c.1) as Hcur by (unfold cur; by rewrite Hfrom).
  erewrite bind_load by (rewrite Hcur; exact Hcn). rewrite Hkey.
  case_bool_decide as Hdup; [by left|].
  apply post_bind.
  eapply post_mono;
    [apply allocFromArea_post; intros a Ha; by apply (inv_free _ _ _ HI)
    | |by left].
  intros a s1 [[-> ->]|(idx & an & d & Htop & Han & ->)]; simpl.
  { by left. }
  destruct (inv_free _ _ _ HI a (top_slot_free _ _ _ _ Htop)) as (_ & [Hnz _] & Hnotin).
  rewrite bool_decide_eq_false_2 by done.
  assert (a ≠ prev) as Hne.
  { intros ->. apply Hnotin.
    destruct (chain_split s mid k ltac:(lia)) as (-> & _ & _).
    destruct (snoc_split (DurableSet.head s, MIN_KEY) (before k mid)) as (P & kp & HL1).
    simpl in HL1. rewrite HL1, <- app_assoc, fmap_app. apply elem_of_app. right.
    apply list_elem_of_here. }
  set (s1 := DurableSet.set_heap _ _ s).
  pose proof Htop as (Hid & Hidx & Hai & _).
  assert (∀ s', linked s1 s' k cur prev a id idx pn →
                Inv N s' (before k mid ++ (a, k) :: from k mid)) as Hdone.
  { intros s' ((Hhead & Htail & Hpools & Hsize) & Hidx' & Hprev' & Hnew & Hsame).
    eapply (Inv_linked N s s'); try done; [lia|].
    split; [|split; [done|]; split; [done|]; split; [done|]].
    - split; [done|]. split; [done|]. split; [done|].
      rewrite Hsize. unfold s1; simpl. apply map_size_insert_Some. by exists an.
    - intros y Hya Hyp. rewrite Hsame by done. unfold s1; simpl.
      by apply lookup_insert_ne. }
  apply post_bind.
  eapply post_mono; [eapply (link_post s1 k x id prev cur a idx pn)|..].
  - unfold s1; simpl. apply lookup_insert_eq.
  - unfold s1; simpl. by rewrite lookup_insert_ne.
  - done.
  - done.
  - done.
  - intros ? s' Hl. simpl. right. split; [done|]. exists a. by apply Hdone.
  - intros ? s' Hl. simpl. right. exists a. by apply Hdone.
Qed.

Lemma insert_post v N s mid k x id fuel :
  Inv N s mid → k < MAX_KEY → (N ≤ fuel)%nat →
  post (DurableSet.insert v fuel k x id s)
    (λ b s', (b = false ∧ s' = s)
             ∨ (b = true ∧ ∃ a, Inv N s' (before k mid ++ (a, k) :: from k mid)))
    (λ _ s', s' = s ∨ ∃ a, Inv N s' (before k mid ++ (a, k) :: from k mid)).
Proof.
  intros HI Hk Hfuel. pose proof (Inv_length _ _ _ HI) as Hlen.
  assert (∀ v', v' = Lock ∨ v' = MRLock →
    post (DurableSet.locked_insert v' fuel fuel k x id s)
      (λ b s', (b = false ∧ s' = s)
               ∨ (b = true ∧ ∃ a, Inv N s' (before k mid ++ (a, k) :: from k mid)))
      (λ _ s', s' = s ∨ ∃ a, Inv N s' (before k mid ++ (a, k) :: from k mid)))
    as Hlocked.
  { intros v' _. destruct fuel as [|fuel']; [lia|].
    cbn [DurableSet.locked_insert]. unfold bind at 1.
    rewrite (find_spec v' N s mid k) by (done || lia). cbn [fst snd].
    unfold bind at 1. rewrite (invalidated_spec N s mid k) by (done || lia).
    by apply insert_body_post. }
  destruct v; [|apply Hlocked; by left|apply Hlocked; by right].
  unfold DurableSet.insert, DurableSet.Sequential_insert. unfold bind at 1.
  rewrite (find_spec Sequential N s mid k) by (done || lia). cbn [fst snd].
  by apply insert_body_post.
Qed.

(** Inserting a key that is present returns [false] and changes
    nothing. *)
Lemma insert_present v N s mid k x id fuel a rest :
  Inv N s mid → k < MAX_KEY → (N ≤ fuel)%nat →
  from k mid = (a, k) :: rest →
  DurableSet.insert v fuel k x id s = Ok false s.
Proof.
  intros HI Hk Hfuel Hfrom. pose proof (Inv_length _ _ _ HI) as Hlen.
  destruct (chain_split s mid k ltac:(lia)) as (_ & Hfrom' & _).
  destruct (Inv_stop N s mid k HI ltac:(lia)) as (c & rest' & cn & Hc & _ & Hcn & Hkey & _).
  rewrite Hfrom', Hfrom in Hc. injection Hc as <- <-. simpl in Hcn, Hkey.
  assert (∀ v', DurableSet.locked_insert v' fuel fuel k x id s = Ok false s)
    as Hlocked.
  { intros v'. destruct fuel as [|fuel']; [lia|].
    cbn [DurableSet.locked_insert]. unfold bind at 1.
    rewrite (find_spec v' N s mid k) by (done || lia). cbn [fst snd].
    unfold bind at 1. rewrite (invalidated_spec N s mid k) by (done || lia).
    rewrite Hfrom', Hfrom. simpl.
    erewrite bind_load by exact Hcn.
    by rewrite bool_decide_eq_true_2. }
  destruct v; [|apply Hlocked..].
  unfold DurableSet.insert, DurableSet.Sequential_insert. unfold bind at 1.
  rewrite (find_spec Sequential N s mid k) by (done || lia). cbn [fst snd].
  rewrite Hfrom', Hfrom. simpl.
  erewrite bind_load by exact Hcn.
  by rewrite bool_decide_eq_true_2.
Qed.

(** The part of [remove] after the traversal (and the validation). *)
Lemma remove_body_post N s mid k :
  Inv N s mid → k < MAX_KEY →
  let prev := default (DurableSet.head s) (fst <$> last (before k mid)) in
  let cur :=
    default 0 (fst <$> head (from k (mid ++ [(DurableSet.tail s, MAX_KEY)]))) in
  post
    ((do c <- DurableSet.load cur;
      if negb (bool_decide (Node.key c = k)) then ret false
      else DurableSet.unlink prev cur;;; ret true) s)
    (λ b s', (b = false ∧ s' = s)
             ∨ (b = true ∧ ∃ a rest, from k mid = (a, k) :: rest
                                     ∧ Inv N s' (before k mid ++ rest)))
    (λ _ s', ∃ a rest, from k mid = (a, k) :: rest
                       ∧ Inv N s' (before k mid ++ rest)).
Proof.
  intros HI Hk prev cur.
  destruct (Inv_stop N s mid k HI ltac:(lia)) as (c & rest & cn & Hfrom & Hc & Hcn & Hkey & _).
  destruct (Inv_prev N s mid k HI ltac:(lia)) as (pn & Hpn & _). fold prev in Hpn.
  assert (cur = c.1) as Hcur by (unfold cur; by rewrite Hfrom).
  erewrite bind_load by (rewrite Hcur; exact Hcn). rewrite Hkey.
  case_bool_decide as Hdup; simpl; [|by left].
  destruct (chain_split s mid k ltac:(lia)) as (E1 & Hfrom' & _).
  assert (∃ rest', from k mid = (c.1, k) :: rest') as [rest' Hfm].
  { rewrite Hfrom' in Hfrom. destruct (from k mid) as [|c' r'].
    - simpl in Hfrom. injection Hfrom as <- _. simpl in Hdup. lia.
    - simpl in Hfrom. injection Hfrom as -> _. exists r'. by destruct c; simplify_eq/=. }
  assert (c.1 ≠ prev) as Hne.
  { intros Heq. pose proof (inv_nodup _ _ _ HI) as Hnd.
    rewrite E1, Hfrom in Hnd.
    destruct (snoc_split (DurableSet.head s, MIN_KEY) (before k mid)) as (P & kp & HL1).
    simpl in HL1. fold prev in HL1. rewrite HL1, <- app_assoc, fmap_app in Hnd.
    simpl in Hnd. apply NoDup_app in Hnd as (_ & _ & Hnd).
    apply NoDup_cons in Hnd as [Hnd _]. apply Hnd. rewrite Heq. apply list_elem_of_here. }
  apply post_bind. rewrite Hcur.
  eapply post_mono; [eapply (unlink_post s prev c.1 pn cn)|..]; try done.
  - intros ? s' Hl. simpl. right. split; [done|]. exists c.1, rest'. split; [done|].
    eapply (Inv_unlinked N s s' mid k prev c.1); try done. lia.
  - intros ? s' Hl. simpl. exists c.1, rest'. split; [done|].
    eapply (Inv_unlinked N s s' mid k prev c.1); try done. lia.
Qed.

Lemma remove_post v N s mid k fuel :
  Inv N s mid → k < MAX_KEY → (N ≤ fuel)%nat →
  post (DurableSet.remove v fuel k s)
    (λ b s', (b = false ∧ s' = s)
             ∨ (b = true ∧ ∃ a rest, from k mid = (a, k) :: rest
                                     ∧ Inv N s' (before k mid ++ rest)))
    (λ _ s', ∃ a rest, from k mid = (a, k) :: rest
                       ∧ Inv N s' (before k mid ++ rest)).
Proof.
  intros HI Hk Hfuel. pose proof (Inv_length _ _ _ HI) as Hlen.
  assert (∀ v',
    post (DurableSet.locked_remove v' fuel fuel k s)
      (λ b s', (b = false ∧ s' = s)
               ∨ (b = true ∧ ∃ a rest, from k mid = (a, k) :: rest
                                       ∧ Inv N s' (before k mid ++ rest)))
      (λ _ s', ∃ a rest, from k mid = (a, k) :: rest
                         ∧ Inv N s' (before k mid ++ rest)))
    as Hlocked.
  { intros v'. destruct fuel as [|fuel']; [lia|].
    cbn [DurableSet.locked_remove]. unfold bind at 1.
    rewrite (find_spec v' N s mid k) by (done || lia). cbn [fst snd].
    unfold bind at 1. rewrite (invalidated_spec N s mid k) by (done || lia).
    by apply remove_body_post. }
  destruct v; [|apply Hlocked..].
  unfold DurableSet.remove, DurableSet.Sequential_remove. unfold bind at 1.
  rewrite (find_spec Sequential N s mid k) by (done || lia). cbn [fst snd].
  by apply remove_body_post.
Qed.

(** Every history of admissible operations keeps the invariant, and
    runs to its end or to an exception. *)
Lemma run_post v N s mid ops fuel :
  Inv N s mid → Forall admissible ops → (N ≤ fuel)%nat →
  post (run v fuel ops s)
    (λ _ s', ∃ mid', Inv N s' mid') (λ _ s', ∃ mid', Inv N s' mid').
Proof.
  intros HI Hops Hfuel. revert s mid HI.
  induction Hops as [|o ops Ho _ IH]; intros s mid HI; [by exists mid|].
  cbn [run]. apply post_bind.
  destruct o as [k x id|k|k]; simpl in Ho |- *.
  - eapply post_mono; [by apply (insert_post v N s mid k x id fuel)|..].
    + intros b s' [[_ ->]|[_ [a Ha]]]; by eapply IH.
    + intros _ s' [->|[a Ha]]; eauto.
  - eapply post_mono; [by apply (remove_post v N s mid k fuel)|..].
    + intros b s' [[_ ->]|[_ (a & rest & _ & Ha)]]; by eapply IH.
    + intros _ s' (a & rest & _ & Ha); eauto.
  - rewrite (contains_spec v N s mid k fuel) by done. simpl. by eapply IH.
Qed.

Lemma aligned_row (n : Z) : 0 ≤ n → aligned (64 + 64 * n).
Proof.
  intros Hn. split; [lia|].
  replace (64 + 64 * n) with (2 * (32 + 32 * n)) by lia.
  by rewrite Z.even_mul.
Qed.

(** A constructor establishes the invariant, with no elements. *)
Lemma Inv_create v m numIDs wov s :
  DurableSet.create v m numIDs wov = Ok tt s →
  Inv (size (DurableSet.heap s)) s [].
Proof.
  intros Hcreate. unfold DurableSet.create in Hcreate.
  pose proof (construct_spec v numIDs wov _ (below_brk_nothing m)) as Hpost.
  rewrite Hcreate in Hpost. simpl in Hpost.
  destruct Hpost as (Hcat & Hhead & Htail & Hh & Ht & Hnodes).
  set (total := length (concat (DurableSet.preAllocatedNodes s))) in *.
  unfold DurableSet.node_align in *.
  split.
  - unfold chain. simpl. split; [done|]. eexists. split; [exact Hh|].
    split; [done|]. simpl. split; [done|]. eexists. split; [exact Ht|]. done.
  - simpl. repeat constructor.
  - unfold chain. simpl. apply NoDup_cons. split; [|apply NoDup_singleton].
    rewrite list_elem_of_singleton. lia.
  - unfold chain. simpl. rewrite Htail, Hhead.
    constructor; [apply aligned_row; lia|].
    constructor; [|constructor].
    replace (64 + 64 * Z.of_nat total + 64) with (64 + 64 * (Z.of_nat total + 1)) by lia.
    apply aligned_row. lia.
  - rewrite Hcat. apply NoDup_row_from.
  - intros a (id & j & pool & idx & Hpool & _ & _ & Ha).
    pose proof (elem_of_concat_lookup _ _ _ _ _ Hpool Ha) as Hin.
    rewrite Hcat in Hin. apply elem_of_row_from in Hin as (i & Hi & ->).
    split; [by rewrite Hnodes|]. split; [apply aligned_row; lia|].
    unfold chain. simpl. rewrite Htail, Hhead.
    rewrite !not_elem_of_cons. split; [lia|]. split; [lia|]. apply not_elem_of_nil.
  - done.
Qed.

Lemma printSet_spec N s mid fuel :
  Inv N s mid → (N ≤ fuel)%nat →
  DurableSet.printSet fuel s = Ok (snd <$> chain s mid) s.
Proof.
  intros HI Hfuel. pose proof (Inv_length _ _ _ HI) as Hlen.
  destruct HI as [Hchain _ _ Haligned _ _ _].
  destruct Hchain as (_ & hn & Hhn & Hkey & Hrest).
  apply Forall_cons in Haligned as [_ Hal].
  unfold DurableSet.printSet. unfold bind at 1, get at 1.
  erewrite bind_load by exact Hhn.
  rewrite (printSet_loop_spec s (mid ++ [(DurableSet.tail s, MAX_KEY)])).
  - by rewrite Hkey.
  - done.
  - done.
  - rewrite length_app. simpl. lia.
Qed.

Lemma Inv_prints_ascending N s mid fuel :
  Inv N s mid → Forall (λ ak : Z * Z, MIN_KEY < ak.2) mid → (N ≤ fuel)%nat →
  prints_ascending fuel s.
Proof.
  intros HI Hmin Hfuel. exists (snd <$> chain s mid).
  split; [by eapply printSet_spec|].
  split.
  { unfold chain. rewrite fmap_cons. apply StronglySorted_cons.
    split; [|by destruct HI].
    rewrite Forall_fmap. apply Forall_app. split; [done|].
    by repeat constructor. }
  split; [done|]. unfold chain. rewrite fmap_cons, fmap_app.
  change (snd <$> [(DurableSet.tail s, MAX_KEY)]) with [MAX_KEY].
  by rewrite app_comm_cons, last_snoc.
Qed.

Lemma in_domain_admissible (o : op) : in_domain o → admissible o.
Proof. destruct o; simpl; lia. Qed.

Lemma Forall_before_from (P : Z * Z → Prop) (k : Z) (l : list (Z * Z)) :
  Forall P l → Forall P (before k l) ∧ Forall P (from k l).
Proof. intros Hl. apply Forall_app. by rewrite before_from. Qed.

(** With inserted keys above [MIN_KEY], every element stays above the
    key of the head. *)
Lemma run_post_domain v N s mid ops fuel :
  Inv N s mid →
  Forall (λ ak : Z * Z, MIN_KEY < ak.2) mid →
  Forall in_domain ops → (N ≤ fuel)%nat →
  post (run v fuel ops s)
    (λ _ s', ∃ mid', Inv N s' mid' ∧ Forall (λ ak : Z * Z, MIN_KEY < ak.2) mid')
    (λ _ s', ∃ mid', Inv N s' mid' ∧ Forall (λ ak : Z * Z, MIN_KEY < ak.2) mid').
Proof.
  intros HI Hmin Hops Hfuel. revert s mid HI Hmin.
  induction Hops as [|o ops Ho _ IH]; intros s mid HI Hmin; [by exists mid|].
  destruct (Forall_before_from _ (match o with
                                  | DoInsert k _ _ | DoRemove k | DoContains k => k
                                  end) mid Hmin) as [Hb Hf].
  cbn [run]. apply post_bind.
  destruct o as [k x id|k|k]; simpl in Ho |- *.
  - assert (∀ a, Forall (λ ak : Z * Z, MIN_KEY < ak.2)
                   (before k mid ++ (a, k) :: from k mid)) as Hmin'.
    { intros a. apply Forall_app. split; [done|]. constructor; [simpl; lia|done]. }
    eapply post_mono; [apply (insert_post v N s mid k x id fuel); [done|lia|done]|..].
    + intros b s' [[_ ->]|[_ [a Ha]]]; by eapply IH.
    + intros _ s' [->|[a Ha]]; eauto.
  - assert (∀ a rest, from k mid = (a, k) :: rest →
                      Forall (λ ak : Z * Z, MIN_KEY < ak.2) (before k mid ++ rest))
      as Hmin'.
    { intros a rest Hfrom. rewrite Hfrom in Hf. apply Forall_cons in Hf as [_ Hf].
      by apply Forall_app. }
    eapply post_mono; [apply (remove_post v N s mid k fuel); [done|lia|done]|..].
    + intros b s' [[_ ->]|[_ (a & rest & Hfrom & Ha)]]; eapply IH; eauto.
    + intros _ s' (a & rest & Hfrom & Ha); eauto.
  - rewrite (contains_spec v N s mid k fuel) by done. simpl. by eapply IH.
Qed.

(** ** Sortedness, membership and the upper sentinel *)

(** C6: starting from a freshly constructed Sequential, Lock or MRLock
    set, every history of inserts and removes with keys strictly between
    the sentinels, and lookups, runs to its end or to an exception, and
    in the state it leaves the traversal from the head prints strictly
    ascending keys, from [MIN_KEY] to [MAX_KEY]. *)
Theorem sortedness_preserved (v : variant) (m : MemoryManager.t) (numIDs : Z)
    (writeOpsVector : list Z) (s0 : DurableSet.t) (ops : list op) (fuel : nat) :
  DurableSet.create v m numIDs writeOpsVector = Ok tt s0 →
  Forall in_domain ops →
  (size (DurableSet.heap s0) ≤ fuel)%nat →
  post (run v fuel ops s0)
    (λ _ s, prints_ascending fuel s) (λ _ s, prints_ascending fuel s).
Proof.
  intros Hcreate Hops Hfuel.
  eapply post_mono;
    [apply (run_post_domain v _ s0 [] ops fuel (Inv_create _ _ _ _ _ Hcreate));
       [constructor|exact Hops|exact Hfuel]|..].
  - intros _ s (mid & HI & Hmin). by eapply Inv_prints_ascending.
  - intros _ s (mid & HI & Hmin). by eapply Inv_prints_ascending.
Qed.

Lemma sortedness_preserved_witness :
  ∃ m s0,
    fresh_store 1 3 = Some m
    ∧ DurableSet.Sequential_create m 3 = Ok tt s0
    ∧ post (run Sequential 5
              [DoInsert 3 30 0; DoInsert 1 10 0; DoInsert 2 20 0; DoRemove 1; DoContains 2]
              s0)
        (λ _ s, prints_ascending 5 s) (λ _ s, prints_ascending 5 s).
Proof.
  assert (∃ m s0, fresh_store 1 3 = Some m
                  ∧ DurableSet.create Sequential m 1 [3] = Ok tt s0
                  ∧ (size (DurableSet.heap s0) ≤ 5)%nat)
    as (m & s0 & Hm & Hs & Hsize).
  { do 2 eexists. split; [vm_compute; reflexivity|].
    split; [vm_compute; reflexivity|]. vm_compute. lia. }
  exists m, s0. split; [exact Hm|]. split; [exact Hs|].
  apply (sortedness_preserved Sequential m 1 [3] s0 _ 5 Hs); [|exact Hsize].
  repeat apply Forall_cons_2; try apply Forall_nil_2;
    simpl; unfold MIN_KEY, MAX_KEY; lia.
Defined.

(** C7: in a state reached from a fresh set by admissible operations,
    after [insert(k, item)] has returned [true] for a key below
    [MAX_KEY], [contains(k)] returns [true], and a second
    [insert(k, item')] returns [false] and leaves the set as it is. *)
Theorem insert_then_contains (v : variant) (m : MemoryManager.t) (numIDs : Z)
    (writeOpsVector : list Z) (s0 s s1 : DurableSet.t) (ops : list op)
    (fuel : nat) (k item id item' id' : Z) :
  DurableSet.create v m numIDs writeOpsVector = Ok tt s0 →
  Forall admissible ops →
  (size (DurableSet.heap s0) ≤ fuel)%nat →
  run v fuel ops s0 = Ok tt s →
  k < MAX_KEY →
  DurableSet.insert v fuel k item id s = Ok true s1 →
  DurableSet.contains v fuel k s1 = Ok true s1
  ∧ DurableSet.insert v fuel k item' id' s1 = Ok false s1.
Proof.
  intros Hcreate Hops Hfuel Hrun Hk Hins.
  pose proof (run_post v _ s0 [] ops fuel (Inv_create _ _ _ _ _ Hcreate) Hops Hfuel)
    as Hpost.
  rewrite Hrun in Hpost. destruct Hpost as [mid HI].
  pose proof (insert_post v _ s mid k item id fuel HI Hk Hfuel) as Hpost.
  rewrite Hins in Hpost. destruct Hpost as [[[=] _]|[_ [a HI1]]].
  destruct (before_app_stop k (before k mid) (from k mid) (a, k)
              (Forall_before k mid) ltac:(simpl; lia)) as [_ Hfrom].
  split.
  - rewrite (contains_spec v _ s1 _ k fuel HI1) by (done || lia).
    destruct (chain_split s1 (before k mid ++ (a, k) :: from k mid) k ltac:(lia))
      as (_ & -> & _).
    rewrite Hfrom. by rewrite bool_decide_eq_true_2.
  - by eapply insert_present.
Qed.

Lemma insert_then_contains_witness :
  ∃ m s0 s1,
    fresh_store 1 2 = Some m
    ∧ DurableSet.Sequential_create m 2 = Ok tt s0
    ∧ DurableSet.insert Sequential 4 5 50 0 s0 = Ok true s1
    ∧ DurableSet.contains Sequential 4 5 s1 = Ok true s1
    ∧ DurableSet.insert Sequential 4 5 99 0 s1 = Ok false s1.
Proof.
  assert (∃ m s0 s1, fresh_store 1 2 = Some m
                     ∧ DurableSet.create Sequential m 1 [2] = Ok tt s0
                     ∧ DurableSet.insert Sequential 4 5 50 0 s0 = Ok true s1
                     ∧ (size (DurableSet.heap s0) ≤ 4)%nat)
    as (m & s0 & s1 & Hm & Hs & Hins & Hsize).
  { do 3 eexists. split; [vm_compute; reflexivity|].
    split; [vm_compute; reflexivity|]. split; [vm_compute; reflexivity|].
    vm_compute. lia. }
  exists m, s0, s1. split; [exact Hm|]. split; [exact Hs|]. split; [exact Hins|].
  apply (insert_then_contains Sequential m 1 [2] s0 s0 s1 [] 4 5 50 0 99 0 Hs);
    [constructor|exact Hsize|reflexivity| |exact Hins].
  unfold MIN_KEY, MAX_KEY. lia.
Defined.

(** ** Reachable states *)

Lemma Inv_size N s mid : Inv N s mid → Inv (size (DurableSet.heap s)) s mid.
Proof. intros [? ? ? ? ? ? ?]. by split. Qed.

Lemma reachable_Inv v s :
  reachable v s → ∃ mid, Inv (size (DurableSet.heap s)) s mid.
Proof.
  intros (m & numIDs & wov & s0 & ops & fuel & Hcreate & Hops & Hfuel & Hfinal).
  pose proof (run_post v _ s0 [] ops fuel (Inv_create _ _ _ _ _ Hcreate) Hops Hfuel)
    as Hpost.
  destruct (run v fuel ops s0); simpl in *; simplify_eq;
    destruct Hpost as [mid HI]; exists mid; by eapply Inv_size.
Qed.

Lemma reachable_create v m numIDs wov s :
  DurableSet.create v m numIDs wov = Ok tt s → reachable v s.
Proof.
  intros Hcreate.
  exists m, numIDs, wov, s, [], (size (DurableSet.heap s)).
  repeat split; [done|constructor|lia].
Qed.

(** In a sorted list the traversal for [k] stops at [k] exactly when
    [k] occurs. *)
Lemma from_head_iff (k : Z) (l : list (Z * Z)) :
  StronglySorted Z.lt (snd <$> l) →
  snd <$> head (from k l) = Some k ↔ k ∈ snd <$> l.
Proof.
  induction l as [|ak l IH]; intros Hs.
  { simpl. split; [done|]. by intros ?%elem_of_nil. }
  rewrite fmap_cons in Hs. apply StronglySorted_cons in Hs as [Hall Hs].
  cbn [from]. case_bool_decide as Hlt.
  - rewrite IH by done. rewrite fmap_cons, elem_of_cons. split; [auto|].
    intros [->|?]; [lia|done].
  - simpl. rewrite elem_of_cons. split; [intros [= ->]; by left|].
    intros [->|Hin]; [done|].
    rewrite Forall_forall in Hall. specialize (Hall _ Hin). lia.
Qed.
Lemma example_fresh_reachable : reachable Lock example_fresh.
Proof.
  exists example_store, 2, [2; 1], example_fresh, [], 5%nat.
  split; [vm_compute; reflexivity|]. split; [constructor|].
  split; [vm_compute; lia|reflexivity].
Qed.

Lemma example_set_reachable : reachable Lock example_set.
Proof.
  exists example_store, 2, [2; 1], example_fresh, example_history, 5%nat.
  split; [vm_compute; reflexivity|].
  split; [repeat constructor; unfold MAX_KEY; lia|].
  split; [vm_compute; lia|vm_compute; reflexivity].
Qed.

Lemma settled_reachable v s : settled v s → reachable v s.
Proof.
  intros (m & numIDs & wov & s0 & ops & fuel & Hcreate & Hops & Hfuel & Hrun).
  exists m, numIDs, wov, s0, ops, fuel. by rewrite Hrun.
Qed.

Lemma example_set_settled : settled Lock example_set.
Proof.
  exists example_store, 2, [2; 1], example_fresh, example_history, 5%nat.
  split; [vm_compute; reflexivity|].
  split; [repeat constructor; unfold MAX_KEY; lia|].
  split; [vm_compute; lia|vm_compute; reflexivity].
Qed.

(** X1: in a state that a history of admissible operations has left a
    Sequential, Lock or MRLock set in, [contains(k)] for a key
    [k ≤ MAX_KEY] other than [MIN_KEY] returns whether [k] is among the
    keys that [printSet] prints; neither call changes the state. *)
Theorem contains_iff_printed (v : variant) (s : DurableSet.t) (fuel : nat)
    (k : Z) :
  reachable v s →
  (size (DurableSet.heap s) ≤ fuel)%nat →
  k ≤ MAX_KEY → k ≠ MIN_KEY →
  ∃ ks, DurableSet.printSet fuel s = Ok ks s
        ∧ DurableSet.contains v fuel k s = Ok (bool_decide (k ∈ ks)) s.
Proof.
  intros [mid HI]%reachable_Inv Hfuel Hk Hmin.
  exists (snd <$> chain s mid).
  split; [by eapply printSet_spec|].
  rewrite (contains_spec v _ s mid k fuel HI) by done.
  f_equal. apply bool_decide_ext.
  rewrite from_head_iff by apply (inv_sorted _ _ _ HI).
  unfold chain. rewrite fmap_cons, elem_of_cons. simpl.
  split; [auto|]. by intros [?|?].
Qed.

Lemma contains_iff_printed_witness :
  ∃ ks, DurableSet.printSet 5 example_set = Ok ks example_set
        ∧ DurableSet.contains Lock 5 3 example_set
          = Ok (bool_decide (3 ∈ ks)) example_set.
Proof.
  apply (contains_iff_printed Lock example_set 5 3 example_set_reachable);
    [vm_compute; lia|unfold MAX_KEY; lia|unfold MIN_KEY; lia].
Defined.
(** ** Absent and present keys *)

(** Below [MAX_KEY] the traversal stops at [k] in the whole list exactly
    when it does among the elements. *)
Lemma stop_key (s : DurableSet.t) (mid : list (Z * Z)) (k : Z) :
  k < MAX_KEY →
  snd <$> head (from k (mid ++ [(DurableSet.tail s, MAX_KEY)])) = Some k
  ↔ snd <$> head (from k mid) = Some k.
Proof.
  intros Hk. destruct (before_snoc k mid (DurableSet.tail s, MAX_KEY)) as [_ ->];
    [simpl; lia|].
  destruct (from k mid) as [|c rest]; simpl; [|done].
  split; [intros [= ?]; lia|done].
Qed.

(** The traversal of [insert] and [remove], with the validation of the
    Lock and MRLock sets, leaves the state alone and hands the rest of
    the operation the node it stopped at and the node before it. *)
Lemma insert_unfold v N s mid k x id fuel :
  Inv N s mid → k < MAX_KEY → (N ≤ fuel)%nat →
  let prev := default (DurableSet.head s) (fst <$> last (before k mid)) in
  let cur :=
    default 0 (fst <$> head (from k (mid ++ [(DurableSet.tail s, MAX_KEY)]))) in
  DurableSet.insert v fuel k x id s
  = (do c <- DurableSet.load cur;
     if bool_decide (Node.key c = k) then ret false
     else
       do newNode <- DurableSet.allocFromArea (section_of v id);
       if bool_decide (newNode = 0) then ret false
       else DurableSet.link k x (section_of v id) prev cur newNode;;; ret true) s.
Proof.
  intros HI Hk Hfuel prev cur. pose proof (Inv_length _ _ _ HI) as Hlen.
  destruct v.
  - unfold DurableSet.insert, DurableSet.Sequential_insert. unfold bind at 1.
    rewrite (find_spec Sequential N s mid k) by (done || lia). done.
  - destruct fuel as [|fuel']; [lia|].
    cbn [DurableSet.insert DurableSet.locked_insert]. unfold bind at 1.
    rewrite (find_spec Lock N s mid k) by (done || lia). cbn [fst snd].
    unfold bind at 1. rewrite (invalidated_spec N s mid k) by (done || lia). done.
  - destruct fuel as [|fuel']; [lia|].
    cbn [DurableSet.insert DurableSet.locked_insert]. unfold bind at 1.
    rewrite (find_spec MRLock N s mid k) by (done || lia). cbn [fst snd].
    unfold bind at 1. rewrite (invalidated_spec N s mid k) by (done || lia). done.
Qed.

Lemma remove_unfold v N s mid k fuel :
  Inv N s mid → k < MAX_KEY → (N ≤ fuel)%nat →
  let prev := default (DurableSet.head s) (fst <$> last (before k mid)) in
  let cur :=
    default 0 (fst <$> head (from k (mid ++ [(DurableSet.tail s, MAX_KEY)]))) in
  DurableSet.remove v fuel k s
  = (do c <- DurableSet.load cur;
     if negb (bool_decide (Node.key c = k)) then ret false
     else DurableSet.unlink prev cur;;; ret true) s.
Proof.
  intros HI Hk Hfuel prev cur. pose proof (Inv_length _ _ _ HI) as Hlen.
  destruct v.
  - unfold DurableSet.remove, DurableSet.Sequential_remove. unfold bind at 1.
    rewrite (find_spec Sequential N s mid k) by (done || lia). done.
  - destruct fuel as [|fuel']; [lia|].
    cbn [DurableSet.remove DurableSet.locked_remove]. unfold bind at 1.
    rewrite (find_spec Lock N s mid k) by (done || lia). cbn [fst snd].
    unfold bind at 1. rewrite (invalidated_spec N s mid k) by (done || lia). done.
  - destruct fuel as [|fuel']; [lia|].
    cbn [DurableSet.remove DurableSet.locked_remove]. unfold bind at 1.
    rewrite (find_spec MRLock N s mid k) by (done || lia). cbn [fst snd].
    unfold bind at 1. rewrite (invalidated_spec N s mid k) by (done || lia). done.
Qed.

(** The node the traversal stops at holds [k] exactly when [k] is an
    element. *)
Lemma Inv_stop_key N s mid k :
  Inv N s mid → k < MAX_KEY →
  ∃ cn, DurableSet.heap s
          !! default 0 (fst <$> head (from k (mid ++ [(DurableSet.tail s, MAX_KEY)])))
        = Some cn
        ∧ (Node.key cn = k ↔ snd <$> head (from k mid) = Some k).
Proof.
  intros HI Hk.
  destruct (Inv_stop N s mid k HI ltac:(lia))
    as (c & rest & cn & Hfrom & Hc & Hcn & Hkey & _).
  exists cn. rewrite <- (stop_key s) by done. rewrite Hfrom. simpl.
  split; [done|]. rewrite Hkey. split; [intros Heq|intros [= Heq]]; congruence.
Qed.

Lemma remove_absent v N s mid k fuel :
  Inv N s mid → k < MAX_KEY → (N ≤ fuel)%nat →
  snd <$> head (from k mid) ≠ Some k →
  DurableSet.remove v fuel k s = Ok false s.
Proof.
  intros HI Hk Hfuel Habs.
  rewrite (remove_unfold v N s mid k fuel) by done.
  destruct (Inv_stop_key N s mid k HI Hk) as (cn & Hcn & Hiff).
  erewrite bind_load by exact Hcn.
  rewrite bool_decide_eq_false_2 by (by rewrite Hiff). done.
Qed.

Lemma insert_absent v N s mid k x id fuel :
  Inv N s mid → k < MAX_KEY → (N ≤ fuel)%nat →
  snd <$> head (from k mid) ≠ Some k →
  let prev := default (DurableSet.head s) (fst <$> last (before k mid)) in
  let cur :=
    default 0 (fst <$> head (from k (mid ++ [(DurableSet.tail s, MAX_KEY)]))) in
  DurableSet.insert v fuel k x id s
  = (do newNode <- DurableSet.allocFromArea (section_of v id);
     if bool_decide (newNode = 0) then ret false
     else DurableSet.link k x (section_of v id) prev cur newNode;;; ret true) s.
Proof.
  intros HI Hk Hfuel Habs prev cur.
  rewrite (insert_unfold v N s mid k x id fuel) by done.
  destruct (Inv_stop_key N s mid k HI Hk) as (cn & Hcn & Hiff).
  erewrite bind_load by exact Hcn.
  rewrite bool_decide_eq_false_2 by (by rewrite Hiff). done.
Qed.

(** What [contains] answers, in terms of the elements. *)
Lemma contains_elements v N s mid k fuel :
  Inv N s mid → k < MAX_KEY → (N ≤ fuel)%nat →
  DurableSet.contains v fuel k s
  = Ok (bool_decide (snd <$> head (from k mid) = Some k)) s.
Proof.
  intros HI Hk Hfuel. rewrite (contains_spec v N s mid k fuel) by (done || lia).
  f_equal. apply bool_decide_ext. by apply (stop_key s).
Qed.
(** ** What the operations leave alone *)

Section Always.
Context {St : Type} (P : St → St → Prop).
Hypothesis P_refl : ∀ s, P s s.
Hypothesis P_trans : ∀ s1 s2 s3, P s1 s2 → P s2 s3 → P s1 s3.

Lemma always_bind {A B} (m : M St A) (k : A → M St B) :
  always P m → (∀ a, always P (k a)) → always P (bind m k).
Proof.
  intros Hm Hk s s'. unfold bind.
  destruct (m s) as [a s1|e s1| |] eqn:Hms; simpl; try done.
  - intros Hf. eapply P_trans; [apply (Hm s s1); by rewrite Hms|by eapply Hk].
  - intros [= <-]. apply (Hm s s1). by rewrite Hms.
Qed.

Lemma always_ret {A} (a : A) : always P (ret a).
Proof. intros s s' [= <-]. apply P_refl. Qed.

Lemma always_throw {A} e : always P (throw (A:=A) e).
Proof. intros s s' [= <-]. apply P_refl. Qed.

Lemma always_get : always P get.
Proof. intros s s' [= <-]. apply P_refl. Qed.

Lemma always_timeout {A} : always P (timeout (A:=A)).
Proof. intros s s' [=]. Qed.

Lemma always_vec_at {A} (l : list A) i : always P (vec_at l i).
Proof.
  unfold vec_at. case_bool_decide; [|apply always_throw].
  destruct (l !! Z.to_nat i); [apply always_ret|apply always_throw].
Qed.

Lemma always_if {A} (b : bool) (m1 m2 : M St A) :
  always P m1 → always P m2 → always P (if b then m1 else m2).
Proof. by destruct b. Qed.
End Always.

Lemma vec_at_cases {St A} (l : list A) (i : Z) (s : St) :
  (∃ x, vec_at l i s = Ok x s) ∨ vec_at l i s = Throw out_of_range s.
Proof.
  unfold vec_at. case_bool_decide; [|by right].
  destruct (l !! Z.to_nat i) as [x|]; [left; by exists x|by right].
Qed.

Lemma keeps_nodes_refl s : keeps_nodes s s.
Proof. by repeat split. Qed.

Lemma keeps_nodes_trans s1 s2 s3 :
  keeps_nodes s1 s2 → keeps_nodes s2 s3 → keeps_nodes s1 s3.
Proof.
  unfold keeps_nodes, same_shape.
  intros (-> & -> & -> & -> & -> & -> & -> & -> & -> & -> & -> & ->)
         (-> & -> & -> & -> & -> & -> & -> & -> & -> & -> & -> & ->).
  done.
Qed.

Lemma not_raised_refl (l : list Z) : not_raised l l.
Proof. unfold not_raised. induction l; constructor; [lia|done]. Qed.

Lemma not_raised_trans (l1 l2 l3 : list Z) :
  not_raised l1 l2 → not_raised l2 l3 → not_raised l1 l3.
Proof.
  unfold not_raised. intros H12 H23. revert l1 H12.
  induction H23 as [|x3 x2 l3 l2 Hx _ IH]; intros l1 H12.
  - by inversion H12.
  - inversion H12 as [|? x1 ? l1' Hx' H']; subst. constructor; [lia|by apply IH].
Qed.

Lemma not_raised_lower (l : list Z) (i : nat) (x : Z) :
  l !! i = Some x → not_raised l (<[i := x - 1]> l).
Proof.
  unfold not_raised. revert i. induction l as [|y l IH]; intros [|i] Hx; try done.
  - injection Hx as ->. constructor; [lia|apply not_raised_refl].
  - simpl. constructor; [lia|by apply IH].
Qed.

Lemma store_stable_refl (m : MemoryManager.t) : store_stable m m.
Proof. split; [apply same_shape_refl|apply not_raised_refl]. Qed.

Lemma store_stable_trans (m1 m2 m3 : MemoryManager.t) :
  store_stable m1 m2 → store_stable m2 m3 → store_stable m1 m3.
Proof.
  intros [? ?] [? ?].
  split; [by eapply same_shape_trans|by eapply not_raised_trans].
Qed.

Lemma stable_refl s : stable s s.
Proof.
  split; [apply keeps_nodes_refl|]. split; apply not_raised_refl.
Qed.

Lemma stable_trans s1 s2 s3 : stable s1 s2 → stable s2 s3 → stable s1 s3.
Proof.
  intros [? [? ?]] [? [? ?]].
  split; [by eapply keeps_nodes_trans|]. split; by eapply not_raised_trans.
Qed.

Ltac always_with refl trans :=
  first
    [ apply always_ret; exact refl
    | apply always_throw; exact refl
    | apply always_get; exact refl
    | apply always_timeout
    | apply always_vec_at; exact refl
    | apply always_bind; [exact trans| |intros ?]
    | apply always_if ].

Lemma unchanged_refl {St} (s : St) : s = s.
Proof. done. Qed.

Lemma unchanged_trans {St} (s1 s2 s3 : St) : s2 = s1 → s3 = s2 → s3 = s1.
Proof. congruence. Qed.

Section StoreShape.
Context {Cell : Type} `{CellFlavor Cell}.
Implicit Types (m : Store.MemoryManager Cell).

Lemma always_retrieveAddress id :
  always (λ m m', m' = m) (Store.retrieveAddress (Cell:=Cell) id).
Proof.
  unfold Store.retrieveAddress.
  repeat always_with (@unchanged_refl (Store.MemoryManager Cell))
                     (@unchanged_trans (Store.MemoryManager Cell)).
Qed.

Lemma always_read_cell i j :
  always (λ m m', m' = m) (Store.read_cell (Cell:=Cell) i j).
Proof.
  unfold Store.read_cell.
  repeat always_with (@unchanged_refl (Store.MemoryManager Cell))
                     (@unchanged_trans (Store.MemoryManager Cell)).
Qed.
End StoreShape.

Lemma always_updateAddress id :
  always store_stable (Store.updateAddress id).
Proof.
  intros m m'. unfold Store.updateAddress, bind, get, put, vec_at, ret, throw.
  case_bool_decide; [|intros [= <-]; apply store_stable_refl].
  destruct (_ !! _) eqn:Hd; intros [= <-]; [|apply store_stable_refl].
  split; [done|]. simpl. by apply not_raised_lower.
Qed.

Lemma always_write_cell i j c :
  always store_stable (Store.write_cell i j c).
Proof.
  intros m m'. unfold Store.write_cell, bind, get, put, vec_at, ret, throw.
  case_bool_decide; [|intros [= <-]; apply store_stable_refl].
  destruct (Store.memPool m !! _) as [row|]; [|intros [= <-]; apply store_stable_refl].
  case_bool_decide; [|intros [= <-]; apply store_stable_refl].
  destruct (row !! _); intros [= <-]; [|apply store_stable_refl].
  split; [|apply not_raised_refl].
  unfold same_shape. simpl. by rewrite length_insert.
Qed.

Lemma always_FLUSH k x b i d n pre post' :
  always store_stable (MemoryManager.FLUSH k x b i d n pre post').
Proof.
  unfold MemoryManager.FLUSH, Store.FLUSH.
  apply always_bind; [apply store_stable_trans| |].
  - intros m m' ->%always_read_cell. apply store_stable_refl.
  - intros c. apply always_write_cell.
Qed.

Lemma always_load a : always stable (DurableSet.load a).
Proof.
  intros s s'. unfold DurableSet.load.
  destruct (_ !! _); intros [= <-]. apply stable_refl.
Qed.

Lemma always_modify a f : always stable (DurableSet.modify a f).
Proof.
  intros s s'. unfold DurableSet.modify, DurableSet.load, DurableSet.store, bind.
  destruct (DurableSet.heap s !! a) as [n|] eqn:Hn; [|done].
  rewrite Hn. intros [= <-].
  split; [|split; apply not_raised_refl].
  unfold keeps_nodes; simpl.
  repeat (split; [done|]). split; [|apply same_shape_refl].
  apply dom_insert_lookup_L. by exists n.
Qed.

Lemma always_on_mem {A} (c : M MemoryManager.t A) :
  always store_stable c → always stable (DurableSet.on_mem c).
Proof.
  intros Hc s s'. unfold DurableSet.on_mem, zoom.
  destruct (c (DurableSet.mem s)) as [a t|e t| |] eqn:Hcs; intros [= <-].
  all: destruct (Hc (DurableSet.mem s) t) as [Hshape Hcur]; [by rewrite Hcs|].
  all: split; [|split; [apply not_raised_refl|done]].
  all: unfold keeps_nodes; simpl; by repeat (split; [done|]).
Qed.

Ltac keeps :=
  first [ apply always_load | apply always_modify
        | always_with stable_refl stable_trans ].

Lemma always_updateAlloc id : always stable (DurableSet.updateAlloc id).
Proof.
  intros s s'. unfold DurableSet.updateAlloc. unfold bind at 1, get at 1.
  destruct (vec_at_cases (DurableSet.allocIndices s) id s) as [[idx Hidx]|Hthrow].
  - unfold bind at 1. rewrite Hidx. apply vec_at_Ok in Hidx as (_ & Hidx & _).
    unfold bind, put. intros Hf.
    eapply stable_trans;
      [|eapply (always_on_mem _ (always_updateAddress id)); exact Hf].
    split; [by repeat split|].
    split; [by apply not_raised_lower|apply not_raised_refl].
  - unfold bind. rewrite Hthrow. intros [= <-]. apply stable_refl.
Qed.

Lemma always_allocFromArea id : always stable (DurableSet.allocFromArea id).
Proof.
  unfold DurableSet.allocFromArea.
  do 4 (keeps; [keeps|]).
  keeps.
  - apply always_on_mem. intros m m' ->%always_retrieveAddress.
    apply store_stable_refl.
  - keeps; [keeps|]. keeps; keeps.
Qed.

Lemma always_FLUSH_INSERT a : always stable (DurableSet.FLUSH_INSERT a).
Proof.
  unfold DurableSet.FLUSH_INSERT. keeps; [apply always_load|].
  apply always_on_mem, always_FLUSH.
Qed.

Lemma always_FLUSH_DELETE a : always stable (DurableSet.FLUSH_DELETE a).
Proof.
  unfold DurableSet.FLUSH_DELETE. keeps; [apply always_load|].
  apply always_on_mem, always_FLUSH.
Qed.

Lemma always_find_loop v fuel k p c :
  always stable (DurableSet.find_loop v fuel k p c).
Proof.
  revert p c. induction fuel as [|fuel IH]; intros p c; simpl; [keeps|].
  keeps; [apply always_load|]. keeps; [keeps|apply IH].
Qed.

Lemma always_find v fuel k : always stable (DurableSet.find v fuel k).
Proof.
  unfold DurableSet.find. keeps; [keeps|]. keeps; [apply always_load|].
  apply always_find_loop.
Qed.

Lemma always_link k x id p c a : always stable (DurableSet.link k x id p c a).
Proof.
  unfold DurableSet.link.
  repeat (keeps; [apply always_modify|]).
  keeps; [apply always_updateAlloc|].
  keeps; [apply always_modify|]. apply always_FLUSH_INSERT.
Qed.

Lemma always_unlink p c : always stable (DurableSet.unlink p c).
Proof.
  unfold DurableSet.unlink.
  keeps; [apply always_load|].
  repeat (keeps; [apply always_modify|]). apply always_FLUSH_DELETE.
Qed.

Lemma always_invalidated p c : always stable (DurableSet.invalidated p c).
Proof.
  unfold DurableSet.invalidated.
  keeps; [apply always_load|]. keeps; [apply always_load|]. keeps.
Qed.

Lemma always_insert_body k x id (pc : Z * Z) :
  always stable
    (do c <- DurableSet.load pc.2;
     if bool_decide (Node.key c = k) then ret false
     else
       do newNode <- DurableSet.allocFromArea id;
       if bool_decide (newNode = 0) then ret false
       else DurableSet.link k x id pc.1 pc.2 newNode;;; ret true).
Proof.
  keeps; [apply always_load|]. keeps; [keeps|].
  keeps; [apply always_allocFromArea|]. keeps; [keeps|].
  keeps; [apply always_link|keeps].
Qed.

Lemma always_remove_body k (pc : Z * Z) :
  always stable
    (do c <- DurableSet.load pc.2;
     if negb (bool_decide (Node.key c = k)) then ret false
     else DurableSet.unlink pc.1 pc.2;;; ret true).
Proof.
  keeps; [apply always_load|]. keeps; [keeps|].
  keeps; [apply always_unlink|keeps].
Qed.

Lemma always_insert v fuel k x id :
  always stable (DurableSet.insert v fuel k x id).
Proof.
  assert (∀ v' tries, always stable
            (DurableSet.locked_insert v' tries fuel k x id)) as Hlocked.
  { intros v' tries. induction tries as [|tries IH]; simpl; [keeps|].
    keeps; [apply always_find|]. keeps; [apply always_invalidated|].
    keeps; [apply IH|apply always_insert_body]. }
  destruct v; simpl; [|apply Hlocked..].
  unfold DurableSet.Sequential_insert.
  keeps; [apply always_find|]. apply always_insert_body.
Qed.

Lemma always_remove v fuel k : always stable (DurableSet.remove v fuel k).
Proof.
  assert (∀ v' tries, always stable
            (DurableSet.locked_remove v' tries fuel k)) as Hlocked.
  { intros v' tries. induction tries as [|tries IH]; simpl; [keeps|].
    keeps; [apply always_find|]. keeps; [apply always_invalidated|].
    keeps; [apply IH|apply always_remove_body]. }
  destruct v; simpl; [|apply Hlocked..].
  unfold DurableSet.Sequential_remove.
  keeps; [apply always_find|]. apply always_remove_body.
Qed.

Lemma always_contains_loop v fuel k c :
  always stable (DurableSet.contains_loop v fuel k c).
Proof.
  revert c. induction fuel as [|fuel IH]; intros c; simpl; [keeps|].
  keeps; [apply always_load|]. keeps; [apply IH|keeps].
Qed.

Lemma always_contains v fuel k : always stable (DurableSet.contains v fuel k).
Proof.
  unfold DurableSet.contains. keeps; [keeps|]. keeps; [apply always_load|].
  keeps; [apply always_contains_loop|]. keeps; [apply always_load|].
  destruct v; keeps; keeps.
Qed.

Lemma always_exec v fuel o : always stable (exec v fuel o).
Proof.
  destruct o; simpl;
    [apply always_insert|apply always_remove|apply always_contains].
Qed.

Lemma always_run v fuel ops : always stable (run v fuel ops).
Proof.
  induction ops as [|o ops IH]; simpl; [keeps|].
  keeps; [apply always_exec|apply IH].
Qed.

Lemma insert_same_tail v fuel k x id s b s1 :
  DurableSet.insert v fuel k x id s = Ok b s1 →
  DurableSet.head s1 = DurableSet.head s ∧ DurableSet.tail s1 = DurableSet.tail s.
Proof.
  intros Hins. destruct (always_insert v fuel k x id s s1) as [(? & ? & _) _];
    [by rewrite Hins|done].
Qed.

Lemma remove_same_tail v fuel k s b s1 :
  DurableSet.remove v fuel k s = Ok b s1 →
  DurableSet.head s1 = DurableSet.head s ∧ DurableSet.tail s1 = DurableSet.tail s.
Proof.
  intros Hrem. destruct (always_remove v fuel k s s1) as [(? & ? & _) _];
    [by rewrite Hrem|done].
Qed.

(** ** What the operations do to the printed list *)

Lemma sorted_around (l1 l2 : list Z) (k : Z) :
  StronglySorted Z.lt (l1 ++ k :: l2) →
  Forall (λ y, y < k) l1 ∧ Forall (λ y, k < y) l2.
Proof.
  intros (H1 & _ & H2)%StronglySorted_app.
  apply StronglySorted_cons in H2 as [H2 _]. split; [|done].
  apply Forall_forall. intros y Hy. apply H1; [done|]. apply list_elem_of_here.
Qed.

Lemma from_app_above (k : Z) (l1 l2 : list (Z * Z)) :
  Forall (λ x, x.2 < k) l1 → Forall (λ x, k < x.2) l2 →
  from k (l1 ++ l2) = l2.
Proof.
  intros H1 H2. induction H1 as [|x l1 Hx _ IH]; simpl.
  - destruct H2 as [|y l2 Hy _]; simpl; [done|].
    by rewrite bool_decide_eq_false_2 by lia.
  - by rewrite bool_decide_eq_true_2.
Qed.

(** X2: an [insert(k, item)] that returns [true] puts [k] at its sorted
    place in what [printSet] prints and changes nothing else of it: the
    keys printed before, with those below [k] in front of it and those
    above [k] behind it. *)
Theorem insert_adds_key (v : variant) (s s1 : DurableSet.t) (fuel : nat)
    (k item id : Z) :
  reachable v s →
  (size (DurableSet.heap s) ≤ fuel)%nat →
  k < MAX_KEY →
  DurableSet.insert v fuel k item id s = Ok true s1 →
  ∃ l1 l2,
    DurableSet.printSet fuel s = Ok (MIN_KEY :: l1 ++ l2) s
    ∧ DurableSet.printSet fuel s1 = Ok (MIN_KEY :: l1 ++ k :: l2) s1
    ∧ Forall (λ y, y < k) l1
    ∧ Forall (λ y, k < y) l2.
Proof.
  intros [mid HI]%reachable_Inv Hfuel Hk Hins.
  pose proof (insert_post v _ s mid k item id fuel HI Hk Hfuel) as Hpost.
  rewrite Hins in Hpost. destruct Hpost as [[[=] _]|[_ [a HI1]]].
  exists (snd <$> before k mid), (snd <$> from k mid ++ [(DurableSet.tail s, MAX_KEY)]).
  assert (DurableSet.tail s1 = DurableSet.tail s) as Htail.
  { by apply (insert_same_tail v fuel k item id s true s1). }
  split; [|split; [|split]].
  - rewrite (printSet_spec _ s mid fuel HI Hfuel). unfold chain.
    rewrite <- (before_from k mid) at 1.
    rewrite fmap_cons, <- app_assoc, fmap_app. done.
  - rewrite (printSet_spec _ s1 _ fuel HI1 Hfuel). unfold chain.
    rewrite Htail, fmap_cons, <- app_assoc, fmap_app. done.
  - rewrite Forall_fmap. apply Forall_before.
  - pose proof (inv_sorted _ _ _ HI1) as Hs.
    rewrite <- app_assoc, fmap_app in Hs. simpl in Hs.
    apply sorted_around in Hs as [_ Hs]. by rewrite Htail in Hs.
Qed.

Lemma insert_adds_key_witness :
  ∃ s1 l1 l2,
    DurableSet.insert Lock 5 2 20 0 example_fresh = Ok true s1
    ∧ DurableSet.printSet 5 example_fresh = Ok (MIN_KEY :: l1 ++ l2) example_fresh
    ∧ DurableSet.printSet 5 s1 = Ok (MIN_KEY :: l1 ++ 2 :: l2) s1
    ∧ Forall (λ y, y < 2) l1
    ∧ Forall (λ y, 2 < y) l2.
Proof.
  assert (∃ s1, DurableSet.insert Lock 5 2 20 0 example_fresh = Ok true s1)
    as [s1 Hins] by (eexists; vm_compute; reflexivity).
  exists s1.
  destruct (insert_adds_key Lock example_fresh s1 5 2 20 0 example_fresh_reachable)
    as (l1 & l2 & H); [vm_compute; lia|unfold MAX_KEY; lia|exact Hins|].
  exists l1, l2. split; [exact Hins|exact H].
Defined.

(** X3: a [remove(k)] that returns [true] takes exactly [k] out of what
    [printSet] prints, the keys before [k] being below it and those
    after it above, and [contains(k)] returns [false] afterwards. *)
Theorem remove_deletes_key (v : variant) (s s1 : DurableSet.t) (fuel : nat)
    (k : Z) :
  reachable v s →
  (size (DurableSet.heap s) ≤ fuel)%nat →
  k < MAX_KEY →
  DurableSet.remove v fuel k s = Ok true s1 →
  ∃ l1 l2,
    DurableSet.printSet fuel s = Ok (MIN_KEY :: l1 ++ k :: l2) s
    ∧ DurableSet.printSet fuel s1 = Ok (MIN_KEY :: l1 ++ l2) s1
    ∧ Forall (λ y, y < k) l1
    ∧ Forall (λ y, k < y) l2
    ∧ DurableSet.contains v fuel k s1 = Ok false s1.
Proof.
  intros [mid HI]%reachable_Inv Hfuel Hk Hrem.
  pose proof (remove_post v _ s mid k fuel HI Hk Hfuel) as Hpost.
  rewrite Hrem in Hpost. destruct Hpost as [[[=] _]|[_ (a & rest & Hfrom & HI1)]].
  assert (DurableSet.tail s1 = DurableSet.tail s) as Htail.
  { by apply (remove_same_tail v fuel k s true s1). }
  pose proof (inv_sorted _ _ _ HI) as Hs.
  rewrite <- (before_from k mid), Hfrom, <- app_assoc, fmap_app in Hs.
  simpl in Hs. apply sorted_around in Hs as [_ Habove].
  exists (snd <$> before k mid), (snd <$> rest ++ [(DurableSet.tail s, MAX_KEY)]).
  split; [|split; [|split; [|split]]].
  - rewrite (printSet_spec _ s mid fuel HI Hfuel). unfold chain.
    rewrite <- (before_from k mid) at 1. rewrite Hfrom.
    rewrite fmap_cons, <- app_assoc, fmap_app. done.
  - rewrite (printSet_spec _ s1 _ fuel HI1 Hfuel). unfold chain.
    rewrite Htail, fmap_cons, <- app_assoc, fmap_app. done.
  - rewrite Forall_fmap. apply Forall_before.
  - done.
  - rewrite (contains_elements v _ s1 _ k fuel HI1) by done.
    rewrite from_app_above.
    + rewrite bool_decide_eq_false_2; [done|].
      rewrite fmap_app, Forall_app in Habove. destruct Habove as [Habove _].
      destruct rest as [|c rest']; [done|]. simpl. intros [= Hc].
      apply Forall_cons in Habove as [Hc' _]. lia.
    + apply Forall_before.
    + rewrite fmap_app, Forall_app in Habove. destruct Habove as [Habove _].
      by rewrite Forall_fmap in Habove.
Qed.

Lemma remove_deletes_key_witness :
  ∃ s1 l1 l2,
    DurableSet.remove Lock 5 3 example_set = Ok true s1
    ∧ DurableSet.printSet 5 example_set = Ok (MIN_KEY :: l1 ++ 3 :: l2) example_set
    ∧ DurableSet.printSet 5 s1 = Ok (MIN_KEY :: l1 ++ l2) s1
    ∧ Forall (λ y, y < 3) l1
    ∧ Forall (λ y, 3 < y) l2
    ∧ DurableSet.contains Lock 5 3 s1 = Ok false s1.
Proof.
  assert (∃ s1, DurableSet.remove Lock 5 3 example_set = Ok true s1)
    as [s1 Hrem] by (eexists; vm_compute; reflexivity).
  exists s1.
  destruct (remove_deletes_key Lock example_set s1 5 3 example_set_reachable)
    as (l1 & l2 & H); [vm_compute; lia|unfold MAX_KEY; lia|exact Hrem|].
  exists l1, l2. split; [exact Hrem|exact H].
Defined.

(** X4: in a state reached without an exception, when [contains(k)]
    returns [false], [remove(k)] returns [false] and leaves the set and
    the store as they are. *)
Theorem remove_missing_key (v : variant) (s : DurableSet.t) (fuel : nat)
    (k : Z) :
  settled v s →
  (size (DurableSet.heap s) ≤ fuel)%nat →
  k < MAX_KEY →
  DurableSet.contains v fuel k s = Ok false s →
  DurableSet.remove v fuel k s = Ok false s.
Proof.
  intros [mid HI]%settled_reachable%reachable_Inv Hfuel Hk Hc.
  rewrite (contains_elements v _ s mid k fuel HI) in Hc by done.
  injection Hc as Hc. apply bool_decide_eq_false in Hc.
  by eapply remove_absent.
Qed.

Lemma remove_missing_key_witness :
  DurableSet.remove Lock 5 2 example_set = Ok false example_set.
Proof.
  apply (remove_missing_key Lock example_set 5 2 example_set_settled);
    [vm_compute; lia|unfold MAX_KEY; lia|vm_compute; reflexivity].
Defined.

(** ** Successful runs, step by step *)

Lemma bind_Ok_inv {St A B} (m : M St A) (k : A → M St B) (s s' : St) (b : B) :
  bind m k s = Ok b s' → ∃ a s1, m s = Ok a s1 ∧ k a s1 = Ok b s'.
Proof.
  unfold bind. destruct (m s) as [a s1|e s1| |]; try done.
  intros Hk. by exists a, s1.
Qed.

Lemma on_mem_Ok_inv {A} (c : M MemoryManager.t A) (s s' : DurableSet.t) (a : A) :
  DurableSet.on_mem c s = Ok a s' →
  ∃ t, c (DurableSet.mem s) = Ok a t ∧ s' = DurableSet.set_mem t s.
Proof.
  unfold DurableSet.on_mem, zoom.
  destruct (c (DurableSet.mem s)) as [a' t|e t| |]; try done.
  intros [= <- <-]. by exists t.
Qed.

Lemma modify_Ok_inv (s s' : DurableSet.t) a f :
  DurableSet.modify a f s = Ok tt s' →
  ∃ n, DurableSet.heap s !! a = Some n
       ∧ s' = DurableSet.set_heap (<[a := f n]> (DurableSet.heap s))
                (DurableSet.brk s) s.
Proof.
  unfold DurableSet.modify, DurableSet.load, DurableSet.store, bind.
  destruct (DurableSet.heap s !! a) as [n|] eqn:Hn; [|done].
  rewrite Hn. intros [= <-]. by exists n.
Qed.

Section StoreSteps.
Context {Cell : Type} `{CellFlavor Cell}.
Implicit Types (m : Store.MemoryManager Cell).

Lemma retrieveAddress_Ok id m m' d :
  Store.retrieveAddress id m = Ok d m' ↔
  0 ≤ id ∧ Store.freeListIndex m !! Z.to_nat id = Some d ∧ m' = m.
Proof. unfold Store.retrieveAddress, bind, get. apply vec_at_Ok. Qed.

Lemma updateAddress_Ok id m m' :
  Store.updateAddress id m = Ok tt m' ↔
  ∃ d, 0 ≤ id ∧ Store.freeListIndex m !! Z.to_nat id = Some d
       ∧ m' = Store.set_freeListIndex
                (<[Z.to_nat id := d - 1]> (Store.freeListIndex m)) m.
Proof.
  unfold Store.updateAddress, bind, get, put, vec_at, ret, throw.
  case_bool_decide.
  - destruct (Store.freeListIndex m !! Z.to_nat id) as [d|] eqn:Hd.
    + split; [intros [= <-]; by exists d|].
      intros (d' & _ & [= <-] & ->). done.
    + split; [done|]. by intros (d' & _ & [=] & _).
  - split; [done|]. intros (d' & ? & _); lia.
Qed.

Lemma read_cell_Ok i j m m' c :
  Store.read_cell i j m = Ok c m' ↔
  ∃ row, 0 ≤ i ∧ 0 ≤ j ∧ Store.memPool m !! Z.to_nat i = Some row
         ∧ row !! Z.to_nat j = Some c ∧ m' = m.
Proof.
  unfold Store.read_cell, bind, get. split.
  - destruct (vec_at (Store.memPool m) i m) as [row m1|? ?| |] eqn:Hrow; try done.
    apply vec_at_Ok in Hrow as (Hi & Hrow & ->).
    intros (Hj & Hc & ->)%vec_at_Ok. by exists row.
  - intros (row & Hi & Hj & Hrow & Hc & ->).
    rewrite (proj2 (vec_at_Ok _ i m m row)) by done.
    by apply vec_at_Ok.
Qed.

Lemma write_cell_Ok i j c m m' :
  Store.write_cell i j c m = Ok tt m' ↔
  ∃ row c0, 0 ≤ i ∧ 0 ≤ j ∧ Store.memPool m !! Z.to_nat i = Some row
            ∧ row !! Z.to_nat j = Some c0
            ∧ m' = Store.set_memPool
                     (<[Z.to_nat i := <[Z.to_nat j := c]> row]> (Store.memPool m)) m.
Proof.
  unfold Store.write_cell, bind, get, put. split.
  - destruct (vec_at (Store.memPool m) i m) as [row m1|? ?| |] eqn:Hrow; try done.
    apply vec_at_Ok in Hrow as (Hi & Hrow & ->).
    destruct (vec_at row j m) as [c0 m1|? ?| |] eqn:Hc; try done.
    apply vec_at_Ok in Hc as (Hj & Hc & ->).
    intros [= <-]. by exists row, c0.
  - intros (row & c0 & Hi & Hj & Hrow & Hc & ->).
    rewrite (proj2 (vec_at_Ok _ i m m row)) by done.
    by rewrite (proj2 (vec_at_Ok _ j m m c0)).
Qed.
End StoreSteps.

Lemma FLUSH_Ok k x b i d n pre post' (m m' : MemoryManager.t) :
  MemoryManager.FLUSH k x b i d n pre post' m = Ok tt m' ↔
  ∃ row c0, 0 ≤ pre ∧ 0 ≤ post'
            ∧ Store.memPool m !! Z.to_nat pre = Some row
            ∧ row !! Z.to_nat post' = Some c0
            ∧ m' = Store.set_memPool
                     (<[Z.to_nat pre :=
                          <[Z.to_nat post' := MemoryManager.COPY k x b i d n c0]> row]>
                        (Store.memPool m)) m.
Proof.
  unfold MemoryManager.FLUSH, Store.FLUSH. split.
  - intros (c & m1 & (row & Hi & Hj & Hrow & Hc & ->)%read_cell_Ok
              & (row' & c0 & _ & _ & Hrow' & Hc0 & ->)%write_cell_Ok)%bind_Ok_inv.
    simplify_eq. by eexists _, _.
  - intros (row & c0 & Hi & Hj & Hrow & Hc & ->).
    unfold bind. rewrite (proj2 (read_cell_Ok pre post' m m c0)) by by exists row.
    apply write_cell_Ok. by exists row, c0.
Qed.
Lemma vec_at_bind_Ok {St A B} (l : list A) (i : Z) (k : A → M St B) s s' b :
  bind (vec_at l i) k s = Ok b s' →
  ∃ x, 0 ≤ i ∧ l !! Z.to_nat i = Some x ∧ k x s = Ok b s'.
Proof.
  intros (x & s1 & (Hi & Hx & ->)%vec_at_Ok & Hk)%bind_Ok_inv. by exists x.
Qed.

(** A returning [allocFromArea]: the pool node at the writer's index,
    and either no durable cell (cursor [-1], null returned, nothing
    changed) or the node tied to the cell at the cursor. *)
Lemma allocFromArea_Ok (s s' : DurableSet.t) (id a : Z) :
  DurableSet.allocFromArea id s = Ok a s' →
  ∃ idx nn d,
    top_slot s id idx nn
    ∧ Store.freeListIndex (DurableSet.mem s) !! Z.to_nat id = Some d
    ∧ ((d = -1 ∧ a = 0 ∧ s' = s)
       ∨ (d ≠ -1 ∧ a = nn
          ∧ ∃ an, DurableSet.heap s !! nn = Some an
                  ∧ s' = DurableSet.set_heap
                           (<[nn := Node.set_durableAddress id d an]>
                              (DurableSet.heap s))
                           (DurableSet.brk s) s)).
Proof.
  unfold DurableSet.allocFromArea. unfold bind at 1, get at 1.
  intros (pool & Hid & Hpool & (idx & Hidx0 & Hidx & (nn & Hnn0 & Hnn & H)
    %vec_at_bind_Ok)%vec_at_bind_Ok)%vec_at_bind_Ok.
  apply bind_Ok_inv in H as (d & s1 & (t & (_ & Hd & ->)%retrieveAddress_Ok & ->)
    %on_mem_Ok_inv & H).
  rewrite set_mem_id in H.
  exists idx, nn, d. split; [|split; [done|]].
  { repeat split; try done. by exists pool. }
  case_bool_decide as Hd1.
  - left. by injection H as <- <-.
  - right. apply bind_Ok_inv in H as ([] & s2 & (an & Han & ->)%modify_Ok_inv & H).
    injection H as <- <-. split; [done|]. split; [done|]. by exists an.
Qed.
Lemma updateAlloc_Ok_inv (s s' : DurableSet.t) (id : Z) :
  DurableSet.updateAlloc id s = Ok tt s' →
  ∃ idx d,
    DurableSet.allocIndices s !! Z.to_nat id = Some idx
    ∧ Store.freeListIndex (DurableSet.mem s) !! Z.to_nat id = Some d
    ∧ s' = DurableSet.set_mem
             (Store.set_freeListIndex
                (<[Z.to_nat id := d - 1]> (Store.freeListIndex (DurableSet.mem s)))
                (DurableSet.mem s))
             (DurableSet.set_allocIndices
                (<[Z.to_nat id := idx - 1]> (DurableSet.allocIndices s)) s).
Proof.
  unfold DurableSet.updateAlloc. unfold bind at 1, get at 1.
  intros (idx & Hid & Hidx & H)%vec_at_bind_Ok.
  unfold bind at 1, put at 1 in H.
  apply on_mem_Ok_inv in H as (t & (d & _ & Hd & ->)%updateAddress_Ok & ->).
  by exists idx, d.
Qed.

Lemma FLUSH_INSERT_Ok_inv (s s' : DurableSet.t) (a : Z) :
  DurableSet.FLUSH_INSERT a s = Ok tt s' →
  ∃ n row c0,
    DurableSet.heap s !! a = Some n
    ∧ 0 ≤ Node.durableAddressPrefix n ∧ 0 ≤ Node.durableAddressPostfix n
    ∧ Store.memPool (DurableSet.mem s) !! Z.to_nat (Node.durableAddressPrefix n)
      = Some row
    ∧ row !! Z.to_nat (Node.durableAddressPostfix n) = Some c0
    ∧ s' = DurableSet.set_mem
             (Store.set_memPool
                (<[Z.to_nat (Node.durableAddressPrefix n) :=
                     <[Z.to_nat (Node.durableAddressPostfix n) :=
                         MemoryManager.COPY (Node.key n) (Node.item n)
                           (Node.validBits n) true false (Node.next n) c0]> row]>
                   (Store.memPool (DurableSet.mem s)))
                (DurableSet.mem s)) s.
Proof.
  unfold DurableSet.FLUSH_INSERT.
  intros (n & s1 & Hload & H)%bind_Ok_inv.
  unfold DurableSet.load in Hload.
  destruct (DurableSet.heap s !! a) as [n'|] eqn:Hn; [|done].
  injection Hload as -> ->.
  apply on_mem_Ok_inv in H as (t & (row & c0 & ? & ? & ? & ? & ->)%FLUSH_Ok & ->).
  by exists n, row, c0.
Qed.

Lemma FLUSH_DELETE_Ok (s s' : DurableSet.t) (a : Z) :
  DurableSet.FLUSH_DELETE a s = Ok tt s' ↔
  ∃ n row c0,
    DurableSet.heap s !! a = Some n
    ∧ 0 ≤ Node.durableAddressPrefix n ∧ 0 ≤ Node.durableAddressPostfix n
    ∧ Store.memPool (DurableSet.mem s) !! Z.to_nat (Node.durableAddressPrefix n)
      = Some row
    ∧ row !! Z.to_nat (Node.durableAddressPostfix n) = Some c0
    ∧ s' = DurableSet.set_mem
             (Store.set_memPool
                (<[Z.to_nat (Node.durableAddressPrefix n) :=
                     <[Z.to_nat (Node.durableAddressPostfix n) :=
                         MemoryManager.COPY (Node.key n) (Node.item n)
                           (Node.validBits n) true true (Node.next n) c0]> row]>
                   (Store.memPool (DurableSet.mem s)))
                (DurableSet.mem s)) s.
Proof.
  unfold DurableSet.FLUSH_DELETE. split.
  - intros (n & s1 & Hload & H)%bind_Ok_inv.
    unfold DurableSet.load in Hload.
    destruct (DurableSet.heap s !! a) as [n'|] eqn:Hn; [|done].
    injection Hload as -> ->.
    apply on_mem_Ok_inv in H as (t & (row & c0 & ? & ? & ? & ? & ->)%FLUSH_Ok & ->).
    by exists n, row, c0.
  - intros (n & row & c0 & Hn & Hpre & Hpost & Hrow & Hc & ->).
    erewrite bind_load by exact Hn.
    unfold DurableSet.on_mem, zoom.
    erewrite (proj2 (FLUSH_Ok _ _ _ _ _ _ _ _ _ _)); [done|].
    by exists row, c0.
Qed.

(** A returning [link]: the node as it is left, and the store with the
    writer's cursor lowered and the node's record written at the
    node's durable address. *)
Lemma link_Ok (s s' : DurableSet.t) (k x id prev cur a idx : Z) (pn an : Node.t) :
  DurableSet.heap s !! a = Some an →
  DurableSet.heap s !! prev = Some pn →
  a ≠ prev →
  DurableSet.link k x id prev cur a s = Ok tt s' →
  let an' := Node.makeValid
               (Node.set_next cur (Node.set_item x (Node.set_key k (Node.flipV1 an)))) in
  let pre := Node.durableAddressPrefix an in
  let post' := Node.durableAddressPostfix an in
  DurableSet.heap s' !! a = Some an'
  ∧ ∃ idx d row c0,
      0 ≤ pre ∧ 0 ≤ post'
      ∧ DurableSet.allocIndices s !! Z.to_nat id = Some idx
      ∧ DurableSet.allocIndices s'
        = <[Z.to_nat id := idx - 1]> (DurableSet.allocIndices s)
      ∧ Store.freeListIndex (DurableSet.mem s) !! Z.to_nat id = Some d
      ∧ Store.memPool (DurableSet.mem s) !! Z.to_nat pre = Some row
      ∧ row !! Z.to_nat post' = Some c0
      ∧ DurableSet.mem s'
        = Store.set_memPool
            (<[Z.to_nat pre :=
                 <[Z.to_nat post' :=
                     MemoryManager.COPY k x (Node.validBits an') true false cur c0]>
                   row]> (Store.memPool (DurableSet.mem s)))
            (Store.set_freeListIndex
               (<[Z.to_nat id := d - 1]> (Store.freeListIndex (DurableSet.mem s)))
               (DurableSet.mem s)).
Proof.
  intros Han Hpn Hne. unfold DurableSet.link.
  do 4 (erewrite bind_modify by heap_lookup).
  erewrite bind_modify by heap_lookup.
  intros ([] & s6 & (idx' & d & Hidx' & Hd & ->)%updateAlloc_Ok_inv & H)%bind_Ok_inv.
  erewrite bind_modify in H by (simpl; heap_lookup).
  apply FLUSH_INSERT_Ok_inv in H as (n & row & c0 & Hn & Hpre & Hpost & Hrow & Hc & ->).
  simpl in Hn. rewrite lookup_insert_eq in Hn. injection Hn as <-.
  simpl in *. split; [by rewrite lookup_insert_eq|].
  exists idx', d, row, c0. done.
Qed.
(** ** A successful insert, in full *)

Lemma Inv_stop_aligned N s mid k :
  Inv N s mid → k ≤ MAX_KEY →
  aligned (default 0 (fst <$> head (from k (mid ++ [(DurableSet.tail s, MAX_KEY)])))).
Proof.
  intros HI Hk. destruct (chain_split s mid k Hk) as (E1 & _ & _).
  destruct (Inv_stop N s mid k HI Hk) as (c & rest & cn & Hfrom & _).
  pose proof (inv_aligned _ _ _ HI) as Hal. rewrite E1, Hfrom in Hal.
  rewrite fmap_app, Forall_app in Hal. destruct Hal as [_ Hal].
  rewrite Hfrom. simpl. by apply Forall_cons in Hal as [? _].
Qed.

Lemma insert_true_inv v N s s1 mid k x id fuel :
  Inv N s mid → k < MAX_KEY → (N ≤ fuel)%nat →
  DurableSet.insert v fuel k x id s = Ok true s1 →
  let w := section_of v id in
  let cur :=
    default 0 (fst <$> head (from k (mid ++ [(DurableSet.tail s, MAX_KEY)]))) in
  ∃ idx a an d row c0,
    let an' := Node.makeValid (Node.set_next cur (Node.set_item x
                 (Node.set_key k (Node.flipV1 (Node.set_durableAddress w d an))))) in
    snd <$> head (from k mid) ≠ Some k
    ∧ top_slot s w idx a
    ∧ DurableSet.heap s !! a = Some an
    ∧ Store.freeListIndex (DurableSet.mem s) !! Z.to_nat w = Some d
    ∧ 0 ≤ d
    ∧ Store.memPool (DurableSet.mem s) !! Z.to_nat w = Some row
    ∧ row !! Z.to_nat d = Some c0
    ∧ DurableSet.heap s1 !! a = Some an'
    ∧ DurableSet.allocIndices s1
      = <[Z.to_nat w := idx - 1]> (DurableSet.allocIndices s)
    ∧ DurableSet.mem s1
      = Store.set_memPool
          (<[Z.to_nat w :=
               <[Z.to_nat d :=
                   MemoryManager.COPY k x (Node.validBits an') true false cur c0]>
                 row]> (Store.memPool (DurableSet.mem s)))
          (Store.set_freeListIndex
             (<[Z.to_nat w := d - 1]> (Store.freeListIndex (DurableSet.mem s)))
             (DurableSet.mem s))
    ∧ cur ≠ 0
    ∧ Inv N s1 (before k mid ++ (a, k) :: from k mid).
Proof.
  intros HI Hk Hfuel Hins w cur.
  assert (snd <$> head (from k mid) ≠ Some k) as Habs.
  { intros Hpres. destruct (from k mid) as [|[a' k'] rest] eqn:Hfrom; [done|].
    injection Hpres as ->.
    rewrite (insert_present v N s mid k x id fuel a' rest) in Hins by done. done. }
  rewrite (insert_absent v N s mid k x id fuel) in Hins by done.
  fold w cur in Hins.
  apply bind_Ok_inv in Hins as (a & s' & Halloc & Hins).
  apply allocFromArea_Ok in Halloc
    as (idx & nn & d & Htop & Hd & [(-> & -> & ->)|(Hd1 & -> & an & Han & ->)]).
  { by rewrite bool_decide_eq_true_2 in Hins. }
  destruct (inv_free _ _ _ HI nn (top_slot_free _ _ _ _ Htop)) as (_ & [Hnz _] & Hnotin).
  rewrite bool_decide_eq_false_2 in Hins by done.
  apply bind_Ok_inv in Hins as ([] & s2 & Hlink & [= <-]).
  destruct (Inv_prev N s mid k HI ltac:(lia)) as (pn & Hpn & _).
  set (prev := default (DurableSet.head s) (fst <$> last (before k mid))) in *.
  assert (nn ≠ prev) as Hne.
  { intros ->. apply Hnotin.
    destruct (chain_split s mid k ltac:(lia)) as (-> & _ & _).
    destruct (snoc_split (DurableSet.head s, MIN_KEY) (before k mid)) as (P & kp & HL1).
    simpl in HL1. fold prev in HL1. rewrite HL1, <- app_assoc, fmap_app.
    apply elem_of_app. right. apply list_elem_of_here. }
  set (s' := DurableSet.set_heap _ _ s) in Hlink.
  pose proof Htop as (Hw & Hidx0 & Hidx & _).
  assert (linked s' s2 k cur prev nn w idx pn) as Hpost.
  { pose proof (link_post s' k x w prev cur nn idx pn
                  (Node.set_durableAddress w d an)) as Hp.
    rewrite Hlink in Hp. apply Hp; try done.
    - unfold s'; simpl. apply lookup_insert_eq.
    - unfold s'; simpl. by rewrite lookup_insert_ne. }
  assert (DurableSet.heap s' !! nn = Some (Node.set_durableAddress w d an)) as Hn'
    by (unfold s'; simpl; apply lookup_insert_eq).
  assert (DurableSet.heap s' !! prev = Some pn) as Hp'
    by (unfold s'; simpl; by rewrite lookup_insert_ne).
  pose proof (link_Ok s' s2 k x w prev cur nn idx pn _ Hn' Hp' Hne Hlink) as Hl.
  clear Hlink. rename Hl into Hlink. cbv zeta in Hlink.
  destruct Hlink as (Hn1 & idx' & d' & row & c0 & Hpre & Hpost' & Hidx' & Hal
                     & Hd' & Hrow & Hc0 & Hmem).
  simpl in Hpre, Hpost', Hidx', Hd', Hrow, Hc0, Hmem, Hal.
  assert (idx' = idx) as -> by congruence.
  assert (d' = d) as -> by congruence.
  exists idx, nn, an, d, row, c0. cbv zeta.
  split; [done|]. split; [done|]. split; [done|]. split; [done|].
  split; [done|]. split; [done|]. split; [done|]. split; [done|].
  split; [done|]. split; [done|].
  split; [apply (Inv_stop_aligned N s mid k HI); lia|].
  destruct Hpost as ((Hhead & Htail & Hpools & Hsize) & Hidx'' & Hprev' & Hnew & Hsame).
  destruct (Inv_stop N s mid k HI ltac:(lia))
    as (c & rest & cn & Hfrom & Hc & Hcn & Hkey & _).
  assert (k < c.2) as Hlt.
  { destruct (Z.eq_dec c.2 k) as [Heq|]; [|lia]. exfalso. apply Habs.
    apply (stop_key s); [done|]. rewrite Hfrom. simpl. by rewrite Heq. }
  eapply (Inv_linked N s s2 mid k cur prev nn w idx pn c rest);
    [done|done|done|done|done|unfold cur; by rewrite Hfrom|done|done|].
  split; [|split; [done|]; split; [done|]; split; [done|]].
  - split; [done|]. split; [done|]. split; [done|].
    rewrite Hsize. unfold s'; simpl. apply map_size_insert_Some. by exists an.
  - intros y Hya Hyp. rewrite Hsame by done. unfold s'; simpl.
    by apply lookup_insert_ne.
Qed.
(** ** A successful remove, in full *)

Lemma unlink_Ok (s s' : DurableSet.t) (prev cur : Z) (pn cn : Node.t) :
  DurableSet.heap s !! cur = Some cn →
  DurableSet.heap s !! prev = Some pn →
  cur ≠ prev →
  let cn' := Node.set_next (Node.mark (Node.next cn)) cn in
  let pre := Node.durableAddressPrefix cn in
  let post' := Node.durableAddressPostfix cn in
  DurableSet.unlink prev cur s = Ok tt s' ↔
  ∃ row c0,
    0 ≤ pre ∧ 0 ≤ post'
    ∧ Store.memPool (DurableSet.mem s) !! Z.to_nat pre = Some row
    ∧ row !! Z.to_nat post' = Some c0
    ∧ s' = DurableSet.set_mem
             (Store.set_memPool
                (<[Z.to_nat pre :=
                     <[Z.to_nat post' :=
                         MemoryManager.COPY (Node.key cn) (Node.item cn)
                           (Node.validBits cn) true true
                           (Node.mark (Node.next cn)) c0]> row]>
                   (Store.memPool (DurableSet.mem s)))
                (DurableSet.mem s))
             (DurableSet.set_heap
                (<[prev := Node.set_next (Node.next cn) pn]>
                   (<[cur := cn']> (DurableSet.heap s)))
                (DurableSet.brk s) s).
Proof.
  intros Hcn Hpn Hne cn' pre post'. unfold DurableSet.unlink.
  erewrite bind_load by exact Hcn.
  erewrite bind_modify by exact Hcn.
  erewrite bind_modify by heap_lookup.
  rewrite FLUSH_DELETE_Ok. simpl. split.
  - intros (n & row & c0 & Hn & Hpre & Hpost & Hrow & Hc & ->).
    rewrite lookup_insert_ne, lookup_insert_eq in Hn by done.
    injection Hn as <-. by exists row, c0.
  - intros (row & c0 & Hpre & Hpost & Hrow & Hc & ->).
    exists cn', row, c0. rewrite lookup_insert_ne, lookup_insert_eq by done.
    done.
Qed.

Lemma remove_true_inv v N s s1 mid k fuel :
  Inv N s mid → k < MAX_KEY → (N ≤ fuel)%nat →
  DurableSet.remove v fuel k s = Ok true s1 →
  ∃ a rest cn row c0,
    from k mid = (a, k) :: rest
    ∧ DurableSet.heap s !! a = Some cn
    ∧ Node.key cn = k
    ∧ Z.even (Node.next cn) = true
    ∧ 0 ≤ Node.durableAddressPrefix cn ∧ 0 ≤ Node.durableAddressPostfix cn
    ∧ Store.memPool (DurableSet.mem s) !! Z.to_nat (Node.durableAddressPrefix cn)
      = Some row
    ∧ row !! Z.to_nat (Node.durableAddressPostfix cn) = Some c0
    ∧ DurableSet.mem s1
      = Store.set_memPool
          (<[Z.to_nat (Node.durableAddressPrefix cn) :=
               <[Z.to_nat (Node.durableAddressPostfix cn) :=
                   MemoryManager.COPY k (Node.item cn) (Node.validBits cn)
                     true true (Node.mark (Node.next cn)) c0]> row]>
             (Store.memPool (DurableSet.mem s)))
          (DurableSet.mem s)
    ∧ DurableSet.allocIndices s1 = DurableSet.allocIndices s
    ∧ Inv N s1 (before k mid ++ rest).
Proof.
  intros HI Hk Hfuel Hrem.
  pose proof (remove_post v N s mid k fuel HI Hk Hfuel) as Hpost.
  rewrite Hrem in Hpost. destruct Hpost as [[[=] _]|[_ (a & rest & Hfrom & HI1)]].
  rewrite (remove_unfold v N s mid k fuel) in Hrem by done.
  destruct (Inv_stop N s mid k HI ltac:(lia))
    as (c & rest' & cn & Hfrom' & Hc & Hcn & Hkey & Heven).
  destruct (Inv_prev N s mid k HI ltac:(lia)) as (pn & Hpn & _).
  destruct (chain_split s mid k ltac:(lia)) as (E1 & Hsplit & _).
  rewrite Hsplit, Hfrom in Hfrom'. injection Hfrom' as <- <-. simpl in Hcn, Hkey.
  rewrite Hsplit, Hfrom in Hrem. simpl in Hrem.
  erewrite bind_load in Hrem by exact Hcn.
  rewrite Hkey, bool_decide_eq_true_2 in Hrem by done. simpl in Hrem.
  apply bind_Ok_inv in Hrem as ([] & s2 & Hun & [= <-]).
  set (prev := default (DurableSet.head s) (fst <$> last (before k mid))) in *.
  assert (a ≠ prev) as Hne.
  { intros Heq. pose proof (inv_nodup _ _ _ HI) as Hnd.
    rewrite E1, Hsplit, Hfrom in Hnd.
    destruct (snoc_split (DurableSet.head s, MIN_KEY) (before k mid)) as (P & kp & HL1).
    simpl in HL1. fold prev in HL1. rewrite HL1, <- app_assoc, fmap_app in Hnd.
    simpl in Hnd. apply NoDup_app in Hnd as (_ & _ & Hnd).
    apply NoDup_cons in Hnd as [Hnd _]. apply Hnd. rewrite Heq. apply list_elem_of_here. }
  apply (unlink_Ok s s2 prev a pn cn Hcn Hpn Hne) in Hun
    as (row & c0 & Hpre & Hpost & Hrow & Hc0 & ->).
  exists a, rest, cn, row, c0.
  do 8 (split; [done|]). split; [simpl; by rewrite Hkey|]. done.
Qed.
Lemma validBits_complete (vb : Z) : Z.land (Z.lor (Z.lor vb 1) 2) 3 = 3.
Proof.
  rewrite <- Z.lor_assoc. change (Z.lor 1 2) with 3.
  apply Z.bits_inj'. intros n _.
  rewrite Z.land_spec, Z.lor_spec.
  by destruct (Z.testbit vb n), (Z.testbit 3 n).
Qed.

Lemma mark_low_bit (p : Z) : Z.land (Node.mark p) 1 = 1.
Proof.
  unfold Node.mark. apply Z.bits_inj'. intros n _.
  rewrite Z.land_spec, Z.lor_spec.
  by destruct (Z.testbit p n), (Z.testbit 1 n).
Qed.

Lemma read_written_cell (m : MemoryManager.t) (i j : Z)
    (row : list MemoryManager.MemCell) (c0 c : MemoryManager.MemCell) :
  0 ≤ i → 0 ≤ j →
  Store.memPool m !! Z.to_nat i = Some row →
  row !! Z.to_nat j = Some c0 →
  let m' := Store.set_memPool
              (<[Z.to_nat i := <[Z.to_nat j := c]> row]> (Store.memPool m)) m in
  Store.read_cell i j m' = Ok c m'.
Proof.
  intros Hi Hj Hrow Hc m'. apply read_cell_Ok.
  exists (<[Z.to_nat j := c]> row). split; [done|]. split; [done|].
  split; [|split; [|done]].
  - simpl. apply list_lookup_insert_eq. by eapply lookup_lt_Some.
  - apply list_lookup_insert_eq. by eapply lookup_lt_Some.
Qed.

(** X5: a successful [insert] uses up one pool node and one durable cell
    of the writer's section (section 0 in the Sequential set): both
    [allocIndices] and the store's [freeListIndex] of that section were
    at least 0 and are lowered by exactly one; no other entry changes. *)
Theorem insert_takes_one_of_each (v : variant) (s s1 : DurableSet.t)
    (fuel : nat) (k item id : Z) :
  reachable v s →
  (size (DurableSet.heap s) ≤ fuel)%nat →
  k < MAX_KEY →
  DurableSet.insert v fuel k item id s = Ok true s1 →
  let w := Z.to_nat (section_of v id) in
  ∃ idx d,
    DurableSet.allocIndices s !! w = Some idx ∧ 0 ≤ idx
    ∧ Store.freeListIndex (DurableSet.mem s) !! w = Some d ∧ 0 ≤ d
    ∧ DurableSet.allocIndices s1 = <[w := idx - 1]> (DurableSet.allocIndices s)
    ∧ Store.freeListIndex (DurableSet.mem s1)
      = <[w := d - 1]> (Store.freeListIndex (DurableSet.mem s)).
Proof.
  intros [mid HI]%reachable_Inv Hfuel Hk Hins w.
  destruct (insert_true_inv v _ s s1 mid k item id fuel HI Hk Hfuel Hins)
    as (idx & a & an & d & row & c0 & _ & (_ & Hidx0 & Hidx & _) & _ & Hd & Hd0
        & _ & _ & _ & Hal & Hmem & _).
  exists idx, d. rewrite Hmem. done.
Qed.

Lemma insert_takes_one_of_each_witness :
  ∃ s1 idx d,
    DurableSet.insert Lock 5 2 20 0 example_fresh = Ok true s1
    ∧ DurableSet.allocIndices example_fresh !! 0%nat = Some idx ∧ 0 ≤ idx
    ∧ Store.freeListIndex (DurableSet.mem example_fresh) !! 0%nat = Some d ∧ 0 ≤ d
    ∧ DurableSet.allocIndices s1
      = <[0%nat := idx - 1]> (DurableSet.allocIndices example_fresh)
    ∧ Store.freeListIndex (DurableSet.mem s1)
      = <[0%nat := d - 1]> (Store.freeListIndex (DurableSet.mem example_fresh)).
Proof.
  assert (∃ s1, DurableSet.insert Lock 5 2 20 0 example_fresh = Ok true s1)
    as [s1 Hins] by (eexists; vm_compute; reflexivity).
  exists s1.
  destruct (insert_takes_one_of_each Lock example_fresh s1 5 2 20 0
              example_fresh_reachable)
    as (idx & d & H); [vm_compute; lia|unfold MAX_KEY; lia|exact Hins|].
  exists idx, d. split; [exact Hins|exact H].
Defined.

(** X6: after a successful [insert(k, item)] the durable cell at the
    address the store handed out (the writer's section, the former
    [freeListIndex]) holds [k] and [item] with both valid bits set, the
    insert flag set and the delete flag clear, and a [next] pointer that
    is unmarked but not null; [isValid], which asks for a null [next],
    therefore answers [false] on it. *)
Theorem insert_flushes_record (v : variant) (s s1 : DurableSet.t)
    (fuel : nat) (k item id : Z) :
  reachable v s →
  (size (DurableSet.heap s) ≤ fuel)%nat →
  k < MAX_KEY →
  DurableSet.insert v fuel k item id s = Ok true s1 →
  ∃ d cell,
    Store.retrieveAddress (section_of v id) (DurableSet.mem s)
    = Ok d (DurableSet.mem s)
    ∧ Store.read_cell (section_of v id) d (DurableSet.mem s1)
      = Ok cell (DurableSet.mem s1)
    ∧ MemoryManager.key cell = k
    ∧ MemoryManager.item cell = item
    ∧ Z.land (MemoryManager.validBits cell) 3 = 3
    ∧ MemoryManager.insertValidFlag cell = true
    ∧ MemoryManager.deleteValidFlag cell = false
    ∧ Z.land (MemoryManager.next cell) 1 = 0
    ∧ MemoryManager.next cell ≠ 0
    ∧ MemoryManager.isValid cell = false.
Proof.
  intros [mid HI]%reachable_Inv Hfuel Hk Hins.
  destruct (insert_true_inv v _ s s1 mid k item id fuel HI Hk Hfuel Hins)
    as (idx & a & an & d & row & c0 & _ & (Hw & _) & _ & Hd & Hd0
        & Hrow & Hc0 & _ & _ & Hmem & Hcur & _).
  destruct (Inv_stop_aligned _ s mid k HI ltac:(lia)) as [_ Heven].
  set (cur := default 0 _) in *.
  eexists d, _. split; [by apply retrieveAddress_Ok|].
  split.
  { rewrite Hmem.
    apply (read_written_cell
             (Store.set_freeListIndex _ (DurableSet.mem s)) _ _ row c0); done. }
  simpl. split; [done|]. split; [done|].
  split; [apply validBits_complete|]. split; [done|]. split; [done|].
  split; [by apply land_1_even|]. split; [done|].
  apply not_true_is_false. by intros [_ ?]%isValid_true_iff.
Qed.

Lemma insert_flushes_record_witness :
  ∃ s1 d cell,
    DurableSet.insert Lock 5 2 20 0 example_fresh = Ok true s1
    ∧ Store.retrieveAddress 0 (DurableSet.mem example_fresh)
      = Ok d (DurableSet.mem example_fresh)
    ∧ Store.read_cell 0 d (DurableSet.mem s1) = Ok cell (DurableSet.mem s1)
    ∧ MemoryManager.key cell = 2
    ∧ MemoryManager.item cell = 20
    ∧ Z.land (MemoryManager.validBits cell) 3 = 3
    ∧ MemoryManager.insertValidFlag cell = true
    ∧ MemoryManager.deleteValidFlag cell = false
    ∧ Z.land (MemoryManager.next cell) 1 = 0
    ∧ MemoryManager.next cell ≠ 0
    ∧ MemoryManager.isValid cell = false.
Proof.
  assert (∃ s1, DurableSet.insert Lock 5 2 20 0 example_fresh = Ok true s1)
    as [s1 Hins] by (eexists; vm_compute; reflexivity).
  exists s1.
  destruct (insert_flushes_record Lock example_fresh s1 5 2 20 0
              example_fresh_reachable)
    as (d & cell & H); [vm_compute; lia|unfold MAX_KEY; lia|exact Hins|].
  exists d, cell. split; [exact Hins|exact H].
Defined.

(** A successful [remove]: the node the traversal stops at is the one
    that is marked and unlinked. *)
Lemma remove_true_node v N s s1 mid k fuel :
  Inv N s mid → k < MAX_KEY → (N ≤ fuel)%nat →
  DurableSet.remove v fuel k s = Ok true s1 →
  ∃ prev a rest cn pn,
    from k mid = (a, k) :: rest
    ∧ DurableSet.find v fuel k s = Ok (prev, a) s
    ∧ DurableSet.heap s !! a = Some cn
    ∧ DurableSet.heap s !! prev = Some pn
    ∧ Node.next pn = a
    ∧ a ≠ prev
    ∧ DurableSet.heap s1
      = <[prev := Node.set_next (Node.next cn) pn]>
          (<[a := Node.set_next (Node.mark (Node.next cn)) cn]>
             (DurableSet.heap s)).
Proof.
  intros HI Hk Hfuel Hrem.
  pose proof (remove_post v N s mid k fuel HI Hk Hfuel) as Hpost.
  rewrite Hrem in Hpost. destruct Hpost as [[[=] _]|[_ (a & rest & Hfrom & HI1)]].
  rewrite (remove_unfold v N s mid k fuel) in Hrem by done.
  destruct (Inv_stop N s mid k HI ltac:(lia))
    as (c & rest' & cn & Hfrom' & Hc & Hcn & Hkey & Heven).
  destruct (Inv_prev N s mid k HI ltac:(lia)) as (pn & Hpn & Hnext).
  destruct (chain_split s mid k ltac:(lia)) as (E1 & Hsplit & _).
  pose proof (find_spec v N s mid k fuel HI ltac:(lia) Hfuel) as Hfind.
  rewrite Hsplit, Hfrom in Hfrom'. injection Hfrom' as <- <-. simpl in Hcn, Hkey.
  rewrite Hsplit, Hfrom in Hrem, Hnext, Hfind. simpl in Hrem, Hnext, Hfind.
  erewrite bind_load in Hrem by exact Hcn.
  rewrite Hkey, bool_decide_eq_true_2 in Hrem by done. simpl in Hrem.
  apply bind_Ok_inv in Hrem as ([] & s2 & Hun & [= <-]).
  set (prev := default (DurableSet.head s) (fst <$> last (before k mid))) in *.
  assert (a ≠ prev) as Hne.
  { intros Heq. pose proof (inv_nodup _ _ _ HI) as Hnd.
    rewrite E1, Hsplit, Hfrom in Hnd.
    destruct (snoc_split (DurableSet.head s, MIN_KEY) (before k mid)) as (P & kp & HL1).
    simpl in HL1. fold prev in HL1. rewrite HL1, <- app_assoc, fmap_app in Hnd.
    simpl in Hnd. apply NoDup_app in Hnd as (_ & _ & Hnd).
    apply NoDup_cons in Hnd as [Hnd _]. apply Hnd. rewrite Heq. apply list_elem_of_here. }
  apply (unlink_Ok s s2 prev a pn cn Hcn Hpn Hne) in Hun
    as (row & c0 & Hpre & Hpost & Hrow & Hc0 & ->).
  exists prev, a, rest, cn, pn. done.
Qed.

(** X7: a successful [remove(k)] marks the link of the node at which the
    traversal for [k] stops, the linked node that holds [k], and makes
    its predecessor skip it; the store it leaves is the store as it was
    with that node's record flushed to the node's durable address: same
    key and item, both flags set and the low bit of [next] set; it gives
    back neither a pool node nor a cell ([allocIndices] and
    [freeListIndex] unchanged). *)
Theorem remove_flushes_tombstone (v : variant) (s s1 : DurableSet.t)
    (fuel : nat) (k : Z) :
  reachable v s →
  (size (DurableSet.heap s) ≤ fuel)%nat →
  k < MAX_KEY →
  DurableSet.remove v fuel k s = Ok true s1 →
  ∃ prev a pn cn cell,
    DurableSet.find v fuel k s = Ok (prev, a) s
    ∧ DurableSet.heap s !! prev = Some pn
    ∧ Node.next pn = a
    ∧ DurableSet.heap s !! a = Some cn
    ∧ Node.key cn = k
    ∧ Node.isNextMarked cn = false
    ∧ DurableSet.heap s1 !! prev = Some (Node.set_next (Node.next cn) pn)
    ∧ DurableSet.heap s1 !! a
      = Some (Node.set_next (Node.mark (Node.next cn)) cn)
    ∧ MemoryManager.FLUSH k (Node.item cn) (Node.validBits cn) true true
        (Node.mark (Node.next cn)) (Node.durableAddressPrefix cn)
        (Node.durableAddressPostfix cn) (DurableSet.mem s)
      = Ok tt (DurableSet.mem s1)
    ∧ Store.read_cell (Node.durableAddressPrefix cn)
        (Node.durableAddressPostfix cn) (DurableSet.mem s1)
      = Ok cell (DurableSet.mem s1)
    ∧ MemoryManager.key cell = k
    ∧ MemoryManager.item cell = Node.item cn
    ∧ MemoryManager.insertValidFlag cell = true
    ∧ MemoryManager.deleteValidFlag cell = true
    ∧ Z.land (MemoryManager.next cell) 1 = 1
    ∧ Store.freeListIndex (DurableSet.mem s1)
      = Store.freeListIndex (DurableSet.mem s)
    ∧ DurableSet.allocIndices s1 = DurableSet.allocIndices s.
Proof.
  intros [mid HI]%reachable_Inv Hfuel Hk Hrem.
  destruct (remove_true_inv v _ s s1 mid k fuel HI Hk Hfuel Hrem)
    as (a & rest & cn & row & c0 & Hfrom & Hcn & Hkey & Heven & Hpre & Hpost
        & Hrow & Hc0 & Hmem & Hal & _).
  destruct (remove_true_node v _ s s1 mid k fuel HI Hk Hfuel Hrem)
    as (prev & a' & rest' & cn' & pn & Hfrom' & Hfind & Hcn' & Hpn & Hnext
        & Hne & Hheap).
  rewrite Hfrom in Hfrom'. injection Hfrom' as <- <-.
  assert (cn' = cn) as -> by congruence.
  eexists prev, a, pn, cn, _. split; [done|]. split; [done|]. split; [done|].
  split; [done|]. split; [done|].
  split; [by rewrite isNextMarked_even|].
  split; [by rewrite Hheap, lookup_insert_eq|].
  split; [by rewrite Hheap, lookup_insert_ne, lookup_insert_eq|].
  split.
  { apply FLUSH_Ok. exists row, c0. by rewrite Hmem. }
  split.
  { rewrite Hmem. by apply (read_written_cell (DurableSet.mem s) _ _ row c0). }
  simpl. do 4 (split; [done|]). split; [apply mark_low_bit|].
  split; [by rewrite Hmem|done].
Qed.

Lemma remove_flushes_tombstone_witness :
  ∃ s1 prev a pn cn cell,
    DurableSet.remove Lock 5 3 example_set = Ok true s1
    ∧ DurableSet.find Lock 5 3 example_set = Ok (prev, a) example_set
    ∧ DurableSet.heap example_set !! prev = Some pn
    ∧ Node.next pn = a
    ∧ DurableSet.heap example_set !! a = Some cn
    ∧ Node.key cn = 3
    ∧ Node.isNextMarked cn = false
    ∧ DurableSet.heap s1 !! prev = Some (Node.set_next (Node.next cn) pn)
    ∧ DurableSet.heap s1 !! a
      = Some (Node.set_next (Node.mark (Node.next cn)) cn)
    ∧ MemoryManager.FLUSH 3 (Node.item cn) (Node.validBits cn) true true
        (Node.mark (Node.next cn)) (Node.durableAddressPrefix cn)
        (Node.durableAddressPostfix cn) (DurableSet.mem example_set)
      = Ok tt (DurableSet.mem s1)
    ∧ Store.read_cell (Node.durableAddressPrefix cn)
        (Node.durableAddressPostfix cn) (DurableSet.mem s1)
      = Ok cell (DurableSet.mem s1)
    ∧ MemoryManager.key cell = 3
    ∧ MemoryManager.item cell = Node.item cn
    ∧ MemoryManager.insertValidFlag cell = true
    ∧ MemoryManager.deleteValidFlag cell = true
    ∧ Z.land (MemoryManager.next cell) 1 = 1
    ∧ Store.freeListIndex (DurableSet.mem s1)
      = Store.freeListIndex (DurableSet.mem example_set)
    ∧ DurableSet.allocIndices s1 = DurableSet.allocIndices example_set.
Proof.
  assert (∃ s1, DurableSet.remove Lock 5 3 example_set = Ok true s1)
    as [s1 Hrem] by (eexists; vm_compute; reflexivity).
  exists s1.
  destruct (remove_flushes_tombstone Lock example_set s1 5 3 example_set_reachable)
    as (prev & a & pn & cn & cell & H);
    [vm_compute; lia|unfold MAX_KEY; lia|exact Hrem|].
  exists prev, a, pn, cn, cell. split; [exact Hrem|exact H].
Defined.

(** X8: after a successful [insert(k, item)], [remove(k)] returns [true]
    and [printSet] prints again what it printed before the insert,
    [contains(k)] returns [false], and the pool node and the durable
    cell that the insert used are not given back. *)
Theorem insert_then_remove (v : variant) (s s1 : DurableSet.t) (fuel : nat)
    (k item id : Z) :
  reachable v s →
  (size (DurableSet.heap s) ≤ fuel)%nat →
  k < MAX_KEY →
  DurableSet.insert v fuel k item id s = Ok true s1 →
  ∃ s2 ks,
    DurableSet.remove v fuel k s1 = Ok true s2
    ∧ DurableSet.printSet fuel s = Ok ks s
    ∧ DurableSet.printSet fuel s2 = Ok ks s2
    ∧ DurableSet.contains v fuel k s2 = Ok false s2
    ∧ DurableSet.allocIndices s2 = DurableSet.allocIndices s1
    ∧ Store.freeListIndex (DurableSet.mem s2)
      = Store.freeListIndex (DurableSet.mem s1).
Proof.
  intros [mid HI]%reachable_Inv Hfuel Hk Hins.
  destruct (insert_true_inv v _ s s1 mid k item id fuel HI Hk Hfuel Hins)
    as (idx & a & an & d & row & c0 & Habs & (Hw & _) & _ & Hd & Hd0
        & Hrow & Hc0 & Ha1 & _ & Hmem & _ & HI1).
  set (N := size (DurableSet.heap s)) in *.
  set (mid1 := before k mid ++ (a, k) :: from k mid) in *.
  destruct (before_app_stop k (before k mid) (from k mid) (a, k)
              (Forall_before k mid) ltac:(simpl; lia)) as [Hb1 Hf1].
  fold mid1 in Hb1, Hf1.
  (* the remove finds the node just linked and its record in range *)
  assert (∃ s2, DurableSet.remove v fuel k s1 = Ok true s2) as [s2 Hrem].
  { rewrite (remove_unfold v N s1 mid1 k fuel) by done.
    destruct (chain_split s1 mid1 k ltac:(lia)) as (E1 & Hsplit & _).
    destruct (Inv_prev N s1 mid1 k HI1 ltac:(lia)) as (pn & Hpn & _).
    rewrite Hsplit, Hf1. simpl.
    erewrite bind_load by exact Ha1. simpl.
    rewrite bool_decide_eq_true_2 by done. simpl.
    set (prev := default (DurableSet.head s1) (fst <$> last (before k mid1))) in *.
    assert (a ≠ prev) as Hne.
    { intros Heq. pose proof (inv_nodup _ _ _ HI1) as Hnd.
      rewrite E1, Hsplit, Hf1 in Hnd.
      destruct (snoc_split (DurableSet.head s1, MIN_KEY) (before k mid1))
        as (P & kp & HL1).
      simpl in HL1. fold prev in HL1. rewrite HL1, <- app_assoc, fmap_app in Hnd.
      simpl in Hnd. apply NoDup_app in Hnd as (_ & _ & Hnd).
      apply NoDup_cons in Hnd as [Hnd _]. apply Hnd. rewrite Heq.
      apply list_elem_of_here. }
    eexists. unfold bind.
    erewrite (proj2 (unlink_Ok s1 _ prev a pn _ Ha1 Hpn Hne)); [done|].
    simpl. rewrite Hmem. simpl.
    eexists _, _. split; [done|]. split; [done|].
    split; [apply list_lookup_insert_eq; by eapply lookup_lt_Some|].
    split; [apply list_lookup_insert_eq; by eapply lookup_lt_Some|]. done. }
  exists s2, (snd <$> chain s mid).
  destruct (remove_true_inv v N s1 s2 mid1 k fuel HI1 Hk Hfuel Hrem)
    as (a' & rest & cn & row' & c0' & Hfrom & _ & _ & _ & _ & _ & _ & _
        & Hmem2 & Hal2 & HI2).
  rewrite Hf1 in Hfrom. injection Hfrom as <- <-.
  rewrite Hb1, before_from in HI2.
  assert (DurableSet.head s2 = DurableSet.head s ∧ DurableSet.tail s2 = DurableSet.tail s)
    as [Hhead Htail].
  { destruct (insert_same_tail v fuel k item id s true s1 Hins) as [Hh1 Ht1].
    destruct (remove_same_tail v fuel k s1 true s2 Hrem) as [Hh2 Ht2].
    split; congruence. }
  split; [done|]. split; [by apply (printSet_spec N)|].
  split.
  { rewrite (printSet_spec N s2 mid fuel HI2 Hfuel). unfold chain.
    by rewrite Hhead, Htail. }
  split.
  { rewrite (contains_elements v N s2 mid k fuel HI2) by done.
    by rewrite bool_decide_eq_false_2. }
  split; [done|]. by rewrite Hmem2.
Qed.

Lemma insert_then_remove_witness :
  ∃ s1 s2 ks,
    DurableSet.insert Lock 5 2 20 0 example_fresh = Ok true s1
    ∧ DurableSet.remove Lock 5 2 s1 = Ok true s2
    ∧ DurableSet.printSet 5 example_fresh = Ok ks example_fresh
    ∧ DurableSet.printSet 5 s2 = Ok ks s2
    ∧ DurableSet.contains Lock 5 2 s2 = Ok false s2
    ∧ DurableSet.allocIndices s2 = DurableSet.allocIndices s1
    ∧ Store.freeListIndex (DurableSet.mem s2)
      = Store.freeListIndex (DurableSet.mem s1).
Proof.
  assert (∃ s1, DurableSet.insert Lock 5 2 20 0 example_fresh = Ok true s1)
    as [s1 Hins] by (eexists; vm_compute; reflexivity).
  exists s1.
  destruct (insert_then_remove Lock example_fresh s1 5 2 20 0
              example_fresh_reachable)
    as (s2 & ks & H); [vm_compute; lia|unfold MAX_KEY; lia|exact Hins|].
  exists s2, ks. split; [exact Hins|exact H].
Defined.
(** ** Inserts that cannot be served *)

Lemma contains_false_absent v N s mid k fuel :
  Inv N s mid → k < MAX_KEY → (N ≤ fuel)%nat →
  DurableSet.contains v fuel k s = Ok false s →
  snd <$> head (from k mid) ≠ Some k.
Proof.
  intros HI Hk Hfuel Hc.
  rewrite (contains_elements v N s mid k fuel HI) in Hc by done.
  injection Hc as Hc. by apply bool_decide_eq_false in Hc.
Qed.

Lemma vec_at_negative {St A} (l : list A) (i : Z) (s : St) :
  i < 0 → vec_at l i s = Throw out_of_range s.
Proof. intros Hi. unfold vec_at. by rewrite bool_decide_eq_false_2 by lia. Qed.

Lemma vec_at_beyond {St A} (l : list A) (i : Z) (s : St) :
  Z.of_nat (length l) ≤ i → vec_at l i s = Throw out_of_range s.
Proof.
  intros Hi. unfold vec_at. case_bool_decide; [|done].
  rewrite lookup_ge_None_2 by lia. done.
Qed.

(** X11: in a state reached without an exception, when the pool still
    has a node but the store has no cell left for the section
    ([retrieveAddress] returns [-1]), [insert] of an absent key returns
    [false] and changes nothing. *)
Theorem insert_store_full_returns_false (v : variant) (s : DurableSet.t)
    (fuel : nat) (k item id idx a : Z) :
  settled v s →
  (size (DurableSet.heap s) ≤ fuel)%nat →
  k < MAX_KEY →
  DurableSet.contains v fuel k s = Ok false s →
  top_slot s (section_of v id) idx a →
  Store.retrieveAddress (section_of v id) (DurableSet.mem s)
  = Ok (-1) (DurableSet.mem s) →
  DurableSet.insert v fuel k item id s = Ok false s.
Proof.
  intros [mid HI]%settled_reachable%reachable_Inv Hfuel Hk Hc
    (Hw & Hidx0 & Hidx & pool & Hpool & Ha) (_ & Hd & _)%retrieveAddress_Ok.
  rewrite (insert_absent v _ s mid k item id fuel HI Hk Hfuel)
    by by eapply contains_false_absent.
  unfold DurableSet.allocFromArea. unfold bind at 1 2, get at 1.
  rewrite (bind_vec_at _ _ pool) by done.
  rewrite (bind_vec_at _ _ idx) by done.
  rewrite (bind_vec_at _ _ a) by done.
  unfold DurableSet.on_mem, zoom, bind.
  rewrite (proj2 (retrieveAddress_Ok _ _ _ (-1))) by done.
  rewrite set_mem_id. done.
Qed.

Lemma insert_store_full_returns_false_witness :
  DurableSet.insert Lock 5 2 20 0 example_set = Ok false example_set.
Proof.
  apply (insert_store_full_returns_false Lock example_set 5 2 20 0 0 64
           example_set_settled);
    [vm_compute; lia|unfold MAX_KEY; lia|vm_compute; reflexivity
    | |vm_compute; reflexivity].
  repeat split; [done|done|exists [64; 128]; split; reflexivity].
Defined.
(** X12: whatever the operations of a history and whatever they return
    or throw, they never allocate or free a node and never touch the
    sentinels' addresses, the pools, [maxIndices], [numIDs], the recorded
    recovery keys or the dimensions of the store. *)
Theorem operations_keep_nodes (v : variant) (fuel : nat) (ops : list op)
    (s s' : DurableSet.t) :
  final (run v fuel ops s) = Some s' → keeps_nodes s s'.
Proof. intros Hf. by apply (always_run v fuel ops s s'). Qed.

Lemma operations_keep_nodes_witness : keeps_nodes example_fresh example_set.
Proof.
  apply (operations_keep_nodes Lock 5 example_history).
  vm_compute. reflexivity.
Defined.

(** X13: no history of operations raises a budget: position by
    position, [allocIndices] and the store's [freeListIndex] at the end
    are at most what they were at the start. *)
Theorem budgets_never_raised (v : variant) (fuel : nat) (ops : list op)
    (s s' : DurableSet.t) :
  final (run v fuel ops s) = Some s' → budget_not_raised s s'.
Proof. intros Hf. by apply (always_run v fuel ops s s'). Qed.

Lemma budgets_never_raised_witness : budget_not_raised example_fresh example_set.
Proof.
  apply (budgets_never_raised Lock 5 example_history).
  vm_compute. reflexivity.
Defined.
(** ** The printed size *)

Lemma printSetSize_loop_spec (s : DurableSet.t) (l : list (Z * Z)) (fuel : nat)
    (cur count : Z) :
  lseg (DurableSet.heap s) cur l 0 →
  Forall aligned (fst <$> l) →
  (length l < fuel)%nat →
  printSetSize_loop fuel cur count s = Ok (count + Z.of_nat (length l)) s.
Proof.
  revert fuel cur count. induction l as [|ak l IH]; intros fuel cur count Hl Hal Hfuel.
  { destruct fuel; [simpl in Hfuel; lia|]. simpl in Hl. subst cur. simpl.
    unfold ret. f_equal. lia. }
  destruct fuel as [|fuel]; [simpl in Hfuel; lia|].
  pose proof Hl as (-> & n & Hn & Hk & Hl').
  apply Forall_cons in Hal as [[Hnz _] Hal].
  cbn [printSetSize_loop].
  rewrite bool_decide_eq_false_2 by done.
  unfold bind. rewrite (load_Some _ _ _ Hn).
  simpl in Hfuel. rewrite (IH fuel _ _ Hl' Hal) by lia.
  f_equal. simpl length. lia.
Qed.

(** X14: [printSetSize] prints the number of elements: the count of
    the keys that [printSet] prints between [MIN_KEY] and [MAX_KEY]. *)
Theorem printSetSize_counts_elements (v : variant) (s : DurableSet.t)
    (fuel : nat) :
  reachable v s →
  (size (DurableSet.heap s) ≤ fuel)%nat →
  ∃ ks, DurableSet.printSet fuel s = Ok (MIN_KEY :: ks ++ [MAX_KEY]) s
        ∧ printSetSize fuel s = Ok (Z.of_nat (length ks)) s.
Proof.
  intros [mid HI]%reachable_Inv Hfuel.
  exists (snd <$> mid). split.
  { rewrite (printSet_spec _ s mid fuel HI Hfuel). unfold chain.
    by rewrite fmap_cons, fmap_app. }
  pose proof (Inv_length _ _ _ HI) as Hlen.
  destruct HI as [Hchain _ _ Haligned _ _ _].
  destruct Hchain as (_ & hn & Hhn & Hkey & Hrest).
  apply Forall_cons in Haligned as [_ Hal].
  unfold printSetSize. unfold bind at 1, get at 1.
  erewrite bind_load by exact Hhn. unfold bind.
  rewrite (printSetSize_loop_spec s (mid ++ [(DurableSet.tail s, MAX_KEY)]));
    [|done|done|rewrite length_app; simpl; lia].
  unfold ret. f_equal. rewrite length_app, length_fmap. simpl. lia.
Qed.

Lemma printSetSize_counts_elements_witness :
  ∃ ks, DurableSet.printSet 5 example_set = Ok (MIN_KEY :: ks ++ [MAX_KEY]) example_set
        ∧ printSetSize 5 example_set = Ok (Z.of_nat (length ks)) example_set.
Proof.
  apply (printSetSize_counts_elements Lock example_set 5 example_set_reachable).
  vm_compute. lia.
Defined.
(** ** The memory manager on its own *)

Section StoreLaws.
Context {Cell : Type} `{CellFlavor Cell}.
Implicit Types (m : Store.MemoryManager Cell).

Lemma fmap_const_replicate {A B} (n : nat) (x : A) (y : B) :
  (λ _, y) <$> replicate n x = replicate n y.
Proof. induction n as [|n IH]; [done|]. simpl. by rewrite <- IH. Qed.

(** X15: the constructor of the memory manager throws
    [std::length_error] exactly when [numIDs] is negative, or [numIDs] is
    positive and [numOps] negative; otherwise it builds [numIDs] sections
    of [numOps] blank cells with every cursor at [numOps - 1]. *)
Theorem MemoryManager_constructor (numIDs numOps : Z) :
  Store.create (Cell:=Cell) numIDs numOps tt
  = if bool_decide (numIDs < 0 ∨ (0 < numIDs ∧ numOps < 0))
    then Throw length_error tt
    else Ok {| Store.numMemPoolSections := numIDs;
               Store.memPoolSectionSize := numOps;
               Store.memPool :=
                 replicate (Z.to_nat numIDs)
                   (replicate (Z.to_nat numOps) cell_blank);
               Store.freeListIndex :=
                 replicate (Z.to_nat numIDs) (numOps - 1) |} tt.
Proof.
  unfold Store.create, bind, vec_new, ret, throw.
  destruct (decide (0 ≤ numIDs)) as [Hn|Hn].
  - rewrite (bool_decide_eq_true_2 (0 ≤ numIDs)) by done.
    destruct (decide (0 < numIDs)) as [Hp|Hp].
    + rewrite (bool_decide_eq_true_2 (0 < numIDs)) by done.
      destruct (decide (0 ≤ numOps)) as [Ho|Ho].
      * rewrite (bool_decide_eq_true_2 (0 ≤ numOps)) by done.
        rewrite bool_decide_eq_false_2 by lia.
        by rewrite !fmap_const_replicate.
      * rewrite (bool_decide_eq_false_2 (0 ≤ numOps)) by done.
        by rewrite bool_decide_eq_true_2 by lia.
    + rewrite (bool_decide_eq_false_2 (0 < numIDs)) by done.
      rewrite bool_decide_eq_false_2 by lia.
      replace numIDs with 0 by lia. done.
  - rewrite (bool_decide_eq_false_2 (0 ≤ numIDs)) by done.
    by rewrite bool_decide_eq_true_2 by lia.
Qed.

(** The cell at [(i, j)], if the arena has one. *)
Lemma read_cell_cases i j m :
  (∃ c, Store.read_cell i j m = Ok c m)
  ∨ Store.read_cell i j m = Throw out_of_range m.
Proof.
  unfold Store.read_cell, bind, get.
  destruct (vec_at_cases (Store.memPool m) i m) as [[row ->]| ->]; [|by right].
  destruct (vec_at_cases row j m) as [[c ->]| ->]; [left; by exists c|by right].
Qed.

Lemma write_cell_Throw i j c m :
  Store.read_cell i j m = Throw out_of_range m →
  Store.write_cell i j c m = Throw out_of_range m.
Proof.
  unfold Store.read_cell, Store.write_cell, bind, get.
  destruct (vec_at_cases (Store.memPool m) i m) as [[row ->]| ->]; [|done].
  destruct (vec_at_cases row j m) as [[c' ->]| ->]; done.
Qed.
End StoreLaws.

(** X16: [FLUSH] to an existing cell returns, the cell then reads back
    as the copy of the arguments, every other cell, the cursors and the
    dimensions are unchanged; [FLUSH] to an address that has no cell
    throws [std::out_of_range] and leaves the store as it was. *)
Theorem FLUSH_then_read (m : MemoryManager.t) (key item validBits : Z)
    (insertValidFlag deleteValidFlag : bool) (next pre post' : Z) :
  let flush := MemoryManager.FLUSH key item validBits insertValidFlag
                 deleteValidFlag next pre post' in
  (∀ c0, Store.read_cell pre post' m = Ok c0 m →
     ∃ m', flush m = Ok tt m'
           ∧ Store.read_cell pre post' m'
             = Ok (MemoryManager.COPY key item validBits insertValidFlag
                     deleteValidFlag next c0) m'
           ∧ Store.freeListIndex m' = Store.freeListIndex m
           ∧ same_shape m m'
           ∧ ∀ i j c, (i, j) ≠ (pre, post') →
               Store.read_cell i j m = Ok c m →
               Store.read_cell i j m' = Ok c m')
  ∧ (Store.read_cell pre post' m = Throw out_of_range m →
     flush m = Throw out_of_range m).
Proof.
  intros flush. split.
  - intros c0 (row & Hpre & Hpost & Hrow & Hc0 & _)%read_cell_Ok.
    eexists. split; [apply FLUSH_Ok; by exists row, c0|].
    split; [by apply (read_written_cell m pre post' row c0)|].
    split; [done|]. split; [unfold same_shape; simpl; by rewrite length_insert|].
    intros i j c Hne (row' & Hi & Hj & Hrow' & Hc & _)%read_cell_Ok.
    apply read_cell_Ok. simpl.
    destruct (decide (Z.to_nat i = Z.to_nat pre)) as [Heq|Hneq].
    + assert (i = pre) as -> by lia. assert (row' = row) as -> by congruence.
      exists (<[Z.to_nat post' := MemoryManager.COPY key item validBits
                   insertValidFlag deleteValidFlag next c0]> row).
      split; [done|]. split; [done|].
      split; [apply list_lookup_insert_eq; by eapply lookup_lt_Some|].
      split; [|done]. rewrite list_lookup_insert_ne; [done|].
      intros Heq'. apply Hne. f_equal. lia.
    + exists row'. split; [done|]. split; [done|].
      split; [by rewrite list_lookup_insert_ne|done].
  - intros Hthrow. unfold flush, MemoryManager.FLUSH, bind. by rewrite Hthrow.
Qed.
Section ScanNoCells.
Context {Cell : Type} `{CellFlavor Cell}.
Implicit Types (m : Store.MemoryManager Cell) (r : Recovered).

Lemma zeroed_step (l : list Z) (i : nat) (k : nat) :
  (i < length l)%nat →
  take (S i) (<[i := 0]> l) ++ replicate k 0 ++ drop (S i + k) (<[i := 0]> l)
  = take i l ++ replicate (S k) 0 ++ drop (i + S k) l.
Proof.
  intros Hi.
  rewrite (take_S_r _ _ 0) by (by apply list_lookup_insert_eq).
  rewrite take_insert_ge by lia.
  rewrite drop_insert_lt by lia.
  rewrite <- app_assoc. simpl.
  by replace (i + S k)%nat with (S (i + k)) by lia.
Qed.

(** On an arena whose sections have no cells the inner loop is never
    entered: the scan sets the cursors of the sections to [0] and
    returns [0]. *)
Lemma scan_sections_no_cells fuel (k : nat) i count m r :
  Store.memPoolSectionSize m ≤ 0 →
  0 ≤ i →
  Store.numMemPoolSections m = i + Z.of_nat k →
  (Z.to_nat i + k ≤ length (Store.freeListIndex m))%nat →
  (k + 2 ≤ fuel)%nat →
  Store.scan_sections fuel i count (m, r)
  = Ok count
      (Store.set_freeListIndex
         (take (Z.to_nat i) (Store.freeListIndex m) ++ replicate k 0
            ++ drop (Z.to_nat i + k) (Store.freeListIndex m)) m, r).
Proof.
  revert fuel i m. induction k as [|k IH]; intros fuel i m Hsize Hi Hn Hlen Hfuel.
  - destruct fuel as [|fuel]; [lia|]. simpl.
    unfold bind at 1, get at 1. simpl.
    rewrite bool_decide_eq_false_2 by lia.
    rewrite Nat.add_0_r, take_drop. by destruct m.
  - destruct fuel as [|fuel]; [lia|]. cbn [Store.scan_sections].
    unfold bind at 1, get at 1. cbn [fst].
    rewrite bool_decide_eq_true_2 by lia.
    unfold bind at 1. unfold Store.on_mem, zoom, Store.reset_cursor.
    unfold bind at 1, get at 1.
    destruct (lookup_lt_is_Some_2 (Store.freeListIndex m) (Z.to_nat i)) as [c Hc];
      [lia|].
    rewrite (bind_vec_at _ _ c) by done.
    unfold put. cbn [fst snd].
    destruct fuel as [|fuel]; [lia|].
    unfold bind at 1. cbn [Store.scan_section].
    unfold bind at 1, get at 1. cbn [fst].
    rewrite bool_decide_eq_false_2 by (simpl; lia).
    unfold ret. cbn [fst snd].
    rewrite (IH (S fuel) (i + 1)); [|done|lia|simpl; lia| |lia].
    + f_equal. simpl. f_equal.
      * unfold Store.set_freeListIndex. simpl. f_equal.
        replace (Z.to_nat (i + 1)) with (S (Z.to_nat i)) by lia.
        apply zeroed_step. by eapply lookup_lt_Some.
    + simpl. rewrite length_insert. lia.
Qed.
End ScanNoCells.

(** X17: on a store whose sections have no cells
    ([memPoolSectionSize ≤ 0]) [readResetMemory] returns 0, sets every
    cursor to 0 and leaves the caller's vectors as they are. *)
Theorem readResetMemory_without_cells {Cell} `{CellFlavor Cell}
    (fuel : nat) (m : Store.MemoryManager Cell) (r : Recovered) :
  Store.memPoolSectionSize m ≤ 0 →
  0 ≤ Store.numMemPoolSections m →
  length (Store.freeListIndex m) = Z.to_nat (Store.numMemPoolSections m) →
  (length (Store.freeListIndex m) + 2 ≤ fuel)%nat →
  Store.readResetMemory fuel (m, r)
  = Ok 0 (Store.set_freeListIndex
            (replicate (length (Store.freeListIndex m)) 0) m, r).
Proof.
  intros Hsize Hn Hlen Hfuel. unfold Store.readResetMemory.
  rewrite (scan_sections_no_cells fuel (length (Store.freeListIndex m)) 0);
    [|done|done|lia|simpl; lia|done].
  simpl. rewrite drop_all, app_nil_r. done.
Qed.

Lemma readResetMemory_without_cells_witness :
  ∃ m, fresh_store (Cell:=MemoryManager.MemCell) 2 0 = Some m
       ∧ Store.readResetMemory 4 (m, no_output 2)
         = Ok 0 (Store.set_freeListIndex [0; 0] m, no_output 2).
Proof.
  assert (∃ m, fresh_store (Cell:=MemoryManager.MemCell) 2 0 = Some m
               ∧ Store.memPoolSectionSize m = 0
               ∧ Store.numMemPoolSections m = 2
               ∧ Store.freeListIndex m = [-1; -1])
    as (m & Hm & Hs & Hn & Hf)
    by (eexists; repeat (split; [vm_compute; reflexivity|]); vm_compute; reflexivity).
  exists m. split; [exact Hm|].
  pose proof (readResetMemory_without_cells 4 m (no_output 2)) as Hscan.
  rewrite Hs, Hn, Hf in Hscan. apply Hscan; simpl; lia.
Defined.
(** ** Construction *)

Lemma size_pools_Ok (n : nat) (i : Z) (wov : list Z) (s : DurableSet.t) :
  0 ≤ i → (Z.to_nat i + n ≤ length wov)%nat →
  DurableSet.size_pools n i (vec_at wov) s
  = Ok ((λ w, w - 1) <$> take n (drop (Z.to_nat i) wov),
        take n (drop (Z.to_nat i) wov)) s.
Proof.
  revert i. induction n as [|n IH]; intros i Hi Hlen; [done|].
  cbn [DurableSet.size_pools].
  destruct (lookup_lt_is_Some_2 wov (Z.to_nat i)) as [w Hw]; [lia|].
  rewrite (bind_vec_at _ _ w) by done.
  unfold bind. rewrite IH by lia.
  replace (Z.to_nat (i + 1)) with (S (Z.to_nat i)) by lia.
  rewrite (drop_S _ _ _ Hw). done.
Qed.

Lemma size_pools_short (n : nat) (i : Z) (wov : list Z) (s : DurableSet.t) :
  0 ≤ i → (Z.to_nat i ≤ length wov)%nat → (length wov < Z.to_nat i + n)%nat →
  DurableSet.size_pools n i (vec_at wov) s = Throw out_of_range s.
Proof.
  revert i. induction n as [|n IH]; intros i Hi Hle Hlen; [lia|].
  cbn [DurableSet.size_pools]. unfold bind at 1.
  destruct (vec_at_cases wov i s) as [[w Hw]| ->]; [|done].
  rewrite Hw. apply vec_at_Ok in Hw as (_ & Hw%lookup_lt_Some & _).
  unfold bind. by rewrite IH by lia.
Qed.

Lemma new_row_frame (v : variant) (n : nat) (r : DurableSet.ResourceCursor)
    (s : DurableSet.t) :
  ∃ row r' s',
    DurableSet.new_row v n r s = Ok (row, r') s'
    ∧ length row = n
    ∧ DurableSet.mem s' = DurableSet.mem s
    ∧ DurableSet.numIDs s' = DurableSet.numIDs s
    ∧ DurableSet.keysVolatileRecovered s' = DurableSet.keysVolatileRecovered s
    ∧ DurableSet.keysDurableRecovered s' = DurableSet.keysDurableRecovered s.
Proof.
  revert r s. induction n as [|n IH]; intros r s.
  { by exists [], r, s. }
  cbn [DurableSet.new_row]. unfold bind at 1, DurableSet.new_Node at 1.
  destruct (IH (DurableSet.advance v r)
              (DurableSet.set_heap (<[DurableSet.brk s := DurableSet.pool_node v r]>
                 (DurableSet.heap s)) (DurableSet.brk s + DurableSet.node_align) s))
    as (row & r' & s' & Hrun & Hlen & Hmem & Hn & Hv & Hd).
  exists (DurableSet.brk s :: row), r', s'.
  unfold bind. rewrite Hrun. simpl. by rewrite Hlen.
Qed.

Lemma new_pools_Ok (v : variant) (n : nat) (i : Z) (wov : list Z)
    (r : DurableSet.ResourceCursor) (s : DurableSet.t) :
  0 ≤ i → (Z.to_nat i + n ≤ length wov)%nat →
  Forall (λ w, 0 ≤ w) (take n (drop (Z.to_nat i) wov)) →
  ∃ pools r' s',
    DurableSet.new_pools v n i (vec_at wov) r s = Ok (pools, r') s'
    ∧ length <$> pools = Z.to_nat <$> take n (drop (Z.to_nat i) wov)
    ∧ DurableSet.mem s' = DurableSet.mem s
    ∧ DurableSet.numIDs s' = DurableSet.numIDs s
    ∧ DurableSet.keysVolatileRecovered s' = DurableSet.keysVolatileRecovered s
    ∧ DurableSet.keysDurableRecovered s' = DurableSet.keysDurableRecovered s.
Proof.
  revert i r s. induction n as [|n IH]; intros i r s Hi Hlen Hpos.
  { by exists [], r, s. }
  cbn [DurableSet.new_pools].
  destruct (lookup_lt_is_Some_2 wov (Z.to_nat i)) as [w Hw]; [lia|].
  rewrite (bind_vec_at _ _ w) by done.
  rewrite (drop_S _ _ _ Hw) in Hpos |- *. simpl in Hpos.
  apply Forall_cons in Hpos as [Hw0 Hpos].
  unfold bind at 1, vec_new. rewrite bool_decide_eq_true_2 by done. unfold ret.
  destruct (new_row_frame v (Z.to_nat w) r s)
    as (row & r1 & s1 & Hrow & Hrlen & Hmem1 & Hn1 & Hv1 & Hd1).
  unfold bind at 1. rewrite Hrow. cbn [fst snd].
  destruct (IH (i + 1) r1 s1) as (pools & r' & s' & Hrun & Hlens & Hmem & Hn & Hv & Hd);
    [lia|lia|by replace (Z.to_nat (i + 1)) with (S (Z.to_nat i)) by lia|].
  replace (Z.to_nat (i + 1)) with (S (Z.to_nat i)) in Hlens by lia.
  exists (row :: pools), r', s'. unfold bind. rewrite Hrun. cbn [fst snd ret].
  split; [done|]. rewrite !fmap_cons, Hrlen, Hlens.
  split; [done|]. repeat split; congruence.
Qed.

(** X18: for [numIDs ≥ 0] and a budget vector with at least [numIDs]
    non-negative entries the constructor returns a set with
    [maxIndices] the budgets, [allocIndices] the budgets less one, a pool
    of that many nodes per section, the store untouched, and nothing
    between the sentinels: [printSet] prints [MIN_KEY] and [MAX_KEY]. *)
Theorem constructor_builds_empty_set (v : variant) (m : MemoryManager.t)
    (numIDs : Z) (writeOpsVector : list Z) :
  0 ≤ numIDs →
  (Z.to_nat numIDs ≤ length writeOpsVector)%nat →
  Forall (λ w, 0 ≤ w) (take (Z.to_nat numIDs) writeOpsVector) →
  ∃ s,
    DurableSet.create v m numIDs writeOpsVector = Ok tt s
    ∧ DurableSet.numIDs s = numIDs
    ∧ DurableSet.mem s = m
    ∧ DurableSet.maxIndices s = take (Z.to_nat numIDs) writeOpsVector
    ∧ DurableSet.allocIndices s
      = (λ w, w - 1) <$> take (Z.to_nat numIDs) writeOpsVector
    ∧ length <$> DurableSet.preAllocatedNodes s
      = Z.to_nat <$> take (Z.to_nat numIDs) writeOpsVector
    ∧ DurableSet.printSet (size (DurableSet.heap s)) s = Ok [MIN_KEY; MAX_KEY] s.
Proof.
  intros Hn Hlen Hpos.
  assert (∃ s, DurableSet.create v m numIDs writeOpsVector = Ok tt s
               ∧ DurableSet.numIDs s = numIDs
               ∧ DurableSet.mem s = m
               ∧ DurableSet.maxIndices s = take (Z.to_nat numIDs) writeOpsVector
               ∧ DurableSet.allocIndices s
                 = (λ w, w - 1) <$> take (Z.to_nat numIDs) writeOpsVector
               ∧ length <$> DurableSet.preAllocatedNodes s
                 = Z.to_nat <$> take (Z.to_nat numIDs) writeOpsVector)
    as (s & Hcreate & H).
  { unfold DurableSet.create, DurableSet.construct.
    unfold bind at 1, vec_new. rewrite bool_decide_eq_true_2 by done. unfold ret.
    unfold bind at 1. rewrite (size_pools_Ok _ 0) by (simpl; lia).
    cbn [fst snd]. change (Z.to_nat 0) with 0%nat. rewrite drop_0.
    destruct (new_pools_Ok v (Z.to_nat numIDs) 0 writeOpsVector
                DurableSet.first_resource (DurableSet.nothing m))
      as (pools & r' & s' & Hrun & Hlens & Hmem & Hnum & Hv & Hd);
      [done|simpl; lia|by rewrite drop_0|].
    rewrite drop_0 in Hlens.
    unfold bind at 1. rewrite Hrun. cbn [fst snd].
    unfold bind at 1, get at 1. unfold bind at 1, put at 1.
    destruct (new_sentinels_spec v
                (DurableSet.set_pools pools
                   ((λ w, w - 1) <$> take (Z.to_nat numIDs) writeOpsVector)
                   (take (Z.to_nat numIDs) writeOpsVector) numIDs s'))
      as (s3 & Hs3 & _ & _ & _ & _ & _ & _ & Hpools & Hal & Hmem3).
    exists s3. split; [exact Hs3|].
    unfold DurableSet.new_sentinels in Hs3.
    assert (DurableSet.numIDs s3 = numIDs
            ∧ DurableSet.maxIndices s3 = take (Z.to_nat numIDs) writeOpsVector)
      as [Hn3 Hmax3].
    { unfold bind at 1, DurableSet.new_Node at 1 in Hs3.
      unfold bind at 1, DurableSet.new_Node at 1 in Hs3.
      unfold bind at 1 in Hs3. erewrite modify_Some in Hs3 by heap_lookup.
      unfold bind at 1 in Hs3. erewrite modify_Some in Hs3 by heap_lookup.
      unfold bind at 1 in Hs3. erewrite modify_Some in Hs3 by heap_lookup.
      unfold bind, get, put in Hs3. injection Hs3 as <-. done. }
    split; [done|]. split; [by rewrite Hmem3|]. split; [done|].
    split; [by rewrite Hal|by rewrite Hpools]. }
  exists s. split; [done|]. destruct H as (? & ? & ? & ? & ?).
  do 5 (split; [done|]).
  rewrite (printSet_spec _ s [] _ (Inv_create _ _ _ _ _ Hcreate)) by done. done.
Qed.

Lemma constructor_builds_empty_set_witness :
  ∃ s,
    DurableSet.create MRLock example_store 2 [2; 1] = Ok tt s
    ∧ DurableSet.numIDs s = 2
    ∧ DurableSet.mem s = example_store
    ∧ DurableSet.maxIndices s = take (Z.to_nat 2) [2; 1]
    ∧ DurableSet.allocIndices s = (λ w, w - 1) <$> take (Z.to_nat 2) [2; 1]
    ∧ length <$> DurableSet.preAllocatedNodes s
      = Z.to_nat <$> take (Z.to_nat 2) [2; 1]
    ∧ DurableSet.printSet (size (DurableSet.heap s)) s = Ok [MIN_KEY; MAX_KEY] s.
Proof.
  apply (constructor_builds_empty_set MRLock example_store 2 [2; 1]);
    [lia|simpl; lia|repeat constructor; lia].
Defined.

(** X19: the constructor throws [std::length_error] for a negative
    [numIDs], and [std::out_of_range] when the budget vector has fewer
    than [numIDs] entries; in both cases before any node is allocated. *)
Theorem constructor_rejects (v : variant) (m : MemoryManager.t)
    (numIDs : Z) (writeOpsVector : list Z) :
  (numIDs < 0 →
   DurableSet.create v m numIDs writeOpsVector
   = Throw length_error (DurableSet.nothing m))
  ∧ (0 ≤ numIDs → (length writeOpsVector < Z.to_nat numIDs)%nat →
     DurableSet.create v m numIDs writeOpsVector
     = Throw out_of_range (DurableSet.nothing m)).
Proof.
  unfold DurableSet.create, DurableSet.construct. split.
  - intros Hn. unfold bind, vec_new. by rewrite bool_decide_eq_false_2 by lia.
  - intros Hn Hlen. unfold bind at 1, vec_new.
    rewrite bool_decide_eq_true_2 by done. unfold ret.
    unfold bind. by rewrite (size_pools_short _ 0) by (simpl; lia).
Qed.
(** ** The link-free set *)

Lemma post_self {St A} (o : outcome St A) (Q : A → St → Prop) R :
  post o Q R → post o (λ a s, o = Ok a s ∧ Q a s) R.
Proof. destruct o; simpl; auto. Qed.



Lemma LF_abs_lookup (s : LinkFree.t) (a : Z) :
  DurableSet.heap (LinkFree_abs s) !! a = LinkFree_view <$> LinkFree.heap s !! a.
Proof. simpl. apply lookup_fmap. Qed.

Lemma LF_abs_lookup_Some (s : LinkFree.t) (a : Z) (vn : Node.t) :
  DurableSet.heap (LinkFree_abs s) !! a = Some vn →
  ∃ n, LinkFree.heap s !! a = Some n ∧ LinkFree_view n = vn.
Proof.
  rewrite LF_abs_lookup. destruct (LinkFree.heap s !! a) as [n|]; [|done].
  intros [= <-]. by exists n.
Qed.

Lemma LF_bind_load {B} (s : LinkFree.t) a n (k : LinkFree.Node.t → M LinkFree.t B) :
  LinkFree.heap s !! a = Some n →
  bind (LinkFree.load a) k s = k n s.
Proof. intros Hn. unfold bind, LinkFree.load. by rewrite Hn. Qed.

Lemma LF_bind_modify {B} (s : LinkFree.t) a n f (k : unit → M LinkFree.t B) :
  LinkFree.heap s !! a = Some n →
  bind (LinkFree.modify a f) k s
  = k tt (LinkFree.set_heap (<[a := f n]> (LinkFree.heap s)) (LinkFree.brk s) s).
Proof. intros Hn. unfold bind, LinkFree.modify. by rewrite Hn. Qed.

Lemma LF_isNextMarked_even (n : LinkFree.Node.t) :
  Z.even (LinkFree.Node.next n) = true → LinkFree.Node.isNextMarked n = false.
Proof. intros Hn. unfold LinkFree.Node.isNextMarked. by rewrite land_1_even. Qed.

Lemma LF_getNextRef_even (n : LinkFree.Node.t) :
  Z.even (LinkFree.Node.next n) = true → LinkFree.Node.getNextRef n = LinkFree.Node.next n.
Proof. intros Hn. unfold LinkFree.Node.getNextRef. by apply land_lnot_1_even. Qed.

(** Along a well-formed list no link is marked, so [find] trims
    nothing and stops where the locked sets' [find] stops. *)
Lemma LF_find_loop_spec (s : LinkFree.t) (k : Z) (l : list (Z * Z)) (fuel : nat)
    (prev cur : Z) :
  lseg (DurableSet.heap (LinkFree_abs s)) cur l 0 →
  Forall aligned (fst <$> l) →
  from k l ≠ [] →
  (length (before k l) < fuel)%nat →
  LinkFree.find_loop fuel k prev cur s
  = Ok (default prev (fst <$> last (before k l)),
        default 0 (fst <$> head (from k l))) s.
Proof.
  revert fuel prev cur. induction l as [|ak l IH]; intros fuel prev cur Hl Hal Hfrom Hfuel.
  { by destruct Hfrom. }
  destruct fuel as [|fuel]; [lia|].
  pose proof Hl as (-> & vn & Hvn & Hk & Hl').
  pose proof (lseg_next_even _ _ _ _ _ Hl Hal Hvn) as Heven.
  apply LF_abs_lookup_Some in Hvn as (n & Hn & <-). simpl in Hk, Heven, Hl'.
  cbn [LinkFree.find_loop]. rewrite (LF_bind_load _ _ _ _ Hn).
  rewrite (LF_isNextMarked_even _ Heven). cbn [negb].
  simpl in Hfrom, Hfuel |- *. rewrite Hk.
  destruct (decide (ak.2 < k)) as [Hlt|Hge].
  - rewrite (bool_decide_eq_true_2 _ Hlt) in Hfrom, Hfuel |- *.
    rewrite (bool_decide_eq_false_2 (ak.2 >= k)) by lia.
    rewrite (LF_bind_load _ _ _ _ Hn), LF_getNextRef_even by done.
    apply Forall_cons in Hal as [_ Hal].
    simpl in Hfuel.
    rewrite (IH fuel ak.1 (LinkFree.Node.next n) Hl' Hal Hfrom) by lia.
    by rewrite default_last_step.
  - rewrite (bool_decide_eq_false_2 _ Hge).
    rewrite (bool_decide_eq_true_2 (ak.2 >= k)) by lia. done.
Qed.

Lemma LF_contains_loop_spec (s : LinkFree.t) (k : Z) (l : list (Z * Z)) (fuel : nat)
    (cur : Z) :
  lseg (DurableSet.heap (LinkFree_abs s)) cur l 0 →
  Forall aligned (fst <$> l) →
  from k l ≠ [] →
  (length (before k l) < fuel)%nat →
  LinkFree.contains_loop fuel k cur s = Ok (default 0 (fst <$> head (from k l))) s.
Proof.
  revert fuel cur. induction l as [|ak l IH]; intros fuel cur Hl Hal Hfrom Hfuel.
  { by destruct Hfrom. }
  destruct fuel as [|fuel]; [lia|].
  pose proof Hl as (-> & vn & Hvn & Hk & Hl').
  pose proof (lseg_next_even _ _ _ _ _ Hl Hal Hvn) as Heven.
  apply LF_abs_lookup_Some in Hvn as (n & Hn & <-). simpl in Hk, Heven, Hl'.
  cbn [LinkFree.contains_loop]. rewrite (LF_bind_load _ _ _ _ Hn).
  simpl in Hfrom, Hfuel |- *. rewrite Hk.
  destruct (decide (ak.2 < k)) as [Hlt|Hge].
  - rewrite (bool_decide_eq_true_2 _ Hlt) in Hfrom, Hfuel |- *.
    rewrite LF_getNextRef_even by done.
    apply Forall_cons in Hal as [_ Hal].
    simpl in Hfuel.
    by rewrite (IH fuel (LinkFree.Node.next n) Hl' Hal Hfrom) by lia.
  - by rewrite (bool_decide_eq_false_2 _ Hge).
Qed.

Lemma LF_printSet_loop_spec (s : LinkFree.t) (l : list (Z * Z)) (fuel : nat)
    (prev cur : Z) (out : list Z) :
  lseg (DurableSet.heap (LinkFree_abs s)) cur l 0 →
  Forall aligned (fst <$> l) →
  (length l < fuel)%nat →
  LinkFree.printSet_loop fuel prev cur out s = Ok (out ++ (snd <$> l)) s.
Proof.
  revert fuel prev cur out.
  induction l as [|ak l IH]; intros fuel prev cur out Hl Hal Hfuel.
  { destruct fuel; [simpl in Hfuel; lia|]. simpl in Hl. subst cur. simpl.
    by rewrite app_nil_r. }
  destruct fuel as [|fuel]; [simpl in Hfuel; lia|].
  pose proof Hl as (-> & vn & Hvn & Hk & Hl').
  pose proof (lseg_next_even _ _ _ _ _ Hl Hal Hvn) as Heven.
  apply LF_abs_lookup_Some in Hvn as (n & Hn & <-). simpl in Hk, Heven, Hl'.
  apply Forall_cons in Hal as [[Hnz _] Hal].
  cbn [LinkFree.printSet_loop].
  rewrite bool_decide_eq_false_2 by done.
  rewrite (LF_bind_load _ _ _ _ Hn).
  rewrite (LF_isNextMarked_even _ Heven). cbn [negb].
  rewrite (LF_bind_load _ _ _ _ Hn), LF_getNextRef_even by done.
  simpl in Hfuel. rewrite (IH fuel _ _ _ Hl' Hal) by lia.
  rewrite Hk, fmap_cons, <- app_assoc. done.
Qed.

Lemma LF_find_spec N s mid k fuel :
  Inv N (LinkFree_abs s) mid → k ≤ MAX_KEY → (N ≤ fuel)%nat →
  LinkFree.find fuel k s
  = Ok (default (LinkFree.head s) (fst <$> last (before k mid)),
        default 0 (fst <$> head (from k (mid ++ [(LinkFree.tail s, MAX_KEY)])))) s.
Proof.
  intros HI Hk Hfuel. pose proof (Inv_length _ _ _ HI) as Hlen.
  destruct (chain_split (LinkFree_abs s) mid k Hk) as (_ & Hfrom' & Hbefore').
  pose proof HI as [Hchain _ _ Haligned _ _ _].
  pose proof Hchain as (_ & hn & Hhn & _ & Hrest).
  apply Forall_cons in Haligned as [_ Hal].
  apply LF_abs_lookup_Some in Hhn as (n & Hn & <-). simpl in Hrest.
  unfold LinkFree.find. unfold bind at 1, get at 1.
  rewrite (LF_bind_load _ _ _ _ Hn).
  rewrite (LF_find_loop_spec s k (mid ++ [(LinkFree.tail s, MAX_KEY)])).
  - simpl in Hbefore'. by rewrite Hbefore'.
  - done.
  - done.
  - simpl in Hfrom'. rewrite Hfrom'. by destruct (from k mid).
  - simpl in Hbefore'. rewrite Hbefore'.
    assert (length (before k mid) ≤ length mid)%nat.
    { rewrite <- (before_from k mid) at 2. rewrite length_app. lia. }
    lia.
Qed.

Lemma LF_printSet_spec N s mid fuel :
  Inv N (LinkFree_abs s) mid → (N ≤ fuel)%nat →
  LinkFree.printSet fuel s = Ok (snd <$> chain (LinkFree_abs s) mid) s.
Proof.
  intros HI Hfuel. pose proof (Inv_length _ _ _ HI) as Hlen.
  destruct HI as [Hchain _ _ Haligned _ _ _].
  destruct Hchain as (_ & hn & Hhn & Hkey & Hrest).
  apply Forall_cons in Haligned as [_ Hal].
  apply LF_abs_lookup_Some in Hhn as (n & Hn & <-). simpl in Hrest, Hkey.
  unfold LinkFree.printSet. unfold bind at 1, get at 1.
  rewrite (LF_bind_load _ _ _ _ Hn).
  rewrite (LF_printSet_loop_spec s (mid ++ [(LinkFree.tail s, MAX_KEY)])).
  - by rewrite Hkey.
  - done.
  - done.
  - rewrite length_app. simpl. lia.
Qed.

(** Changing fields of nodes other than the key and the link keeps a
    well-formed list well formed. *)
Lemma lseg_relabel (h1 h2 : gmap Z Node.t) p l q :
  (∀ a n1, h1 !! a = Some n1 →
     ∃ n2, h2 !! a = Some n2 ∧ Node.key n2 = Node.key n1
           ∧ Node.next n2 = Node.next n1) →
  lseg h1 p l q → lseg h2 p l q.
Proof.
  intros Hrel. revert p. induction l as [|ak l IH]; intros p; [done|].
  simpl. intros (-> & n1 & Hn1 & Hk & Hl).
  destruct (Hrel _ _ Hn1) as (n2 & Hn2 & Hk2 & Hnx2).
  split; [done|]. exists n2. split; [done|]. split; [congruence|].
  rewrite Hnx2. by apply IH.
Qed.

Lemma Inv_relabel N (s1 s2 : DurableSet.t) mid :
  Inv N s1 mid →
  DurableSet.head s2 = DurableSet.head s1 →
  DurableSet.tail s2 = DurableSet.tail s1 →
  DurableSet.preAllocatedNodes s2 = DurableSet.preAllocatedNodes s1 →
  DurableSet.allocIndices s2 = DurableSet.allocIndices s1 →
  size (DurableSet.heap s2) = size (DurableSet.heap s1) →
  (∀ a n1, DurableSet.heap s1 !! a = Some n1 →
     ∃ n2, DurableSet.heap s2 !! a = Some n2 ∧ Node.key n2 = Node.key n1
           ∧ Node.next n2 = Node.next n1) →
  Inv N s2 mid.
Proof.
  intros [Hchain Hsorted Hnodup Hal Hpools Hfree Hsize] Hh Ht Hp Hi Hsz Hrel.
  assert (chain s2 mid = chain s1 mid) as Hc by (unfold chain; by rewrite Hh, Ht).
  split.
  - rewrite Hh, Hc. by eapply lseg_relabel.
  - by rewrite Ht.
  - by rewrite Hc.
  - by rewrite Hc.
  - by rewrite Hp.
  - intros a (id & j & pool & idx & Hpool & Hidx & Hj & Ha).
    rewrite Hp in Hpool. rewrite Hi in Hidx.
    destruct (Hfree a) as ([n1 Hn1] & Hala & Hnotin).
    { by exists id, j, pool, idx. }
    destruct (Hrel _ _ Hn1) as (n2 & Hn2 & _).
    split; [by exists n2|]. split; [done|]. by rewrite Hc.
  - by rewrite Hsz.
Qed.

(** The state after some fields of node [a], other than its key and
    link, and the store have been written. *)
Lemma LF_Inv_touch N (s : LinkFree.t) mid a (n n' : LinkFree.Node.t)
    (m' : MemoryManager.t) :
  Inv N (LinkFree_abs s) mid →
  LinkFree.heap s !! a = Some n →
  LinkFree.Node.key n' = LinkFree.Node.key n →
  LinkFree.Node.next n' = LinkFree.Node.next n →
  Inv N (LinkFree_abs
           (LinkFree.set_mem m'
              (LinkFree.set_heap (<[a := n']> (LinkFree.heap s)) (LinkFree.brk s) s)))
      mid.
Proof.
  intros HI Hn Hk Hnx. eapply Inv_relabel; [exact HI|done..| |].
  - simpl. rewrite !map_size_fmap. apply map_size_insert_Some. by exists n.
  - intros b vn Hvn. apply LF_abs_lookup_Some in Hvn as (nb & Hnb & <-).
    simpl. rewrite lookup_fmap.
    destruct (decide (b = a)) as [->|Hne].
    + rewrite lookup_insert_eq. simpl. exists (LinkFree_view n').
      assert (nb = n) as -> by congruence. done.
    + rewrite lookup_insert_ne by done. rewrite Hnb. simpl.
      by exists (LinkFree_view nb).
Qed.

Lemma LF_set_heap_id (s : LinkFree.t) a n :
  LinkFree.heap s !! a = Some n →
  LinkFree.set_heap (<[a := n]> (LinkFree.heap s)) (LinkFree.brk s) s = s.
Proof.
  intros Hn. destruct s. unfold LinkFree.set_heap. simpl in *.
  by rewrite insert_id.
Qed.

Lemma LF_set_mem_id (s : LinkFree.t) : LinkFree.set_mem (LinkFree.mem s) s = s.
Proof. by destruct s. Qed.

Lemma LF_makeValid_id (n : LinkFree.Node.t) :
  Z.lor (LinkFree.Node.validBits n) 2 = LinkFree.Node.validBits n →
  LinkFree.Node.makeValid n = n.
Proof.
  intros Hn. destruct n. unfold LinkFree.Node.makeValid, LinkFree.Node.set_validBits.
  simpl in *. by rewrite Hn.
Qed.

Lemma LF_FLUSH_INSERT_flushed (s : LinkFree.t) a n :
  LinkFree.heap s !! a = Some n →
  LinkFree.Node.insertValidFlag n = true →
  LinkFree.FLUSH_INSERT a s = Ok tt s.
Proof.
  intros Hn Hf. unfold LinkFree.FLUSH_INSERT.
  rewrite (LF_bind_load _ _ _ _ Hn), Hf. done.
Qed.

(** The node a traversal stops at, in the link-free heap. *)
Lemma LF_Inv_stop N s mid k :
  Inv N (LinkFree_abs s) mid → k ≤ MAX_KEY →
  ∃ c rest cn,
    from k (mid ++ [(LinkFree.tail s, MAX_KEY)]) = c :: rest
    ∧ k ≤ c.2
    ∧ LinkFree.heap s !! c.1 = Some cn
    ∧ LinkFree.Node.key cn = c.2
    ∧ Z.even (LinkFree.Node.next cn) = true.
Proof.
  intros HI Hk.
  destruct (Inv_stop N _ mid k HI Hk) as (c & rest & vn & Hfrom & Hc & Hvn & Hkey & Hev).
  apply LF_abs_lookup_Some in Hvn as (cn & Hcn & <-).
  by exists c, rest, cn.
Qed.

Lemma LF_Inv_prev N s mid k :
  Inv N (LinkFree_abs s) mid → k ≤ MAX_KEY →
  ∃ pn,
    LinkFree.heap s
      !! default (LinkFree.head s) (fst <$> last (before k mid)) = Some pn
    ∧ LinkFree.Node.next pn
      = default 0 (fst <$> head (from k (mid ++ [(LinkFree.tail s, MAX_KEY)]))).
Proof.
  intros HI Hk.
  destruct (Inv_prev N _ mid k HI Hk) as (vn & Hvn & Hnext).
  apply LF_abs_lookup_Some in Hvn as (pn & Hpn & <-).
  by exists pn.
Qed.

(** On the states of the invariant [contains] only reads: what it
    validates and flushes has been validated and flushed before. *)
Lemma LF_contains_spec N s mid k fuel :
  LinkFree_Inv N s mid → k < MAX_KEY → (N ≤ fuel)%nat →
  LinkFree.contains fuel k s
  = Ok (bool_decide (snd <$> head (from k mid) = Some k)) s.
Proof.
  intros [HI Hflushed _ _ _] Hk Hfuel. pose proof (Inv_length _ _ _ HI) as Hlen.
  destruct (chain_split (LinkFree_abs s) mid k ltac:(lia)) as (_ & Hfrom' & Hbefore').
  simpl in Hfrom', Hbefore'.
  destruct (LF_Inv_stop N s mid k HI ltac:(lia))
    as (c & rest & cn & Hfrom & Hc & Hcn & Hkey & Hceven).
  pose proof HI as [Hchain _ _ Haligned _ _ _].
  pose proof Hchain as (_ & hvn & Hhn & _ & Hrest).
  apply Forall_cons in Haligned as [_ Hal].
  apply LF_abs_lookup_Some in Hhn as (hn & Hhn & <-). simpl in Hrest.
  unfold LinkFree.contains. unfold bind at 1, get at 1.
  rewrite (LF_bind_load _ _ _ _ Hhn).
  unfold bind at 1.
  rewrite (LF_contains_loop_spec s k (mid ++ [(LinkFree.tail s, MAX_KEY)]));
    [|done|done|by rewrite Hfrom|].
  2:{ rewrite Hbefore'.
      assert (length (before k mid) ≤ length mid)%nat.
      { rewrite <- (before_from k mid) at 2. rewrite length_app. lia. }
      lia. }
  rewrite Hfrom. simpl. rewrite (LF_bind_load _ _ _ _ Hcn). rewrite Hkey.
  rewrite Hfrom' in Hfrom.
  destruct (from k mid) as [|c' rest'] eqn:Hfm.
  - simpl in Hfrom. injection Hfrom as <- <-. simpl.
    rewrite (bool_decide_eq_false_2 (MAX_KEY = k)) by lia. done.
  - simpl in Hfrom. injection Hfrom as <- <-. simpl.
    case_bool_decide as Hck; simpl.
    + rewrite (LF_isNextMarked_even _ Hceven).
      destruct (Hflushed c') as (n & Hn & Hflag & Hvalid).
      { rewrite <- (before_from k mid), Hfm. apply elem_of_app. right.
        apply list_elem_of_here. }
      assert (n = cn) as -> by congruence.
      rewrite (LF_bind_modify _ _ _ _ _ Hcn), (LF_makeValid_id _ Hvalid).
      rewrite (LF_set_heap_id _ _ _ Hcn).
      unfold bind. rewrite (LF_FLUSH_INSERT_flushed _ _ _ Hcn Hflag).
      by rewrite bool_decide_eq_true_2 by (by rewrite Hck).
    + rewrite bool_decide_eq_false_2; [done|]. intros [= ?]. done.
Qed.

Lemma LF_insert_present N s mid k x id fuel a rest :
  LinkFree_Inv N s mid → k < MAX_KEY → (N ≤ fuel)%nat →
  from k mid = (a, k) :: rest →
  LinkFree.insert fuel k x id s = Ok false s.
Proof.
  intros [HI Hflushed _ _ _] Hk Hfuel Hfrom. pose proof (Inv_length _ _ _ HI) as Hlen.
  destruct (chain_split (LinkFree_abs s) mid k ltac:(lia)) as (_ & Hfrom' & _).
  simpl in Hfrom'.
  destruct (Hflushed (a, k)) as (n & Hn & Hflag & Hvalid).
  { rewrite <- (before_from k mid), Hfrom. apply elem_of_app. right.
    apply list_elem_of_here. }
  destruct (LF_Inv_stop N s mid k HI ltac:(lia))
    as (c & rest' & cn & Hc & _ & Hcn & Hkey & _).
  rewrite Hfrom', Hfrom in Hc. injection Hc as <- <-. simpl in Hcn, Hkey, Hn.
  assert (cn = n) as -> by congruence.
  unfold LinkFree.insert. destruct fuel as [|fuel']; [lia|].
  cbn [LinkFree.insert_loop]. unfold bind at 1.
  rewrite (LF_find_spec N s mid k) by (done || lia). cbn [fst snd].
  rewrite Hfrom', Hfrom. simpl.
  rewrite (LF_bind_load _ _ _ _ Hn).
  rewrite bool_decide_eq_true_2 by done.
  rewrite (LF_bind_modify _ _ _ _ _ Hn), (LF_makeValid_id _ Hvalid).
  rewrite (LF_set_heap_id _ _ _ Hn).
  unfold bind. by rewrite (LF_FLUSH_INSERT_flushed _ _ _ Hn Hflag).
Qed.

Lemma LF_post_on_mem {A} (c : M MemoryManager.t A) (s : LinkFree.t) Q R :
  post (c (LinkFree.mem s))
    (λ a t, Q a (LinkFree.set_mem t s)) (λ e t, R e (LinkFree.set_mem t s)) →
  post (LinkFree.on_mem c s) Q R.
Proof. intros Hc. unfold LinkFree.on_mem. by apply post_zoom. Qed.

(** [allocFromArea] returns null and changes nothing, or returns the
    top pool node of the writer with its durable address set. *)
Lemma LF_allocFromArea_post (s : LinkFree.t) (id : Z) :
  (∀ a, free_slot (LinkFree_abs s) a → is_Some (LinkFree.heap s !! a)) →
  post (LinkFree.allocFromArea id s)
    (λ a s',
       (a = 0 ∧ s' = s)
       ∨ ∃ idx an d,
           top_slot (LinkFree_abs s) id idx a
           ∧ LinkFree.heap s !! a = Some an
           ∧ Store.retrieveAddress id (LinkFree.mem s) = Ok d (LinkFree.mem s)
           ∧ d ≠ -1
           ∧ s' = LinkFree.set_heap
                    (<[a := LinkFree.Node.set_durableAddress id d an]>
                       (LinkFree.heap s))
                    (LinkFree.brk s) s)
    (λ _ s', s' = s).
Proof.
  intros Hfree. unfold LinkFree.allocFromArea.
  exec_step. exec_step; [|done]. rename x into pool.
  exec_step; [|done]. rename x into idx.
  exec_step; [|done]. rename x into a.
  assert (top_slot (LinkFree_abs s) id idx a) as Htop.
  { repeat split; try done. by exists pool. }
  destruct (Hfree a (top_slot_free _ _ _ _ Htop)) as [an Han].
  apply post_bind, LF_post_on_mem.
  eapply post_mono; [apply post_self, retrieveAddress_post|..]; simpl.
  - intros d ? [Hret ->]. rewrite LF_set_mem_id.
    case_bool_decide.
    + left. done.
    + rewrite (LF_bind_modify _ _ _ _ _ Han). simpl. right.
      exists idx, an, d. done.
  - intros ? ? ->. by rewrite LF_set_mem_id.
Qed.

Lemma LF_updateAlloc_post (s : LinkFree.t) (id idx : Z) :
  0 ≤ id → LinkFree.allocIndices s !! Z.to_nat id = Some idx →
  post (LinkFree.updateAlloc id s)
    (λ _ s', ∃ t, Store.updateAddress id (LinkFree.mem s) = Ok tt t
       ∧ s' = LinkFree.set_mem t
           (LinkFree.set_allocIndices
              (<[Z.to_nat id := idx - 1]> (LinkFree.allocIndices s)) s))
    (λ _ _, True).
Proof.
  intros Hid Hidx. unfold LinkFree.updateAlloc.
  exec_step. rewrite (bind_vec_at _ _ idx) by done.
  exec_step. apply LF_post_on_mem.
  eapply post_mono; [apply post_self, updateAddress_post|..]; [|done].
  intros [] t [Hupd _]. by exists t.
Qed.

Lemma LF_FLUSH_INSERT_post (s : LinkFree.t) a n :
  LinkFree.heap s !! a = Some n →
  post (LinkFree.FLUSH_INSERT a s)
    (λ _ s', ∃ t,
       s' = LinkFree.set_mem t
              (LinkFree.set_heap
                 (<[a := LinkFree.Node.set_insertValidFlag true n]>
                    (LinkFree.heap s))
                 (LinkFree.brk s) s)
       ∧ (LinkFree.Node.insertValidFlag n = false →
          MemoryManager.FLUSH (LinkFree.Node.key n) (LinkFree.Node.item n)
            (LinkFree.Node.validBits n) false (LinkFree.Node.deleteValidFlag n)
            (LinkFree.Node.next n) (LinkFree.Node.durableAddressPrefix n)
            (LinkFree.Node.durableAddressPostfix n) (LinkFree.mem s)
          = Ok tt t))
    (λ _ _, True).
Proof.
  intros Hn. unfold LinkFree.FLUSH_INSERT.
  rewrite (LF_bind_load _ _ _ _ Hn).
  case_bool_decide as Hf.
  - apply post_bind, LF_post_on_mem. rewrite Hf.
    eapply post_mono; [apply post_self, FLUSH_post| |done].
    intros [] t [Hfl _]. simpl.
    unfold LinkFree.modify. simpl. rewrite Hn. simpl. by exists t.
  - simpl. exists (LinkFree.mem s). split; [|done].
    replace (LinkFree.Node.set_insertValidFlag true n) with n.
    + by rewrite LF_set_heap_id, LF_set_mem_id.
    + destruct n. unfold LinkFree.Node.set_insertValidFlag. simpl in *.
      by destruct insertValidFlag.
Qed.

Lemma lor_2_idem (vb : Z) : Z.lor (Z.lor vb 2) 2 = Z.lor vb 2.
Proof. by rewrite <- Z.lor_assoc, Z.lor_diag. Qed.

(** The statements of [insert] from [flipV1] on: the compare-and-swap
    succeeds, and when the flush returns the node is linked, validated
    and flushed. *)
Lemma LF_link_post (s : LinkFree.t) (k x id prev cur a idx : Z)
    (pn an : LinkFree.Node.t) (K : M LinkFree.t bool) :
  LinkFree.heap s !! a = Some an →
  LinkFree.heap s !! prev = Some pn →
  LinkFree.Node.next pn = cur →
  a ≠ prev →
  0 ≤ id → LinkFree.allocIndices s !! Z.to_nat id = Some idx →
  post
    ((LinkFree.modify a LinkFree.Node.flipV1;;;
      LinkFree.modify a (LinkFree.Node.set_key k);;;
      LinkFree.modify a (LinkFree.Node.set_item x);;;
      LinkFree.modify a (LinkFree.Node.set_next cur);;;
      do swapped <- LinkFree.CAS_next prev cur a;
      if swapped then
        LinkFree.updateAlloc id;;;
        LinkFree.modify a LinkFree.Node.makeValid;;;
        LinkFree.FLUSH_INSERT a;;;
        ret true
      else K) s)
    (λ b s',
       b = true ∧ LinkFree_linked s s' k cur prev a id idx pn
       ∧ ∃ t, Store.updateAddress id (LinkFree.mem s) = Ok tt t
              ∧ (LinkFree.Node.insertValidFlag an = false →
                 MemoryManager.FLUSH k x
                   (Z.lor (Z.lor (LinkFree.Node.validBits an) 1) 2) false
                   (LinkFree.Node.deleteValidFlag an) cur
                   (LinkFree.Node.durableAddressPrefix an)
                   (LinkFree.Node.durableAddressPostfix an) t
                 = Ok tt (LinkFree.mem s'))
              ∧ ∃ an', LinkFree.heap s' !! a = Some an'
                       ∧ LinkFree.Node.deleteValidFlag an'
                         = LinkFree.Node.deleteValidFlag an)
    (λ _ _, True).
Proof.
  intros Han Hpn Hnext Hne Hid Hidx.
  do 4 (erewrite LF_bind_modify by heap_lookup;
        cbn [LinkFree.heap LinkFree.set_heap LinkFree.brk]).
  unfold LinkFree.CAS_next. unfold bind at 1.
  erewrite LF_bind_load by (simpl; rewrite !lookup_insert_ne by done; exact Hpn).
  rewrite bool_decide_eq_true_2 by done.
  erewrite LF_bind_modify by (simpl; rewrite !lookup_insert_ne by done; exact Hpn).
  cbn [ret LinkFree.heap LinkFree.set_heap LinkFree.brk].
  set (h5 := <[prev := _]> _).
  set (s5 := LinkFree.set_heap h5 _ _).
  set (an5 := LinkFree.Node.set_next cur
                (LinkFree.Node.set_item x
                   (LinkFree.Node.set_key k (LinkFree.Node.flipV1 an)))).
  assert (h5 !! a = Some an5) as Han5 by (unfold h5; heap_lookup).
  assert (h5 !! prev = Some (LinkFree.Node.set_next a pn)) as Hprev5
    by (unfold h5; by rewrite lookup_insert_eq).
  assert (∀ y, y ≠ a → y ≠ prev → h5 !! y = LinkFree.heap s !! y) as Hsame5.
  { intros y Hya Hyp. unfold h5. by rewrite !lookup_insert_ne by congruence. }
  assert (size h5 = size (LinkFree.heap s)) as Hsize5.
  { unfold h5. repeat (rewrite map_size_insert_Some by (eexists; heap_lookup)).
    done. }
  clearbody h5.
  apply post_bind.
  eapply post_mono; [apply (LF_updateAlloc_post s5 id idx Hid Hidx)| |done].
  intros _ s6 (t & Hupd & ->).
  erewrite LF_bind_modify by (simpl; exact Han5).
  apply post_bind.
  eapply post_mono; [eapply LF_FLUSH_INSERT_post; simpl; apply lookup_insert_eq
                    | |done].
  intros _ s7 (t' & -> & Hfl). simpl. split; [done|].
  split.
  2:{ exists t. split; [done|]. split; [done|].
      eexists. split; [apply lookup_insert_eq|done]. }
  unfold LinkFree_linked; simpl.
  split; [done|]. split; [done|]. split; [done|].
  split. { rewrite !map_size_insert_Some; [done|by exists an5|].
           rewrite lookup_insert_eq. by eexists. }
  split; [done|].
  split. { by rewrite !lookup_insert_ne by congruence. }
  split. { eexists. split; [apply lookup_insert_eq|]. simpl.
           split; [done|]. split; [done|]. split; [done|]. apply lor_2_idem. }
  intros y Hya Hyp. rewrite !lookup_insert_ne by congruence. by apply Hsame5.
Qed.

Lemma LF_linked_abs s s' k cur prev a id idx pn :
  LinkFree_linked s s' k cur prev a id idx pn →
  linked (LinkFree_abs s) (LinkFree_abs s') k cur prev a id idx (LinkFree_view pn).
Proof.
  intros (Hh & Ht & Hp & Hsz & Hal & Hprev & (an & Han & Hk & Hn & _) & Hsame).
  split; [|split; [done|]; split; [|split]].
  - repeat split; try done. simpl. by rewrite !map_size_fmap.
  - rewrite LF_abs_lookup, Hprev. done.
  - exists (LinkFree_view an). rewrite LF_abs_lookup, Han. done.
  - intros y Hya Hyp. rewrite !LF_abs_lookup. by rewrite Hsame.
Qed.

Lemma LF_mid_in_chain (s : DurableSet.t) mid (ak : Z * Z) :
  ak ∈ mid → ak.1 ∈ fst <$> chain s mid.
Proof.
  intros Hin. unfold chain. rewrite fmap_cons, fmap_app.
  apply list_elem_of_further, elem_of_app. left.
  by apply list_elem_of_fmap_2.
Qed.

Lemma LF_tail_in_chain (s : DurableSet.t) mid :
  DurableSet.tail s ∈ fst <$> chain s mid.
Proof.
  unfold chain. rewrite fmap_cons, fmap_app.
  apply list_elem_of_further, elem_of_app. right. apply list_elem_of_here.
Qed.

(** From the stop of the traversal for an absent key: the key found is
    above [k]. *)
Lemma LF_stop_cases N s mid k c rest :
  Inv N (LinkFree_abs s) mid → k < MAX_KEY →
  from k (mid ++ [(LinkFree.tail s, MAX_KEY)]) = c :: rest → k ≤ c.2 →
  (c.2 = k ∧ ∃ rest', from k mid = (c.1, k) :: rest') ∨ k < c.2.
Proof.
  intros HI Hk Hfrom Hc.
  destruct (chain_split (LinkFree_abs s) mid k ltac:(lia)) as (_ & Hfrom' & _).
  simpl in Hfrom'. rewrite Hfrom' in Hfrom.
  destruct (decide (c.2 = k)) as [Heq|Hne]; [left|right; lia].
  split; [done|].
  destruct (from k mid) as [|c' rest'] eqn:E.
  - simpl in Hfrom. injection Hfrom as <- <-. simpl in Heq. lia.
  - simpl in Hfrom. injection Hfrom as -> <-. exists rest'.
    destruct c as [a k']. simpl in Heq. by subst.
Qed.

Lemma LF_insert_post N s mid k x id fuel :
  LinkFree_Inv N s mid → k < MAX_KEY → (N ≤ fuel)%nat →
  post (LinkFree.insert fuel k x id s)
    (λ b s',
       (b = false ∧ s' = s)
       ∨ (b = true ∧ snd <$> head (from k mid) ≠ Some k
          ∧ ∃ a d idx,
              LinkFree_Inv N s' (before k mid ++ (a, k) :: from k mid)
              ∧ Store.retrieveAddress id (LinkFree.mem s)
                = Ok d (LinkFree.mem s)
              ∧ d ≠ -1
              ∧ LinkFree_recorded s s' k x
                  (default 0
                     (fst <$> head (from k (mid ++ [(LinkFree.tail s, MAX_KEY)]))))
                  id d
              ∧ top_slot (LinkFree_abs s) id idx a
              ∧ LinkFree.allocIndices s'
                = <[Z.to_nat id := idx - 1]> (LinkFree.allocIndices s)))
    (λ _ _, True).
Proof.
  intros HLI Hk Hfuel. pose proof HLI as [HI Hflushed Htail Hpool Hlive].
  pose proof (Inv_length _ _ _ HI) as Hlen.
  destruct (LF_Inv_stop N s mid k HI ltac:(lia))
    as (c & rest & cn & Hfrom & Hc & Hcn & Hkey & _).
  destruct (LF_stop_cases N s mid k c rest HI Hk Hfrom Hc) as [[_ [rest' Hpres]]|Habove].
  { rewrite (LF_insert_present N s mid k x id fuel c.1 rest') by done.
    simpl. by left. }
  destruct (LF_Inv_prev N s mid k HI ltac:(lia)) as (pn & Hpn & Hpnext).
  set (prev := default (LinkFree.head s) (fst <$> last (before k mid))) in *.
  set (cur := default 0
                (fst <$> head (from k (mid ++ [(LinkFree.tail s, MAX_KEY)])))) in *.
  assert (cur = c.1) as Hcur by (unfold cur; by rewrite Hfrom).
  assert (snd <$> head (from k mid) ≠ Some k) as Hfresh.
  { destruct (chain_split (LinkFree_abs s) mid k ltac:(lia)) as (_ & Hfrom' & _).
    simpl in Hfrom'. rewrite Hfrom' in Hfrom.
    destruct (from k mid) as [|c' rest']; [done|].
    simpl in Hfrom. injection Hfrom as -> _. simpl. intros [= E]. lia. }
  unfold LinkFree.insert. destruct fuel as [|fuel']; [lia|].
  cbn [LinkFree.insert_loop]. unfold bind at 1.
  rewrite (LF_find_spec N s mid k) by (done || lia). cbn [fst snd].
  fold prev cur.
  erewrite LF_bind_load by (rewrite Hcur; exact Hcn).
  rewrite bool_decide_eq_false_2 by lia.
  apply post_bind.
  eapply post_mono;
    [apply LF_allocFromArea_post; intros a Ha;
     destruct (inv_free _ _ _ HI a Ha) as [Hsome _];
     simpl in Hsome; rewrite lookup_fmap in Hsome;
     by apply fmap_is_Some in Hsome
    | |done].
  intros a s1 [[-> ->]|(idx & an & d & Htop & Han & Hret & Hd & ->)]; simpl.
  { by left. }
  assert (an = LinkFree.Node.new) as ->.
  { pose proof (Hpool a (top_slot_free _ _ _ _ Htop)) as Hnew. congruence. }
  destruct (inv_free _ _ _ HI a (top_slot_free _ _ _ _ Htop)) as (_ & [Hnz _] & Hnotin).
  rewrite bool_decide_eq_false_2 by done.
  assert (a ≠ prev) as Hne.
  { intros ->. apply Hnotin.
    destruct (chain_split (LinkFree_abs s) mid k ltac:(lia)) as (-> & _ & _).
    destruct (snoc_split (DurableSet.head (LinkFree_abs s), MIN_KEY) (before k mid))
      as (P & kp & HL1).
    simpl in HL1. change (DurableSet.head (LinkFree_abs s)) with (LinkFree.head s).
    rewrite HL1, <- app_assoc, fmap_app. apply elem_of_app. right.
    apply list_elem_of_here. }
  set (s1 := LinkFree.set_heap _ _ s).
  pose proof Htop as (Hid & Hidx & Hai & _). simpl in Hai.
  eapply post_mono;
    [eapply (LF_link_post s1 k x id prev cur a idx pn)| |done].
  - unfold s1; simpl. apply lookup_insert_eq.
  - unfold s1; simpl. by rewrite lookup_insert_ne.
  - done.
  - done.
  - done.
  - done.
  - intros b s' (-> & Hl & t & Hupd & Hfl & an2 & Han2 & Hdel2). simpl. right.
    split; [done|]. split; [done|].
    exists a, d, idx.
    pose proof Hl as (Hhead & Htl & Hpools & Hsize & Hidx' & Hprev' &
                      (an' & Han' & Hk' & Hnx' & Hflag' & Hvb') & Hsame).
    assert (∀ y n, y ≠ a → LinkFree.heap s !! y = Some n →
              ∃ n', LinkFree.heap s' !! y = Some n'
                    ∧ LinkFree.Node.insertValidFlag n' = LinkFree.Node.insertValidFlag n
                    ∧ LinkFree.Node.validBits n' = LinkFree.Node.validBits n
                    ∧ LinkFree.Node.durableAddressPrefix n'
                      = LinkFree.Node.durableAddressPrefix n
                    ∧ LinkFree.Node.deleteValidFlag n'
                      = LinkFree.Node.deleteValidFlag n) as Hkeep.
    { intros y n Hya Hn. destruct (decide (y = prev)) as [->|Hyp].
      - rewrite Hprev'. eexists. split; [done|].
        assert (n = pn) as -> by congruence. done.
      - rewrite Hsame by done. unfold s1; simpl.
        rewrite lookup_insert_ne by done. by exists n. }
    assert (Inv N (LinkFree_abs s') (before k mid ++ (a, k) :: from k mid)) as HI'.
    { eapply (Inv_linked N (LinkFree_abs s) (LinkFree_abs s') mid k cur prev a id idx
                (LinkFree_view pn) c rest); try done.
      * rewrite LF_abs_lookup. simpl. fold prev. by rewrite Hpn.
      * apply LF_linked_abs in Hl.
        destruct Hl as ((Hh2 & Ht2 & Hp2 & Hs2) & Hi2 & Hprev2 & Hnew2 & Hsame2).
        split; [|split; [done|]; split; [done|]; split; [done|]].
        -- split; [done|]. split; [done|]. split; [done|].
           rewrite Hs2. unfold s1; simpl. rewrite !map_size_fmap.
           apply map_size_insert_Some. by eexists.
        -- intros y Hya Hyp. rewrite Hsame2 by done. unfold s1; simpl.
           rewrite !lookup_fmap. by rewrite lookup_insert_ne. }
    split; [|split; [done|]; split; [done|]; split; [|done]].
    2:{ exists t. split; [done|]. by apply Hfl. }
    split.
    + exact HI'.
    + intros ak Hin. apply elem_of_app in Hin as [Hin|Hin].
      * assert (ak ∈ mid) as Hmid.
        { rewrite <- (before_from k mid). apply elem_of_app. by left. }
        destruct (Hflushed ak Hmid) as (n & Hn & Hf & Hv).
        destruct (Hkeep ak.1 n) as (n' & Hn' & Hf' & Hv' & _); [|done|].
        { intros E. apply Hnotin. rewrite <- E.
          by apply (LF_mid_in_chain (LinkFree_abs s)). }
        exists n'. by rewrite Hf', Hv'.
      * apply elem_of_cons in Hin as [->|Hin].
        { simpl. by exists an'. }
        assert (ak ∈ mid) as Hmid.
        { rewrite <- (before_from k mid). apply elem_of_app. by right. }
        destruct (Hflushed ak Hmid) as (n & Hn & Hf & Hv).
        destruct (Hkeep ak.1 n) as (n' & Hn' & Hf' & Hv' & _); [|done|].
        { intros E. apply Hnotin. rewrite <- E.
          by apply (LF_mid_in_chain (LinkFree_abs s)). }
        exists n'. by rewrite Hf', Hv'.
    + destruct Htail as (tn & Htn & Htf & Htd).
      destruct (Hkeep (LinkFree.tail s) tn) as (n' & Hn' & Hf' & _ & Hd' & _); [|done|].
      { intros E. apply Hnotin. rewrite <- E.
        apply (LF_tail_in_chain (LinkFree_abs s)). }
      exists n'. rewrite Htl. by rewrite Hf', Hd'.
    + intros b Hb.
      destruct (inv_free _ _ _ HI' b Hb) as (_ & _ & Hbnotin).
      assert (free_slot (LinkFree_abs s) b) as Hb0.
      { destruct Hb as (i & j & pool & ix & Hp & Hix & Hj & Hpj).
        simpl in Hp, Hix. rewrite Hpools in Hp. rewrite Hidx' in Hix.
        destruct (decide (i = Z.to_nat id)) as [->|Hi].
        - rewrite list_lookup_insert_eq in Hix
            by (by apply lookup_lt_Some in Hai).
          injection Hix as <-. exists (Z.to_nat id), j, pool, idx.
          repeat split; try done. lia.
        - rewrite list_lookup_insert_ne in Hix by done.
          by exists i, j, pool, ix. }
      assert (b ≠ a) as Hba.
      { intros ->. apply Hbnotin.
        apply (LF_mid_in_chain (LinkFree_abs s') _ (a, k)).
        apply elem_of_app. right. apply list_elem_of_here. }
      assert (b ≠ prev) as Hbp.
      { intros ->. apply Hbnotin.
        assert (prev ∈ fst <$> ((LinkFree.head s, MIN_KEY) :: before k mid))
          as Hpin.
        { destruct (snoc_split (LinkFree.head s, MIN_KEY) (before k mid))
            as (P & kp & HL1).
          simpl in HL1. fold prev in HL1.
          rewrite HL1, fmap_app. apply elem_of_app. right.
          apply list_elem_of_here. }
        unfold chain.
        change (DurableSet.head (LinkFree_abs s')) with (LinkFree.head s').
        rewrite Hhead. rewrite fmap_cons in Hpin |- *.
        rewrite <- app_assoc, fmap_app.
        apply elem_of_cons in Hpin as [Hpin|Hpin].
        - rewrite Hpin. apply list_elem_of_here.
        - apply list_elem_of_further, elem_of_app. by left. }
      rewrite Hsame by done. unfold s1; simpl.
      rewrite lookup_insert_ne by done. by apply Hpool.
    + intros ak Hin.
      assert (ak = (a, k) ∨ ak ∈ mid) as [->|Hmid].
      { apply elem_of_app in Hin as [Hin|Hin].
        - right. rewrite <- (before_from k mid). apply elem_of_app. by left.
        - apply elem_of_cons in Hin as [->|Hin]; [by left|].
          right. rewrite <- (before_from k mid). apply elem_of_app. by right. }
      { simpl. exists an2. by rewrite Hdel2. }
      destruct (Hlive ak Hmid) as (n & Hn & Hdl).
      destruct (Hkeep ak.1 n) as (n' & Hn' & _ & _ & _ & Hdl'); [|done|].
      { intros E. apply Hnotin. rewrite <- E.
        by apply (LF_mid_in_chain (LinkFree_abs s)). }
      exists n'. by rewrite Hdl'.
Qed.

Lemma LF_unmark_mark (p : Z) :
  Z.even p = true → Z.land (LinkFree.Node.mark p) (Z.lnot 1) = p.
Proof.
  intros Hp. unfold LinkFree.Node.mark. apply Z.bits_inj'. intros i Hi.
  rewrite Z.land_spec, Z.lor_spec, Z.lnot_spec by done.
  destruct (decide (i = 0)) as [->|Hne].
  - rewrite !Z.bit0_odd, <- Z.negb_even, Hp. reflexivity.
  - change 1 with (2 ^ 0). rewrite Z.pow2_bits_false by lia.
    by rewrite orb_false_r, andb_true_r.
Qed.

Lemma LF_mark_low_bit (p : Z) : Z.land (LinkFree.Node.mark p) 1 = 1.
Proof.
  unfold LinkFree.Node.mark. apply Z.bits_inj'. intros n _.
  rewrite Z.land_spec, Z.lor_spec.
  by destruct (Z.testbit p n), (Z.testbit 1 n).
Qed.

Lemma LF_FLUSH_DELETE_post (s : LinkFree.t) a n :
  LinkFree.heap s !! a = Some n →
  post (LinkFree.FLUSH_DELETE a s)
    (λ _ s', ∃ t,
       s' = LinkFree.set_mem t
              (LinkFree.set_heap
                 (<[a := LinkFree.Node.set_deleteValidFlag true n]>
                    (LinkFree.heap s))
                 (LinkFree.brk s) s)
       ∧ (LinkFree.Node.deleteValidFlag n = false →
          MemoryManager.FLUSH (LinkFree.Node.key n) (LinkFree.Node.item n)
            (LinkFree.Node.validBits n) (LinkFree.Node.insertValidFlag n) false
            (LinkFree.Node.next n) (LinkFree.Node.durableAddressPrefix n)
            (LinkFree.Node.durableAddressPostfix n) (LinkFree.mem s)
          = Ok tt t))
    (λ _ _, True).
Proof.
  intros Hn. unfold LinkFree.FLUSH_DELETE.
  rewrite (LF_bind_load _ _ _ _ Hn).
  case_bool_decide as Hf.
  - apply post_bind, LF_post_on_mem. rewrite Hf.
    eapply post_mono; [apply post_self, FLUSH_post| |done].
    intros [] t [Hfl _]. simpl.
    unfold LinkFree.modify. simpl. rewrite Hn. simpl. by exists t.
  - simpl. exists (LinkFree.mem s). split; [|done].
    replace (LinkFree.Node.set_deleteValidFlag true n) with n.
    + by rewrite LF_set_heap_id, LF_set_mem_id.
    + destruct n. unfold LinkFree.Node.set_deleteValidFlag. simpl in *.
      by destruct deleteValidFlag.
Qed.

(** The statements of [remove] after the key was found: the node is
    validated, marked, flushed as deleted and unlinked. *)
Lemma LF_unlink_post (s : LinkFree.t) (prev cur : Z)
    (pn cn : LinkFree.Node.t) (K : M LinkFree.t bool) :
  LinkFree.heap s !! cur = Some cn →
  LinkFree.heap s !! prev = Some pn →
  LinkFree.Node.next pn = cur →
  Z.even (LinkFree.Node.next cn) = true →
  cur ≠ prev →
  post
    ((do c1 <- LinkFree.load cur;
      let successor := LinkFree.Node.getNextRef c1 in
      let markedSuccessor := LinkFree.Node.mark successor in
      LinkFree.modify cur LinkFree.Node.makeValid;;;
      do result <- LinkFree.CAS_next cur successor markedSuccessor;
      if result then
        LinkFree.trim prev cur;;;
        ret true
      else K) s)
    (λ b s',
       b = true ∧ LinkFree_unlinked s s' prev cur pn cn
       ∧ (LinkFree.Node.deleteValidFlag cn = false →
          MemoryManager.FLUSH (LinkFree.Node.key cn) (LinkFree.Node.item cn)
            (Z.lor (LinkFree.Node.validBits cn) 2)
            (LinkFree.Node.insertValidFlag cn) false
            (LinkFree.Node.mark (LinkFree.Node.next cn))
            (LinkFree.Node.durableAddressPrefix cn)
            (LinkFree.Node.durableAddressPostfix cn) (LinkFree.mem s)
          = Ok tt (LinkFree.mem s')))
    (λ _ _, True).
Proof.
  intros Hcn Hpn Hnext Heven Hne.
  rewrite (LF_bind_load _ _ _ _ Hcn). cbn zeta.
  rewrite (LF_getNextRef_even _ Heven).
  rewrite (LF_bind_modify _ _ _ _ _ Hcn).
  cbn [LinkFree.heap LinkFree.set_heap LinkFree.brk].
  unfold LinkFree.CAS_next at 1. unfold bind at 1.
  erewrite LF_bind_load by (simpl; apply lookup_insert_eq).
  rewrite bool_decide_eq_true_2 by done.
  erewrite LF_bind_modify by (simpl; apply lookup_insert_eq).
  cbn [ret LinkFree.heap LinkFree.set_heap LinkFree.brk].
  set (cn2 := LinkFree.Node.set_next _ (LinkFree.Node.makeValid cn)).
  unfold LinkFree.trim.
  apply post_bind. apply post_bind.
  eapply post_mono;
    [eapply (LF_FLUSH_DELETE_post _ cur cn2); simpl; apply lookup_insert_eq
    | |done].
  intros _ s3 (t & -> & Hfl).
  erewrite LF_bind_load by (simpl; apply lookup_insert_eq).
  unfold LinkFree.CAS_next, LinkFree.Node.getNextRef.
  cbn [LinkFree.Node.next LinkFree.Node.set_deleteValidFlag cn2
       LinkFree.Node.set_next].
  rewrite (LF_unmark_mark _ Heven).
  erewrite LF_bind_load
    by (simpl; rewrite !lookup_insert_ne by congruence; exact Hpn).
  rewrite bool_decide_eq_true_2 by done.
  erewrite LF_bind_modify
    by (simpl; rewrite !lookup_insert_ne by congruence; exact Hpn).
  simpl. split; [done|]. split; [|exact Hfl].
  unfold LinkFree_unlinked; simpl.
  split; [done|]. split; [done|]. split; [done|].
  split. { rewrite !map_size_insert_Some; [done|by exists cn|..];
           rewrite ?lookup_insert_eq, ?lookup_insert_ne by congruence;
           try (by eexists). }
  split; [done|].
  split. { by rewrite lookup_insert_eq. }
  split. { eexists. split; [rewrite lookup_insert_ne by congruence;
                             apply lookup_insert_eq|].
           unfold LinkFree.Node.isNextMarked. simpl.
           by rewrite LF_mark_low_bit. }
  intros y Hyc Hyp. by rewrite !lookup_insert_ne by congruence.
Qed.

Lemma LF_unlinked_abs s s' prev cur pn cn :
  LinkFree_unlinked s s' prev cur pn cn →
  unlinked (LinkFree_abs s) (LinkFree_abs s') prev cur
    (LinkFree_view pn) (LinkFree_view cn).
Proof.
  intros (Hh & Ht & Hp & Hsz & Hal & Hprev & _ & Hsame).
  split; [|split; [done|]; split].
  - repeat split; try done. simpl. by rewrite !map_size_fmap.
  - rewrite LF_abs_lookup, Hprev. done.
  - intros y Hya Hyp. rewrite !LF_abs_lookup. by rewrite Hsame.
Qed.

(** The node that holds [k] is none of the others of the list. *)
Lemma LF_found_distinct N (s : DurableSet.t) mid k cur rest :
  Inv N s mid → k ≤ MAX_KEY →
  from k mid = (cur, k) :: rest →
  cur ≠ default (DurableSet.head s) (fst <$> last (before k mid))
  ∧ cur ≠ DurableSet.tail s
  ∧ ∀ ak, ak ∈ before k mid ++ rest → ak.1 ≠ cur.
Proof.
  intros HI Hk Hfrom. pose proof (inv_nodup _ _ _ HI) as Hnd.
  unfold chain in Hnd. rewrite <- (before_from k mid), Hfrom in Hnd.
  rewrite fmap_cons, <- !app_assoc, fmap_app in Hnd. simpl in Hnd.
  rewrite app_comm_cons in Hnd.
  apply NoDup_app in Hnd as (_ & Hdisj & Hnd).
  apply NoDup_cons in Hnd as [Hcur _].
  rewrite fmap_app in Hcur. simpl in Hcur.
  split; [|split].
  - intros E. apply (Hdisj cur); [|apply list_elem_of_here].
    rewrite E.
    destruct (snoc_split (DurableSet.head s, MIN_KEY) (before k mid)) as (P & kp & HL1).
    simpl in HL1.
    change (DurableSet.head s :: (fst <$> before k mid))
      with (fst <$> ((DurableSet.head s, MIN_KEY) :: before k mid)).
    rewrite HL1, fmap_app. apply elem_of_app. right. apply list_elem_of_here.
  - intros E. apply Hcur. apply elem_of_app. right. rewrite E.
    apply list_elem_of_here.
  - intros ak Hin E. apply elem_of_app in Hin as [Hin|Hin].
    + apply (Hdisj cur); [|apply list_elem_of_here].
      apply list_elem_of_further. rewrite <- E. by apply list_elem_of_fmap_2.
    + apply Hcur. apply elem_of_app. left. rewrite <- E.
      by apply list_elem_of_fmap_2.
Qed.

Lemma LF_remove_post N s mid k fuel :
  LinkFree_Inv N s mid → k < MAX_KEY → (N ≤ fuel)%nat →
  post (LinkFree.remove fuel k s)
    (λ b s',
       (b = false ∧ s' = s ∧ snd <$> head (from k mid) ≠ Some k)
       ∨ (b = true
          ∧ ∃ a rest cn,
              from k mid = (a, k) :: rest
              ∧ LinkFree_Inv N s' (before k mid ++ rest)
              ∧ LinkFree.heap s !! a = Some cn
              ∧ LinkFree.Node.key cn = k
              ∧ Z.even (LinkFree.Node.next cn) = true
              ∧ MemoryManager.FLUSH k (LinkFree.Node.item cn)
                  (LinkFree.Node.validBits cn) true false
                  (LinkFree.Node.mark (LinkFree.Node.next cn))
                  (LinkFree.Node.durableAddressPrefix cn)
                  (LinkFree.Node.durableAddressPostfix cn) (LinkFree.mem s)
                = Ok tt (LinkFree.mem s')
              ∧ LinkFree.allocIndices s' = LinkFree.allocIndices s))
    (λ _ _, True).
Proof.
  intros HLI Hk Hfuel. pose proof HLI as [HI Hflushed Htail Hpool Hlive].
  pose proof (Inv_length _ _ _ HI) as Hlen.
  destruct (LF_Inv_stop N s mid k HI ltac:(lia))
    as (c & rest & cn & Hfrom & Hc & Hcn & Hkey & Heven).
  destruct (LF_Inv_prev N s mid k HI ltac:(lia)) as (pn & Hpn & Hpnext).
  set (prev := default (LinkFree.head s) (fst <$> last (before k mid))) in *.
  set (cur := default 0
                (fst <$> head (from k (mid ++ [(LinkFree.tail s, MAX_KEY)])))) in *.
  assert (cur = c.1) as Hcur by (unfold cur; by rewrite Hfrom).
  unfold LinkFree.remove. destruct fuel as [|fuel']; [lia|].
  cbn [LinkFree.remove_loop]. unfold bind at 1.
  rewrite (LF_find_spec N s mid k) by (done || lia). cbn [fst snd].
  fold prev cur.
  erewrite LF_bind_load by (rewrite Hcur; exact Hcn). rewrite Hkey.
  destruct (LF_stop_cases N s mid k c rest HI Hk Hfrom Hc)
    as [[Heq [rest' Hpres]]|Habove].
  2:{ rewrite bool_decide_eq_false_2 by lia. simpl. left.
      split; [done|]. split; [done|].
      destruct (chain_split (LinkFree_abs s) mid k ltac:(lia)) as (_ & Hfrom' & _).
      simpl in Hfrom'. rewrite Hfrom' in Hfrom.
      destruct (from k mid) as [|c' r']; [done|].
      simpl in Hfrom. injection Hfrom as -> _. simpl. intros [= E]. lia. }
  rewrite bool_decide_eq_true_2 by done. cbn [negb].
  destruct (LF_found_distinct N (LinkFree_abs s) mid k c.1 rest' HI ltac:(lia) Hpres)
    as (Hne & Hnt & Hothers).
  simpl in Hne, Hnt. fold prev in Hne.
  rewrite Hcur.
  eapply post_mono;
    [eapply (LF_unlink_post s prev c.1 pn cn); try done; by rewrite Hpnext, <- Hcur
    | |done].
  intros b s' (-> & Hl & Hfl). simpl. right. split; [done|].
  exists c.1, rest', cn.
  split; [done|].
  pose proof Hl as (Hhead & Htl & Hpools & Hsize & Hidx' & Hprev' & _ & Hsame).
  assert (c ∈ mid) as Hcmid.
  { rewrite <- (before_from k mid), Hpres. apply elem_of_app. right.
    destruct c; simpl in *; subst. apply list_elem_of_here. }
  split; [|split; [done|]; split; [by rewrite Hkey|]; split; [done|];
           split; [|done]].
  2:{ destruct (Hflushed c Hcmid) as (n & Hn & Hf & Hv).
      destruct (Hlive c Hcmid) as (n2 & Hn2 & Hdl).
      assert (n = cn) as -> by congruence.
      assert (n2 = cn) as -> by congruence.
      specialize (Hfl Hdl). by rewrite Hv, Hf, Hkey, Heq in Hfl. }
  assert (∀ y n, y ≠ c.1 → LinkFree.heap s !! y = Some n →
            ∃ n', LinkFree.heap s' !! y = Some n'
                  ∧ LinkFree.Node.insertValidFlag n' = LinkFree.Node.insertValidFlag n
                  ∧ LinkFree.Node.validBits n' = LinkFree.Node.validBits n
                  ∧ LinkFree.Node.durableAddressPrefix n'
                    = LinkFree.Node.durableAddressPrefix n
                  ∧ LinkFree.Node.deleteValidFlag n'
                    = LinkFree.Node.deleteValidFlag n) as Hkeep.
  { intros y n Hya Hn. destruct (decide (y = prev)) as [->|Hyp].
    - rewrite Hprev'. eexists. split; [done|].
      assert (n = pn) as -> by congruence. done.
    - rewrite Hsame by done. by exists n. }
  split.
  - eapply (Inv_unlinked N (LinkFree_abs s) (LinkFree_abs s') mid k prev c.1
              (LinkFree_view pn) (LinkFree_view cn) rest'); try done.
    + lia.
    + rewrite LF_abs_lookup. by rewrite Hpn.
    + rewrite LF_abs_lookup. by rewrite Hcn.
    + by apply LF_unlinked_abs.
  - intros ak Hin.
    assert (ak ∈ mid) as Hmid.
    { rewrite <- (before_from k mid), Hpres.
      apply elem_of_app in Hin as [Hin|Hin]; apply elem_of_app; [by left|right].
      by apply list_elem_of_further. }
    destruct (Hflushed ak Hmid) as (n & Hn & Hf & Hv).
    destruct (Hkeep ak.1 n) as (n' & Hn' & Hf' & Hv' & _); [by apply Hothers|done|].
    exists n'. by rewrite Hf', Hv'.
  - destruct Htail as (tn & Htn & Htf & Htd).
    destruct (Hkeep (LinkFree.tail s) tn) as (n' & Hn' & Hf' & _ & Hd' & _);
      [congruence|done|].
    exists n'. rewrite Htl. by rewrite Hf', Hd'.
  - intros b Hb.
    assert (free_slot (LinkFree_abs s) b) as Hb0.
    { destruct Hb as (i & j & pool & ix & Hp & Hix & Hj & Hpj).
      simpl in Hp, Hix. rewrite Hpools in Hp. rewrite Hidx' in Hix.
      by exists i, j, pool, ix. }
    destruct (inv_free _ _ _ HI b Hb0) as (_ & _ & Hbnotin).
    assert (b ≠ c.1) as Hbc.
    { intros ->. apply Hbnotin.
      apply (LF_mid_in_chain (LinkFree_abs s) _ (c.1, k)).
      rewrite <- (before_from k mid), Hpres. apply elem_of_app. right.
      apply list_elem_of_here. }
    assert (b ≠ prev) as Hbp.
    { intros ->. apply Hbnotin.
      destruct (chain_split (LinkFree_abs s) mid k ltac:(lia)) as (-> & _ & _).
      destruct (snoc_split (DurableSet.head (LinkFree_abs s), MIN_KEY) (before k mid))
        as (P & kp & HL1).
      simpl in HL1. change (DurableSet.head (LinkFree_abs s)) with (LinkFree.head s).
      fold prev in HL1.
      rewrite HL1, <- app_assoc, fmap_app. apply elem_of_app. right.
      apply list_elem_of_here. }
    rewrite Hsame by done. by apply Hpool.
  - intros ak Hin.
    assert (ak ∈ mid) as Hmid.
    { rewrite <- (before_from k mid), Hpres.
      apply elem_of_app in Hin as [Hin|Hin]; apply elem_of_app; [by left|right].
      by apply list_elem_of_further. }
    destruct (Hlive ak Hmid) as (n & Hn & Hdl).
    destruct (Hkeep ak.1 n) as (n' & Hn' & _ & _ & _ & Hdl');
      [by apply Hothers|done|].
    exists n'. by rewrite Hdl'.
Qed.

(** Every history of admissible operations that returns keeps the
    invariant. *)
Lemma LF_run_post N s mid ops fuel :
  LinkFree_Inv N s mid → Forall LinkFree_admissible ops → (N ≤ fuel)%nat →
  post (LinkFree_run fuel ops s)
    (λ _ s', ∃ mid', LinkFree_Inv N s' mid') (λ _ _, True).
Proof.
  intros HI Hops Hfuel. revert s mid HI.
  induction Hops as [|o ops Ho _ IH]; intros s mid HI; [by exists mid|].
  cbn [LinkFree_run]. apply post_bind.
  destruct o as [k x id|k|k]; simpl in Ho |- *.
  - eapply post_mono; [by apply (LF_insert_post N s mid k x id fuel)| |done].
    intros b s' [[_ ->]|(_ & _ & a & d & idx & Ha & _)]; by eapply IH.
  - eapply post_mono; [by apply (LF_remove_post N s mid k fuel)| |done].
    intros b s' [(_ & -> & _)|[_ (a & rest & cn & _ & Ha & _)]]; by eapply IH.
  - rewrite (LF_contains_spec N s mid k fuel) by done. simpl. by eapply IH.
Qed.

Lemma LF_remove_absent N s mid k fuel :
  LinkFree_Inv N s mid → k < MAX_KEY → (N ≤ fuel)%nat →
  snd <$> head (from k mid) ≠ Some k →
  LinkFree.remove fuel k s = Ok false s.
Proof.
  intros [HI _ _ _ _] Hk Hfuel Habsent.
  pose proof (Inv_length _ _ _ HI) as Hlen.
  destruct (LF_Inv_stop N s mid k HI ltac:(lia))
    as (c & rest & cn & Hfrom & Hc & Hcn & Hkey & Heven).
  unfold LinkFree.remove. destruct fuel as [|fuel']; [lia|].
  cbn [LinkFree.remove_loop]. unfold bind at 1.
  rewrite (LF_find_spec N s mid k) by (done || lia). cbn [fst snd].
  rewrite Hfrom. simpl.
  rewrite (LF_bind_load _ _ _ _ Hcn), Hkey.
  destruct (LF_stop_cases N s mid k c rest HI Hk Hfrom Hc)
    as [[Heq [rest' Hpres]]|Habove].
  - rewrite Hpres in Habsent. done.
  - by rewrite bool_decide_eq_false_2 by lia.
Qed.

Lemma LF_new_row_spec (n : nat) (s : LinkFree.t) :
  ∃ s',
    LinkFree.new_row n s = Ok (row_from (LinkFree.brk s) n) s'
    ∧ LinkFree.brk s' = LinkFree.brk s + 64 * Z.of_nat n
    ∧ (∀ a, a < LinkFree.brk s → LinkFree.heap s' !! a = LinkFree.heap s !! a)
    ∧ (∀ j : nat, (j < n)%nat →
         LinkFree.heap s' !! (LinkFree.brk s + 64 * Z.of_nat j)
         = Some LinkFree.Node.new)
    ∧ LinkFree.mem s' = LinkFree.mem s.
Proof.
  revert s. induction n as [|n IH]; intros s.
  { exists s. simpl. rewrite Z.add_0_r. repeat split; auto. lia. }
  cbn [LinkFree.new_row]. unfold bind at 1. unfold LinkFree.new_Node at 1.
  set (s1 := LinkFree.set_heap _ _ s).
  assert (LinkFree.brk s1 = LinkFree.brk s + 64) as Hbrk1 by done.
  destruct (IH s1) as (s' & Hrun & Hbrk & Hframe & Hnodes & Hmem).
  exists s'. unfold bind. rewrite Hrun. cbn [ret].
  split. { by rewrite row_from_S, Hbrk1. }
  split; [lia|].
  split. { intros a Ha. rewrite Hframe by lia. unfold s1; simpl.
           apply lookup_insert_ne. lia. }
  split; [|done].
  intros [|j] Hj.
  - rewrite Z.mul_0_r, Z.add_0_r, Hframe by lia. unfold s1; simpl.
    by rewrite lookup_insert_eq.
  - rewrite <- (Hnodes j) by lia. f_equal. lia.
Qed.

Lemma LF_new_pools_spec (n : nat) (i : Z) (wov : list Z) (s : LinkFree.t) :
  post (LinkFree.new_pools n i (vec_at wov) s)
    (λ res s',
       let total := length (concat res) in
       concat res = row_from (LinkFree.brk s) total
       ∧ LinkFree.brk s' = LinkFree.brk s + 64 * Z.of_nat total
       ∧ (∀ a, a < LinkFree.brk s →
            LinkFree.heap s' !! a = LinkFree.heap s !! a)
       ∧ (∀ j : nat, (j < total)%nat →
            LinkFree.heap s' !! (LinkFree.brk s + 64 * Z.of_nat j)
            = Some LinkFree.Node.new)
       ∧ LinkFree.mem s' = LinkFree.mem s)
    (λ _ _, True).
Proof.
  revert i s. induction n as [|n IH]; intros i s.
  { simpl. repeat split; auto; [lia|intros; lia]. }
  cbn [LinkFree.new_pools].
  apply post_bind, post_vec_at; [|done]. intros w _ _.
  apply post_bind, post_vec_new; [|done]. intros Hw.
  destruct (LF_new_row_spec (Z.to_nat w) s)
    as (s1 & Hrun & Hbrk1 & Hframe1 & Hnodes1 & Hmem1).
  unfold bind at 1. rewrite Hrun.
  apply post_bind.
  eapply post_mono; [apply (IH (i + 1) s1)| |done].
  intros rest s' (Hcat & Hbrk' & Hframe' & Hnodes' & Hmem').
  unfold ret; simpl.
  rewrite length_app, length_row_from.
  set (n1 := Z.to_nat w) in *. set (n2 := length (concat rest)) in *.
  split. { rewrite row_from_app. f_equal. by rewrite Hcat, Hbrk1. }
  split; [lia|].
  split. { intros a Ha. rewrite Hframe' by lia. by apply Hframe1. }
  split; [|congruence].
  intros j Hj. destruct (decide (j < n1)%nat) as [Hlt|Hge].
  - rewrite Hframe' by lia. by apply Hnodes1.
  - assert (∃ j', j = (j' + n1)%nat ∧ (j' < n2)%nat) as (j' & -> & Hj')
      by (exists (j - n1)%nat; lia).
    rewrite <- (Hnodes' j') by lia. f_equal. lia.
Qed.

Lemma LF_size_pools_spec (n : nat) (i : Z) (wov : list Z) (s : LinkFree.t) :
  post (LinkFree.size_pools n i (vec_at wov) s) (λ _ s', s' = s) (λ _ _, True).
Proof.
  revert i. induction n as [|n IH]; intros i; [done|].
  cbn [LinkFree.size_pools].
  apply post_bind, post_vec_at; [|done]. intros w _ _.
  apply post_bind. eapply post_mono; [apply IH| |done].
  intros ? ? ->. done.
Qed.

Lemma LF_modify_Some (s : LinkFree.t) a n f :
  LinkFree.heap s !! a = Some n →
  LinkFree.modify a f s
  = Ok tt (LinkFree.set_heap (<[a := f n]> (LinkFree.heap s)) (LinkFree.brk s) s).
Proof. intros Hn. unfold LinkFree.modify. by rewrite Hn. Qed.

Lemma LF_new_sentinels_spec (s : LinkFree.t) :
  ∃ s',
    LinkFree.new_sentinels s = Ok tt s'
    ∧ LinkFree.head s' = LinkFree.brk s
    ∧ LinkFree.tail s' = LinkFree.brk s + 64
    ∧ LinkFree.heap s' !! LinkFree.brk s
      = Some (LinkFree.Node.set_key MIN_KEY
                (LinkFree.Node.set_next (LinkFree.brk s + 64) LinkFree.Node.new))
    ∧ LinkFree.heap s' !! (LinkFree.brk s + 64)
      = Some (LinkFree.Node.set_key MAX_KEY LinkFree.Node.new)
    ∧ (∀ a, a ≠ LinkFree.brk s → a ≠ LinkFree.brk s + 64 →
         LinkFree.heap s' !! a = LinkFree.heap s !! a)
    ∧ LinkFree.preAllocatedNodes s' = LinkFree.preAllocatedNodes s
    ∧ LinkFree.allocIndices s' = LinkFree.allocIndices s
    ∧ LinkFree.mem s' = LinkFree.mem s.
Proof.
  eexists. split.
  - unfold LinkFree.new_sentinels.
    unfold bind at 1. unfold LinkFree.new_Node at 1.
    unfold bind at 1. unfold LinkFree.new_Node at 1.
    unfold bind at 1. erewrite LF_modify_Some by heap_lookup.
    unfold bind at 1. erewrite LF_modify_Some by heap_lookup.
    unfold bind at 1. erewrite LF_modify_Some by heap_lookup.
    unfold bind, get, put. reflexivity.
  - simpl. unfold DurableSet.node_align.
    split; [done|]. split; [done|].
    split. { rewrite lookup_insert_ne by lia. by rewrite lookup_insert_eq. }
    split. { by rewrite lookup_insert_eq. }
    split. { intros a H1 H2. by rewrite !lookup_insert_ne by done. }
    done.
Qed.

(** The state the constructor builds: the pool nodes in a row from the
    first address, then the head and the tail; the store untouched. *)
Lemma LF_construct_spec (numIDs : Z) (wov : list Z) (s0 : LinkFree.t) :
  post (LinkFree.construct numIDs wov s0)
    (λ _ s,
       let total := length (concat (LinkFree.preAllocatedNodes s)) in
       concat (LinkFree.preAllocatedNodes s) = row_from (LinkFree.brk s0) total
       ∧ LinkFree.head s = LinkFree.brk s0 + 64 * Z.of_nat total
       ∧ LinkFree.tail s = LinkFree.head s + 64
       ∧ LinkFree.heap s !! LinkFree.head s
         = Some (LinkFree.Node.set_key MIN_KEY
                   (LinkFree.Node.set_next (LinkFree.tail s) LinkFree.Node.new))
       ∧ LinkFree.heap s !! LinkFree.tail s
         = Some (LinkFree.Node.set_key MAX_KEY LinkFree.Node.new)
       ∧ (∀ j : nat, (j < total)%nat →
            LinkFree.heap s !! (LinkFree.brk s0 + 64 * Z.of_nat j)
            = Some LinkFree.Node.new)
       ∧ LinkFree.mem s = LinkFree.mem s0)
    (λ _ _, True).
Proof.
  unfold LinkFree.construct.
  apply post_bind, post_vec_new; [|done]. intros Hn.
  apply post_bind.
  eapply post_mono; [apply LF_size_pools_spec| |done].
  intros sizes ? ->.
  apply post_bind.
  eapply post_mono; [apply LF_new_pools_spec| |done].
  intros pools s1 (Hcat & Hbrk1 & Hframe1 & Hnodes1 & Hmem1).
  exec_step. exec_step.
  set (s2 := LinkFree.set_pools _ _ _ _ s1).
  destruct (LF_new_sentinels_spec s2)
    as (s3 & Hrun & Hhead & Htail & Hh & Ht & Hframe3 & Hpools & _ & Hmem3).
  rewrite Hrun. simpl.
  assert (LinkFree.brk s2 = LinkFree.brk s1) as Hbrk2 by done.
  assert (LinkFree.heap s2 = LinkFree.heap s1) as Hheap2 by done.
  rewrite Hpools. change (LinkFree.preAllocatedNodes s2) with pools.
  rewrite Hhead, Htail, Hbrk2, Hbrk1 in *.
  split; [done|]. split; [done|]. split; [done|].
  split; [exact Hh|]. split; [exact Ht|].
  split; [|by rewrite Hmem3].
  intros j Hj. rewrite Hframe3 by lia. rewrite Hheap2. by apply Hnodes1.
Qed.

(** The constructor establishes the invariant, with no elements. *)
Lemma LF_Inv_create m numIDs wov s :
  LinkFree.create m numIDs wov = Ok tt s →
  LinkFree_Inv (size (LinkFree.heap s)) s [] ∧ LinkFree.mem s = m.
Proof.
  intros Hcreate. unfold LinkFree.create in Hcreate.
  pose proof (LF_construct_spec numIDs wov (LinkFree.nothing m)) as Hpost.
  rewrite Hcreate in Hpost. simpl in Hpost.
  destruct Hpost as (Hcat & Hhead & Htail & Hh & Ht & Hnodes & Hmem).
  set (total := length (concat (LinkFree.preAllocatedNodes s))) in *.
  unfold DurableSet.node_align in *.
  split; [|done]. split.
  - split.
    + unfold chain. simpl. split; [done|]. eexists.
      split; [by rewrite lookup_fmap, Hh|].
      split; [done|]. simpl. split; [done|]. eexists.
      split; [by rewrite lookup_fmap, Ht|]. done.
    + simpl. repeat constructor.
    + unfold chain. simpl. apply NoDup_cons. split; [|apply NoDup_singleton].
      rewrite list_elem_of_singleton. lia.
    + unfold chain. simpl. rewrite Htail, Hhead.
      constructor; [apply aligned_row; lia|].
      constructor; [|constructor].
      replace (64 + 64 * Z.of_nat total + 64)
        with (64 + 64 * (Z.of_nat total + 1)) by lia.
      apply aligned_row. lia.
    + simpl. rewrite Hcat. apply NoDup_row_from.
    + intros a (id & j & pool & idx & Hpool & _ & _ & Ha). simpl in Hpool.
      pose proof (elem_of_concat_lookup _ _ _ _ _ Hpool Ha) as Hin.
      rewrite Hcat in Hin. apply elem_of_row_from in Hin as (i & Hi & ->).
      split; [simpl; by rewrite lookup_fmap, Hnodes|].
      split; [apply aligned_row; lia|].
      unfold chain. simpl. rewrite Htail, Hhead.
      rewrite !not_elem_of_cons. split; [lia|]. split; [lia|].
      apply not_elem_of_nil.
    + simpl. by rewrite map_size_fmap.
  - intros ak Hin. by apply elem_of_nil in Hin.
  - eexists. split; [exact Ht|]. done.
  - intros a (id & j & pool & idx & Hpool & _ & _ & Ha). simpl in Hpool.
    pose proof (elem_of_concat_lookup _ _ _ _ _ Hpool Ha) as Hin.
    rewrite Hcat in Hin. apply elem_of_row_from in Hin as (i & Hi & ->).
    by apply Hnodes.
  - intros ak Hin. by apply elem_of_nil in Hin.
Qed.

Lemma LF_reachable_Inv (s : LinkFree.t) :
  LinkFree_reachable s →
  ∃ N mid fuel, LinkFree_Inv N s mid ∧ (N ≤ fuel)%nat.
Proof.
  intros (m & numIDs & wov & s0 & ops & fuel & Hcreate & Hops & Hfuel & Hrun).
  destruct (LF_Inv_create _ _ _ _ Hcreate) as [HI0 _].
  pose proof (LF_run_post _ s0 [] ops fuel HI0 Hops Hfuel) as Hpost.
  rewrite Hrun in Hpost. destruct Hpost as [mid HI].
  by exists (size (LinkFree.heap s0)), mid, fuel.
Qed.

Lemma LF_Inv_size N s mid :
  LinkFree_Inv N s mid → LinkFree_Inv (size (LinkFree.heap s)) s mid.
Proof.
  intros [HI ? ? ? ?]. split; [|done..].
  apply Inv_size in HI. simpl in HI. by rewrite map_size_fmap in HI.
Qed.

Lemma LF_reachable_Inv_size (s : LinkFree.t) :
  LinkFree_reachable s → ∃ mid, LinkFree_Inv (size (LinkFree.heap s)) s mid.
Proof.
  intros (N & mid & fuel & HI & _)%LF_reachable_Inv.
  exists mid. by eapply LF_Inv_size.
Qed.

Lemma LinkFree_example_fresh_reachable : LinkFree_reachable LinkFree_example_fresh.
Proof.
  exists example_store, 2, [2; 1], LinkFree_example_fresh, [], 5%nat.
  split; [vm_compute; reflexivity|]. split; [constructor|].
  split; [vm_compute; lia|reflexivity].
Qed.

Lemma LinkFree_example_set_reachable : LinkFree_reachable LinkFree_example_set.
Proof.
  exists example_store, 2, [2; 1], LinkFree_example_fresh, example_history, 5%nat.
  split; [vm_compute; reflexivity|].
  split; [repeat constructor; unfold MAX_KEY; lia|].
  split; [vm_compute; lia|vm_compute; reflexivity].
Qed.

Lemma LF_printed N s mid fuel :
  LinkFree_Inv N s mid → (N ≤ fuel)%nat →
  LinkFree.printSet fuel s = Ok (MIN_KEY :: (snd <$> mid) ++ [MAX_KEY]) s.
Proof.
  intros [HI _ _ _ _] Hfuel. rewrite (LF_printSet_spec N s mid fuel HI Hfuel).
  unfold chain. by rewrite fmap_cons, fmap_app.
Qed.

Lemma LF_sorted N s mid :
  LinkFree_Inv N s mid → StronglySorted Z.lt ((snd <$> mid) ++ [MAX_KEY]).
Proof.
  intros [HI _ _ _ _]. pose proof (inv_sorted _ _ _ HI) as Hs.
  by rewrite fmap_app in Hs.
Qed.

(** X20: in a state that a history of returned operations with keys
    below [MAX_KEY] has left a link-free set in, [contains(k)] returns
    whether [k] is among the keys [printSet] prints after the head's, and
    changes nothing: a present key, already validated and flushed, is not
    flushed a second time. *)
Theorem LinkFree_contains_changes_nothing (s : LinkFree.t) (fuel : nat) (k : Z) :
  LinkFree_reachable s →
  (size (LinkFree.heap s) ≤ fuel)%nat →
  k < MAX_KEY →
  ∃ ks, LinkFree.printSet fuel s = Ok (MIN_KEY :: ks) s
        ∧ LinkFree.contains fuel k s = Ok (bool_decide (k ∈ ks)) s.
Proof.
  intros [mid HI]%LF_reachable_Inv_size Hfuel Hk.
  exists ((snd <$> mid) ++ [MAX_KEY]).
  split; [by eapply LF_printed|].
  rewrite (LF_contains_spec _ s mid k fuel HI) by done.
  f_equal. apply bool_decide_ext.
  pose proof (LF_sorted _ _ _ HI) as Hs.
  apply StronglySorted_app in Hs as (_ & Hs & _).
  rewrite from_head_iff by done.
  rewrite elem_of_app, list_elem_of_singleton. split; [auto|].
  intros [?|?]; [done|lia].
Qed.

Lemma LinkFree_contains_changes_nothing_witness :
  ∃ ks, LinkFree.printSet 5 LinkFree_example_set
        = Ok (MIN_KEY :: ks) LinkFree_example_set
        ∧ LinkFree.contains 5 3 LinkFree_example_set
          = Ok (bool_decide (3 ∈ ks)) LinkFree_example_set.
Proof.
  apply (LinkFree_contains_changes_nothing LinkFree_example_set 5 3
           LinkFree_example_set_reachable);
    [vm_compute; lia|unfold MAX_KEY; lia].
Defined.

(** X21: in such a state of the link-free set [printSet] prints the
    head's [MIN_KEY] and then strictly ascending keys that end with
    [MAX_KEY], and changes nothing. *)
Theorem LinkFree_prints_ascending (s : LinkFree.t) (fuel : nat) :
  LinkFree_reachable s →
  (size (LinkFree.heap s) ≤ fuel)%nat →
  ∃ ks, LinkFree.printSet fuel s = Ok (MIN_KEY :: ks) s
        ∧ StronglySorted Z.lt ks
        ∧ last ks = Some MAX_KEY.
Proof.
  intros [mid HI]%LF_reachable_Inv_size Hfuel.
  exists ((snd <$> mid) ++ [MAX_KEY]).
  split; [by eapply LF_printed|].
  split; [by eapply LF_sorted|]. apply last_snoc.
Qed.

Lemma LinkFree_prints_ascending_witness :
  ∃ ks, LinkFree.printSet 5 LinkFree_example_set
        = Ok (MIN_KEY :: ks) LinkFree_example_set
        ∧ StronglySorted Z.lt ks
        ∧ last ks = Some MAX_KEY.
Proof.
  apply (LinkFree_prints_ascending LinkFree_example_set 5
           LinkFree_example_set_reachable).
  vm_compute; lia.
Defined.

(** X22: in the link-free set an [insert(k, item)] that returns [true]
    puts [k] at its sorted place in what [printSet] prints; afterwards
    [contains(k)] returns [true] and a second [insert] of [k] returns
    [false], both without changing the state. *)
Theorem LinkFree_insert_adds_key (s s1 : LinkFree.t) (fuel : nat)
    (k item id item' id' : Z) :
  LinkFree_reachable s →
  (size (LinkFree.heap s) ≤ fuel)%nat →
  k < MAX_KEY →
  LinkFree.insert fuel k item id s = Ok true s1 →
  (∃ l1 l2,
     LinkFree.printSet fuel s = Ok (MIN_KEY :: l1 ++ l2) s
     ∧ LinkFree.printSet fuel s1 = Ok (MIN_KEY :: l1 ++ k :: l2) s1
     ∧ Forall (λ y, y < k) l1
     ∧ Forall (λ y, k < y) l2)
  ∧ LinkFree.contains fuel k s1 = Ok true s1
  ∧ LinkFree.insert fuel k item' id' s1 = Ok false s1.
Proof.
  intros [mid HI]%LF_reachable_Inv_size Hfuel Hk Hins.
  pose proof (LF_insert_post _ s mid k item id fuel HI Hk Hfuel) as Hpost.
  rewrite Hins in Hpost.
  destruct Hpost as [[[=] _]|(_ & _ & a & d & idx & HI1 & _)].
  destruct (before_app_stop k (before k mid) (from k mid) (a, k)
              (Forall_before k mid) ltac:(simpl; lia)) as [_ Hfrom].
  split; [|split].
  - exists (snd <$> before k mid), ((snd <$> from k mid) ++ [MAX_KEY]).
    split; [|split; [|split]].
    + rewrite (LF_printed _ s mid fuel HI Hfuel).
      rewrite <- (before_from k mid) at 1. by rewrite fmap_app, <- app_assoc.
    + rewrite (LF_printed _ s1 _ fuel HI1 Hfuel).
      by rewrite fmap_app, fmap_cons, <- app_assoc.
    + rewrite Forall_fmap. apply Forall_before.
    + pose proof (LF_sorted _ _ _ HI1) as Hs.
      rewrite fmap_app, fmap_cons, <- app_assoc in Hs. simpl in Hs.
      by apply sorted_around in Hs as [_ Hs].
  - rewrite (LF_contains_spec _ s1 _ k fuel HI1) by done.
    rewrite Hfrom. by rewrite bool_decide_eq_true_2.
  - by eapply LF_insert_present.
Qed.

Lemma LinkFree_insert_adds_key_witness :
  ∃ s1,
    LinkFree.insert 5 2 20 0 LinkFree_example_fresh = Ok true s1
    ∧ (∃ l1 l2,
         LinkFree.printSet 5 LinkFree_example_fresh
         = Ok (MIN_KEY :: l1 ++ l2) LinkFree_example_fresh
         ∧ LinkFree.printSet 5 s1 = Ok (MIN_KEY :: l1 ++ 2 :: l2) s1
         ∧ Forall (λ y, y < 2) l1
         ∧ Forall (λ y, 2 < y) l2)
    ∧ LinkFree.contains 5 2 s1 = Ok true s1
    ∧ LinkFree.insert 5 2 99 1 s1 = Ok false s1.
Proof.
  assert (∃ s1, LinkFree.insert 5 2 20 0 LinkFree_example_fresh = Ok true s1)
    as [s1 Hins] by (eexists; vm_compute; reflexivity).
  exists s1. split; [exact Hins|].
  apply (LinkFree_insert_adds_key LinkFree_example_fresh s1 5 2 20 0 99 1
           LinkFree_example_fresh_reachable);
    [vm_compute; lia|unfold MAX_KEY; lia|exact Hins].
Defined.

(** X23: in the link-free set a [remove(k)] that returns [true] takes
    exactly [k] out of what [printSet] prints, and [printSet] finds
    nothing left to trim; afterwards [contains(k)] and a second
    [remove(k)] return [false] without changing the state. *)
Theorem LinkFree_remove_deletes_key (s s1 : LinkFree.t) (fuel : nat) (k : Z) :
  LinkFree_reachable s →
  (size (LinkFree.heap s) ≤ fuel)%nat →
  k < MAX_KEY →
  LinkFree.remove fuel k s = Ok true s1 →
  (∃ l1 l2,
     LinkFree.printSet fuel s = Ok (MIN_KEY :: l1 ++ k :: l2) s
     ∧ LinkFree.printSet fuel s1 = Ok (MIN_KEY :: l1 ++ l2) s1
     ∧ Forall (λ y, y < k) l1
     ∧ Forall (λ y, k < y) l2)
  ∧ LinkFree.contains fuel k s1 = Ok false s1
  ∧ LinkFree.remove fuel k s1 = Ok false s1.
Proof.
  intros [mid HI]%LF_reachable_Inv_size Hfuel Hk Hrem.
  pose proof (LF_remove_post _ s mid k fuel HI Hk Hfuel) as Hpost.
  rewrite Hrem in Hpost.
  destruct Hpost as [[[=] _]|(_ & a & rest & cn & Hfrom & HI1 & _)].
  pose proof (LF_sorted _ _ _ HI) as Hs.
  rewrite <- (before_from k mid), Hfrom in Hs.
  rewrite fmap_app, fmap_cons, <- app_assoc in Hs. simpl in Hs.
  apply sorted_around in Hs as [Hl1 Hl2].
  assert (Forall (λ x : Z * Z, k < x.2) rest) as Hrest.
  { apply Forall_app in Hl2 as [Hl2 _]. by rewrite Forall_fmap in Hl2. }
  assert (snd <$> head (from k (before k mid ++ rest)) ≠ Some k) as Hgone.
  { rewrite from_app_above; [|apply Forall_before|done].
    destruct Hrest as [|x rest Hx _]; [done|]. simpl. intros [= E]. lia. }
  split; [|split].
  - exists (snd <$> before k mid), ((snd <$> rest) ++ [MAX_KEY]).
    split; [|split; [|split]]; [| |done|done].
    + rewrite (LF_printed _ s mid fuel HI Hfuel).
      rewrite <- (before_from k mid) at 1.
      by rewrite Hfrom, fmap_app, fmap_cons, <- app_assoc.
    + rewrite (LF_printed _ s1 _ fuel HI1 Hfuel).
      by rewrite fmap_app, <- app_assoc.
  - rewrite (LF_contains_spec _ s1 _ k fuel HI1) by done.
    by rewrite bool_decide_eq_false_2.
  - by eapply LF_remove_absent.
Qed.

Lemma LinkFree_remove_deletes_key_witness :
  ∃ s1,
    LinkFree.remove 5 3 LinkFree_example_set = Ok true s1
    ∧ (∃ l1 l2,
         LinkFree.printSet 5 LinkFree_example_set
         = Ok (MIN_KEY :: l1 ++ 3 :: l2) LinkFree_example_set
         ∧ LinkFree.printSet 5 s1 = Ok (MIN_KEY :: l1 ++ l2) s1
         ∧ Forall (λ y, y < 3) l1
         ∧ Forall (λ y, 3 < y) l2)
    ∧ LinkFree.contains 5 3 s1 = Ok false s1
    ∧ LinkFree.remove 5 3 s1 = Ok false s1.
Proof.
  assert (∃ s1, LinkFree.remove 5 3 LinkFree_example_set = Ok true s1)
    as [s1 Hrem] by (eexists; vm_compute; reflexivity).
  exists s1. split; [exact Hrem|].
  apply (LinkFree_remove_deletes_key LinkFree_example_set s1 5 3
           LinkFree_example_set_reachable);
    [vm_compute; lia|unfold MAX_KEY; lia|exact Hrem].
Defined.

(** A node that was never given a durable address cannot be flushed. *)
Lemma LF_FLUSH_INSERT_no_address (s : LinkFree.t) a n :
  LinkFree.heap s !! a = Some n →
  LinkFree.Node.insertValidFlag n = false →
  LinkFree.Node.durableAddressPrefix n = -1 →
  LinkFree.FLUSH_INSERT a s = Throw out_of_range s.
Proof.
  intros Hn Hflag Hpre. unfold LinkFree.FLUSH_INSERT.
  rewrite (LF_bind_load _ _ _ _ Hn).
  rewrite bool_decide_eq_true_2 by done. rewrite Hpre.
  unfold bind, LinkFree.on_mem, zoom, MemoryManager.FLUSH, Store.read_cell.
  unfold bind, get. rewrite vec_at_negative by lia.
  by rewrite LF_set_mem_id.
Qed.

Lemma LF_stop_tail N s mid :
  Inv N (LinkFree_abs s) mid →
  before MAX_KEY mid = mid
  ∧ from MAX_KEY (mid ++ [(LinkFree.tail s, MAX_KEY)]) = [(LinkFree.tail s, MAX_KEY)].
Proof.
  intros HI.
  assert (Forall (λ ak : Z * Z, ak.2 < MAX_KEY) mid) as Hbelow.
  { pose proof (inv_sorted _ _ _ HI) as Hs.
    rewrite fmap_app in Hs.
    apply StronglySorted_app in Hs as (Hcross & _ & _).
    apply Forall_forall. intros ak Hak. apply Hcross.
    - by apply list_elem_of_fmap_2.
    - apply list_elem_of_here. }
  destruct (before_app_stop MAX_KEY mid [] (LinkFree.tail s, MAX_KEY) Hbelow
              ltac:(simpl; lia)) as [Hb Hf].
  split; [|done].
  destruct (chain_split (LinkFree_abs s) mid MAX_KEY ltac:(lia)) as (_ & _ & Hb').
  simpl in Hb'. by rewrite <- Hb', Hb.
Qed.

(** X24: in the link-free set [contains(MAX_KEY)] and
    [insert(MAX_KEY, item, id)] throw [std::out_of_range]: both find the
    tail, set its second valid bit and flush it, and the tail was never
    given a durable address (its prefix is [-1]). The state they leave
    differs from the one before in that bit only. *)
Theorem LinkFree_MAX_KEY_throws (s : LinkFree.t) (fuel : nat) (item id : Z) :
  LinkFree_reachable s →
  (size (LinkFree.heap s) ≤ fuel)%nat →
  ∃ tn,
    LinkFree.heap s !! LinkFree.tail s = Some tn
    ∧ let s' := LinkFree.set_heap
                  (<[LinkFree.tail s := LinkFree.Node.makeValid tn]>
                     (LinkFree.heap s))
                  (LinkFree.brk s) s in
      LinkFree.contains fuel MAX_KEY s = Throw out_of_range s'
      ∧ LinkFree.insert fuel MAX_KEY item id s = Throw out_of_range s'.
Proof.
  intros [mid HLI]%LF_reachable_Inv_size Hfuel.
  pose proof HLI as [HI _ (tn & Htn & Hflag & Hpre) _ _].
  pose proof (Inv_length _ _ _ HI) as Hlen.
  destruct (LF_stop_tail _ s mid HI) as [Hbefore Hfrom].
  exists tn. split; [done|]. cbn zeta.
  assert (Z.even (LinkFree.Node.next tn) = true) as Heven.
  { destruct (LF_Inv_stop _ s mid MAX_KEY HI ltac:(lia))
      as (c & rest & cn & Hc & _ & Hcn & _ & Hev).
    rewrite Hfrom in Hc. injection Hc as <- <-. simpl in Hcn. congruence. }
  assert (LinkFree.Node.key tn = MAX_KEY) as Hkey.
  { destruct (LF_Inv_stop _ s mid MAX_KEY HI ltac:(lia))
      as (c & rest & cn & Hc & _ & Hcn & Hk & _).
    rewrite Hfrom in Hc. injection Hc as <- <-. simpl in Hcn, Hk. congruence. }
  assert (∀ K : M LinkFree.t bool,
    (LinkFree.modify (LinkFree.tail s) LinkFree.Node.makeValid;;;
     LinkFree.FLUSH_INSERT (LinkFree.tail s);;; K) s
    = Throw out_of_range
        (LinkFree.set_heap
           (<[LinkFree.tail s := LinkFree.Node.makeValid tn]> (LinkFree.heap s))
           (LinkFree.brk s) s)) as Hflush.
  { intros K. rewrite (LF_bind_modify _ _ _ _ _ Htn).
    unfold bind. rewrite (LF_FLUSH_INSERT_no_address _ _ (LinkFree.Node.makeValid tn));
      [done|simpl; apply lookup_insert_eq|done|done]. }
  split.
  - pose proof HI as [Hchain _ _ Haligned _ _ _].
    pose proof Hchain as (_ & hvn & Hhn & _ & Hrest).
    apply Forall_cons in Haligned as [_ Hal].
    apply LF_abs_lookup_Some in Hhn as (hn & Hhn & <-). simpl in Hrest.
    unfold LinkFree.contains. unfold bind at 1, get at 1.
    rewrite (LF_bind_load _ _ _ _ Hhn).
    unfold bind at 1.
    rewrite (LF_contains_loop_spec s MAX_KEY (mid ++ [(LinkFree.tail s, MAX_KEY)]));
      [|done|done|by rewrite Hfrom|].
    2:{ destruct (chain_split (LinkFree_abs s) mid MAX_KEY ltac:(lia))
          as (_ & _ & Hb').
        simpl in Hb'. rewrite Hb', Hbefore. lia. }
    rewrite Hfrom. simpl. rewrite (LF_bind_load _ _ _ _ Htn).
    rewrite Hkey, bool_decide_eq_true_2 by done. cbn [negb].
    rewrite (LF_isNextMarked_even _ Heven). apply Hflush.
  - unfold LinkFree.insert. destruct fuel as [|fuel']; [lia|].
    cbn [LinkFree.insert_loop]. unfold bind at 1.
    rewrite (LF_find_spec _ s mid MAX_KEY) by (done || lia). cbn [fst snd].
    rewrite Hfrom. simpl.
    rewrite (LF_bind_load _ _ _ _ Htn).
    rewrite Hkey, bool_decide_eq_true_2 by done. apply Hflush.
Qed.

Lemma LinkFree_MAX_KEY_throws_witness :
  ∃ tn,
    LinkFree.heap LinkFree_example_set !! LinkFree.tail LinkFree_example_set
    = Some tn
    ∧ let s' := LinkFree.set_heap
                  (<[LinkFree.tail LinkFree_example_set
                       := LinkFree.Node.makeValid tn]>
                     (LinkFree.heap LinkFree_example_set))
                  (LinkFree.brk LinkFree_example_set) LinkFree_example_set in
      LinkFree.contains 5 MAX_KEY LinkFree_example_set = Throw out_of_range s'
      ∧ LinkFree.insert 5 MAX_KEY 7 0 LinkFree_example_set
        = Throw out_of_range s'.
Proof.
  apply (LinkFree_MAX_KEY_throws LinkFree_example_set 5 7 0
           LinkFree_example_set_reachable).
  vm_compute; lia.
Defined.

(** X25: in the link-free set an operation that returns [false] has
    changed nothing, neither the list nor the store; [insert(k)] returns
    [false] whenever [contains(k)] returns [true], and [remove(k)]
    whenever [contains(k)] returns [false]. *)
Theorem LinkFree_refusal_changes_nothing (s : LinkFree.t) (fuel : nat)
    (k item id : Z) :
  LinkFree_reachable s →
  (size (LinkFree.heap s) ≤ fuel)%nat →
  k < MAX_KEY →
  (LinkFree.contains fuel k s = Ok true s
   → LinkFree.insert fuel k item id s = Ok false s)
  ∧ (LinkFree.contains fuel k s = Ok false s
     → LinkFree.remove fuel k s = Ok false s)
  ∧ (∀ s1, LinkFree.insert fuel k item id s = Ok false s1 → s1 = s)
  ∧ (∀ s1, LinkFree.remove fuel k s = Ok false s1 → s1 = s).
Proof.
  intros [mid HI]%LF_reachable_Inv_size Hfuel Hk.
  rewrite (LF_contains_spec _ s mid k fuel HI) by done.
  split; [|split; [|split]].
  - intros [= Hc]. apply bool_decide_eq_true_1 in Hc.
    destruct (from k mid) as [|[a k'] rest] eqn:Hfrom; [done|].
    simpl in Hc. injection Hc as ->. by eapply LF_insert_present.
  - intros [= Hc]. apply bool_decide_eq_false_1 in Hc.
    by eapply LF_remove_absent.
  - intros s1 Hins.
    pose proof (LF_insert_post _ s mid k item id fuel HI Hk Hfuel) as Hpost.
    rewrite Hins in Hpost. by destruct Hpost as [[_ ->]|[[=] _]].
  - intros s1 Hrem.
    pose proof (LF_remove_post _ s mid k fuel HI Hk Hfuel) as Hpost.
    rewrite Hrem in Hpost. by destruct Hpost as [(_ & -> & _)|[[=] _]].
Qed.

Lemma LinkFree_refusal_changes_nothing_witness :
  (LinkFree.contains 5 3 LinkFree_example_set = Ok true LinkFree_example_set
   → LinkFree.insert 5 3 33 1 LinkFree_example_set
     = Ok false LinkFree_example_set)
  ∧ (LinkFree.contains 5 3 LinkFree_example_set = Ok false LinkFree_example_set
     → LinkFree.remove 5 3 LinkFree_example_set
       = Ok false LinkFree_example_set)
  ∧ (∀ s1, LinkFree.insert 5 3 33 1 LinkFree_example_set = Ok false s1
           → s1 = LinkFree_example_set)
  ∧ (∀ s1, LinkFree.remove 5 3 LinkFree_example_set = Ok false s1
           → s1 = LinkFree_example_set).
Proof.
  apply (LinkFree_refusal_changes_nothing LinkFree_example_set 5 3 33 1
           LinkFree_example_set_reachable);
    [vm_compute; lia|unfold MAX_KEY; lia].
Defined.

(** X27: in the link-free set a successful [insert(k, item, id)] uses
    up one pool node and one durable cell of section [id], and the cell,
    at the address the store handed out, holds [k] and [item] with
    [validBits = 3], both flags clear (the insert flag is flushed as it
    was before the flush set it) and a [next] pointer that is unmarked
    but not null, so that [isValid] answers [false] on it. *)
Theorem LinkFree_insert_flushes_record (s s1 : LinkFree.t) (fuel : nat)
    (k item id : Z) :
  LinkFree_reachable s →
  (size (LinkFree.heap s) ≤ fuel)%nat →
  k < MAX_KEY →
  LinkFree.insert fuel k item id s = Ok true s1 →
  ∃ d idx cell,
    Store.retrieveAddress id (LinkFree.mem s) = Ok d (LinkFree.mem s)
    ∧ 0 ≤ d
    ∧ LinkFree.allocIndices s !! Z.to_nat id = Some idx
    ∧ 0 ≤ idx
    ∧ Store.freeListIndex (LinkFree.mem s1)
      = <[Z.to_nat id := d - 1]> (Store.freeListIndex (LinkFree.mem s))
    ∧ LinkFree.allocIndices s1
      = <[Z.to_nat id := idx - 1]> (LinkFree.allocIndices s)
    ∧ Store.read_cell id d (LinkFree.mem s1) = Ok cell (LinkFree.mem s1)
    ∧ MemoryManager.key cell = k
    ∧ MemoryManager.item cell = item
    ∧ MemoryManager.validBits cell = 3
    ∧ MemoryManager.insertValidFlag cell = false
    ∧ MemoryManager.deleteValidFlag cell = false
    ∧ Z.land (MemoryManager.next cell) 1 = 0
    ∧ MemoryManager.next cell ≠ 0
    ∧ MemoryManager.isValid cell = false.
Proof.
  intros [mid HLI]%LF_reachable_Inv_size Hfuel Hk Hins.
  pose proof (LF_insert_post _ s mid k item id fuel HLI Hk Hfuel) as Hpost.
  rewrite Hins in Hpost.
  destruct Hpost as [[[=] _]|(_ & _ & a & d & idx & _ & Hret & Hd & Hrec & Htop & Hal)].
  destruct Hrec as (t & Hupd & Hfl).
  apply retrieveAddress_Ok in Hret as (Hid & Hfree & _).
  apply updateAddress_Ok in Hupd as (d' & _ & Hfree' & ->).
  assert (d' = d) as -> by congruence.
  apply FLUSH_Ok in Hfl as (row & c0 & _ & Hd0 & Hrow & Hc0 & Hmem).
  destruct (Inv_stop_aligned _ (LinkFree_abs s) mid k (linv_list _ _ _ HLI)
              ltac:(lia)) as [Hnz Heven].
  simpl in Hnz, Heven.
  set (cur := default 0 _) in *.
  destruct Htop as (_ & Hidx & Hai & _). simpl in Hai.
  eexists d, idx, _. split; [by apply retrieveAddress_Ok|].
  split; [done|]. split; [done|]. split; [done|].
  split; [by rewrite Hmem|]. split; [done|].
  split.
  { rewrite Hmem.
    apply (read_written_cell
             (Store.set_freeListIndex _ (LinkFree.mem s)) _ _ row c0); done. }
  simpl. split; [done|]. split; [done|]. split; [done|].
  split; [done|]. split; [done|].
  split; [by apply land_1_even|]. split; [done|].
  apply not_true_is_false. by intros [_ ?]%isValid_true_iff.
Qed.

Lemma LinkFree_insert_flushes_record_witness :
  ∃ s1 d idx cell,
    LinkFree.insert 5 2 20 0 LinkFree_example_fresh = Ok true s1
    ∧ Store.retrieveAddress 0 (LinkFree.mem LinkFree_example_fresh)
      = Ok d (LinkFree.mem LinkFree_example_fresh)
    ∧ 0 ≤ d
    ∧ LinkFree.allocIndices LinkFree_example_fresh !! Z.to_nat 0 = Some idx
    ∧ 0 ≤ idx
    ∧ Store.freeListIndex (LinkFree.mem s1)
      = <[Z.to_nat 0 := d - 1]>
          (Store.freeListIndex (LinkFree.mem LinkFree_example_fresh))
    ∧ LinkFree.allocIndices s1
      = <[Z.to_nat 0 := idx - 1]> (LinkFree.allocIndices LinkFree_example_fresh)
    ∧ Store.read_cell 0 d (LinkFree.mem s1) = Ok cell (LinkFree.mem s1)
    ∧ MemoryManager.key cell = 2
    ∧ MemoryManager.item cell = 20
    ∧ MemoryManager.validBits cell = 3
    ∧ MemoryManager.insertValidFlag cell = false
    ∧ MemoryManager.deleteValidFlag cell = false
    ∧ Z.land (MemoryManager.next cell) 1 = 0
    ∧ MemoryManager.next cell ≠ 0
    ∧ MemoryManager.isValid cell = false.
Proof.
  assert (∃ s1, LinkFree.insert 5 2 20 0 LinkFree_example_fresh = Ok true s1)
    as [s1 Hins] by (eexists; vm_compute; reflexivity).
  exists s1.
  destruct (LinkFree_insert_flushes_record LinkFree_example_fresh s1 5 2 20 0
              LinkFree_example_fresh_reachable)
    as (d & idx & cell & H); [vm_compute; lia|unfold MAX_KEY; lia|exact Hins|].
  exists d, idx, cell. split; [exact Hins|exact H].
Defined.
(** X28: in the link-free set a successful [remove(k)] acts on the node
    at which the traversal for [k] stops, the linked, unmarked node that
    holds [k]: the store it leaves is the store as it was with that
    node's record flushed to the node's durable address, with the same
    key, item and valid bits, the insert flag set, the delete flag still
    clear (it is flushed as it was before the flush set it) and the low
    bit of [next] set; [isValid] answers [false] on the cell.  Neither a
    pool node nor a cell is given back. *)
Theorem LinkFree_remove_flushes_tombstone (s s1 : LinkFree.t) (fuel : nat)
    (k : Z) :
  LinkFree_reachable s →
  (size (LinkFree.heap s) ≤ fuel)%nat →
  k < MAX_KEY →
  LinkFree.remove fuel k s = Ok true s1 →
  ∃ prev a cn cell,
    LinkFree.find fuel k s = Ok (prev, a) s
    ∧ LinkFree.heap s !! a = Some cn
    ∧ LinkFree.Node.key cn = k
    ∧ LinkFree.Node.isNextMarked cn = false
    ∧ MemoryManager.FLUSH k (LinkFree.Node.item cn)
        (LinkFree.Node.validBits cn) true false
        (LinkFree.Node.mark (LinkFree.Node.next cn))
        (LinkFree.Node.durableAddressPrefix cn)
        (LinkFree.Node.durableAddressPostfix cn) (LinkFree.mem s)
      = Ok tt (LinkFree.mem s1)
    ∧ Store.read_cell (LinkFree.Node.durableAddressPrefix cn)
        (LinkFree.Node.durableAddressPostfix cn) (LinkFree.mem s1)
      = Ok cell (LinkFree.mem s1)
    ∧ MemoryManager.key cell = k
    ∧ MemoryManager.item cell = LinkFree.Node.item cn
    ∧ MemoryManager.validBits cell = LinkFree.Node.validBits cn
    ∧ MemoryManager.insertValidFlag cell = true
    ∧ MemoryManager.deleteValidFlag cell = false
    ∧ Z.land (MemoryManager.next cell) 1 = 1
    ∧ MemoryManager.isValid cell = false
    ∧ Store.freeListIndex (LinkFree.mem s1)
      = Store.freeListIndex (LinkFree.mem s)
    ∧ LinkFree.allocIndices s1 = LinkFree.allocIndices s.
Proof.
  intros [mid HLI]%LF_reachable_Inv_size Hfuel Hk Hrem.
  pose proof (LF_remove_post _ s mid k fuel HLI Hk Hfuel) as Hpost.
  rewrite Hrem in Hpost.
  destruct Hpost
    as [[[=] _]|(_ & a & rest & cn & Hfrom & _ & Hcn & Hkey & Heven & Hfl & Hal)].
  pose proof HLI as [HI _ _ _ _].
  pose proof (LF_find_spec _ s mid k fuel HI ltac:(lia) Hfuel) as Hfind.
  destruct (chain_split (LinkFree_abs s) mid k ltac:(lia)) as (_ & Hsplit & _).
  simpl in Hsplit. rewrite Hsplit, Hfrom in Hfind. simpl in Hfind.
  pose proof Hfl as Hfl'.
  apply FLUSH_Ok in Hfl as (row & c0 & Hpre & Hpost & Hrow & Hc0 & Hmem).
  eexists _, a, cn, _. split; [exact Hfind|]. split; [done|]. split; [done|].
  split; [by rewrite LF_isNextMarked_even|]. split; [exact Hfl'|].
  split.
  { rewrite Hmem. by apply (read_written_cell (LinkFree.mem s) _ _ row c0). }
  simpl. split; [done|]. split; [done|]. split; [done|].
  split; [done|]. split; [done|].
  split; [apply LF_mark_low_bit|].
  split; [|split; [by rewrite Hmem|done]].
  apply not_true_is_false. intros [_ Hz]%isValid_true_iff. simpl in Hz.
  pose proof (LF_mark_low_bit (LinkFree.Node.next cn)) as Hbit.
  rewrite Hz in Hbit. done.
Qed.

Lemma LinkFree_remove_flushes_tombstone_witness :
  ∃ s1 prev a cn cell,
    LinkFree.remove 5 3 LinkFree_example_set = Ok true s1
    ∧ LinkFree.find 5 3 LinkFree_example_set = Ok (prev, a) LinkFree_example_set
    ∧ LinkFree.heap LinkFree_example_set !! a = Some cn
    ∧ LinkFree.Node.key cn = 3
    ∧ LinkFree.Node.isNextMarked cn = false
    ∧ MemoryManager.FLUSH 3 (LinkFree.Node.item cn)
        (LinkFree.Node.validBits cn) true false
        (LinkFree.Node.mark (LinkFree.Node.next cn))
        (LinkFree.Node.durableAddressPrefix cn)
        (LinkFree.Node.durableAddressPostfix cn) (LinkFree.mem LinkFree_example_set)
      = Ok tt (LinkFree.mem s1)
    ∧ Store.read_cell (LinkFree.Node.durableAddressPrefix cn)
        (LinkFree.Node.durableAddressPostfix cn) (LinkFree.mem s1)
      = Ok cell (LinkFree.mem s1)
    ∧ MemoryManager.key cell = 3
    ∧ MemoryManager.item cell = LinkFree.Node.item cn
    ∧ MemoryManager.validBits cell = LinkFree.Node.validBits cn
    ∧ MemoryManager.insertValidFlag cell = true
    ∧ MemoryManager.deleteValidFlag cell = false
    ∧ Z.land (MemoryManager.next cell) 1 = 1
    ∧ MemoryManager.isValid cell = false
    ∧ Store.freeListIndex (LinkFree.mem s1)
      = Store.freeListIndex (LinkFree.mem LinkFree_example_set)
    ∧ LinkFree.allocIndices s1 = LinkFree.allocIndices LinkFree_example_set.
Proof.
  assert (∃ s1, LinkFree.remove 5 3 LinkFree_example_set = Ok true s1)
    as [s1 Hrem] by (eexists; vm_compute; reflexivity).
  exists s1.
  destruct (LinkFree_remove_flushes_tombstone LinkFree_example_set s1 5 3
              LinkFree_example_set_reachable)
    as (prev & a & cn & cell & H);
    [vm_compute; lia|unfold MAX_KEY; lia|exact Hrem|].
  exists prev, a, cn, cell. split; [exact Hrem|exact H].
Defined.
(** ** Freeing the nodes *)














(** ** The upper sentinel *)

(** [insert(MAX_KEY)] finds the key at the tail and returns [false]. *)
Lemma insert_MAX_KEY v N s mid x id fuel :
  Inv N s mid → (N ≤ fuel)%nat →
  DurableSet.insert v fuel MAX_KEY x id s = Ok false s.
Proof.
  intros HI Hfuel. pose proof (Inv_length _ _ _ HI) as Hlen.
  destruct (Inv_stop N s mid MAX_KEY HI ltac:(lia))
    as (c & rest' & cn & Hc & Hle & Hcn & Hkey & _).
  assert (Forall (λ ak : Z * Z, ak.2 < MAX_KEY) mid) as Hbelow.
  { pose proof (inv_sorted _ _ _ HI) as Hs.
    rewrite fmap_app in Hs.
    apply StronglySorted_app in Hs as (Hcross & _ & _).
    apply Forall_forall. intros ak Hak. apply Hcross.
    - by apply list_elem_of_fmap_2.
    - apply list_elem_of_here. }
  destruct (before_app_stop MAX_KEY mid [] (DurableSet.tail s, MAX_KEY) Hbelow
              ltac:(simpl; lia)) as [_ Hfrom].
  rewrite Hfrom in Hc. injection Hc as <- <-. simpl in Hcn, Hkey.
  assert (∀ v', DurableSet.locked_insert v' fuel fuel MAX_KEY x id s = Ok false s)
    as Hlocked.
  { intros v'. destruct fuel as [|fuel']; [lia|].
    cbn [DurableSet.locked_insert]. unfold bind at 1.
    rewrite (find_spec v' N s mid MAX_KEY) by (done || lia). cbn [fst snd].
    unfold bind at 1. rewrite (invalidated_spec N s mid MAX_KEY) by (done || lia).
    rewrite Hfrom. simpl.
    erewrite bind_load by exact Hcn.
    by rewrite bool_decide_eq_true_2. }
  destruct v; [|apply Hlocked..].
  unfold DurableSet.insert, DurableSet.Sequential_insert. unfold bind at 1.
  rewrite (find_spec Sequential N s mid MAX_KEY) by (done || lia). cbn [fst snd].
  rewrite Hfrom. simpl.
  erewrite bind_load by exact Hcn.
  by rewrite bool_decide_eq_true_2.
Qed.

(** Histories that leave the tail in place preserve the invariant. *)
Lemma run_post_tail v N s mid ops fuel :
  Inv N s mid → Forall keeps_tail ops → (N ≤ fuel)%nat →
  post (run v fuel ops s)
    (λ _ s', ∃ mid', Inv N s' mid') (λ _ s', ∃ mid', Inv N s' mid').
Proof.
  intros HI Hops Hfuel. revert s mid HI.
  induction Hops as [|o ops Ho _ IH]; intros s mid HI; [by exists mid|].
  cbn [run]. apply post_bind.
  destruct o as [k x id|k|k]; simpl in Ho |- *.
  - destruct (decide (k = MAX_KEY)) as [->|Hne].
    { rewrite (insert_MAX_KEY v N s mid x id fuel) by done. simpl. by eapply IH. }
    eapply post_mono;
      [apply (insert_post v N s mid k x id fuel); [done|lia|done]|..].
    + intros b s' [[_ ->]|[_ [a Ha]]]; by eapply IH.
    + intros _ s' [->|[a Ha]]; eauto.
  - eapply post_mono; [by apply (remove_post v N s mid k fuel)|..].
    + intros b s' [[_ ->]|[_ (a & rest & _ & Ha)]]; by eapply IH.
    + intros _ s' (a & rest & _ & Ha); eauto.
  - rewrite (contains_spec v N s mid k fuel) by done. simpl. by eapply IH.
Qed.

(** C10, counterexample: in each of the three sets, freshly constructed,
    [remove(MAX_KEY)] finds the key at the tail, marks the tail's link
    and makes the head skip the tail, and then throws
    [std::out_of_range] from the flush to the tail's durable address
    [(-1, -1)]; in the state it leaves, [contains(MAX_KEY)] walks from
    the head into [nullptr] and returns nothing. *)
Lemma remove_MAX_KEY_unlinks_tail :
  Forall
    (λ v, ∃ m s0 s1 hn tn,
       fresh_store 1 1 = Some m
       ∧ DurableSet.create v m 1 [1] = Ok tt s0
       ∧ DurableSet.contains v 3 MAX_KEY s0 = Ok true s0
       ∧ DurableSet.remove v 3 MAX_KEY s0 = Throw out_of_range s1
       ∧ DurableSet.heap s1 !! DurableSet.head s1 = Some hn
       ∧ Node.next hn = 0
       ∧ DurableSet.heap s1 !! DurableSet.tail s1 = Some tn
       ∧ Node.key tn = MAX_KEY
       ∧ Node.isNextMarked tn = true
       ∧ ∀ fuel, DurableSet.contains v fuel MAX_KEY s1 ≠ Ok true s1)
    [Sequential; Lock; MRLock].
Proof.
  repeat apply Forall_cons_2; try apply Forall_nil_2.
  all: do 5 eexists.
  all: do 9 (split; [vm_compute; reflexivity|]).
  all: intros [|fuel]; [vm_compute; discriminate|].
  all: vm_compute; discriminate.
Qed.

(** C10, as amended: in every state that a history of operations with
    keys up to [MAX_KEY], none of them a removal of [MAX_KEY], leaves a
    Sequential, Lock or MRLock set in, on a return or on an exception,
    [contains(MAX_KEY)] returns [true]: the walk passes every element and
    stops at the tail, whose key is [MAX_KEY] and whose link such a
    history leaves unmarked. *)
Theorem contains_MAX_KEY (v : variant) (m : MemoryManager.t) (numIDs : Z)
    (writeOpsVector : list Z) (s0 s : DurableSet.t) (ops : list op)
    (fuel : nat) :
  DurableSet.create v m numIDs writeOpsVector = Ok tt s0 →
  Forall keeps_tail ops →
  (size (DurableSet.heap s0) ≤ fuel)%nat →
  final (run v fuel ops s0) = Some s →
  DurableSet.contains v fuel MAX_KEY s = Ok true s.
Proof.
  intros Hcreate Hops Hfuel Hfinal.
  pose proof (run_post_tail v _ s0 [] ops fuel (Inv_create _ _ _ _ _ Hcreate)
                Hops Hfuel) as Hpost.
  assert (∃ mid, Inv (size (DurableSet.heap s0)) s mid) as [mid HI].
  { destruct (run v fuel ops s0); simpl in *; by simplify_eq. }
  rewrite (contains_spec v _ s mid MAX_KEY fuel HI) by done.
  assert (Forall (λ ak : Z * Z, ak.2 < MAX_KEY) mid) as Hbelow.
  { pose proof (inv_sorted _ _ _ HI) as Hs.
    rewrite fmap_app in Hs.
    apply StronglySorted_app in Hs as (Hcross & _ & _).
    apply Forall_forall. intros ak Hak. apply Hcross.
    - by apply list_elem_of_fmap_2.
    - apply list_elem_of_here. }
  destruct (before_app_stop MAX_KEY mid [] (DurableSet.tail s, MAX_KEY) Hbelow
              ltac:(simpl; lia)) as [_ ->].
  by rewrite bool_decide_eq_true_2.
Qed.

Lemma contains_MAX_KEY_witness :
  ∃ m s0 s,
    fresh_store 1 1 = Some m
    ∧ DurableSet.create Lock m 1 [1] = Ok tt s0
    ∧ final (run Lock 3 [DoInsert 7 70 0; DoInsert MAX_KEY 1 0; DoRemove 8] s0)
      = Some s
    ∧ DurableSet.contains Lock 3 MAX_KEY s = Ok true s.
Proof.
  assert (∃ m s0 s, fresh_store 1 1 = Some m
                    ∧ DurableSet.create Lock m 1 [1] = Ok tt s0
                    ∧ final (run Lock 3
                               [DoInsert 7 70 0; DoInsert MAX_KEY 1 0; DoRemove 8] s0)
                      = Some s
                    ∧ (size (DurableSet.heap s0) ≤ 3)%nat)
    as (m & s0 & s & Hm & Hs & Hrun & Hsize).
  { do 3 eexists. split; [vm_compute; reflexivity|].
    split; [vm_compute; reflexivity|]. split; [vm_compute; reflexivity|].
    vm_compute. lia. }
  exists m, s0, s. split; [exact Hm|]. split; [exact Hs|]. split; [exact Hrun|].
  apply (contains_MAX_KEY Lock m 1 [1] s0 s
           [DoInsert 7 70 0; DoInsert MAX_KEY 1 0; DoRemove 8] 3 Hs);
    [|exact Hsize|exact Hrun].
  repeat apply Forall_cons_2; try apply Forall_nil_2;
    simpl; unfold MIN_KEY, MAX_KEY; lia.
Defined.

(** ** The cursors of the store *)

Section CursorFacts.
Context {Cell : Type} `{CellFlavor Cell}.
Implicit Types (m : Store.MemoryManager Cell) (r : Recovered).


End CursorFacts.




(** ** The Lock set with its mutexes *)

Lemma bind_lift {A B} (m : M DurableSet.t A) (K : A → M LockDurableSet.t B)
    (s : DurableSet.t) (H : list Z) :
  bind (LockDurableSet.lift m) K
    {| LockDurableSet.set := s; LockDurableSet.held := H |}
  = match m s with
    | Ok a s' => K a {| LockDurableSet.set := s'; LockDurableSet.held := H |}
    | Throw e s' =>
        Throw e {| LockDurableSet.set := s'; LockDurableSet.held := H |}
    | Fault => Fault
    | Timeout => Timeout
    end.
Proof.
  unfold bind, LockDurableSet.lift, zoom. simpl. by destruct (m s).
Qed.

Lemma bind_mtx_lock {B} (K : unit → M LockDurableSet.t B) (s : DurableSet.t)
    (H : list Z) (a : Z) (n : Node.t) :
  DurableSet.heap s !! a = Some n → a ∉ H →
  bind (LockDurableSet.mtx_lock a) K
    {| LockDurableSet.set := s; LockDurableSet.held := H |}
  = K tt {| LockDurableSet.set := s; LockDurableSet.held := a :: H |}.
Proof.
  intros Hn Ha. unfold LockDurableSet.mtx_lock, bind, get. simpl.
  rewrite Hn. by rewrite bool_decide_eq_false_2.
Qed.

Lemma bind_mtx_lock_held {B} (K : unit → M LockDurableSet.t B)
    (s : DurableSet.t) (H : list Z) (a : Z) :
  a ∈ H →
  bind (LockDurableSet.mtx_lock a) K
    {| LockDurableSet.set := s; LockDurableSet.held := H |}
  = Fault.
Proof.
  intros Ha. unfold LockDurableSet.mtx_lock, bind, get. simpl.
  destruct (DurableSet.heap s !! a); [|done].
  by rewrite bool_decide_eq_true_2.
Qed.

Lemma filter_out_absent (a : Z) (H : list Z) :
  a ∉ H → filter (λ b, b ≠ a) H = H.
Proof.
  intros Ha. induction H as [|b H IH]; [done|].
  apply not_elem_of_cons in Ha as [Hne Ha].
  rewrite filter_cons_True by done. by rewrite IH.
Qed.

(** Releasing the two mutexes taken last. *)
Lemma unlock_both {B} (K : M LockDurableSet.t B) (s : DurableSet.t)
    (H : list Z) (prev cur : Z) :
  prev ∉ H → cur ∉ H → cur ≠ prev →
  (LockDurableSet.mtx_unlock prev;;; LockDurableSet.mtx_unlock cur;;; K)
    {| LockDurableSet.set := s; LockDurableSet.held := cur :: prev :: H |}
  = K {| LockDurableSet.set := s; LockDurableSet.held := H |}.
Proof.
  intros Hp Hc Hne. unfold LockDurableSet.mtx_unlock, bind, get, put.
  cbn [LockDurableSet.set LockDurableSet.held].
  rewrite bool_decide_eq_true_2 by (apply elem_of_cons; right; apply list_elem_of_here).
  cbn [LockDurableSet.set LockDurableSet.held].
  rewrite filter_cons_True by done. rewrite filter_cons_False by (intros ?; done).
  rewrite filter_out_absent by done.
  rewrite bool_decide_eq_true_2 by apply list_elem_of_here.
  rewrite filter_cons_False by (intros ?; done).
  by rewrite filter_out_absent.
Qed.

(** The node a traversal stops at is not its predecessor. *)
Lemma stop_not_prev N s mid k :
  Inv N s mid → k ≤ MAX_KEY →
  default 0 (fst <$> head (from k (mid ++ [(DurableSet.tail s, MAX_KEY)])))
  ≠ default (DurableSet.head s) (fst <$> last (before k mid)).
Proof.
  intros HI Hk Heq.
  destruct (Inv_stop N s mid k HI Hk) as (c & rest & cn & Hfrom & _).
  destruct (chain_split s mid k Hk) as (E1 & _ & _).
  pose proof (inv_nodup _ _ _ HI) as Hnd.
  rewrite E1, Hfrom in Hnd. rewrite Hfrom in Heq. simpl in Heq.
  destruct (snoc_split (DurableSet.head s, MIN_KEY) (before k mid)) as (P & kp & HL1).
  simpl in HL1. rewrite HL1, <- app_assoc, fmap_app in Hnd.
  simpl in Hnd. apply NoDup_app in Hnd as (_ & _ & Hnd).
  apply NoDup_cons in Hnd as [Hnd _]. apply Hnd. rewrite Heq. apply list_elem_of_here.
Qed.

(** After the traversal and the validation. *)
Lemma locked_insert_unfold N s mid k x id fuel :
  Inv N s mid → k ≤ MAX_KEY → (N ≤ fuel)%nat →
  let prev := default (DurableSet.head s) (fst <$> last (before k mid)) in
  let cur :=
    default 0 (fst <$> head (from k (mid ++ [(DurableSet.tail s, MAX_KEY)]))) in
  DurableSet.insert Lock fuel k x id s
  = (do c <- DurableSet.load cur;
     if bool_decide (Node.key c = k) then ret false
     else
       do newNode <- DurableSet.allocFromArea id;
       if bool_decide (newNode = 0) then ret false
       else DurableSet.link k x id prev cur newNode;;; ret true) s.
Proof.
  intros HI Hk Hfuel prev cur. pose proof (Inv_length _ _ _ HI) as Hlen.
  unfold DurableSet.insert. destruct fuel as [|fuel']; [lia|].
  cbn [DurableSet.locked_insert]. unfold bind at 1.
  rewrite (find_spec Lock N s mid k) by done. cbn [fst snd].
  unfold bind at 1. by rewrite (invalidated_spec N s mid k).
Qed.

Lemma locked_remove_unfold N s mid k fuel :
  Inv N s mid → k ≤ MAX_KEY → (N ≤ fuel)%nat →
  let prev := default (DurableSet.head s) (fst <$> last (before k mid)) in
  let cur :=
    default 0 (fst <$> head (from k (mid ++ [(DurableSet.tail s, MAX_KEY)]))) in
  DurableSet.remove Lock fuel k s
  = (do c <- DurableSet.load cur;
     if negb (bool_decide (Node.key c = k)) then ret false
     else DurableSet.unlink prev cur;;; ret true) s.
Proof.
  intros HI Hk Hfuel prev cur. pose proof (Inv_length _ _ _ HI) as Hlen.
  unfold DurableSet.remove. destruct fuel as [|fuel']; [lia|].
  cbn [DurableSet.locked_remove]. unfold bind at 1.
  rewrite (find_spec Lock N s mid k) by done. cbn [fst snd].
  unfold bind at 1. by rewrite (invalidated_spec N s mid k).
Qed.

(** A statement between [lock] and [unlock], and what follows it. *)
Lemma with_mutexes_bind {A B} (m : M DurableSet.t A)
    (K : A → M DurableSet.t B) (K' : A → M LockDurableSet.t B)
    (s : DurableSet.t) (H : list Z) (prev cur : Z) :
  (∀ a s',
     K' a {| LockDurableSet.set := s';
             LockDurableSet.held := cur :: prev :: H |}
     = with_mutexes (K a s') prev cur H) →
  bind (LockDurableSet.lift m) K'
    {| LockDurableSet.set := s; LockDurableSet.held := cur :: prev :: H |}
  = with_mutexes (bind m K s) prev cur H.
Proof.
  intros HK. rewrite bind_lift. unfold bind.
  destruct (m s) as [a s'|e s'| |]; [apply HK|done..].
Qed.

(** The two [unlock] calls before a [return]. *)
Lemma with_mutexes_ret {B} (b : B) (s : DurableSet.t) (H : list Z)
    (prev cur : Z) :
  prev ∉ H → cur ∉ H → cur ≠ prev →
  (LockDurableSet.mtx_unlock prev;;; LockDurableSet.mtx_unlock cur;;; ret b)
    {| LockDurableSet.set := s; LockDurableSet.held := cur :: prev :: H |}
  = with_mutexes (ret b s) prev cur H.
Proof. intros Hp Hc Hne. by rewrite unlock_both. Qed.

(** With neither node of the position held, [insert] takes the two
    mutexes, does what the statements between [lock] and [unlock] do,
    and releases them on a return. *)
Lemma Lock_insert_mutexes N s mid k x id fuel H :
  Inv N s mid → k ≤ MAX_KEY → (N ≤ fuel)%nat →
  let prev := default (DurableSet.head s) (fst <$> last (before k mid)) in
  let cur :=
    default 0 (fst <$> head (from k (mid ++ [(DurableSet.tail s, MAX_KEY)]))) in
  prev ∉ H → cur ∉ H →
  LockDurableSet.insert fuel k x id
    {| LockDurableSet.set := s; LockDurableSet.held := H |}
  = with_mutexes (DurableSet.insert Lock fuel k x id s) prev cur H.
Proof.
  intros HI Hk Hfuel prev cur Hp Hc.
  pose proof (Inv_length _ _ _ HI) as Hlen.
  destruct (Inv_stop N s mid k HI Hk) as (c & rest & cn & Hfrom & _ & Hcn & _).
  destruct (Inv_prev N s mid k HI Hk) as (pn & Hpn & _). fold prev in Hpn.
  assert (cur = c.1) as Hcur by (unfold cur; by rewrite Hfrom).
  rewrite <- Hcur in Hcn.
  pose proof (stop_not_prev N s mid k HI Hk) as Hne. fold prev cur in Hne.
  rewrite (locked_insert_unfold N s mid k x id fuel) by done. fold prev cur.
  unfold LockDurableSet.insert.
  destruct fuel as [|fuel']; [lia|].
  cbn [LockDurableSet.insert_loop].
  rewrite (bind_lift (DurableSet.find Lock (S fuel') k)).
  rewrite (find_spec Lock N s mid k) by done. cbn [fst snd]. fold prev cur.
  rewrite (bind_mtx_lock _ _ _ _ pn) by done.
  rewrite (bind_mtx_lock _ _ _ _ cn)
    by (done || (intros [?|?]%elem_of_cons; done)).
  rewrite (bind_lift (DurableSet.invalidated prev cur)).
  pose proof (invalidated_spec N s mid k HI Hk) as Hvalid.
  fold prev cur in Hvalid. rewrite Hvalid.
  apply with_mutexes_bind. intros c0 s0.
  case_bool_decide; [by apply with_mutexes_ret|].
  apply with_mutexes_bind. intros nn s1.
  case_bool_decide; [by apply with_mutexes_ret|].
  apply with_mutexes_bind. intros [] s2. by apply with_mutexes_ret.
Qed.

Lemma Lock_remove_mutexes N s mid k fuel H :
  Inv N s mid → k ≤ MAX_KEY → (N ≤ fuel)%nat →
  let prev := default (DurableSet.head s) (fst <$> last (before k mid)) in
  let cur :=
    default 0 (fst <$> head (from k (mid ++ [(DurableSet.tail s, MAX_KEY)]))) in
  prev ∉ H → cur ∉ H →
  LockDurableSet.remove fuel k
    {| LockDurableSet.set := s; LockDurableSet.held := H |}
  = with_mutexes (DurableSet.remove Lock fuel k s) prev cur H.
Proof.
  intros HI Hk Hfuel prev cur Hp Hc.
  pose proof (Inv_length _ _ _ HI) as Hlen.
  destruct (Inv_stop N s mid k HI Hk) as (c & rest & cn & Hfrom & _ & Hcn & _).
  destruct (Inv_prev N s mid k HI Hk) as (pn & Hpn & _). fold prev in Hpn.
  assert (cur = c.1) as Hcur by (unfold cur; by rewrite Hfrom).
  rewrite <- Hcur in Hcn.
  pose proof (stop_not_prev N s mid k HI Hk) as Hne. fold prev cur in Hne.
  rewrite (locked_remove_unfold N s mid k fuel) by done. fold prev cur.
  unfold LockDurableSet.remove.
  destruct fuel as [|fuel']; [lia|].
  cbn [LockDurableSet.remove_loop].
  rewrite (bind_lift (DurableSet.find Lock (S fuel') k)).
  rewrite (find_spec Lock N s mid k) by done. cbn [fst snd]. fold prev cur.
  rewrite (bind_mtx_lock _ _ _ _ pn) by done.
  rewrite (bind_mtx_lock _ _ _ _ cn)
    by (done || (intros [?|?]%elem_of_cons; done)).
  rewrite (bind_lift (DurableSet.invalidated prev cur)).
  pose proof (invalidated_spec N s mid k HI Hk) as Hvalid.
  fold prev cur in Hvalid. rewrite Hvalid.
  apply with_mutexes_bind. intros c0 s0.
  destruct (negb _); [by apply with_mutexes_ret|].
  apply with_mutexes_bind. intros [] s2. by apply with_mutexes_ret.
Qed.

(** With one of the two nodes held, the [lock] call on it has no
    outcome. *)
Lemma Lock_insert_held N s mid k x id fuel H :
  Inv N s mid → k ≤ MAX_KEY → (N ≤ fuel)%nat →
  let prev := default (DurableSet.head s) (fst <$> last (before k mid)) in
  let cur :=
    default 0 (fst <$> head (from k (mid ++ [(DurableSet.tail s, MAX_KEY)]))) in
  prev ∈ H ∨ cur ∈ H →
  LockDurableSet.insert fuel k x id
    {| LockDurableSet.set := s; LockDurableSet.held := H |}
  = Fault.
Proof.
  intros HI Hk Hfuel prev cur Hheld.
  pose proof (Inv_length _ _ _ HI) as Hlen.
  destruct (Inv_prev N s mid k HI Hk) as (pn & Hpn & _). fold prev in Hpn.
  unfold LockDurableSet.insert.
  destruct fuel as [|fuel']; [lia|].
  cbn [LockDurableSet.insert_loop].
  rewrite (bind_lift (DurableSet.find Lock (S fuel') k)).
  rewrite (find_spec Lock N s mid k) by done. cbn [fst snd]. fold prev cur.
  destruct (decide (prev ∈ H)) as [Hin|Hout]; [by rewrite bind_mtx_lock_held|].
  rewrite (bind_mtx_lock _ _ _ _ pn) by done.
  destruct Hheld as [?|Hin]; [done|].
  rewrite bind_mtx_lock_held; [done|]. by apply elem_of_cons; right.
Qed.

Lemma Lock_remove_held N s mid k fuel H :
  Inv N s mid → k ≤ MAX_KEY → (N ≤ fuel)%nat →
  let prev := default (DurableSet.head s) (fst <$> last (before k mid)) in
  let cur :=
    default 0 (fst <$> head (from k (mid ++ [(DurableSet.tail s, MAX_KEY)]))) in
  prev ∈ H ∨ cur ∈ H →
  LockDurableSet.remove fuel k
    {| LockDurableSet.set := s; LockDurableSet.held := H |}
  = Fault.
Proof.
  intros HI Hk Hfuel prev cur Hheld.
  pose proof (Inv_length _ _ _ HI) as Hlen.
  destruct (Inv_prev N s mid k HI Hk) as (pn & Hpn & _). fold prev in Hpn.
  unfold LockDurableSet.remove.
  destruct fuel as [|fuel']; [lia|].
  cbn [LockDurableSet.remove_loop].
  rewrite (bind_lift (DurableSet.find Lock (S fuel') k)).
  rewrite (find_spec Lock N s mid k) by done. cbn [fst snd]. fold prev cur.
  destruct (decide (prev ∈ H)) as [Hin|Hout]; [by rewrite bind_mtx_lock_held|].
  rewrite (bind_mtx_lock _ _ _ _ pn) by done.
  destruct Hheld as [?|Hin]; [done|].
  rewrite bind_mtx_lock_held; [done|]. by apply elem_of_cons; right.
Qed.

Lemma find_position v N s mid k fuel prev cur :
  Inv N s mid → k ≤ MAX_KEY → (N ≤ fuel)%nat →
  DurableSet.find v fuel k s = Ok (prev, cur) s →
  prev = default (DurableSet.head s) (fst <$> last (before k mid))
  ∧ cur = default 0
            (fst <$> head (from k (mid ++ [(DurableSet.tail s, MAX_KEY)]))).
Proof.
  intros HI Hk Hfuel Hfind.
  rewrite (find_spec v N s mid k fuel HI Hk Hfuel) in Hfind.
  by injection Hfind as <- <-.
Qed.

(** X9: when the pool of the writer's section is used up
    ([allocIndices] is [-1]), [insert] of an absent key throws
    [std::out_of_range] from [preAllocatedNodes.at(id).at(-1)], with the
    list, the budgets and the store as they were.  In the Sequential set
    that is the whole state.  In the Lock set the exception is thrown
    between [lock] and [unlock]: the mutexes of the two nodes of the
    position, free before the call, stay locked. *)
Theorem insert_exhausted_pool_throws (s : DurableSet.t) (fuel : nat)
    (k item id : Z) :
  (size (DurableSet.heap s) ≤ fuel)%nat →
  k < MAX_KEY →
  (reachable Sequential s →
   DurableSet.contains Sequential fuel k s = Ok false s →
   DurableSet.allocIndices s !! 0%nat = Some (-1) →
   DurableSet.insert Sequential fuel k item id s = Throw out_of_range s)
  ∧ (∀ (held : list Z) (previous current : Z),
       reachable Lock s →
       DurableSet.contains Lock fuel k s = Ok false s →
       DurableSet.allocIndices s !! Z.to_nat id = Some (-1) →
       DurableSet.find Lock fuel k s = Ok (previous, current) s →
       previous ∉ held → current ∉ held →
       LockDurableSet.insert fuel k item id
         {| LockDurableSet.set := s; LockDurableSet.held := held |}
       = Throw out_of_range
           {| LockDurableSet.set := s;
              LockDurableSet.held := current :: previous :: held |}).
Proof.
  intros Hfuel Hk.
  assert (∀ v, reachable v s →
               DurableSet.contains v fuel k s = Ok false s →
               DurableSet.allocIndices s !! Z.to_nat (section_of v id) = Some (-1) →
               DurableSet.insert v fuel k item id s = Throw out_of_range s)
    as Hthrow.
  { intros v [mid HI]%reachable_Inv Hc Hidx.
    rewrite (insert_absent v _ s mid k item id fuel HI Hk Hfuel)
      by by eapply contains_false_absent.
    unfold DurableSet.allocFromArea, bind, get.
    destruct (vec_at_cases (DurableSet.preAllocatedNodes s) (section_of v id) s)
      as [[pool Hpool]| ->]; [|done].
    rewrite Hpool. apply vec_at_Ok in Hpool as (Hw & Hpool & _).
    rewrite (proj2 (vec_at_Ok _ _ s s (-1))) by done.
    by rewrite vec_at_negative. }
  split; [by apply (Hthrow Sequential)|].
  intros held previous current Hreach Hc Hidx Hfind Hp Hcur.
  pose proof Hreach as [mid HI]%reachable_Inv.
  destruct (find_position Lock _ s mid k fuel _ _ HI ltac:(lia) Hfuel Hfind)
    as [-> ->].
  rewrite (Lock_insert_mutexes _ s mid k item id fuel held HI) by (done || lia).
  by rewrite (Hthrow Lock).
Qed.

Lemma insert_exhausted_pool_throws_witness :
  ∃ m s0 s1,
    (fresh_store 1 1 = Some m
     ∧ DurableSet.create Sequential m 1 [1] = Ok tt s0
     ∧ DurableSet.insert Sequential 3 1 10 0 s0 = Ok true s1
     ∧ DurableSet.insert Sequential 3 2 20 0 s1 = Throw out_of_range s1)
    ∧ LockDurableSet.insert 5 2 20 1
        {| LockDurableSet.set := example_set; LockDurableSet.held := [] |}
      = Throw out_of_range
          {| LockDurableSet.set := example_set;
             LockDurableSet.held := [128; 192] |}.
Proof.
  assert (∃ m s0 s1, fresh_store 1 1 = Some m
                     ∧ DurableSet.create Sequential m 1 [1] = Ok tt s0
                     ∧ DurableSet.insert Sequential 3 1 10 0 s0 = Ok true s1
                     ∧ final (run Sequential 3 [DoInsert 1 10 0] s0) = Some s1
                     ∧ DurableSet.contains Sequential 3 2 s1 = Ok false s1
                     ∧ DurableSet.allocIndices s1 !! 0%nat = Some (-1)
                     ∧ (size (DurableSet.heap s0) ≤ 3)%nat
                     ∧ (size (DurableSet.heap s1) ≤ 3)%nat)
    as (m & s0 & s1 & Hm & Hs0 & Hins & Hrun & Hc & Hidx & Hsize0 & Hsize1).
  { do 3 eexists. do 6 (split; [vm_compute; reflexivity|]).
    split; vm_compute; lia. }
  assert (reachable Sequential s1) as Hreach.
  { exists m, 1, [1], s0, [DoInsert 1 10 0], 3%nat.
    split; [exact Hs0|]. split; [|split; [exact Hsize0|exact Hrun]].
    apply Forall_cons_2; [|apply Forall_nil_2]. simpl. unfold MAX_KEY. lia. }
  exists m, s0, s1. split.
  - split; [exact Hm|]. split; [exact Hs0|]. split; [exact Hins|].
    apply (insert_exhausted_pool_throws s1 3 2 20 0 Hsize1);
      [unfold MAX_KEY; lia|exact Hreach|exact Hc|exact Hidx].
  - apply (insert_exhausted_pool_throws example_set 5 2 20 1);
      [vm_compute; lia|unfold MAX_KEY; lia|exact example_set_reachable
      |vm_compute; reflexivity|vm_compute; reflexivity|vm_compute; reflexivity
      |apply not_elem_of_nil|apply not_elem_of_nil].
Defined.

(** X10: in the Lock set [insert] of an absent key on behalf of a
    writer that does not exist (negative, or not below the number of
    pools) throws [std::out_of_range] from [preAllocatedNodes.at(id)],
    with the list, the budgets and the store as they were; the exception
    is thrown between [lock] and [unlock], and the mutexes of the two
    nodes of the position, free before the call, stay locked. *)
Theorem insert_unknown_writer_throws (s : DurableSet.t) (fuel : nat)
    (k item id : Z) (held : list Z) (previous current : Z) :
  reachable Lock s →
  (size (DurableSet.heap s) ≤ fuel)%nat →
  k < MAX_KEY →
  DurableSet.contains Lock fuel k s = Ok false s →
  id < 0 ∨ Z.of_nat (length (DurableSet.preAllocatedNodes s)) ≤ id →
  DurableSet.find Lock fuel k s = Ok (previous, current) s →
  previous ∉ held → current ∉ held →
  LockDurableSet.insert fuel k item id
    {| LockDurableSet.set := s; LockDurableSet.held := held |}
  = Throw out_of_range
      {| LockDurableSet.set := s;
         LockDurableSet.held := current :: previous :: held |}.
Proof.
  intros [mid HI]%reachable_Inv Hfuel Hk Hc Hid Hfind Hp Hcur.
  destruct (find_position Lock _ s mid k fuel _ _ HI ltac:(lia) Hfuel Hfind)
    as [-> ->].
  rewrite (Lock_insert_mutexes _ s mid k item id fuel held HI) by (done || lia).
  rewrite (insert_absent Lock _ s mid k item id fuel HI Hk Hfuel)
    by by eapply contains_false_absent.
  unfold DurableSet.allocFromArea, bind, get. simpl.
  destruct Hid as [Hid|Hid]; [by rewrite vec_at_negative|by rewrite vec_at_beyond].
Qed.

Lemma insert_unknown_writer_throws_witness :
  LockDurableSet.insert 5 2 20 2
    {| LockDurableSet.set := example_set; LockDurableSet.held := [] |}
  = Throw out_of_range
      {| LockDurableSet.set := example_set;
         LockDurableSet.held := [128; 192] |}.
Proof.
  apply (insert_unknown_writer_throws example_set 5 2 20 2 [] 192 128
           example_set_reachable);
    [vm_compute; lia|unfold MAX_KEY; lia|vm_compute; reflexivity
    |right; vm_compute; discriminate|vm_compute; reflexivity
    |apply not_elem_of_nil|apply not_elem_of_nil].
Defined.

(** X29: in the Lock set, when the mutexes of the two nodes at which the
    traversal for [k] stops are free, [insert] and [remove] take them and
    do what the statements between [lock] and [unlock] do: on a return
    the result and the set are those of these statements and the two
    mutexes are free again; on an exception the set is as the exception
    left it and the two mutexes are still locked. *)
Theorem Lock_operations_and_mutexes (s : DurableSet.t) (fuel : nat)
    (k item id : Z) (held : list Z) (previous current : Z) :
  reachable Lock s →
  (size (DurableSet.heap s) ≤ fuel)%nat →
  k ≤ MAX_KEY →
  DurableSet.find Lock fuel k s = Ok (previous, current) s →
  previous ∉ held → current ∉ held →
  LockDurableSet.insert fuel k item id
    {| LockDurableSet.set := s; LockDurableSet.held := held |}
  = with_mutexes (DurableSet.insert Lock fuel k item id s)
      previous current held
  ∧ LockDurableSet.remove fuel k
      {| LockDurableSet.set := s; LockDurableSet.held := held |}
    = with_mutexes (DurableSet.remove Lock fuel k s) previous current held.
Proof.
  intros [mid HI]%reachable_Inv Hfuel Hk Hfind Hp Hcur.
  destruct (find_position Lock _ s mid k fuel _ _ HI Hk Hfuel Hfind) as [-> ->].
  split.
  - by apply (Lock_insert_mutexes _ s mid k item id fuel held HI).
  - by apply (Lock_remove_mutexes _ s mid k fuel held HI).
Qed.

Lemma Lock_operations_and_mutexes_witness :
  ∃ s1 s2,
    DurableSet.insert Lock 5 2 20 0 example_fresh = Ok true s1
    ∧ DurableSet.remove Lock 5 3 example_set = Ok true s2
    ∧ LockDurableSet.insert 5 2 20 0
        {| LockDurableSet.set := example_fresh; LockDurableSet.held := [] |}
      = Ok true {| LockDurableSet.set := s1; LockDurableSet.held := [] |}
    ∧ LockDurableSet.remove 5 3
        {| LockDurableSet.set := example_set; LockDurableSet.held := [] |}
      = Ok true {| LockDurableSet.set := s2; LockDurableSet.held := [] |}.
Proof.
  assert (∃ s1, DurableSet.insert Lock 5 2 20 0 example_fresh = Ok true s1)
    as [s1 Hins] by (eexists; vm_compute; reflexivity).
  assert (∃ s2, DurableSet.remove Lock 5 3 example_set = Ok true s2)
    as [s2 Hrem] by (eexists; vm_compute; reflexivity).
  exists s1, s2. split; [exact Hins|]. split; [exact Hrem|].
  split.
  - rewrite (proj1 (Lock_operations_and_mutexes example_fresh 5 2 20 0 [] 256 320
                      example_fresh_reachable ltac:(vm_compute; lia)
                      ltac:(unfold MAX_KEY; lia) ltac:(vm_compute; reflexivity)
                      ltac:(apply not_elem_of_nil) ltac:(apply not_elem_of_nil))).
    by rewrite Hins.
  - rewrite (proj2 (Lock_operations_and_mutexes example_set 5 3 0 0 [] 192 128
                      example_set_reachable ltac:(vm_compute; lia)
                      ltac:(unfold MAX_KEY; lia) ltac:(vm_compute; reflexivity)
                      ltac:(apply not_elem_of_nil) ltac:(apply not_elem_of_nil))).
    by rewrite Hrem.
Defined.

(** X30: in the Lock set, when the mutex of one of the two nodes at
    which the traversal for [k] stops is still locked, as an [insert] or
    [remove] that threw has left it, [insert(k)] and [remove(k)] lock it
    again and have no outcome: neither a return nor an exception. *)
Theorem Lock_held_mutex_blocks (s : DurableSet.t) (fuel : nat)
    (k item id : Z) (held : list Z) (previous current : Z) :
  reachable Lock s →
  (size (DurableSet.heap s) ≤ fuel)%nat →
  k ≤ MAX_KEY →
  DurableSet.find Lock fuel k s = Ok (previous, current) s →
  previous ∈ held ∨ current ∈ held →
  LockDurableSet.insert fuel k item id
    {| LockDurableSet.set := s; LockDurableSet.held := held |}
  = Fault
  ∧ LockDurableSet.remove fuel k
      {| LockDurableSet.set := s; LockDurableSet.held := held |}
    = Fault.
Proof.
  intros [mid HI]%reachable_Inv Hfuel Hk Hfind Hheld.
  destruct (find_position Lock _ s mid k fuel _ _ HI Hk Hfuel Hfind) as [-> ->].
  split.
  - by apply (Lock_insert_held _ s mid k item id fuel held HI).
  - by apply (Lock_remove_held _ s mid k fuel held HI).
Qed.

Lemma Lock_held_mutex_blocks_witness :
  ∃ st,
    LockDurableSet.insert 5 2 20 1
      {| LockDurableSet.set := example_set; LockDurableSet.held := [] |}
    = Throw out_of_range st
    ∧ LockDurableSet.set st = example_set
    ∧ LockDurableSet.held st = [128; 192]
    ∧ LockDurableSet.insert 5 2 20 0 st = Fault
    ∧ LockDurableSet.remove 5 1 st = Fault.
Proof.
  exists {| LockDurableSet.set := example_set; LockDurableSet.held := [128; 192] |}.
  split; [vm_compute; reflexivity|]. split; [reflexivity|]. split; [reflexivity|].
  split.
  - apply (Lock_held_mutex_blocks example_set 5 2 20 0 [128; 192] 192 128
             example_set_reachable);
      [vm_compute; lia|unfold MAX_KEY; lia|vm_compute; reflexivity|].
    left. apply elem_of_cons. right. apply list_elem_of_here.
  - apply (Lock_held_mutex_blocks example_set 5 1 0 0 [128; 192] 256 192
             example_set_reachable);
      [vm_compute; lia|unfold MAX_KEY; lia|vm_compute; reflexivity|].
    right. apply elem_of_cons. right. apply list_elem_of_here.
Defined.
